(** * Partial DOM reconciliation: [mergeNodes], [hideAndRemove], [insertAndReveal]

    A shallow embedding of the merge engine of [src/assets/main.js]
    (lines 115-242) and the properties of it that the specification states.

    The DOM is modelled as the code sees it:
    - every element has an identity (a number); its tag and content
      attributes live in a store indexed by that identity, so that a write to
      one element never disturbs another;
    - the tree structure is a forest of identity-labelled rose trees: the
      live document, the detached fragment holding the new markup, and every
      subtree that was detached and may still be referenced from an array;
    - [dataset.x] is the [data-x] attribute, [classList] is the [class]
      attribute seen as a whitespace-separated token list, [input.disabled]
      is the [disabled] attribute;
    - what depends on layout and on the style sheet ([clientHeight],
      [getComputedStyle], the serialisation of inline style) and the builtin
      [parseFloat] are fields of a [browser] record, over which every theorem
      is quantified;
    - so is what the browser's parsers decide: what a selector text matches
      when a marker key that is not plain (it holds a quote, a backslash or
      a line break) has been spliced into it, or that it is no selector at
      all; which nodes the markup of [innerHTML] is parsed back to; and
      which attribute names [setAttribute] accepts;
    - JavaScript numbers are binary64 floats;
    - [setTimeout] appends to a timer queue with a virtual clock, callbacks
      being the constructors of [task];
    - an exception is the [Throw] outcome of the monad [M]; it keeps the
      state reached so far, as mutations made before a [throw] persist. *)

From Stdlib Require Import String Ascii List ZArith Lia Bool PrimFloat FloatOps.
From stdpp Require Import gmap strings pretty.

Set Warnings "-register-all".
Local Open Scope Z_scope.
Local Open Scope nat_scope.

(** ** Strings, attributes and class tokens *)

Definition str_eqb (a b : string) : bool := String.eqb a b.

Definition opt_str_eqb (a b : option string) : bool :=
  match a, b with
  | Some x, Some y => str_eqb x y
  | None, None => true
  | _, _ => false
  end.

(** JavaScript truthiness of a [dataset] read: [undefined] and the empty
    string are falsy. *)
Definition truthy (o : option string) : bool :=
  match o with
  | Some s => negb (str_eqb s "")
  | None => false
  end.

(** Conversion to string on a [dataset] write. *)
Definition js_to_string (o : option string) : string :=
  match o with
  | Some s => s
  | None => "undefined"
  end.

Definition attr_list := list (string * string).

Fixpoint get_attr (n : string) (l : attr_list) : option string :=
  match l with
  | [] => None
  | (k, v) :: r => if str_eqb k n then Some v else get_attr n r
  end.

(** [setAttribute]: overwrite in place, or append a new attribute. *)
Fixpoint set_attr (n v : string) (l : attr_list) : attr_list :=
  match l with
  | [] => [(n, v)]
  | (k, w) :: r => if str_eqb k n then (k, v) :: r else (k, w) :: set_attr n v r
  end.

Definition attr_names (l : attr_list) : list string := map fst l.

Definition is_ws (c : ascii) : bool :=
  match c with
  | " "%char | "009"%char | "010"%char | "012"%char | "013"%char => true
  | _ => false
  end.

(** Split on ASCII whitespace; [cur] is the token being read. *)
Fixpoint tokens_go (cur : string) (s : string) : list string :=
  match s with
  | EmptyString => if str_eqb cur "" then [] else [cur]
  | String c r =>
      if is_ws c
      then (if str_eqb cur "" then tokens_go "" r else cur :: tokens_go "" r)
      else tokens_go (cur +:+ String c "") r
  end.

(** The ordered set of a token list: each token once, at its first place. *)
Fixpoint ordered_set (l : list string) : list string :=
  match l with
  | [] => []
  | t :: r => t :: List.filter (fun u => negb (str_eqb t u)) (ordered_set r)
  end.

Definition class_tokens (v : string) : list string :=
  ordered_set (tokens_go "" v).

Fixpoint join_tokens (l : list string) : string :=
  match l with
  | [] => ""
  | [t] => t
  | t :: r => t +:+ " " +:+ join_tokens r
  end.

Definition has_token (c : string) (l : list string) : bool :=
  existsb (str_eqb c) l.

(** [classList.add(c)] on the value of the [class] attribute. *)
Definition class_add (c : string) (v : string) : string :=
  let ts := class_tokens v in
  join_tokens (if has_token c ts then ts else ts ++ [c]).

(** [classList.remove(c)]. *)
Definition class_remove (c : string) (v : string) : string :=
  join_tokens (List.filter (fun t => negb (str_eqb c t)) (class_tokens v)).

(** The characters that do not stand for themselves between the double
    quotes of a CSS string: the quote ends the string, the backslash starts
    an escape, a line break (line feed, form feed, carriage return) makes
    the string a bad one, and NUL is replaced before the text is read. *)
Definition css_special (c : ascii) : bool :=
  match c with
  | "034"%char | "092"%char | "010"%char | "012"%char | "013"%char | "000"%char => true
  | _ => false
  end.

(** A key that can be spliced between double quotes as it is. *)
Fixpoint css_plain (key : string) : bool :=
  match key with
  | EmptyString => true
  | String c r => negb (css_special c) && css_plain r
  end.

Definition attrs_have_class (c : string) (l : attr_list) : bool :=
  match get_attr "class" l with
  | Some v => has_token c (class_tokens v)
  | None => false
  end.

(** ** Elements, trees and the forest *)

Record elem := Elem { tag : string; attrs : attr_list }.

Inductive tree :=
| Txt (s : string)
| El (i : nat) (kids : list tree).

Definition is_el (x : nat) (t : tree) : bool :=
  match t with
  | El i _ => Nat.eqb i x
  | Txt _ => false
  end.

Definition tree_kids (t : tree) : list tree :=
  match t with
  | El _ ks => ks
  | Txt _ => []
  end.

Fixpoint first_some {A B} (f : A -> option B) (l : list A) : option B :=
  match l with
  | [] => None
  | a :: r => match f a with Some b => Some b | None => first_some f r end
  end.

(** Identities of a subtree, in document order. *)
Fixpoint ids (t : tree) : list nat :=
  match t with
  | Txt _ => []
  | El i ks => i :: List.flat_map ids ks
  end.

Definition forest_ids (f : list tree) : list nat := List.flat_map ids f.

(** The subtree rooted at the first node (document order) labelled [x]. *)
Fixpoint find_in (x : nat) (t : tree) : option tree :=
  match t with
  | Txt _ => None
  | El i ks => if Nat.eqb i x then Some t else first_some (find_in x) ks
  end.

Definition find_node (x : nat) (f : list tree) : option tree :=
  first_some (find_in x) f.

Fixpoint parent_kids (i x : nat) (rec : tree -> option nat) (ks : list tree)
  : option nat :=
  match ks with
  | [] => None
  | k :: r =>
      if is_el x k then Some i
      else match rec k with
           | Some p => Some p
           | None => parent_kids i x rec r
           end
  end.

(** [parentNode]: roots of the forest have none. *)
Fixpoint parent_in (x : nat) (t : tree) : option nat :=
  match t with
  | Txt _ => None
  | El i ks => parent_kids i x (parent_in x) ks
  end.

Definition parent_of (x : nat) (f : list tree) : option nat :=
  first_some (parent_in x) f.

Fixpoint rw_list (rec : tree -> option (list tree)) (l : list tree)
  : option (list tree) :=
  match l with
  | [] => None
  | k :: r =>
      match rec k with
      | Some ks => Some (ks ++ r)
      | None => option_map (cons k) (rw_list rec r)
      end
  end.

(** Replace the first node labelled [x] by the trees [g node]; [None] when
    [x] does not occur. *)
Fixpoint rw_tree (x : nat) (g : tree -> list tree) (t : tree)
  : option (list tree) :=
  match t with
  | Txt _ => None
  | El i ks =>
      if Nat.eqb i x then Some (g t)
      else option_map (fun ks' => [El i ks']) (rw_list (rw_tree x g) ks)
  end.

Definition rewrite_first (x : nat) (g : tree -> list tree) (f : list tree)
  : list tree :=
  match rw_list (rw_tree x g) f with
  | Some f' => f'
  | None => f
  end.

Definition remove_node (x : nat) (f : list tree) : list tree :=
  rewrite_first x (fun _ => []) f.

Definition modify_kids (x : nat) (h : list tree -> list tree) (f : list tree)
  : list tree :=
  rewrite_first x (fun t => [El x (h (tree_kids t))]) f.

(** Change the children of [x]; an element that is in no tree yet (it is
    childless and parentless) becomes a new root. *)
Definition set_kids (x : nat) (h : list tree -> list tree) (f : list tree)
  : list tree :=
  match find_node x f with
  | Some _ => modify_kids x h f
  | None => f ++ [El x (h [])]
  end.

(** Insert [n] immediately before the child labelled [t]. *)
Fixpoint insert_before_kid (t : nat) (n : tree) (ks : list tree) : list tree :=
  match ks with
  | [] => [n]
  | k :: r => if is_el t k then n :: k :: r else k :: insert_before_kid t n r
  end.

(** Element descendants of [x] in document order ([x] itself excluded). *)
Definition descendants (x : nat) (f : list tree) : list nat :=
  match find_node x f with
  | Some t => List.flat_map ids (tree_kids t)
  | None => []
  end.

(** [a.contains(b)]: [a] is an inclusive ancestor of [b]. *)
Definition contains (a b : nat) (f : list tree) : bool :=
  Nat.eqb a b || existsb (Nat.eqb b) (descendants a f).

Definition first_element_child (x : nat) (f : list tree) : option nat :=
  match find_node x f with
  | Some t => first_some (fun k => match k with El i _ => Some i | Txt _ => None end)
                (tree_kids t)
  | None => None
  end.

Fixpoint map_acc {A B S} (f : A -> S -> B * S) (l : list A) (s : S)
  : list B * S :=
  match l with
  | [] => ([], s)
  | a :: r =>
      let '(b, s1) := f a s in
      let '(bs, s2) := map_acc f r s1 in
      (b :: bs, s2)
  end.

(** Markup of a subtree: the tree with identities forgotten. *)
Inductive markup :=
| MText (s : string)
| MElem (e : option elem) (kids : list markup).

Fixpoint erase (E : gmap nat elem) (t : tree) : markup :=
  match t with
  | Txt s => MText s
  | El i ks => MElem (E !! i) (map (erase E) ks)
  end.

(** The nodes that the parser creates for the markup [m]: new elements, one
    per element of the markup. The accumulator is the store being extended
    and the next free identity. *)
Fixpoint build (m : markup) (acc : gmap nat elem * nat)
  : tree * (gmap nat elem * nat) :=
  match m with
  | MText s => (Txt s, acc)
  | MElem e ks =>
      let '(E, n) := acc in
      let E1 := match e with Some e => <[n := e]> E | None => E end in
      let '(ks', acc') := map_acc build ks (E1, S n) in
      (El n ks', acc')
  end.

(** ** Timers and the state of the page *)

(** The callbacks handed to [setTimeout], with the variables they close
    over. *)
Inductive task :=
| RemoveFade (wrapper : nat) (fadeDuration slideDuration : float)
| RemoveSlide (wrapper : nat) (slideDuration : float)
| RemoveDetach (wrapper : nat)
| AddSlide (el : nat) (fadeDuration slideDuration : float)
| AddFade (el : nat) (fadeDuration : float)
| AddTidy (el : nat).

Record state := State {
  roots : list tree;            (* live document, fragment, detached subtrees *)
  elems : gmap nat elem;        (* tag and attributes of every element *)
  next : nat;                   (* next unused identity *)
  now : nat;                    (* virtual clock, ms *)
  timers : list (nat * task);   (* pending timers: due time, callback *)
  reloads : nat                 (* calls of window.location.reload() *)
}.

Definition with_roots (f : list tree) (st : state) : state :=
  State f (elems st) (next st) (now st) (timers st) (reloads st).

Definition with_elems (E : gmap nat elem) (st : state) : state :=
  State (roots st) E (next st) (now st) (timers st) (reloads st).

(** What the model takes from the browser without computing it. *)
Record browser := Browser {
  client_height : state -> nat -> N;              (* el.clientHeight *)
  computed_prop : state -> nat -> string -> string;
                               (* getComputedStyle(el).getPropertyValue(p) *)
  parse_float : string -> float;                  (* parseFloat *)
  style_with : string -> string -> string -> string;
                 (* the style attribute after el.style[prop] = value *)
  spliced_query : state -> nat -> string -> string -> option (option nat);
                 (* container.querySelector of the text [a="key"] for a key
                    that holds a character special in a quoted CSS string:
                    [None] when the text is no selector (SyntaxError), else
                    the first match of the selector that the text is *)
  reparsed : state -> nat -> nat -> list markup;
                 (* the markup of the nodes that target.innerHTML =
                    src.innerHTML creates: the children of src serialised,
                    and the text parsed in the context of target *)
  valid_name : string -> bool
                 (* whether setAttribute accepts the attribute name; it
                    raises InvalidCharacterError otherwise *)
}.

(** ** Exceptions and state *)

Inductive result (A : Type) :=
| Ok (a : A) (s : state)
| Throw (s : state).
Arguments Ok {A} a s.
Arguments Throw {A} s.

Definition M (A : Type) : Type := state -> result A.

Definition ret {A} (a : A) : M A := fun st => Ok a st.

Definition bind {A B} (m : M A) (k : A -> M B) : M B :=
  fun st => match m st with
            | Ok a st' => k a st'
            | Throw st' => Throw st'
            end.

Definition throw {A} : M A := fun st => Throw st.
Definition gets {A} (f : state -> A) : M A := fun st => Ok (f st) st.
Definition modify (f : state -> state) : M unit := fun st => Ok tt (f st).

Notation "'let*' x ':=' m 'in' k" := (bind m (fun x => k))
  (at level 10, x pattern, m at level 100, k at level 200).
Notation "m ';;' k" := (bind m (fun _ => k))
  (at level 100, k at level 200, right associativity).

(** [Array.prototype.forEach] / [NodeList.forEach] over a static list. *)
Fixpoint forEach {A} (f : A -> M unit) (l : list A) : M unit :=
  match l with
  | [] => ret tt
  | a :: r => f a ;; forEach f r
  end.

Definition result_state {A} (r : result A) : state :=
  match r with
  | Ok _ s => s
  | Throw s => s
  end.

Definition is_ok {A} (r : result A) : bool :=
  match r with
  | Ok _ _ => true
  | Throw _ => false
  end.

(** ** The DOM interface the engine uses *)

Definition attrs_of (st : state) (i : nat) : attr_list :=
  match elems st !! i with
  | Some e => attrs e
  | None => []
  end.

Definition tag_of (st : state) (i : nat) : string :=
  match elems st !! i with
  | Some e => tag e
  | None => ""
  end.

Definition getAttribute (st : state) (i : nat) (n : string) : option string :=
  get_attr n (attrs_of st i).

Definition getAttributeNames (st : state) (i : nat) : list string :=
  attr_names (attrs_of st i).

Definition set_elem_attr (i : nat) (n v : string) (st : state) : state :=
  with_elems (alter (fun e => Elem (tag e) (set_attr n v (attrs e))) i (elems st)) st.

(** [el.setAttribute(n, v)] for a name that the DOM accepts, as every name
    is that the source writes as a literal; a name that the source takes
    from the markup goes through [setAttribute_of_markup]. *)
Definition setAttribute (i : nat) (n v : string) : M unit :=
  modify (set_elem_attr i n v).

Definition has_class (st : state) (i : nat) (c : string) : bool :=
  attrs_have_class c (attrs_of st i).

(** The selectors that occur in the source. In [SelAttrEq a v] the value is
    compared as a string, which is what the selector text [a="v"] means
    when [v] is [css_plain]; the look-ups that splice a key of the markup
    into the text go through [query_by_key]. *)
Inductive selector :=
| SelAttr (a : string)               (* [a] *)
| SelAttrEq (a v : string)           (* [a="v"] *)
| SelAttrNotClass (a c : string)     (* [a]:not(.c) *)
| SelTag (t : string).               (* t *)

Definition sel_matches (st : state) (s : selector) (i : nat) : bool :=
  match elems st !! i with
  | None => false
  | Some e =>
      match s with
      | SelAttr a => bool_decide (is_Some (get_attr a (attrs e)))
      | SelAttrEq a v => opt_str_eqb (get_attr a (attrs e)) (Some v)
      | SelAttrNotClass a c =>
          bool_decide (is_Some (get_attr a (attrs e)))
          && negb (attrs_have_class c (attrs e))
      | SelTag t => str_eqb (tag e) t
      end
  end.

Definition querySelectorAll (root : nat) (s : selector) (st : state) : list nat :=
  List.filter (sel_matches st s) (descendants root (roots st)).

Definition querySelector (root : nat) (s : selector) (st : state) : option nat :=
  head (querySelectorAll root s st).

Definition parentNode (x : nat) (st : state) : option nat :=
  parent_of x (roots st).

Definition firstElementChild (x : nat) (st : state) : option nat :=
  first_element_child x (roots st).

Definition kids_of (x : nat) (st : state) : list tree :=
  match find_node x (roots st) with
  | Some t => tree_kids t
  | None => []
  end.

(** The subtree of [x]; an element that is in no tree is a childless,
    parentless node. *)
Definition subtree (x : nat) (st : state) : tree :=
  match find_node x (roots st) with
  | Some t => t
  | None => El x []
  end.

(** [document.createElement]: a new element, in no tree yet. *)
Definition createElement (t : string) : M nat :=
  fun st => Ok (next st)
    (State (roots st) (<[next st := Elem t []]> (elems st)) (S (next st))
           (now st) (timers st) (reloads st)).

(** [target.innerHTML = src.innerHTML]: the children of [src] are
    serialised and the text is parsed again, in the context of [target]; the
    nodes that the parser creates replace the children of [target], which
    are detached. The markup of the new nodes is the browser's [reparsed]:
    serialising and parsing is not the identity on markup (the line break
    that begins a [textarea] or a [pre] is dropped, a [form] inside a
    [form] is, and what the text means depends on the element it is parsed
    in). *)
Definition set_innerHTML_from (B : browser) (target src : nat) : M unit :=
  modify (fun st =>
    let old := kids_of target st in
    let '(nodes, (E, n)) :=
      map_acc build (reparsed B st target src) (elems st, next st) in
    State (set_kids target (fun _ => nodes) (roots st) ++ old) E n
          (now st) (timers st) (reloads st)).

Inductive where_ := BeforeBegin | AfterBegin | BeforeEnd.

(** [target.insertAdjacentElement(pos, el)]. The node is moved: it leaves
    its former parent. Inserting a node into its own subtree raises
    HierarchyRequestError; [beforebegin] on a parentless target does
    nothing. *)
Definition insertAdjacentElement (target : nat) (pos : where_) (el : nat) : M unit :=
  fun st =>
    let sub := subtree el st in
    match pos with
    | BeforeBegin =>
        match parent_of target (roots st) with
        | None => Ok tt st
        | Some p =>
            if contains el p (roots st) then Throw st
            else if Nat.eqb el target then Ok tt st
            else Ok tt (with_roots
                   (set_kids p (insert_before_kid target sub)
                      (remove_node el (roots st))) st)
        end
    | AfterBegin =>
        if contains el target (roots st) then Throw st
        else Ok tt (with_roots
               (set_kids target (cons sub) (remove_node el (roots st))) st)
    | BeforeEnd =>
        if contains el target (roots st) then Throw st
        else Ok tt (with_roots
               (set_kids target (fun ks => ks ++ [sub])
                  (remove_node el (roots st))) st)
    end.

(** [parent.insertBefore(wrapper, el); wrapper.appendChild(el)] for a
    wrapper that is in no tree: the wrapper takes the place of [el] among
    the children of its parent and [el] becomes the wrapper's only child. *)
Definition wrap_in (wrapper el : nat) : M unit :=
  modify (fun st =>
    with_roots (rewrite_first el (fun t => [El wrapper [t]]) (roots st)) st).

(** [el.remove()]: the subtree is detached and stays reachable by
    identity. *)
Definition remove_el (el : nat) : M unit :=
  modify (fun st =>
    match parent_of el (roots st) with
    | None => st
    | Some _ => with_roots (remove_node el (roots st) ++ [subtree el st]) st
    end).

Definition class_attr (st : state) (i : nat) : string :=
  default "" (getAttribute st i "class").

Definition classList_add (i : nat) (c : string) : M unit :=
  modify (fun st => set_elem_attr i "class" (class_add c (class_attr st i)) st).

(** [el.classList.remove(...cs)]: an element without [class] attribute
    gets none; otherwise the attribute is written, with the tokens that are
    left. *)
Definition classList_remove (i : nat) (cs : list string) : M unit :=
  modify (fun st =>
    match getAttribute st i "class" with
    | Some v =>
        set_elem_attr i "class" (fold_left (fun v c => class_remove c v) cs v) st
    | None => st
    end).

Definition px (h : N) : string := pretty h +:+ "px".

(** Delay of a timer: the argument is converted to a 32-bit integer (NaN
    and the infinities give 0) and negative delays count as 0. *)
Definition trunc_Z (f : float) : Z :=
  match Prim2SF f with
  | SpecFloat.S754_finite s m e =>
      let v := if (0 <=? e)%Z then (Z.pos m * 2 ^ e)%Z
               else (Z.pos m / 2 ^ (- e))%Z in
      if s then (- v)%Z else v
  | _ => 0%Z
  end.

Definition to_int32 (z : Z) : Z :=
  let r := (z mod 2 ^ 32)%Z in
  if (r <? 2 ^ 31)%Z then r else (r - 2 ^ 32)%Z.

Definition timer_delay (f : float) : nat :=
  Z.to_nat (Z.max 0 (to_int32 (trunc_Z f))).

Definition setTimeout (t : task) (delay : float) : M unit :=
  modify (fun st =>
    State (roots st) (elems st) (next st) (now st)
          (timers st ++ [(now st + timer_delay delay, t)]) (reloads st)).

(** [delay || 10]: 0 and NaN are falsy. *)
Definition js_or (a b : float) : float :=
  if PrimFloat.is_nan a || PrimFloat.is_zero a then b else a.

Definition reload (st : state) : state :=
  State (roots st) (elems st) (next st) (now st) (timers st) (S (reloads st)).

(** ** The engine (src/assets/main.js, lines 115-242) *)

Section Engine.

Variable B : browser.

Definition style_set (i : nat) (prop v : string) : M unit :=
  modify (fun st =>
    set_elem_attr i "style"
      (style_with B (default "" (getAttribute st i "style")) prop v) st).

(** [parseFloat(getComputedStyle(el).getPropertyValue(p)) * 1000] *)
Definition duration_ms (el : nat) (p : string) (st : state) : float :=
  (parse_float B (computed_prop B st el p) * 1000)%float.

(** theme.hideAndRemove, lines 115-140 *)
Definition hideAndRemove (el : nat) : M unit :=
  (* disable *)
  let* inputs := gets (querySelectorAll el (SelTag "input")) in
  forEach (fun input => setAttribute input "disabled" "") inputs ;;
  (* wrap *)
  let* wrapper := createElement "div" in
  setAttribute wrapper "class" "merge-remove-wrapper" ;;
  let* parent := gets (parentNode el) in
  match parent with
  | None => throw
  | Some _ =>
      wrap_in wrapper el ;;
      classList_add el "merge-remove-item" ;;
      let* h := gets (fun st => client_height B st wrapper) in
      style_set wrapper "height" (px h) ;;
      let* fadeDuration := gets (duration_ms el "--fade-duration") in
      let* slideDuration := gets (duration_ms el "--slide-duration") in
      setTimeout (RemoveFade wrapper fadeDuration slideDuration) 10%float
  end.

(** theme.insertAndReveal, lines 142-165. [target] is [None] when the
    caller passes [undefined]. *)
Definition insertAndReveal (el : nat) (target : option nat) (iaeCmd : where_)
    (delay : float) : M unit :=
  let initialDelay := js_or delay 10%float in
  classList_add el "merge-add-wrapper" ;;
  match target with
  | None => throw
  | Some target =>
      insertAdjacentElement target iaeCmd el ;;
      let* child := gets (firstElementChild el) in
      match child with
      | None => throw
      | Some child =>
          let* h := gets (fun st => client_height B st child) in
          style_set el "height" (px h) ;;
          let* fadeDuration := gets (duration_ms el "--fade-duration") in
          let* slideDuration := gets (duration_ms el "--slide-duration") in
          setTimeout (AddSlide el fadeDuration slideDuration) initialDelay
      end
  end.

(** The bodies of the timer callbacks. *)
Definition run_task (t : task) : M unit :=
  match t with
  | RemoveFade wrapper fadeDuration slideDuration =>
      classList_add wrapper "merge-remove-wrapper--fade" ;;
      setTimeout (RemoveSlide wrapper slideDuration) fadeDuration
  | RemoveSlide wrapper slideDuration =>
      classList_add wrapper "merge-remove-wrapper--slide" ;;
      setTimeout (RemoveDetach wrapper) slideDuration
  | RemoveDetach wrapper => remove_el wrapper
  | AddSlide el fadeDuration slideDuration =>
      classList_add el "merge-add-wrapper--slide" ;;
      setTimeout (AddFade el fadeDuration) slideDuration
  | AddFade el fadeDuration =>
      classList_add el "merge-add-wrapper--fade" ;;
      setTimeout (AddTidy el) fadeDuration
  | AddTidy el =>
      (* tidy up *)
      style_set el "height" "" ;;
      classList_remove el
        ["merge-add-wrapper"; "merge-add-wrapper--slide"; "merge-add-wrapper--fade"]
  end.

(** [container.querySelector(`[a="${key}"]`)], lines 171, 183 and 192: the
    key is spliced into the selector text as it is. For a plain key the
    text is the selector [a="key"]; for any other key it is whatever the
    browser reads it as, often no selector at all (SyntaxError). *)
Definition query_by_key (container : nat) (a key : string) : M (option nat) :=
  fun st =>
    if css_plain key then Ok (querySelector container (SelAttrEq a key) st) st
    else match spliced_query B st container a key with
         | Some found => Ok found st
         | None => Throw st
         end.

(** [el.setAttribute(n, v)] for a name read from the markup: the parser
    accepts names that [setAttribute] refuses. *)
Definition setAttribute_of_markup (i : nat) (n v : string) : M unit :=
  if valid_name B n then setAttribute i n v else throw.

(** The cache-token test of lines 172-174 and 214-216. *)
Definition needs_replace (newCache targetCache : option string) : bool :=
  negb (truthy newCache)
  || negb (truthy targetCache)
  || negb (opt_str_eqb newCache targetCache).

(** merge: replace content if changed, lines 170-180 *)
Definition merge_content (targetContainer newEl : nat) : M unit :=
  let* key := gets (fun st => getAttribute st newEl "data-merge") in
  let* targetEl := query_by_key targetContainer "data-merge" (js_to_string key) in
  match targetEl with
  | None => throw
  | Some targetEl =>
      let* newCache := gets (fun st => getAttribute st newEl "data-merge-cache") in
      let* targetCache := gets (fun st => getAttribute st targetEl "data-merge-cache") in
      if needs_replace newCache targetCache then
        set_innerHTML_from B targetEl newEl ;;
        if truthy newCache || truthy targetCache
        then setAttribute targetEl "data-merge-cache" (js_to_string newCache)
        else ret tt
      else ret tt
  end.

(** merge: attributes only, lines 182-189 *)
Definition merge_attributes (targetContainer newEl : nat) : M unit :=
  let* key := gets (fun st => getAttribute st newEl "data-merge-attributes") in
  let* targetEl :=
    query_by_key targetContainer "data-merge-attributes" (js_to_string key) in
  let* newElAttributeNames := gets (fun st => getAttributeNames st newEl) in
  forEach (fun attributeName =>
      match targetEl with
      | None => throw
      | Some targetEl =>
          let* v := gets (fun st => getAttribute st newEl attributeName) in
          setAttribute_of_markup targetEl attributeName (default "null" v)
      end) newElAttributeNames.

(** [items.find(item => item.dataset.mergeListItem === x.dataset.mergeListItem)] *)
Definition find_by_key (x : nat) (items : list nat) (st : state) : option nat :=
  List.find (fun item =>
      opt_str_eqb (getAttribute st item "data-merge-list-item")
                  (getAttribute st x "data-merge-list-item")) items.

(** [a.splice(i, 0, x)] *)
Definition splice {A} (i : nat) (x : A) (l : list A) : list A :=
  take i l ++ x :: drop i l.

(** One turn of the loop of lines 208-237; the result is the tracked
    array [targetListItems] after the turn. *)
Definition list_step (targetList : nat) (i : nat) (newListItem : nat)
    (targetListItems : list nat) : M (list nat) :=
  let* matchedItem := gets (find_by_key newListItem targetListItems) in
  match matchedItem with
  | Some matchedItem =>
      (* replace if changed *)
      let* newCache := gets (fun st => getAttribute st newListItem "data-merge-cache") in
      let* oldCache := gets (fun st => getAttribute st matchedItem "data-merge-cache") in
      (if needs_replace newCache oldCache then
         set_innerHTML_from B matchedItem newListItem ;;
         if truthy newCache
         then setAttribute matchedItem "data-merge-cache" (js_to_string newCache)
         else ret tt
       else ret tt) ;;
      ret targetListItems
  | None =>
      (* add *)
      (if Nat.eqb i 0 then
         (* first place *)
         insertAndReveal newListItem (Some targetList) AfterBegin 500%float
       else if length targetListItems <=? i then
         (* at end *)
         insertAndReveal newListItem (Some targetList) BeforeEnd 500%float
       else
         (* before element currently at that index *)
         insertAndReveal newListItem (targetListItems !! i) BeforeBegin 500%float) ;;
      (* update target list *)
      ret (splice i newListItem targetListItems)
  end.

Fixpoint list_loop (targetList : nat) (newListItems : list nat) (i : nat)
    (targetListItems : list nat) : M (list nat) :=
  match newListItems with
  | [] => ret targetListItems
  | newListItem :: rest =>
      let* targetListItems' := list_step targetList i newListItem targetListItems in
      list_loop targetList rest (S i) targetListItems'
  end.

(** remove, lines 196-203 *)
Definition remove_step (newListItems : list nat) (targetListItem : nat) : M unit :=
  let* matchedItem := gets (find_by_key targetListItem newListItems) in
  match matchedItem with
  | None => hideAndRemove targetListItem
  | Some _ => ret tt
  end.

(** merge: insert/remove/replace in list, lines 191-238 *)
Definition merge_list (targetContainer newList : nat) : M unit :=
  let* key := gets (fun st => getAttribute st newList "data-merge-list") in
  let* targetList :=
    query_by_key targetContainer "data-merge-list" (js_to_string key) in
  match targetList with
  | None => throw
  | Some targetList =>
      let* targetListItems :=
        gets (querySelectorAll targetList (SelAttr "data-merge-list-item")) in
      let* newListItems :=
        gets (querySelectorAll newList (SelAttr "data-merge-list-item")) in
      forEach (remove_step newListItems) targetListItems ;;
      (* rebuild target list excluding removed items *)
      let* targetListItems :=
        gets (querySelectorAll targetList
                (SelAttrNotClass "data-merge-list-item" "merge-remove-item")) in
      let* _ := list_loop targetList newListItems 0 targetListItems in
      ret tt
  end.

(** The [try] block of theme.mergeNodes. *)
Definition merge_body (newContent targetContainer : nat) : M unit :=
  let* contentEls := gets (querySelectorAll newContent (SelAttr "data-merge")) in
  forEach (merge_content targetContainer) contentEls ;;
  let* attrEls := gets (querySelectorAll newContent (SelAttr "data-merge-attributes")) in
  forEach (merge_attributes targetContainer) attrEls ;;
  let* lists := gets (querySelectorAll newContent (SelAttr "data-merge-list")) in
  forEach (merge_list targetContainer) lists.

(** theme.mergeNodes, lines 167-242: [try { ... } catch (ex) {
    window.location.reload(); }] *)
Definition mergeNodes (newContent targetContainer : nat) (st : state) : state :=
  match merge_body newContent targetContainer st with
  | Ok _ st' => st'
  | Throw st' => reload st'
  end.

(** ** The timer queue *)

Fixpoint earliest (l : list (nat * task)) : option (nat * task) :=
  match l with
  | [] => None
  | t :: r =>
      match earliest r with
      | Some t' => if fst t' <? fst t then Some t' else Some t
      | None => Some t
      end
  end.

Fixpoint drop_timer (d : nat) (l : list (nat * task)) : list (nat * task) :=
  match l with
  | [] => []
  | t :: r => if Nat.eqb (fst t) d then r else t :: drop_timer d r
  end.

(** Run the pending timer that is due first (the older one among equals);
    [None] when no timer is pending. *)
Definition fire (st : state) : option (task * state) :=
  match earliest (timers st) with
  | None => None
  | Some (due, t) =>
      let st1 := State (roots st) (elems st) (next st) (Nat.max (now st) due)
                       (drop_timer due (timers st)) (reloads st) in
      Some (t, result_state (run_task t st1))
  end.

End Engine.

(** ** Building pages *)

(** Markup with chosen identities, for writing down concrete pages. *)
Inductive node :=
| NText (s : string)
| NElem (i : nat) (t : string) (a : attr_list) (kids : list node).

Fixpoint node_tree (n : node) : tree :=
  match n with
  | NText s => Txt s
  | NElem i _ _ ks => El i (map node_tree ks)
  end.

Fixpoint node_elems (n : node) (E : gmap nat elem) : gmap nat elem :=
  match n with
  | NText _ => E
  | NElem i t a ks => fold_right node_elems (<[i := Elem t a]> E) ks
  end.

(** The page whose trees are [ns]; [n] must exceed every identity used. *)
Definition page (ns : list node) (n : nat) : state :=
  State (map node_tree ns) (fold_right node_elems ∅ ns) n 0 [] 0.

(** ** Auxiliary definitions for the proofs *)

(** Induction on trees, with the hypothesis for every child. *)
Section TreeInd.
Variable P : tree -> Prop.
Hypothesis HT : forall s, P (Txt s).
Hypothesis HE : forall i ks, Forall P ks -> P (El i ks).

Fixpoint tree_ind2 (t : tree) : P t :=
  match t with
  | Txt s => HT s
  | El i ks =>
      HE i ks
        ((fix go (l : list tree) : Forall P l :=
            match l with
            | [] => List.Forall_nil P
            | k :: r => List.Forall_cons P k r (tree_ind2 k) (go r)
            end) ks)
  end.
End TreeInd.

(** Induction on markup, likewise. *)
Section MarkupInd.
Variable P : markup -> Prop.
Hypothesis HT : forall s, P (MText s).
Hypothesis HE : forall e ms, Forall P ms -> P (MElem e ms).

Fixpoint markup_ind2 (m : markup) : P m :=
  match m with
  | MText s => HT s
  | MElem e ms =>
      HE e ms
        ((fix go (l : list markup) : Forall P l :=
            match l with
            | [] => List.Forall_nil P
            | k :: r => List.Forall_cons P k r (markup_ind2 k) (go r)
            end) ms)
  end.
End MarkupInd.

Definition keeps_reloads {A} (m : M A) : Prop :=
  forall st, reloads (result_state (m st)) = reloads st.

(** The state in which a call returns whose [try] block ended in [r]: an
    exception is caught and the page reloaded. *)
Definition settle (r : result unit) : state :=
  match r with
  | Ok _ s => s
  | Throw s => reload s
  end.

(** What is left of the [try] block of [mergeNodes]: from the lists on,
    from the attribute markers on, and inside a pass when the nodes [post]
    are still to be merged. *)
Definition lists_onwards (B : browser) (nc tc : nat) : M unit :=
  let* lists := gets (querySelectorAll nc (SelAttr "data-merge-list")) in
  forEach (merge_list B tc) lists.

Definition attributes_onwards (B : browser) (nc tc : nat) : M unit :=
  let* attrEls := gets (querySelectorAll nc (SelAttr "data-merge-attributes")) in
  forEach (merge_attributes B tc) attrEls ;;
  lists_onwards B nc tc.

Definition rest_of_contents (B : browser) (nc tc : nat) (post : list nat) : M unit :=
  forEach (merge_content B tc) post ;;
  attributes_onwards B nc tc.

Definition rest_of_attributes (B : browser) (nc tc : nat) (post : list nat) : M unit :=
  forEach (merge_attributes B tc) post ;;
  lists_onwards B nc tc.

(** The three kinds of marker that a fragment carries, the attribute of
    each, and the turn that the merge takes for a node so marked. *)
Inductive marker := ContentMarker | AttributeMarker | ListMarker.

Definition marker_attr (k : marker) : string :=
  match k with
  | ContentMarker => "data-merge"
  | AttributeMarker => "data-merge-attributes"
  | ListMarker => "data-merge-list"
  end.

Definition merge_marked (B : browser) (tc : nat) (k : marker) : nat -> M unit :=
  match k with
  | ContentMarker => merge_content B tc
  | AttributeMarker => merge_attributes B tc
  | ListMarker => merge_list B tc
  end.

(** The pass over the markers of kind [k] starts in the state [s0]: the
    passes before it have completed. *)
Definition pass_starts (B : browser) (nc tc : nat) (st : state) (k : marker)
    (s0 : state) : Prop :=
  match k with
  | ContentMarker => s0 = st
  | AttributeMarker =>
      forEach (merge_content B tc) (querySelectorAll nc (SelAttr "data-merge") st) st
      = Ok tt s0
  | ListMarker =>
      exists s1,
        forEach (merge_content B tc) (querySelectorAll nc (SelAttr "data-merge") st) st
        = Ok tt s1
        /\ forEach (merge_attributes B tc)
             (querySelectorAll nc (SelAttr "data-merge-attributes") s1) s1
           = Ok tt s0
  end.

(** The merge reaches the node [newEl], marked [k], in the state [s], and
    the look-up of its live counterpart gives no element: it returns
    [null], or the selector text is no selector. *)
Definition lacks_counterpart (B : browser) (nc tc : nat) (st : state) (k : marker)
    (newEl : nat) (s : state) : Prop :=
  exists s0 pre post,
    pass_starts B nc tc st k s0
    /\ querySelectorAll nc (SelAttr (marker_attr k)) s0 = pre ++ newEl :: post
    /\ forEach (merge_marked B tc k) pre s0 = Ok tt s
    /\ forall t,
         query_by_key B tc (marker_attr k)
           (js_to_string (getAttribute s newEl (marker_attr k))) s
         <> Ok (Some t) s.


(** Well-formed pages: every identity labels one node, and identities in
    use are below [next]. *)
Definition wf (st : state) : Prop :=
  NoDup (forest_ids (roots st))
  /\ (forall i, In i (forest_ids (roots st)) -> i < next st)
  /\ (forall i, is_Some (elems st !! i) -> i < next st).

Definition wfb (st : state) : bool :=
  bool_decide (NoDup (forest_ids (roots st)))
  && forallb (fun i => i <? next st) (forest_ids (roots st))
  && forallb (fun p => fst p <? next st) (map_to_list (elems st)).

(** A class token: not empty and free of whitespace. *)
Fixpoint no_ws (s : string) : bool :=
  match s with
  | EmptyString => true
  | String c r => negb (is_ws c) && no_ws r
  end.

Definition tok_ok (s : string) : Prop := s <> "" /\ no_ws s = true.

(** The state in which [hideAndRemove] returns when [el] has a parent. *)
Definition disable_all (inputs : list nat) (st : state) : state :=
  fold_left (fun s i => set_elem_attr i "disabled" "" s) inputs st.

Definition hidden_state (B : browser) (el : nat) (st : state) : state :=
  let s1 := disable_all (querySelectorAll el (SelTag "input") st) st in
  let w := next s1 in
  let s2 := State (roots s1) (<[w := Elem "div" []]> (elems s1)) (S w)
                  (now s1) (timers s1) (reloads s1) in
  let s3 := set_elem_attr w "class" "merge-remove-wrapper" s2 in
  let s4 := with_roots (rewrite_first el (fun t => [El w [t]]) (roots s3)) s3 in
  let s5 := set_elem_attr el "class"
              (class_add "merge-remove-item" (class_attr s4 el)) s4 in
  let s6 := set_elem_attr w "style"
              (style_with B (default "" (getAttribute s5 w "style")) "height"
                 (px (client_height B s5 w))) s5 in
  State (roots s6) (elems s6) (next s6) (now s6)
        (timers s6 ++ [(now s6 + 10,
                        RemoveFade w (duration_ms B el "--fade-duration" s6)
                                     (duration_ms B el "--slide-duration" s6))])
        (reloads s6).

Definition store_lt (st : state) : Prop :=
  forall i, is_Some (elems st !! i) -> i < next st.

(** An item in animated detachment: marked, wrapped in a sizing shim that
    is still in the tree, with the first phase of the detach sequence
    pending. *)
Definition detaching (st : state) (x : nat) : Prop :=
  has_class st x "merge-remove-item" = true
  /\ exists w, parentNode x st = Some w
       /\ has_class st w "merge-remove-wrapper" = true
       /\ exists due fade slide, In (due, RemoveFade w fade slide) (timers st).

(** The state in which a timer callback runs: the clock has advanced to the
    due time and the timer has left the queue. *)
Definition at_due (due : nat) (rest : list (nat * task)) (st : state) : state :=
  State (roots st) (elems st) (next st) (Nat.max (now st) due) rest (reloads st).

Definition add_class (i : nat) (c : string) (st : state) : state :=
  set_elem_attr i "class" (class_add c (class_attr st i)) st.

Definition add_timer (t : task) (delay : float) (st : state) : state :=
  State (roots st) (elems st) (next st) (now st)
        (timers st ++ [(now st + timer_delay delay, t)]) (reloads st).









(** What wrapping a node in a new element [w] does to the descendants of
    another element: [w] is added at one place, or nothing changes. *)
Definition grown (w : nat) (l l' : list nat) : Prop :=
  exists A C, l = A ++ C /\ (l' = A ++ w :: C \/ l' = A ++ C).

(** No element of the store has an identity from [n] on. *)
Definition fresh_from (E : gmap nat elem) (n : nat) : Prop :=
  forall k, n <= k -> E !! k = None.

(** ** Fragments in sync with the live container *)

(** The live node that the plain key of the marker [a] on [newEl]
    selects. *)
Definition counterpart (tc : nat) (a : string) (st : state) (newEl : nat)
  : option nat :=
  let key := js_to_string (getAttribute st newEl a) in
  if css_plain key then querySelector tc (SelAttrEq a key) st else None.

(** The content-marked node [newEl] finds a live counterpart with the same
    non-empty cache token. *)
Definition content_in_sync (tc : nat) (st : state) (newEl : nat) : bool :=
  match counterpart tc "data-merge" st newEl with
  | Some targetEl =>
      negb (needs_replace (getAttribute st newEl "data-merge-cache")
                          (getAttribute st targetEl "data-merge-cache"))
  | None => false
  end.

(** The attribute-marked node [newEl] finds a live counterpart that has
    each of its attributes, with the same value, and [setAttribute] accepts
    the names. *)
Definition attributes_in_sync (B : browser) (tc : nat) (st : state) (newEl : nat)
  : bool :=
  match counterpart tc "data-merge-attributes" st newEl with
  | Some targetEl =>
      forallb (fun n => valid_name B n
                        && opt_str_eqb (getAttribute st targetEl n)
                                       (getAttribute st newEl n))
        (getAttributeNames st newEl)
  | None => false
  end.

(** The list [newList] finds a live list all of whose items have their key
    among the new items, and each new item finds, among the live items not
    in removal, an item with its key and the same non-empty cache token. *)
Definition list_in_sync (tc : nat) (st : state) (newList : nat) : bool :=
  match counterpart tc "data-merge-list" st newList with
  | Some targetList =>
      let news := querySelectorAll newList (SelAttr "data-merge-list-item") st in
      forallb (fun x => bool_decide (is_Some (find_by_key x news st)))
        (querySelectorAll targetList (SelAttr "data-merge-list-item") st)
      && forallb (fun y =>
           match find_by_key y
                   (querySelectorAll targetList
                      (SelAttrNotClass "data-merge-list-item" "merge-remove-item") st) st
           with
           | Some m => negb (needs_replace (getAttribute st y "data-merge-cache")
                                           (getAttribute st m "data-merge-cache"))
           | None => false
           end) news
  | None => false
  end.

Definition in_sync (B : browser) (nc tc : nat) (st : state) : bool :=
  forallb (content_in_sync tc st) (querySelectorAll nc (SelAttr "data-merge") st)
  && forallb (attributes_in_sync B tc st)
       (querySelectorAll nc (SelAttr "data-merge-attributes") st)
  && forallb (list_in_sync tc st) (querySelectorAll nc (SelAttr "data-merge-list") st).

(** ** Identical fragments *)

(** Element subtrees of a tree, in document order. *)
Fixpoint subtrees (t : tree) : list tree :=
  match t with
  | Txt _ => []
  | El _ ks => t :: List.flat_map subtrees ks
  end.

Definition root_id (t : tree) : nat :=
  match t with
  | El i _ => i
  | Txt _ => 0
  end.

(** The inner content of [a] and of [b] is the same markup. *)
Definition same_markup (a b : nat) (st : state) : Prop :=
  map (erase (elems st)) (kids_of a st) = map (erase (elems st)) (kids_of b st).

Definition unique_keys (a : string) (l : list nat) (st : state) : bool :=
  bool_decide (NoDup (map (fun i => getAttribute st i a) l)).

Definition has_token_attr (st : state) (i : nat) : bool :=
  truthy (getAttribute st i "data-merge-cache").

Definition plain_keys (a : string) (l : list nat) (st : state) : bool :=
  forallb (fun i => css_plain (js_to_string (getAttribute st i a))) l.

(** The live container is well keyed: the marker keys of each kind are
    unique (list-item keys within their list) and plain, [setAttribute]
    accepts the attribute names of every attribute-marked node, every
    content-marked node and every list item carries a non-empty cache
    token, and no list item is in removal. *)
Definition well_keyed (B : browser) (tc : nat) (st : state) : bool :=
  let contents := querySelectorAll tc (SelAttr "data-merge") st in
  let attributes := querySelectorAll tc (SelAttr "data-merge-attributes") st in
  let lists := querySelectorAll tc (SelAttr "data-merge-list") st in
  (unique_keys "data-merge" contents st
   && plain_keys "data-merge" contents st
   && forallb (has_token_attr st) contents)
  && (unique_keys "data-merge-attributes" attributes st
      && plain_keys "data-merge-attributes" attributes st
      && forallb (fun t => forallb (valid_name B) (getAttributeNames st t)) attributes)
  && (unique_keys "data-merge-list" lists st
      && plain_keys "data-merge-list" lists st
      && forallb (fun tl =>
           let items := querySelectorAll tl (SelAttr "data-merge-list-item") st in
           unique_keys "data-merge-list-item" items st
           && forallb (fun x => has_token_attr st x
                                && negb (has_class st x "merge-remove-item")) items)
           lists).

(** The attribute names that [setAttribute] accepts in every browser: the
    XML names. They begin with a letter, [_], [:] or a character outside
    ASCII, and go on with these, digits, [-] and [.]. *)
Definition name_start_char (c : ascii) : bool :=
  let n := nat_of_ascii c in
  ((65 <=? n) && (n <=? 90)) || ((97 <=? n) && (n <=? 122))
  || (n =? 58) || (n =? 95) || (128 <=? n).

Definition name_char (c : ascii) : bool :=
  let n := nat_of_ascii c in
  name_start_char c || ((48 <=? n) && (n <=? 57)) || (n =? 45) || (n =? 46).

Fixpoint name_chars (n : string) : bool :=
  match n with
  | EmptyString => true
  | String c r => name_char c && name_chars r
  end.

Definition attribute_name_ok (n : string) : bool :=
  match n with
  | EmptyString => false
  | String c r => name_start_char c && name_chars r
  end.

(** The look-up with a key that is not plain, for the pages below: their
    only such key is [quoted_key], a letter follows its double quote, and
    the selector text that it is spliced into is no selector in any
    browser. *)
Definition refuse_spliced (st : state) (container : nat) (a key : string)
  : option (option nat) := None.

(** Markup that comes back from serialising and parsing as it was: so it
    is with elements that hold text and elements only, none of them a
    [textarea], [pre], [form] or raw text element. *)
Definition same_markup_back (st : state) (target src : nat) : list markup :=
  map (erase (elems st)) (kids_of src st).

(** A browser for running the engine on concrete pages: every element is
    20px high, no custom property is set (so every parsed duration is NaN),
    inline style is serialised as a list of declarations, the markup of the
    pages is of the kind that serialising and parsing gives back, and
    [setAttribute] takes the XML names. *)
Definition plain_browser : browser :=
  Browser (fun _ _ => 20%N) (fun _ _ _ => "") (fun _ => nan)
          (fun old prop v => old +:+ prop +:+ ":" +:+ v +:+ ";")
          refuse_spliced same_markup_back attribute_name_ok.

(** Form controls below [el] that carry no [disabled] attribute. *)
Definition enabled_controls (el : nat) (st : state) : list nat :=
  List.filter (fun j =>
      existsb (str_eqb (tag_of st j)) ["input"; "select"; "textarea"; "button"]
      && negb (bool_decide (is_Some (getAttribute st j "disabled"))))
    (descendants el (roots st)).

(** A cart list whose only item holds a quantity input and a select. *)
Definition controls_page : state :=
  page [ NElem 1 "cart-form" []
           [ NElem 2 "ul" [("data-merge-list", "items")]
               [ NElem 3 "li" [("data-merge-list-item", "A")]
                   [ NElem 4 "input" [("name", "quantity")] [];
                     NElem 5 "select" [("name", "variant")] [] ] ] ] ]
       6.

(** ** Concrete pages *)

Definition li (i : nat) (key : string) (cache : option string) (kids : list node) : node :=
  NElem i "li"
    (("data-merge-list-item", key)
       :: match cache with Some c => [("data-merge-cache", c)] | None => [] end)
    kids.

Definition span (i : nat) (text : string) : node := NElem i "span" [] [NText text].

(** Live list [A, C] (container 1, list 2) and a fragment (root 100, list
    102) with the list [A, B, C]. *)
Definition insert_page : state :=
  page [ NElem 1 "cart-form" []
           [ NElem 2 "ul" [("data-merge-list", "items")]
               [ li 3 "A" (Some "a1") [span 4 "a"]; li 5 "C" (Some "c1") [span 6 "c"] ] ];
         NElem 100 "div" []
           [ NElem 102 "ul" [("data-merge-list", "items")]
               [ li 103 "A" (Some "a1") [span 104 "a"];
                 li 107 "B" (Some "b1") [span 108 "b"];
                 li 105 "C" (Some "c1") [span 106 "c"] ] ] ]
       200.

(** Live list [A, B, C] and a fragment with the list [A, C]. *)
Definition remove_page : state :=
  page [ NElem 1 "cart-form" []
           [ NElem 2 "ul" [("data-merge-list", "items")]
               [ li 3 "A" (Some "a1") [span 4 "a"];
                 li 7 "B" (Some "b1") [NElem 8 "input" [("name", "quantity")] []];
                 li 5 "C" (Some "c1") [span 6 "c"] ] ];
         NElem 100 "div" []
           [ NElem 102 "ul" [("data-merge-list", "items")]
               [ li 103 "A" (Some "a1") [span 104 "a"];
                 li 105 "C" (Some "c1") [span 106 "c"] ] ] ]
       200.


(** A key that holds a double quote: spliced into the selector text of
    line 171 it ends the quoted value early. *)
Definition quoted_key : string := String "a" (String "034" "b").

(** A content marker with the key [quoted_key], its token changed. *)
Definition quoted_key_page : state :=
  page [ NElem 1 "cart-form" []
           [ NElem 2 "div" [("data-merge", quoted_key); ("data-merge-cache", "v1")]
               [span 3 "10.00"] ];
         NElem 100 "div" []
           [ NElem 102 "div" [("data-merge", quoted_key); ("data-merge-cache", "v2")]
               [span 103 "12.00"] ] ]
       200.

(** A fragment identical to the live container, token and all, the key of
    the content marker being [quoted_key]. *)
Definition quoted_synced_page : state :=
  page [ NElem 1 "cart-form" []
           [ NElem 2 "div" [("data-merge", quoted_key); ("data-merge-cache", "v1")]
               [span 3 "10.00"] ];
         NElem 100 "div" []
           [ NElem 102 "div" [("data-merge", quoted_key); ("data-merge-cache", "v1")]
               [span 103 "10.00"] ] ]
       200.

(** An attribute marker with the key [quoted_key]. *)
Definition quoted_attribute_page : state :=
  page [ NElem 1 "cart-form" []
           [ NElem 2 "button" [("data-merge-attributes", quoted_key); ("class", "btn")] [] ];
         NElem 100 "div" []
           [ NElem 102 "button" [("data-merge-attributes", quoted_key);
                                 ("class", "btn btn--primary")] [] ] ]
       200.

(** An attribute-marked button of the fragment with an attribute whose
    name, [=x], the HTML parser takes and [setAttribute] refuses. *)
Definition odd_attribute_page : state :=
  page [ NElem 1 "cart-form" []
           [ NElem 2 "button" [("data-merge-attributes", "checkout"); ("class", "btn")] [] ];
         NElem 100 "div" []
           [ NElem 102 "button" [("data-merge-attributes", "checkout");
                                 ("class", "btn btn--primary"); ("=x", "1");
                                 ("aria-busy", "false")] [] ] ]
       200.

(** A fragment identical to the live container, the attribute-marked button
    carrying the attribute [=x] on both sides. *)
Definition odd_synced_page : state :=
  page [ NElem 1 "cart-form" []
           [ NElem 2 "button" [("data-merge-attributes", "checkout"); ("=x", "1")] [] ];
         NElem 100 "div" []
           [ NElem 102 "button" [("data-merge-attributes", "checkout"); ("=x", "1")] [] ] ]
       200.

(** What the HTML parser makes of serialised markup that holds a
    [textarea]: a line break that begins its text is dropped. *)
Definition drop_line_break (s : string) : string :=
  match s with
  | String "010" r => r
  | _ => s
  end.

Fixpoint parsed_back (m : markup) : markup :=
  match m with
  | MText s => MText s
  | MElem e ks =>
      let ks' := map parsed_back ks in
      MElem e
        match e, ks' with
        | Some el, MText s :: r =>
            if str_eqb (tag el) "textarea" then MText (drop_line_break s) :: r else ks'
        | _, _ => ks'
        end
  end.

(** [plain_browser] with that parser. *)
Definition reparsing_browser : browser :=
  Browser (fun _ _ => 20%N) (fun _ _ _ => "") (fun _ => nan)
          (fun old prop v => old +:+ prop +:+ ":" +:+ v +:+ ";")
          refuse_spliced
          (fun st _ src => map parsed_back (map (erase (elems st)) (kids_of src st)))
          attribute_name_ok.

(** A content-marked node holding a [textarea] whose text begins with a
    line break. *)
Definition note_page : state :=
  page [ NElem 1 "cart-form" []
           [ NElem 2 "div" [("data-merge", "note")]
               [NElem 3 "textarea" [] [NText "old"]] ];
         NElem 100 "div" []
           [ NElem 102 "div" [("data-merge", "note")]
               [NElem 103 "textarea" [] [NText (String "010" "Note")]] ] ]
       200.



(** A live list whose item B holds a content-marked node with an input; a
    fragment (root 100) whose list is empty; and a later fragment (root 110)
    with the content-marked node. *)
Definition second_merge_page : state :=
  page [ NElem 1 "cart-form" []
           [ NElem 2 "ul" [("data-merge-list", "items")]
               [ li 3 "B" (Some "b1")
                   [ NElem 4 "div" [("data-merge", "qty")]
                       [ NElem 5 "input" [("name", "quantity")] [] ] ] ] ];
         NElem 100 "div" [] [ NElem 102 "ul" [("data-merge-list", "items")] [] ];
         NElem 110 "div" []
           [ NElem 112 "div" [("data-merge", "qty")]
               [ NElem 113 "input" [("name", "quantity")] [] ] ] ]
       200.

(** Live list [C] and a fragment with the list [C, D], where D holds text
    only. *)
Definition childless_page : state :=
  page [ NElem 1 "cart-form" []
           [ NElem 2 "ul" [("data-merge-list", "items")]
               [ li 5 "C" (Some "c1") [span 6 "c"] ] ];
         NElem 100 "div" []
           [ NElem 102 "ul" [("data-merge-list", "items")]
               [ li 105 "C" (Some "c1") [span 106 "c"];
                 li 107 "D" (Some "d1") [NText "sold out"] ] ] ]
       200.

(** A content marker whose token changed, and an attribute marker. *)
Definition totals_page : state :=
  page [ NElem 1 "cart-form" []
           [ NElem 2 "div" [("data-merge", "totals"); ("data-merge-cache", "v1")]
               [span 3 "10.00"];
             NElem 4 "button" [("data-merge-attributes", "checkout");
                               ("class", "btn"); ("disabled", "")] [] ];
         NElem 100 "div" []
           [ NElem 102 "div" [("data-merge", "totals"); ("data-merge-cache", "v2")]
               [span 103 "12.00"];
             NElem 104 "button" [("data-merge-attributes", "checkout");
                                 ("class", "btn btn--primary");
                                 ("aria-busy", "false")] [] ] ]
       200.

(** [totals_page] when the content pass of the merge is done. *)
Definition totals_content_merged : state :=
  result_state (forEach (merge_content plain_browser 1) [102] totals_page).

(** A live list item carrying a token, and a new item with the same key
    and no token. *)
Definition stale_token_page : state :=
  page [ NElem 1 "cart-form" []
           [ NElem 2 "ul" [("data-merge-list", "items")]
               [ li 3 "A" (Some "t1") [span 4 "old"] ] ];
         NElem 100 "div" []
           [ NElem 102 "ul" [("data-merge-list", "items")]
               [ li 103 "A" None [span 104 "new"] ] ] ]
       200.

(** The sibling case of the content pass: a live content-marked node
    carrying a token, and a new node with the same key and no token. *)
Definition stale_content_page : state :=
  page [ NElem 1 "cart-form" []
           [ NElem 2 "div" [("data-merge", "A"); ("data-merge-cache", "t1")]
               [span 4 "old"] ];
         NElem 100 "div" []
           [ NElem 102 "div" [("data-merge", "A")] [span 104 "new"] ] ]
       200.

(** A fragment identical to the live container, every marked node carrying
    a token. *)
Definition synced_page : state :=
  page [ NElem 1 "cart-form" []
           [ NElem 2 "div" [("data-merge", "totals"); ("data-merge-cache", "v1")]
               [span 3 "10.00"];
             NElem 4 "button" [("data-merge-attributes", "checkout"); ("class", "btn")] [];
             NElem 5 "ul" [("data-merge-list", "items")]
               [ li 6 "A" (Some "a1") [span 7 "a"]; li 8 "B" (Some "b1") [span 9 "b"] ] ];
         NElem 100 "div" []
           [ NElem 102 "div" [("data-merge", "totals"); ("data-merge-cache", "v1")]
               [span 103 "10.00"];
             NElem 104 "button" [("data-merge-attributes", "checkout"); ("class", "btn")] [];
             NElem 105 "ul" [("data-merge-list", "items")]
               [ li 106 "A" (Some "a1") [span 107 "a"];
                 li 108 "B" (Some "b1") [span 109 "b"] ] ] ]
       200.

(** A fragment identical to the live container, the content-marked node
    carrying no token. *)
Definition tokenless_page : state :=
  page [ NElem 1 "cart-form" []
           [ NElem 2 "div" [("data-merge", "totals")] [span 3 "10.00"] ];
         NElem 100 "div" []
           [ NElem 102 "div" [("data-merge", "totals")] [span 103 "10.00"] ] ]
       200.

(** ** Pages and browsers for the further properties *)

(** A fragment (root 100) whose second content marker has no live
    counterpart. *)
Definition orphan_marker_page : state :=
  page [ NElem 1 "cart-form" []
           [ NElem 2 "div" [("data-merge", "totals"); ("data-merge-cache", "v1")]
               [span 3 "10.00"] ];
         NElem 100 "div" []
           [ NElem 102 "div" [("data-merge", "totals"); ("data-merge-cache", "v2")]
               [span 103 "12.00"];
             NElem 104 "div" [("data-merge", "notes")] [span 105 "n"] ] ]
       200.

(** A fragment whose attribute-marked button has no live counterpart. *)
Definition orphan_attribute_page : state :=
  page [ NElem 1 "cart-form" [] [ NElem 2 "button" [("class", "btn")] [] ];
         NElem 100 "div" []
           [ NElem 102 "button" [("data-merge-attributes", "checkout"); ("class", "btn")]
               [] ] ]
       200.

(** A fragment with a list, and a live container that shows none (an
    empty cart). *)
Definition orphan_list_page : state :=
  page [ NElem 1 "cart-form" [] [ NElem 2 "p" [] [NText "Your cart is empty"] ];
         NElem 100 "div" []
           [ NElem 102 "ul" [("data-merge-list", "items")]
               [ li 103 "A" (Some "a1") [span 104 "a"] ] ] ]
       200.

(** A browser whose style sheet sets a fade of 0.25 s and a slide of 0.5 s on
    every element. *)
Definition timed_browser : browser :=
  Browser (fun _ _ => 20%N)
          (fun _ _ p => if str_eqb p "--fade-duration" then "0.25s" else "0.5s")
          (fun s => if str_eqb s "0.25s" then 0.25%float else 0.5%float)
          (fun old prop v => old +:+ prop +:+ ":" +:+ v +:+ ";")
          refuse_spliced same_markup_back attribute_name_ok.

(** The key of a list item. *)
Definition item_key (st : state) (x : nat) : option string :=
  getAttribute st x "data-merge-list-item".

(** The keys of [l] that occur in [K]. *)
Definition keys_in (K l : list (option string)) : list (option string) :=
  List.filter (fun k => existsb (opt_str_eqb k) K) l.

(** A live list whose item B (3) is in removal already: it sits in its
    wrapper (9) and the first phase of its detach sequence is pending. The
    fragment's list holds A only. *)
Definition removing_nodes : list node :=
  [ NElem 1 "cart-form" []
      [ NElem 2 "ul" [("data-merge-list", "items")]
          [ li 5 "A" (Some "a1") [span 6 "a"];
            NElem 9 "div" [("class", "merge-remove-wrapper")]
              [ NElem 3 "li" [("data-merge-list-item", "B"); ("class", "merge-remove-item")]
                  [span 4 "b"] ] ] ];
    NElem 100 "div" []
      [ NElem 102 "ul" [("data-merge-list", "items")]
          [ li 103 "A" (Some "a1") [span 104 "a"] ] ] ].

Definition removing_page : state :=
  State (roots (page removing_nodes 200)) (elems (page removing_nodes 200)) 200 40
        [(50, RemoveFade 9 nan nan)] 0.

(** ** Further DOM operations (src/assets/main.js, outside the engine) *)

(** [removeAttribute]. *)
Definition remove_attr (n : string) (l : attr_list) : attr_list :=
  List.filter (fun p => negb (str_eqb (fst p) n)) l.

Definition remove_elem_attr (i : nat) (n : string) (st : state) : state :=
  with_elems (alter (fun e => Elem (tag e) (remove_attr n (attrs e))) i (elems st)) st.

Definition removeAttribute (i : nat) (n : string) : M unit :=
  modify (remove_elem_attr i n).

(** Compound selectors: a conjunction of simple ones. *)
Inductive simple :=
| ByTag (t : string)              (* t *)
| ByClass (c : string)            (* .c *)
| WithAttr (a : string)           (* [a] *)
| WithValue (a v : string)        (* [a="v"] *)
| Without (s : simple).           (* :not(s) *)

Fixpoint simple_matches (e : elem) (s : simple) : bool :=
  match s with
  | ByTag t => str_eqb (tag e) t
  | ByClass c => attrs_have_class c (attrs e)
  | WithAttr a => bool_decide (is_Some (get_attr a (attrs e)))
  | WithValue a v => opt_str_eqb (get_attr a (attrs e)) (Some v)
  | Without s' => negb (simple_matches e s')
  end.

(** [el.matches(selector)] *)
Definition matches (st : state) (c : list simple) (i : nat) : bool :=
  match elems st !! i with
  | Some e => forallb (simple_matches e) c
  | None => false
  end.

Definition query_all (root : nat) (c : list simple) (st : state) : list nat :=
  List.filter (matches st c) (descendants root (roots st)).

(** theme.suffixIds, lines 91-96 *)
Definition suffixCandidates : list string :=
  ["id"; "for"; "aria-describedby"; "aria-controls"].

Definition suffix_attribute (container : nat) (prefix : string) (a : string) : M unit :=
  let* els := gets (querySelectorAll container (SelAttr a)) in
  forEach (fun el =>
      let* v := gets (fun st => getAttribute st el a) in
      setAttribute el a (default "null" v +:+ prefix)) els.

Definition suffixIds (container : nat) (prefix : string) : M unit :=
  forEach (suffix_attribute container prefix) suffixCandidates.

(** theme.manuallyLoadImages, lines 280-289. [el.src] and [el.srcset]
    reflect the content attributes of the same names. *)
Definition manuallyLoadImages (container : nat) : M unit :=
  let* imgs := gets (query_all container [ByTag "img"; WithAttr "data-manual-src"]) in
  forEach (fun el =>
      let* src := gets (fun st => getAttribute st el "data-manual-src") in
      setAttribute el "src" (js_to_string src) ;;
      removeAttribute el "data-manual-src" ;;
      let* srcset := gets (fun st => getAttribute st el "data-manual-srcset") in
      if truthy srcset then
        setAttribute el "srcset" (js_to_string srcset) ;;
        removeAttribute el "data-manual-srcset"
      else ret tt) imgs.

(** A copy of a utility bar (root 1) with a label, the select it labels and
    a hint, a label for a search field that lies outside the copy (11), and
    the original bar (10). *)
Definition utility_bar_page : state :=
  page [ NElem 0 "body" []
           [ NElem 10 "div" [("id", "bar"); ("class", "utility-bar")] [];
             NElem 1 "div" [("id", "bar"); ("class", "utility-bar")]
               [ NElem 2 "label" [("for", "sort")] [NText "Sort by"];
                 NElem 3 "select" [("id", "sort"); ("aria-describedby", "hint")] [];
                 NElem 4 "span" [("id", "hint")] [NText "Pick one"];
                 NElem 5 "label" [("for", "q")] [NText "Search"] ];
             NElem 11 "input" [("id", "q"); ("name", "q")] [] ] ]
       20.

(** The state after one turn of the loop of [manuallyLoadImages]. *)
Definition load_image (el : nat) (st : state) : state :=
  let s1 := set_elem_attr el "src"
              (js_to_string (getAttribute st el "data-manual-src")) st in
  let s2 := remove_elem_attr el "data-manual-src" s1 in
  let srcset := getAttribute s2 el "data-manual-srcset" in
  if truthy srcset
  then remove_elem_attr el "data-manual-srcset"
         (set_elem_attr el "srcset" (js_to_string srcset) s2)
  else s2.

(** The image [el], whose deferred source was [v] in [st], is loaded in
    [st']: [src] holds [v] and the marker is gone; a non-empty deferred
    source set has moved to [srcset] in the same way, an empty or missing one
    leaves both attributes as they were; no other attribute has changed. *)
Definition image_loaded (st st' : state) (el : nat) (v : string) : Prop :=
  let srcset := getAttribute st el "data-manual-srcset" in
  getAttribute st' el "src" = Some v
  /\ getAttribute st' el "data-manual-src" = None
  /\ getAttribute st' el "srcset"
     = (if truthy srcset then srcset else getAttribute st el "srcset")
  /\ getAttribute st' el "data-manual-srcset"
     = (if truthy srcset then None else srcset)
  /\ (forall a, ~ In a ["src"; "data-manual-src"; "srcset"; "data-manual-srcset"] ->
                getAttribute st' el a = getAttribute st el a).

(** A product gallery: an image waiting for source and source set (2), one
    whose deferred source set is empty (3), one already loaded (4), and a
    video that happens to carry the marker (5). *)
Definition gallery_page : state :=
  page [ NElem 1 "div" [("class", "gallery")]
           [ NElem 2 "img" [("data-manual-src", "a.jpg"); ("data-manual-srcset", "a.jpg 1x");
                            ("alt", "A")] [];
             NElem 3 "img" [("data-manual-src", "b.jpg"); ("data-manual-srcset", "")] [];
             NElem 4 "img" [("src", "c.jpg")] [];
             NElem 5 "video" [("data-manual-src", "d.mp4")] [] ] ]
       10.

(** The path from [x] up to the root of its tree, [x] first. *)
Fixpoint path_in (x : nat) (t : tree) : option (list nat) :=
  match t with
  | Txt _ => None
  | El i ks =>
      if Nat.eqb i x then Some [i]
      else option_map (fun p => p ++ [i]) (first_some (path_in x) ks)
  end.

(** [x] and its ancestors, nearest first; an element that is in no tree
    has no ancestor. *)
Definition inclusive_ancestors (x : nat) (f : list tree) : list nat :=
  match first_some (path_in x) f with
  | Some p => p
  | None => [x]
  end.

(** [x.closest(selector)], for a selector given by the elements it
    matches. *)
Definition closest (x : nat) (sel : nat -> bool) (st : state) : option nat :=
  List.find sel (inclusive_ancestors x (roots st)).

(** The listener that theme.addDelegateEventListener installs on [element]
    (lines 105-110), run for an event whose target is [target]: the result
    is the element the callback is called with, [None] when it is not
    called. *)
Definition delegate_listener (element : nat) (sel : nat -> bool) (target : nat)
    (st : state) : option nat :=
  match closest target sel st with
  | None => None
  | Some el => if contains element el (roots st) then Some el else None
  end.

(** A cart form (1) inside a drawer (0) that also holds a remove button of
    its own (9); the item's remove link (4) wraps an icon (5). *)
Definition cart_page : state :=
  page [ NElem 0 "div" [("class", "drawer cart-item")]
           [ NElem 1 "cart-form" []
               [ NElem 2 "ul" []
                   [ NElem 3 "li" [("class", "cart-item")]
                       [ NElem 4 "a" [("class", "cart-item__remove")]
                           [ NElem 5 "svg" [] [] ];
                         NElem 6 "input" [("class", "cart-item__quantity-input")] [] ] ] ];
             NElem 9 "a" [("class", "cart-item__remove")] [] ] ]
       20.

(** CartForm.refreshFromHtml, lines 967-972: the work on the document
    between the parsing of the response into the children of [newContent]
    and the dispatch of the events. *)
Definition refreshFromHtml (B : browser) (this newContent : nat) : M unit :=
  let* animated := gets (querySelectorAll newContent (SelAttr "data-cc-animate")) in
  forEach (fun el => removeAttribute el "data-cc-animate") animated ;;
  modify (mergeNodes B newContent this) ;;
  classList_remove this ["cart-form--refreshing"] ;;
  let* refreshing := gets (query_all this [ByClass "merge-item-refreshing"]) in
  forEach (fun el => classList_remove el ["merge-item-refreshing"]) refreshing.

Definition remove_class (c : string) (i : nat) (st : state) : state :=
  match getAttribute st i "class" with
  | Some v => set_elem_attr i "class" (class_remove c v) st
  | None => st
  end.

(** GiftCardRecipient: the fields found by [connectedCallback]; a field
    that the markup lacks is [null], and the state of the checkbox is read
    when [synchronizeProperties] runs. *)
Record recipient := Recipient {
  recipientEmail : option nat;
  recipientName : option nat;
  recipientMessage : option nat;
  recipientSendOn : option nat;
  recipientOffsetProperty : option nat;
  recipientCheckbox_checked : bool
}.

(** A method call on a reference that may be [null]. *)
Definition on_field (o : option nat) (f : nat -> M unit) : M unit :=
  match o with
  | Some i => f i
  | None => throw
  end.

(** GiftCardRecipient.synchronizeProperties, lines 621-641 *)
Definition synchronizeProperties (r : recipient) : M unit :=
  if recipientCheckbox_checked r then
    on_field (recipientEmail r) (fun i => setAttribute i "required" "") ;;
    on_field (recipientEmail r) (fun i => removeAttribute i "disabled") ;;
    on_field (recipientName r) (fun i => removeAttribute i "disabled") ;;
    on_field (recipientMessage r) (fun i => removeAttribute i "disabled") ;;
    on_field (recipientSendOn r) (fun i => removeAttribute i "disabled") ;;
    match recipientOffsetProperty r with
    | Some i => removeAttribute i "disabled"
    | None => ret tt
    end
  else
    on_field (recipientEmail r) (fun i => removeAttribute i "required") ;;
    on_field (recipientEmail r) (fun i => setAttribute i "disabled" "") ;;
    on_field (recipientName r) (fun i => setAttribute i "disabled" "") ;;
    on_field (recipientMessage r) (fun i => setAttribute i "disabled" "") ;;
    on_field (recipientSendOn r) (fun i => setAttribute i "disabled" "") ;;
    match recipientOffsetProperty r with
    | Some i => setAttribute i "disabled" ""
    | None => ret tt
    end.

(** The fields of a recipient form, the optional one included when
    present. *)
Definition recipient_fields (r : recipient) : list nat :=
  omap id [recipientEmail r; recipientName r; recipientMessage r; recipientSendOn r;
           recipientOffsetProperty r].

(** A gift card form: checkbox 2, the four fields, no offset field. *)
Definition gift_card_page : state :=
  page [ NElem 1 "gift-card-recipient" []
           [ NElem 2 "input" [("type", "checkbox"); ("class", "gift-card-recipient__checkbox")] [];
             NElem 3 "input" [("name", "properties[Recipient email]"); ("disabled", "")] [];
             NElem 4 "input" [("name", "properties[Recipient name]"); ("disabled", "")] [];
             NElem 5 "textarea" [("name", "properties[Message]")] [];
             NElem 6 "input" [("name", "properties[Send on]"); ("disabled", "")] [] ] ]
       10.

(** ** Rate limiters: [debounce] (lines 318-324) and [throttle] (lines 1113-1129)

    The closure variables of one debounced or throttled function, the
    timers it has pending and the runs of the wrapped function [fn] are the
    state of a small machine. Delays are whole milliseconds, as at every
    call site. *)

Module Timing.

Section Machine.

Context {A : Type}.

(** The callbacks handed to [setTimeout]. *)
Inductive job :=
| RunFn (args : A)     (* () => fn.apply(this, args), and fn itself *)
| Untick.              (* () => { tick = false; } *)

Record machine := Machine {
  clock : nat;                         (* current time, ms *)
  queue : list (nat * (nat * job));    (* pending timers, oldest first:
                                          id, due time, callback *)
  nextId : nat;                        (* next timer id *)
  calls : list (nat * A);              (* runs of fn: time, arguments *)
  timerId : option nat;                (* t, throttleTimeoutId; None for
                                          undefined and for -1 *)
  tick : bool                          (* tick *)
}.

Definition setTimeout (j : job) (wait : nat) (m : machine) : nat * machine :=
  (nextId m,
   Machine (clock m) (queue m ++ [(nextId m, (clock m + wait, j))]) (S (nextId m))
           (calls m) (timerId m) (tick m)).

(** [clearTimeout] of an id that is not pending does nothing. *)
Definition clearTimeout (id : option nat) (m : machine) : machine :=
  match id with
  | None => m
  | Some i =>
      Machine (clock m) (List.filter (fun e => negb (Nat.eqb (fst e) i)) (queue m))
              (nextId m) (calls m) (timerId m) (tick m)
  end.

(** One call of the function that [debounce(fn, wait)] returns. *)
Definition debounce (wait : nat) (args : A) (m : machine) : machine :=
  let m1 := clearTimeout (timerId m) m in
  let '(id, m2) := setTimeout (RunFn args) wait m1 in
  Machine (clock m2) (queue m2) (nextId m2) (calls m2) (Some id) (tick m2).

Definition run_job (j : job) (m : machine) : machine :=
  match j with
  | RunFn a =>
      Machine (clock m) (queue m) (nextId m) (calls m ++ [(clock m, a)])
              (timerId m) (tick m)
  | Untick => Machine (clock m) (queue m) (nextId m) (calls m) (timerId m) false
  end.

(** The pending timer that is due first, the older one among equals. *)
Fixpoint earliest_due (q : list (nat * (nat * job))) : option (nat * (nat * job)) :=
  match q with
  | [] => None
  | e :: r =>
      match earliest_due r with
      | Some e' => if fst (snd e') <? fst (snd e) then Some e' else Some e
      | None => Some e
      end
  end.

(** Run the next timer, if one is due by [until]. *)
Definition fire_next (until : nat) (m : machine) : option machine :=
  match earliest_due (queue m) with
  | Some (id, (due, j)) =>
      if due <=? until then
        Some (run_job j
                (Machine (Nat.max (clock m) due)
                         (List.filter (fun e => negb (Nat.eqb (fst e) id)) (queue m))
                         (nextId m) (calls m) (timerId m) (tick m)))
      else None
  | None => None
  end.

Fixpoint fire_all (fuel : nat) (until : nat) (m : machine) : machine :=
  match fuel with
  | 0 => m
  | S n =>
      match fire_next until m with
      | Some m' => fire_all n until m'
      | None => m
      end
  end.

(** Let time pass until [until]: every timer due by then runs, in order.
    No callback of these machines sets a timer, so one round per pending
    timer is enough. *)
Definition advance (until : nat) (m : machine) : machine :=
  let m' := fire_all (length (queue m)) until m in
  Machine (Nat.max (clock m') until) (queue m') (nextId m') (calls m') (timerId m')
          (tick m').

(** A machine on which nothing has happened yet. *)
Definition idle : machine := Machine 0 [] 1 [] None false.

(** Calls of the debounced function at the given times, with the given
    arguments. *)
Definition debounce_calls (wait : nat) (evs : list (nat * A)) (m : machine) : machine :=
  fold_left (fun m e => debounce wait (snd e) (advance (fst e) m)) evs m.

(** Calls at non-decreasing times, none at the very instant at which the
    timer of the call before it is due. *)
Fixpoint spaced (wait : nat) (t : nat) (rest : list (nat * A)) : Prop :=
  match rest with
  | [] => True
  | (t', _) :: r => t <= t' /\ t' <> t + wait /\ spaced wait t' r
  end.

Fixpoint last_time (t : nat) (rest : list (nat * A)) : nat :=
  match rest with
  | [] => t
  | (t', _) :: r => last_time t' r
  end.

Fixpoint last_args (a : A) (rest : list (nat * A)) : A :=
  match rest with
  | [] => a
  | (_, a') :: r => last_args a' r
  end.

(** The runs of [fn] that a sequence of calls leads to: one for each call
    that is not followed by another call within [wait]. *)
Fixpoint debounce_runs (wait : nat) (t : nat) (a : A) (rest : list (nat * A))
  : list (nat * A) :=
  match rest with
  | [] => [(t + wait, a)]
  | (t', a') :: r =>
      (if t + wait <? t' then [(t + wait, a)] else []) ++ debounce_runs wait t' a' r
  end.

(** Calls each less than [wait] after the one before it. *)
Fixpoint burst (wait : nat) (t : nat) (rest : list (nat * A)) : Prop :=
  match rest with
  | [] => True
  | (t', _) :: r => t <= t' /\ t' < t + wait /\ burst wait t' r
  end.

(** The state after a call of the debounced function at time [t] with
    arguments [a]: its timer is the only one pending. *)
Definition armed (wait t : nat) (a : A) (L : list (nat * A)) (m : machine) : Prop :=
  clock m = t /\ calls m = L
  /\ exists id, queue m = [(id, (t + wait, RunFn a))] /\ timerId m = Some id.

End Machine.

(** One call of the function that [throttle(fn, wait)] returns; it passes
    no argument to [fn]. *)
Definition throttle (wait : nat) (m : @machine unit) : @machine unit :=
  let m1 := clearTimeout (timerId m) m in
  let '(id, m2) := setTimeout (RunFn tt) wait m1 in
  let m3 := Machine (clock m2) (queue m2) (nextId m2) (calls m2) (Some id) (tick m2) in
  if tick m3 then m3
  else
    let m4 := Machine (clock m3) (queue m3) (nextId m3) (calls m3 ++ [(clock m3, tt)])
                      (timerId m3) true in
    snd (setTimeout Untick wait m4).

Definition throttle_calls (wait : nat) (times : list nat) (m : @machine unit)
  : @machine unit :=
  fold_left (fun m t => throttle wait (advance t m)) times m.

(** The state of a throttled function after a call at time [t], within
    [wait] of the leading call at [t1]: [fn] has run once, the reset of
    [tick] and the trailing run are pending. *)
Definition throttling (wait t1 t : nat) (m : @machine unit) : Prop :=
  clock m = t /\ calls m = [(t1, tt)] /\ tick m = true
  /\ t1 <= t /\ t < t1 + wait + Nat.b2n (Nat.eqb t t1)
  /\ exists id u,
       timerId m = Some id /\ u <> id /\ id < nextId m /\ u < nextId m
       /\ ((t = t1 /\ queue m = [(id, (t + wait, RunFn tt)); (u, (t1 + wait, Untick))])
           \/ queue m = [(u, (t1 + wait, Untick)); (id, (t + wait, RunFn tt))]).

(** Calls at non-decreasing times, all of them less than [wait] after
    [t1]. *)
Fixpoint within (wait t1 t : nat) (rest : list nat) : Prop :=
  match rest with
  | [] => True
  | t' :: r => t <= t' /\ t' < t1 + wait /\ within wait t1 t' r
  end.

Fixpoint last_of (t : nat) (rest : list nat) : nat :=
  match rest with
  | [] => t
  | t' :: r => last_of t' r
  end.

End Timing.

(** ** The filter form: the URL that [ajaxLoadForm] loads (lines 1286-1304)
    and the URL that [ajaxLoadUrl] fetches (lines 1324-1328) *)

(** What the code reads from an [input] or [select] of the form. *)
Record form_input := FormInput {
  input_type : string;
  input_checked : bool;
  input_name : string;
  input_value : string
}.

Section FilterUrls.

Variable encodeURIComponent : string -> string.

(** [((input.type !== 'checkbox' && input.type !== 'radio') || input.checked)
     && input.value !== ''] *)
Definition is_active (i : form_input) : bool :=
  ((negb (str_eqb (input_type i) "checkbox") && negb (str_eqb (input_type i) "radio"))
   || input_checked i)
  && negb (str_eqb (input_value i) "").

Definition queryVals (inputs : list form_input) : list (string * string) :=
  map (fun i => (input_name i, encodeURIComponent (input_value i)))
      (List.filter is_active inputs).

(** [s.replace('&', '?')]: the first occurrence only. *)
Fixpoint replace_first_amp (s : string) : string :=
  match s with
  | EmptyString => EmptyString
  | String c r =>
      if Ascii.eqb c "&" then String "?" r else String c (replace_first_amp r)
  end.

(** The [newUrl] that [ajaxLoadForm] hands to [ajaxLoadUrl]. *)
Definition ajaxLoadForm (pathname : string) (inputs : list form_input) : string :=
  replace_first_amp
    (fold_left (fun newUrl value => newUrl +:+ "&" +:+ fst value +:+ "=" +:+ snd value)
       (queryVals inputs) pathname).

(** [url.indexOf('?') >= 0] *)
Fixpoint has_question (s : string) : bool :=
  match s with
  | EmptyString => false
  | String c r => Ascii.eqb c "?" || has_question r
  end.

(** The [fetchUrl] of [ajaxLoadUrl]; [filterSectionId] is
    [this.dataset.filterSectionId]. *)
Definition fetchUrl (filterSectionId : option string) (url : string) : string :=
  if truthy filterSectionId
  then url +:+ (if has_question url then "&" else "?") +:+ "section_id="
           +:+ js_to_string filterSectionId
  else url.

End FilterUrls.

Fixpoint no_char (c : ascii) (s : string) : bool :=
  match s with
  | EmptyString => true
  | String d r => negb (Ascii.eqb d c) && no_char c r
  end.

(** A query string: [?n1=v1&n2=v2...], empty for no parameter. *)
Definition more_params (vals : list (string * string)) : string :=
  fold_right (fun p s => "&" +:+ fst p +:+ "=" +:+ snd p +:+ s) "" vals.

Definition query_string (vals : list (string * string)) : string :=
  match vals with
  | [] => ""
  | p :: r => "?" +:+ fst p +:+ "=" +:+ snd p +:+ more_params r
  end.

(** * Properties *)

(** ** Attributes *)

Lemma str_eqb_eq (a b : string) : str_eqb a b = true <-> a = b.
Proof. apply String.eqb_eq. Qed.

Lemma str_eqb_neq (a b : string) : str_eqb a b = false <-> a <> b.
Proof. apply String.eqb_neq. Qed.

Lemma str_eqb_refl (a : string) : str_eqb a a = true.
Proof. apply String.eqb_refl. Qed.

Lemma opt_str_eqb_eq (a b : option string) : opt_str_eqb a b = true <-> a = b.
Proof.
  destruct a as [x|], b as [y|]; simpl; try (split; congruence).
  rewrite str_eqb_eq. split; congruence.
Qed.

Lemma get_set_same (n v : string) (l : attr_list) :
  get_attr n (set_attr n v l) = Some v.
Proof.
  induction l as [|[k w] r IH]; simpl.
  - now rewrite str_eqb_refl.
  - destruct (str_eqb k n) eqn:E; simpl; now rewrite E.
Qed.

Lemma get_set_other (n m v : string) (l : attr_list) :
  n <> m -> get_attr m (set_attr n v l) = get_attr m l.
Proof.
  intros Hnm. induction l as [|[k w] r IH]; simpl.
  - apply str_eqb_neq in Hnm. now rewrite Hnm.
  - destruct (str_eqb k n) eqn:E; simpl.
    + apply str_eqb_eq in E. subst k.
      apply str_eqb_neq in Hnm. now rewrite Hnm.
    + destruct (str_eqb k m); [reflexivity | exact IH].
Qed.

Lemma set_attr_same_value (n v : string) (l : attr_list) :
  get_attr n l = Some v -> set_attr n v l = l.
Proof.
  induction l as [|[k w] r IH]; simpl; [discriminate|].
  destruct (str_eqb k n); intros H.
  - congruence.
  - now rewrite IH.
Qed.

Lemma get_attr_names (n : string) (l : attr_list) :
  In n (attr_names l) <-> is_Some (get_attr n l).
Proof.
  induction l as [|[k w] r IH]; simpl.
  - split; [tauto | intros [? ?]; discriminate].
  - destruct (str_eqb k n) eqn:E.
    + apply str_eqb_eq in E. split; eauto.
    + apply str_eqb_neq in E. rewrite <- IH. tauto.
Qed.

(** ** Single elements of the store *)

Lemma attrs_of_set_same (i : nat) (n v : string) (st : state) :
  attrs_of (set_elem_attr i n v st) i
  = match elems st !! i with
    | Some e => set_attr n v (attrs e)
    | None => []
    end.
Proof.
  unfold attrs_of, set_elem_attr. simpl.
  rewrite lookup_alter_eq. now destruct (elems st !! i).
Qed.

Lemma attrs_of_set_other (i j : nat) (n v : string) (st : state) :
  i <> j -> attrs_of (set_elem_attr i n v st) j = attrs_of st j.
Proof.
  intros H. unfold attrs_of, set_elem_attr. simpl.
  now rewrite lookup_alter_ne.
Qed.

Lemma getAttribute_set_same (i : nat) (n v : string) (st : state) :
  is_Some (elems st !! i) ->
  getAttribute (set_elem_attr i n v st) i n = Some v.
Proof.
  intros [e He]. unfold getAttribute. rewrite attrs_of_set_same, He.
  apply get_set_same.
Qed.

Lemma getAttribute_set_other (i j : nat) (n m v : string) (st : state) :
  i <> j \/ n <> m ->
  getAttribute (set_elem_attr i n v st) j m = getAttribute st j m.
Proof.
  intros H. unfold getAttribute.
  destruct (decide (i = j)) as [->|Hij].
  - destruct H as [H|H]; [congruence|].
    rewrite attrs_of_set_same. unfold attrs_of.
    destruct (elems st !! j); [|reflexivity]. now apply get_set_other.
  - now rewrite attrs_of_set_other.
Qed.

Lemma set_elem_attr_id (i : nat) (n v : string) (st : state) :
  getAttribute st i n = Some v -> set_elem_attr i n v st = st.
Proof.
  unfold getAttribute, attrs_of, set_elem_attr, with_elems.
  destruct st as [f E nx nw tm rl]; simpl. intros H. f_equal.
  apply map_eq. intros j. destruct (decide (i = j)) as [->|Hij].
  - rewrite lookup_alter_eq. destruct (E !! j) as [[t a]|]; [|reflexivity].
    simpl in *. now rewrite set_attr_same_value.
  - now rewrite lookup_alter_ne.
Qed.

Lemma elems_set_elem_attr_dom (i j : nat) (n v : string) (st : state) :
  is_Some (elems (set_elem_attr i n v st) !! j) <-> is_Some (elems st !! j).
Proof.
  unfold set_elem_attr. simpl.
  destruct (decide (i = j)) as [->|Hij].
  - rewrite lookup_alter_eq. destruct (elems st !! j); simpl; split; intros [? ?]; eauto; discriminate.
  - now rewrite lookup_alter_ne.
Qed.

Lemma tag_of_set_elem_attr (i j : nat) (n v : string) (st : state) :
  tag_of (set_elem_attr i n v st) j = tag_of st j.
Proof.
  unfold tag_of, set_elem_attr. simpl.
  destruct (decide (i = j)) as [->|Hij].
  - rewrite lookup_alter_eq. now destruct (elems st !! j).
  - now rewrite lookup_alter_ne.
Qed.

(** ** The forest *)

Lemma first_some_None {A C} (f : A -> option C) (l : list A) :
  first_some f l = None <-> Forall (fun a => f a = None) l.
Proof.
  induction l as [|a r IH]; simpl.
  - split; [constructor | reflexivity].
  - destruct (f a) eqn:E.
    + split; [discriminate | intros H; inversion H; congruence].
    + rewrite IH. split; [now constructor | intros H; now inversion H].
Qed.

Lemma in_forest_ids (x : nat) (l : list tree) :
  In x (forest_ids l) <-> exists t, In t l /\ In x (ids t).
Proof. unfold forest_ids. apply in_flat_map. Qed.

Lemma find_in_label (x : nat) (t s : tree) :
  find_in x t = Some s -> exists ks, s = El x ks.
Proof.
  revert s. induction t as [s0|i ks IH] using tree_ind2; intros s; simpl.
  - discriminate.
  - destruct (Nat.eqb_spec i x) as [->|Hne].
    + intros [= <-]. eauto.
    + induction IH as [|k r Hk _ IHr]; simpl; [discriminate|].
      destruct (find_in x k) eqn:E.
      * intros [= <-]. eauto.
      * exact IHr.
Qed.

Lemma find_node_label (x : nat) (f : list tree) (s : tree) :
  find_node x f = Some s -> exists ks, s = El x ks.
Proof.
  unfold find_node. induction f as [|k r IH]; simpl; [discriminate|].
  destruct (find_in x k) eqn:E.
  - intros [= <-]. eapply find_in_label; eauto.
  - exact IH.
Qed.

Lemma find_in_None (x : nat) (t : tree) :
  find_in x t = None <-> ~ In x (ids t).
Proof.
  induction t as [s0|i ks IH] using tree_ind2; simpl.
  - tauto.
  - destruct (Nat.eqb_spec i x) as [->|Hne].
    + split; [discriminate | tauto].
    + rewrite first_some_None. fold (forest_ids ks). rewrite in_forest_ids.
      split.
      * intros HF [H|(t & Ht & Hx)]; [congruence|].
        rewrite List.Forall_forall in IH, HF.
        apply (proj1 (IH t Ht)); [apply HF; auto | exact Hx].
      * intros H. rewrite List.Forall_forall in *. intros t Ht.
        apply (proj2 (IH t Ht)). intros Hx. apply H. right. eauto.
Qed.

Lemma find_node_None (x : nat) (f : list tree) :
  find_node x f = None <-> ~ In x (forest_ids f).
Proof.
  unfold find_node. rewrite first_some_None, in_forest_ids, List.Forall_forall.
  split.
  - intros H (t & Ht & Hx). apply (find_in_None x t); auto.
  - intros H t Ht. apply find_in_None. intros Hx. apply H. eauto.
Qed.

Lemma find_node_Some (x : nat) (f : list tree) :
  In x (forest_ids f) <-> is_Some (find_node x f).
Proof.
  destruct (find_node x f) eqn:E.
  - split; [eauto|]. intros _.
    destruct (in_dec Nat.eq_dec x (forest_ids f)) as [H|H]; [exact H|].
    apply find_node_None in H. congruence.
  - apply find_node_None in E. split; [tauto|]. intros [? ?]. discriminate.
Qed.

Lemma rw_list_None (rec : tree -> option (list tree)) (l : list tree) :
  rw_list rec l = None <-> Forall (fun t => rec t = None) l.
Proof.
  induction l as [|k r IH]; simpl.
  - split; [constructor | reflexivity].
  - destruct (rec k) eqn:E.
    + split; [discriminate | intros H; inversion H; congruence].
    + destruct (rw_list rec r); simpl.
      * split; [discriminate|]. intros H. inversion H; subst.
        destruct IH as [_ IH]. now specialize (IH H3).
      * split; [|reflexivity]. intros _. constructor; [exact E | now apply IH].
Qed.

Lemma rw_tree_None (x : nat) (g : tree -> list tree) (t : tree) :
  rw_tree x g t = None <-> ~ In x (ids t).
Proof.
  induction t as [s0|i ks IH] using tree_ind2; simpl.
  - tauto.
  - destruct (Nat.eqb_spec i x) as [->|Hne].
    + split; [discriminate | tauto].
    + fold (forest_ids ks). rewrite in_forest_ids.
      destruct (rw_list (rw_tree x g) ks) eqn:E; simpl.
      * split; [discriminate|]. intros H. exfalso.
        assert (HN : rw_list (rw_tree x g) ks = None); [|congruence].
        apply rw_list_None. rewrite List.Forall_forall in *. intros t Ht.
        apply IH; auto. intros Hx. apply H. right. eauto.
      * split; [|reflexivity]. intros _ [H|(t & Ht & Hx)]; [congruence|].
        apply rw_list_None in E. rewrite List.Forall_forall in *.
        apply (IH t Ht); auto.
Qed.

Lemma rw_forest_None (x : nat) (g : tree -> list tree) (f : list tree) :
  rw_list (rw_tree x g) f = None <-> ~ In x (forest_ids f).
Proof.
  rewrite rw_list_None, in_forest_ids, List.Forall_forall. split.
  - intros H (t & Ht & Hx). apply (rw_tree_None x g t); auto.
  - intros H t Ht. apply rw_tree_None. intros Hx. apply H. eauto.
Qed.

(** Rewriting a node into a single node with the same label: the node is
    found again, rewritten. *)
Lemma find_in_rw_tree (x : nat) (g : tree -> list tree) (g1 : tree -> tree)
    (t s : tree) :
  (forall u, g u = [g1 u]) -> (forall u, is_el x (g1 u) = true) ->
  find_in x t = Some s ->
  exists t', rw_tree x g t = Some [t'] /\ find_in x t' = Some (g1 s).
Proof.
  intros Hg Hl. revert s.
  induction t as [s0|i ks IH] using tree_ind2; intros s; simpl.
  - discriminate.
  - destruct (Nat.eqb_spec i x) as [->|Hne].
    + intros [= <-]. exists (g1 (El x ks)). split; [now rewrite Hg|].
      specialize (Hl (El x ks)). destruct (g1 (El x ks)) as [|j js]; simpl in *;
        [discriminate|]. now rewrite Hl.
    + intros H.
      assert (exists ks', rw_list (rw_tree x g) ks = Some ks'
                          /\ first_some (find_in x) ks' = Some (g1 s)) as (ks' & E1 & E2).
      { clear Hne. induction IH as [|k r Hk _ IHr]; simpl in *; [discriminate|].
        destruct (find_in x k) eqn:E.
        - injection H as <-. destruct (Hk _ eq_refl) as (k' & R1 & R2).
          rewrite R1. eexists; split; [reflexivity|]. simpl. now rewrite R2.
        - destruct (IHr H) as (r' & R1 & R2).
          assert (rw_tree x g k = None) as ->.
          { apply rw_tree_None. now apply find_in_None. }
          rewrite R1. simpl. eexists; split; [reflexivity|]. simpl. now rewrite E. }
      rewrite E1. simpl. eexists; split; [reflexivity|]. simpl.
      destruct (Nat.eqb_spec i x); [congruence|]. exact E2.
Qed.

Lemma find_node_rewrite (x : nat) (g : tree -> list tree) (g1 : tree -> tree)
    (f : list tree) (s : tree) :
  (forall u, g u = [g1 u]) -> (forall u, is_el x (g1 u) = true) ->
  find_node x f = Some s ->
  find_node x (rewrite_first x g f) = Some (g1 s).
Proof.
  intros Hg Hl. unfold find_node, rewrite_first.
  induction f as [|k r IH]; simpl; [discriminate|].
  destruct (find_in x k) eqn:E.
  - intros [= <-]. destruct (find_in_rw_tree x g g1 k _ Hg Hl E) as (k' & R1 & R2).
    rewrite R1. simpl. now rewrite R2.
  - intros H. specialize (IH H).
    assert (rw_tree x g k = None) as ->.
    { apply rw_tree_None. now apply find_in_None. }
    destruct (rw_list (rw_tree x g) r) eqn:R; simpl.
    + now rewrite E.
    + now rewrite E.
Qed.

Lemma find_node_modify_kids (x : nat) (h : list tree -> list tree)
    (f : list tree) (s : tree) :
  find_node x f = Some s ->
  find_node x (modify_kids x h f) = Some (El x (h (tree_kids s))).
Proof.
  intros H. unfold modify_kids.
  apply (find_node_rewrite x _ (fun t => El x (h (tree_kids t)))); auto.
  intros u. simpl. apply Nat.eqb_refl.
Qed.

Lemma modify_kids_absent (x : nat) (h : list tree -> list tree) (f : list tree) :
  find_node x f = None -> modify_kids x h f = f.
Proof.
  intros H. unfold modify_kids, rewrite_first.
  apply find_node_None in H.
  now rewrite (proj2 (rw_forest_None x (fun t => [El x (h (tree_kids t))]) f) H).
Qed.

Lemma first_some_app {A C} (f : A -> option C) (l1 l2 : list A) :
  first_some f (l1 ++ l2)
  = match first_some f l1 with Some b => Some b | None => first_some f l2 end.
Proof.
  induction l1 as [|a r IH]; simpl; [reflexivity|].
  destruct (f a); [reflexivity | exact IH].
Qed.

Lemma find_node_app_l (x : nat) (f1 f2 : list tree) (s : tree) :
  find_node x f1 = Some s -> find_node x (f1 ++ f2) = Some s.
Proof. unfold find_node. intros H. now rewrite first_some_app, H. Qed.

(** ** The reload counter *)

Lemma keeps_reloads_ret {A} (a : A) : keeps_reloads (ret a).
Proof. intros st. reflexivity. Qed.

Lemma keeps_reloads_throw {A} : keeps_reloads (@throw A).
Proof. intros st. reflexivity. Qed.

Lemma keeps_reloads_gets {A} (f : state -> A) : keeps_reloads (gets f).
Proof. intros st. reflexivity. Qed.

Lemma keeps_reloads_modify (f : state -> state) :
  (forall st, reloads (f st) = reloads st) -> keeps_reloads (modify f).
Proof. intros H st. apply H. Qed.

Lemma keeps_reloads_bind {A C} (m : M A) (k : A -> M C) :
  keeps_reloads m -> (forall a, keeps_reloads (k a)) -> keeps_reloads (bind m k).
Proof.
  intros Hm Hk st. unfold bind. specialize (Hm st).
  destruct (m st) as [a st'|st']; simpl in *.
  - now rewrite Hk.
  - exact Hm.
Qed.

Lemma keeps_reloads_forEach {A} (f : A -> M unit) (l : list A) :
  (forall a, keeps_reloads (f a)) -> keeps_reloads (forEach f l).
Proof.
  intros Hf. induction l as [|a r IH]; simpl.
  - apply keeps_reloads_ret.
  - apply keeps_reloads_bind; auto.
Qed.

Create HintDb keeps.

Ltac keeps :=
  repeat first
    [ solve [auto 1 with keeps nocore]
    | apply keeps_reloads_ret
    | apply keeps_reloads_throw
    | apply keeps_reloads_gets
    | apply keeps_reloads_forEach; intros ?
    | apply keeps_reloads_bind; [|intros ?]
    | apply keeps_reloads_modify; intros ?; reflexivity
    | match goal with
      | |- keeps_reloads (match ?x with _ => _ end) => destruct x
      | |- keeps_reloads (if ?x then _ else _) => destruct x
      end ].

Lemma reloads_set_elem_attr (i : nat) (n v : string) (st : state) :
  reloads (set_elem_attr i n v st) = reloads st.
Proof. reflexivity. Qed.

Lemma keeps_reloads_setAttribute (i : nat) (n v : string) :
  keeps_reloads (setAttribute i n v).
Proof. unfold setAttribute. keeps. Qed.
#[local] Hint Resolve keeps_reloads_setAttribute : keeps.

Lemma keeps_reloads_classList_add (i : nat) (c : string) :
  keeps_reloads (classList_add i c).
Proof. unfold classList_add. keeps. Qed.
#[local] Hint Resolve keeps_reloads_classList_add : keeps.

Lemma keeps_reloads_style_set (B : browser) (i : nat) (p v : string) :
  keeps_reloads (style_set B i p v).
Proof. unfold style_set. keeps. Qed.
#[local] Hint Resolve keeps_reloads_style_set : keeps.

Lemma keeps_reloads_setTimeout (t : task) (d : float) :
  keeps_reloads (setTimeout t d).
Proof. unfold setTimeout. keeps. Qed.
#[local] Hint Resolve keeps_reloads_setTimeout : keeps.

Lemma keeps_reloads_set_innerHTML_from (B : browser) (t s : nat) :
  keeps_reloads (set_innerHTML_from B t s).
Proof.
  unfold set_innerHTML_from. apply keeps_reloads_modify. intros st.
  destruct (map_acc _ _ _) as [copies [E n]]. reflexivity.
Qed.
#[local] Hint Resolve keeps_reloads_set_innerHTML_from : keeps.

Lemma keeps_reloads_insertAdjacentElement (t : nat) (pos : where_) (el : nat) :
  keeps_reloads (insertAdjacentElement t pos el).
Proof.
  intros st. unfold insertAdjacentElement.
  destruct pos; repeat (match goal with
                        | |- context [match ?x with _ => _ end] => destruct x
                        end); reflexivity.
Qed.
#[local] Hint Resolve keeps_reloads_insertAdjacentElement : keeps.

Lemma keeps_reloads_hideAndRemove (B : browser) (el : nat) :
  keeps_reloads (hideAndRemove B el).
Proof.
  unfold hideAndRemove, createElement, wrap_in.
  keeps.
Qed.
#[local] Hint Resolve keeps_reloads_hideAndRemove : keeps.

Lemma keeps_reloads_insertAndReveal (B : browser) (el : nat) (t : option nat)
    (pos : where_) (d : float) :
  keeps_reloads (insertAndReveal B el t pos d).
Proof.
  unfold insertAndReveal.
  keeps.
Qed.
#[local] Hint Resolve keeps_reloads_insertAndReveal : keeps.

Lemma keeps_reloads_query_by_key (B : browser) (c : nat) (a key : string) :
  keeps_reloads (query_by_key B c a key).
Proof.
  intros st. unfold query_by_key.
  destruct (css_plain key); [reflexivity|].
  destruct (spliced_query B st c a key); reflexivity.
Qed.
#[local] Hint Resolve keeps_reloads_query_by_key : keeps.

Lemma keeps_reloads_setAttribute_of_markup (B : browser) (i : nat) (n v : string) :
  keeps_reloads (setAttribute_of_markup B i n v).
Proof. unfold setAttribute_of_markup. keeps. Qed.
#[local] Hint Resolve keeps_reloads_setAttribute_of_markup : keeps.

Lemma keeps_reloads_merge_content (B : browser) (tc newEl : nat) :
  keeps_reloads (merge_content B tc newEl).
Proof.
  unfold merge_content.
  keeps.
Qed.
#[local] Hint Resolve keeps_reloads_merge_content : keeps.

Lemma keeps_reloads_merge_attributes (B : browser) (tc newEl : nat) :
  keeps_reloads (merge_attributes B tc newEl).
Proof.
  unfold merge_attributes. keeps.
Qed.
#[local] Hint Resolve keeps_reloads_merge_attributes : keeps.

Lemma keeps_reloads_list_step (B : browser) (tl i x : nat) (tr : list nat) :
  keeps_reloads (list_step B tl i x tr).
Proof.
  unfold list_step.
  keeps.
Qed.
#[local] Hint Resolve keeps_reloads_list_step : keeps.

Lemma keeps_reloads_list_loop (B : browser) (tl : nat) (l : list nat) :
  forall i tr, keeps_reloads (list_loop B tl l i tr).
Proof.
  induction l as [|x r IH]; intros i tr; simpl.
  - apply keeps_reloads_ret.
  - apply keeps_reloads_bind; [apply keeps_reloads_list_step | intros; apply IH].
Qed.
#[local] Hint Resolve keeps_reloads_list_loop : keeps.

Lemma keeps_reloads_merge_list (B : browser) (tc newList : nat) :
  keeps_reloads (merge_list B tc newList).
Proof.
  unfold merge_list, remove_step.
  keeps.
Qed.
#[local] Hint Resolve keeps_reloads_merge_list : keeps.

Lemma keeps_reloads_merge_body (B : browser) (nc tc : nat) :
  keeps_reloads (merge_body B nc tc).
Proof.
  unfold merge_body.
  keeps.
Qed.
#[local] Hint Resolve keeps_reloads_merge_body : keeps.

Lemma wfb_wf (st : state) : wfb st = true -> wf st.
Proof.
  unfold wfb, wf. rewrite !andb_true_iff, bool_decide_eq_true, !forallb_forall.
  intros [[H1 H2] H3]. split; [exact H1|]. split.
  - intros i Hi. apply Nat.ltb_lt. now apply H2.
  - intros i [e He]. apply Nat.ltb_lt.
    apply (H3 (i, e)). apply list_elem_of_In. now apply elem_of_map_to_list.
Qed.

Lemma NoDup_check (l : list nat) : bool_decide (NoDup l) = true -> NoDup l.
Proof. apply bool_decide_eq_true_1. Qed.

Lemma forest_ids_cons (t : tree) (l : list tree) :
  forest_ids (t :: l) = ids t ++ forest_ids l.
Proof. reflexivity. Qed.

Lemma forest_ids_app (l1 l2 : list tree) :
  forest_ids (l1 ++ l2) = forest_ids l1 ++ forest_ids l2.
Proof. unfold forest_ids. apply flat_map_app. Qed.

(** What a rewrite does to the identities in document order. *)
Lemma rw_list_ids (x : nat) (g : tree -> list tree) (ks : list tree) :
  Forall (fun k => forall l, rw_tree x g k = Some l ->
            exists A C s, find_in x k = Some s
              /\ ids k = A ++ ids s ++ C
              /\ forest_ids l = A ++ forest_ids (g s) ++ C) ks ->
  forall ks', rw_list (rw_tree x g) ks = Some ks' ->
  exists A C s, first_some (find_in x) ks = Some s
    /\ forest_ids ks = A ++ ids s ++ C
    /\ forest_ids ks' = A ++ forest_ids (g s) ++ C.
Proof.
  induction 1 as [|k r Hk _ IHr]; intros ks' E; cbn [rw_list first_some] in *;
    [discriminate|].
  destruct (rw_tree x g k) as [l1|] eqn:Ek.
  - injection E as <-. destruct (Hk _ eq_refl) as (A & C & s & H1 & H2 & H3).
    exists A, (C ++ forest_ids r), s. rewrite H1.
    split; [reflexivity|].
    rewrite forest_ids_cons, forest_ids_app, H2, H3.
    now rewrite <- !app_assoc.
  - destruct (rw_list (rw_tree x g) r) as [r'|] eqn:Er; cbn in E; [|discriminate].
    injection E as <-.
    destruct (IHr _ eq_refl) as (A & C & s & H1 & H2 & H3).
    exists (ids k ++ A), C, s.
    assert (find_in x k = None) as ->.
    { apply find_in_None. now apply (rw_tree_None x g). }
    split; [exact H1|].
    rewrite !forest_ids_cons, H2, H3. now rewrite <- !app_assoc.
Qed.

Lemma rw_tree_ids (x : nat) (g : tree -> list tree) (t : tree) (l : list tree) :
  rw_tree x g t = Some l ->
  exists A C s, find_in x t = Some s
    /\ ids t = A ++ ids s ++ C
    /\ forest_ids l = A ++ forest_ids (g s) ++ C.
Proof.
  revert l. induction t as [s0|i ks IH] using tree_ind2; intros l;
    cbn [rw_tree find_in].
  - discriminate.
  - destruct (Nat.eqb_spec i x) as [->|Hne].
    + intros [= <-]. exists [], [], (El x ks).
      split; [reflexivity|]. cbn [app]. now rewrite !app_nil_r.
    + destruct (rw_list (rw_tree x g) ks) as [ks'|] eqn:E; cbn; [|discriminate].
      intros [= <-].
      destruct (rw_list_ids x g ks IH ks' E) as (A & C & s & H1 & H2 & H3).
      exists (i :: A), C, s. split; [exact H1|].
      fold (forest_ids ks). rewrite H2.
      rewrite forest_ids_cons. cbn [ids]. fold (forest_ids ks').
      rewrite H3. unfold forest_ids at 3. cbn. rewrite app_nil_r.
      split; reflexivity.
Qed.

Lemma rw_forest_ids (x : nat) (g : tree -> list tree) (f f' : list tree) :
  rw_list (rw_tree x g) f = Some f' ->
  exists A C s, find_node x f = Some s
    /\ forest_ids f = A ++ ids s ++ C
    /\ forest_ids f' = A ++ forest_ids (g s) ++ C.
Proof.
  apply rw_list_ids. apply List.Forall_forall. intros k _ l.
  apply rw_tree_ids.
Qed.

Lemma rewrite_first_ids (x : nat) (g : tree -> list tree) (f : list tree) (s : tree) :
  find_node x f = Some s ->
  exists A C, forest_ids f = A ++ ids s ++ C
    /\ forest_ids (rewrite_first x g f) = A ++ forest_ids (g s) ++ C.
Proof.
  intros H. unfold rewrite_first.
  destruct (rw_list (rw_tree x g) f) as [f'|] eqn:E.
  - destruct (rw_forest_ids _ _ _ _ E) as (A & C & s' & H1 & H2 & H3).
    assert (s' = s) as -> by congruence. eauto.
  - apply rw_forest_None in E. apply find_node_None in E. congruence.
Qed.

(** ** Class tokens *)

Lemma app_str_cons (c : ascii) (a b : string) :
  String c a +:+ b = String c (a +:+ b).
Proof. reflexivity. Qed.

Lemma app_str_nil_l (s : string) : "" +:+ s = s.
Proof. reflexivity. Qed.

Lemma app_str_nil_r (s : string) : s +:+ "" = s.
Proof.
  induction s as [|c r IH]; [reflexivity | now rewrite app_str_cons, IH].
Qed.

Lemma app_str_assoc (a b c : string) : (a +:+ b) +:+ c = a +:+ (b +:+ c).
Proof.
  induction a as [|x r IH]; [reflexivity | now rewrite !app_str_cons, IH].
Qed.

Lemma app_str_empty (a b : string) : a +:+ b = "" -> a = "" /\ b = "".
Proof. destruct a; [auto | rewrite app_str_cons; discriminate]. Qed.

Lemma no_ws_app (a b : string) : no_ws (a +:+ b) = no_ws a && no_ws b.
Proof.
  induction a as [|x r IH]; [reflexivity|].
  rewrite app_str_cons. simpl. now rewrite IH, andb_assoc.
Qed.

Lemma tokens_go_word (cur t rest : string) :
  no_ws t = true -> tokens_go cur (t +:+ rest) = tokens_go (cur +:+ t) rest.
Proof.
  revert cur. induction t as [|c r IH]; intros cur H.
  - now rewrite app_str_nil_l, app_str_nil_r.
  - simpl in H. apply andb_true_iff in H as [Hc Hr]. apply negb_true_iff in Hc.
    rewrite app_str_cons. simpl. rewrite Hc, IH by exact Hr.
    now rewrite app_str_assoc.
Qed.

Lemma tokens_go_join (l : list string) :
  Forall tok_ok l ->
  forall cur,
    tokens_go cur (join_tokens l)
    = match l with
      | [] => if str_eqb cur "" then [] else [cur]
      | t :: r => (cur +:+ t) :: r
      end.
Proof.
  induction 1 as [|t r [Hne Hws] Hr IH]; intros cur; [reflexivity|].
  assert (Hcur : str_eqb (cur +:+ t) "" = false).
  { apply str_eqb_neq. intros E. apply app_str_empty in E. tauto. }
  destruct r as [|t2 r].
  - simpl. rewrite <- (app_str_nil_r t) at 1.
    rewrite tokens_go_word by exact Hws. simpl. now rewrite Hcur.
  - change (join_tokens (t :: t2 :: r)) with (t +:+ (" " +:+ join_tokens (t2 :: r))).
    rewrite tokens_go_word by exact Hws.
    change (tokens_go (cur +:+ t) (" " +:+ join_tokens (t2 :: r)))
      with (if str_eqb (cur +:+ t) "" then tokens_go "" (join_tokens (t2 :: r))
            else (cur +:+ t) :: tokens_go "" (join_tokens (t2 :: r))).
    rewrite Hcur, IH. reflexivity.
Qed.

Lemma tokens_go_ok (s cur : string) :
  no_ws cur = true -> Forall tok_ok (tokens_go cur s).
Proof.
  revert cur. induction s as [|c r IH]; intros cur H; simpl.
  - destruct (str_eqb cur "") eqn:E; [constructor|].
    apply str_eqb_neq in E. repeat constructor; assumption.
  - destruct (is_ws c) eqn:Ec.
    + destruct (str_eqb cur "") eqn:E; [now apply IH|].
      apply str_eqb_neq in E. constructor; [split; assumption | now apply IH].
    + apply IH. rewrite no_ws_app, H. simpl. now rewrite Ec.
Qed.

Lemma ordered_set_elem (x : string) (l : list string) :
  x ∈ ordered_set l -> x ∈ l.
Proof.
  induction l as [|t r IH]; simpl; [auto|].
  intros H. apply elem_of_cons in H as [->|H]; [left|].
  right. apply IH. apply list_elem_of_In in H. apply filter_In in H as [H _].
  now apply list_elem_of_In.
Qed.

Lemma ordered_set_NoDup (l : list string) : NoDup (ordered_set l).
Proof.
  induction l as [|t r IH]; simpl; constructor.
  - intros H. apply list_elem_of_In, filter_In in H as [_ H].
    now rewrite str_eqb_refl in H.
  - apply NoDup_ListNoDup, List.NoDup_filter, NoDup_ListNoDup, IH.
Qed.

Lemma filter_other_tokens (x : string) (l : list string) :
  x ∉ l -> List.filter (fun u => negb (str_eqb x u)) l = l.
Proof.
  induction l as [|y r IH]; intros Hx; simpl; [reflexivity|].
  destruct (str_eqb x y) eqn:E.
  - apply str_eqb_eq in E. subst. exfalso. apply Hx. left.
  - simpl. f_equal. apply IH. intros H. apply Hx. now right.
Qed.

Lemma ordered_set_fixed (l : list string) : NoDup l -> ordered_set l = l.
Proof.
  induction 1 as [|x l Hx Hl IH]; simpl; [reflexivity|].
  rewrite IH. f_equal. now apply filter_other_tokens.
Qed.

Lemma class_tokens_ok (v : string) :
  Forall tok_ok (class_tokens v) /\ NoDup (class_tokens v).
Proof.
  unfold class_tokens. split; [|apply ordered_set_NoDup].
  apply Forall_forall. intros t Ht. apply ordered_set_elem in Ht.
  pose proof (tokens_go_ok v "" eq_refl) as H.
  rewrite Forall_forall in H. now apply H.
Qed.

Lemma class_tokens_join (l : list string) :
  Forall tok_ok l -> NoDup l -> class_tokens (join_tokens l) = l.
Proof.
  intros H1 H2. unfold class_tokens. rewrite tokens_go_join by exact H1.
  destruct l; [reflexivity|]. simpl (_ +:+ _). now apply ordered_set_fixed.
Qed.

Lemma has_token_In (c : string) (l : list string) :
  has_token c l = true <-> c ∈ l.
Proof.
  unfold has_token. rewrite existsb_exists. split.
  - intros (x & Hx & E). apply str_eqb_eq in E. subst. now apply list_elem_of_In.
  - intros H. exists c. split; [now apply list_elem_of_In | apply str_eqb_refl].
Qed.

Lemma class_tokens_add (c v : string) :
  tok_ok c ->
  class_tokens (class_add c v)
  = if has_token c (class_tokens v) then class_tokens v else class_tokens v ++ [c].
Proof.
  intros Hc. unfold class_add.
  destruct (class_tokens_ok v) as [H1 H2].
  destruct (has_token c (class_tokens v)) eqn:E.
  - now apply class_tokens_join.
  - apply class_tokens_join.
    + apply Forall_app. split; [exact H1 | constructor; [exact Hc | constructor]].
    + apply NoDup_app. split; [exact H2|]. split; [|apply NoDup_singleton].
      intros x Hx Hx'. apply list_elem_of_singleton in Hx'. subst x.
      apply has_token_In in Hx. congruence.
Qed.

Lemma has_token_add (c v : string) :
  tok_ok c -> has_token c (class_tokens (class_add c v)) = true.
Proof.
  intros Hc. rewrite class_tokens_add by exact Hc.
  destruct (has_token c (class_tokens v)) eqn:E; [exact E|].
  apply has_token_In. apply elem_of_app. right. now apply list_elem_of_singleton.
Qed.

Lemma has_token_add_other (c d v : string) :
  tok_ok c -> has_token d (class_tokens v) = true ->
  has_token d (class_tokens (class_add c v)) = true.
Proof.
  intros Hc H. rewrite class_tokens_add by exact Hc.
  destruct (has_token c (class_tokens v)); [exact H|].
  apply has_token_In. apply elem_of_app. left. now apply has_token_In.
Qed.

Lemma has_token_add_inv (c d v : string) :
  tok_ok c -> c <> d ->
  has_token d (class_tokens (class_add c v)) = has_token d (class_tokens v).
Proof.
  intros Hc Hne. rewrite class_tokens_add by exact Hc.
  destruct (has_token c (class_tokens v)); [reflexivity|].
  unfold has_token. rewrite existsb_app. simpl.
  apply not_eq_sym in Hne. apply str_eqb_neq in Hne. rewrite Hne.
  now rewrite !orb_false_r.
Qed.

Lemma class_tokens_remove (c v : string) :
  class_tokens (class_remove c v)
  = List.filter (fun t => negb (str_eqb c t)) (class_tokens v).
Proof.
  unfold class_remove. destruct (class_tokens_ok v) as [H1 H2].
  apply class_tokens_join.
  - apply Forall_forall. intros t Ht. apply list_elem_of_In, filter_In in Ht.
    rewrite Forall_forall in H1. apply H1. now apply list_elem_of_In.
  - apply NoDup_ListNoDup. apply List.NoDup_filter. now apply NoDup_ListNoDup.
Qed.

Lemma has_token_remove (c v : string) :
  has_token c (class_tokens (class_remove c v)) = false.
Proof.
  rewrite class_tokens_remove. apply not_true_is_false. intros H.
  apply has_token_In, list_elem_of_In, filter_In in H. destruct H as [_ H].
  now rewrite str_eqb_refl in H.
Qed.

Lemma has_token_remove_other (c d v : string) :
  has_token d (class_tokens v) = false ->
  has_token d (class_tokens (class_remove c v)) = false.
Proof.
  intros H. rewrite class_tokens_remove. apply not_true_is_false. intros H'.
  apply has_token_In, list_elem_of_In, filter_In in H'. destruct H' as [H' _].
  apply list_elem_of_In, has_token_In in H'. congruence.
Qed.

(** ** Parents *)

Lemma parent_kids_Some (i x p : nat) (rec : tree -> option nat) (ks : list tree) :
  parent_kids i x rec ks = Some p ->
  (p = i /\ exists k, In k ks /\ is_el x k = true)
  \/ (exists k, In k ks /\ rec k = Some p).
Proof.
  induction ks as [|k r IH]; simpl; [discriminate|].
  destruct (is_el x k) eqn:E.
  - intros [= <-]. left. eauto.
  - destruct (rec k) eqn:R.
    + intros [= <-]. right. eauto.
    + intros H. destruct (IH H) as [(-> & k' & ? & ?)|(k' & ? & ?)]; [left|right]; eauto.
Qed.

Lemma is_el_ids (x : nat) (t : tree) : is_el x t = true -> In x (ids t).
Proof.
  destruct t as [|i ks]; simpl; [discriminate|].
  intros H. apply Nat.eqb_eq in H. now left.
Qed.

Lemma in_ids_cases (x : nat) (t : tree) :
  In x (ids t) <-> is_el x t = true \/ In x (forest_ids (tree_kids t)).
Proof.
  destruct t as [|i ks]; simpl.
  - split; [tauto | intros [?|?]; [discriminate | assumption]].
  - rewrite Nat.eqb_eq. reflexivity.
Qed.

Lemma parent_in_Some (x p : nat) (t : tree) :
  parent_in x t = Some p -> In x (forest_ids (tree_kids t)) /\ In p (ids t).
Proof.
  revert p. induction t as [s0|i ks IH] using tree_ind2; intros p; simpl.
  - discriminate.
  - intros H. apply parent_kids_Some in H.
    rewrite List.Forall_forall in IH. fold (forest_ids ks).
    destruct H as [(-> & k & Hk & E)|(k & Hk & E)].
    + split; [|now left]. apply in_forest_ids. exists k. split; [exact Hk|].
      now apply is_el_ids.
    + destruct (IH k Hk p E) as [H1 H2]. split.
      * apply in_forest_ids. exists k. split; [exact Hk|].
        apply in_ids_cases. now right.
      * right. apply in_forest_ids. eauto.
Qed.

Lemma parent_in_None (x : nat) (t : tree) :
  ~ In x (forest_ids (tree_kids t)) -> parent_in x t = None.
Proof.
  intros H. destruct (parent_in x t) eqn:E; [|reflexivity].
  apply parent_in_Some in E. tauto.
Qed.

Lemma parent_in_absent (x : nat) (t : tree) :
  ~ In x (ids t) -> parent_in x t = None.
Proof.
  intros H. apply parent_in_None. intros H'. apply H. apply in_ids_cases. now right.
Qed.

Lemma is_el_absent (x : nat) (t : tree) : ~ In x (ids t) -> is_el x t = false.
Proof.
  intros H. destruct (is_el x t) eqn:E; [|reflexivity].
  apply is_el_ids in E. contradiction.
Qed.

Lemma parent_in_inner (x : nat) (t : tree) :
  In x (forest_ids (tree_kids t)) -> is_Some (parent_in x t).
Proof.
  induction t as [s0|i ks IH] using tree_ind2; cbn [tree_kids parent_in].
  - intros [].
  - induction IH as [|k r Hk _ IHr]; cbn [parent_kids]; [intros []|].
    rewrite forest_ids_cons, in_app_iff.
    destruct (is_el x k) eqn:E; [eauto|].
    intros [H|H].
    + apply in_ids_cases in H. destruct H as [H|H]; [congruence|].
      destruct (Hk H) as [p ->]. eauto.
    + destruct (parent_in x k); [eauto | now apply IHr].
Qed.

Lemma parent_of_Some (x p : nat) (f : list tree) :
  parent_of x f = Some p -> In x (forest_ids f) /\ In p (forest_ids f).
Proof.
  unfold parent_of. induction f as [|k r IH]; cbn [first_some]; [discriminate|].
  rewrite forest_ids_cons, !in_app_iff.
  destruct (parent_in x k) eqn:E.
  - intros [= <-]. apply parent_in_Some in E as [H1 H2].
    split; [|now left]. left. apply in_ids_cases. now right.
  - intros H. destruct (IH H). tauto.
Qed.

Lemma find_in_inner (y x : nat) (t s : tree) :
  find_in y t = Some s ->
  In x (forest_ids (tree_kids s)) -> In x (forest_ids (tree_kids t)).
Proof.
  revert s. induction t as [s0|i ks IH] using tree_ind2; intros s; simpl.
  - discriminate.
  - destruct (Nat.eqb i y).
    + now intros [= <-].
    + intros H Hx. cbn [tree_kids].
      induction IH as [|k r Hk _ IHr]; cbn [first_some] in *; [discriminate|].
      rewrite forest_ids_cons, in_app_iff.
      destruct (find_in y k) eqn:E.
      * injection H as <-. left. apply in_ids_cases. right. eapply Hk; eauto.
      * right. now apply IHr.
Qed.

(** A descendant has a parent. *)
Lemma descendant_has_parent (x y : nat) (f : list tree) :
  In x (descendants y f) -> is_Some (parent_of x f).
Proof.
  unfold descendants, parent_of, find_node.
  induction f as [|k r IH]; cbn [first_some]; [intros []|].
  destruct (find_in y k) eqn:E.
  - intros H. fold (forest_ids (tree_kids t)) in H.
    apply (find_in_inner _ _ _ _ E), parent_in_inner in H.
    destruct H as [p ->]. eauto.
  - intros H. destruct (parent_in x k); [eauto | now apply IH].
Qed.

Lemma descendant_in_forest (x y : nat) (f : list tree) :
  In x (descendants y f) -> In x (forest_ids f).
Proof.
  intros H. apply descendant_has_parent in H as [p H].
  now apply parent_of_Some in H.
Qed.

(** ** Wrapping a node *)

Section Wrap.
Variables x w : nat.
Abbreviation g := (fun t : tree => [El w [t]]).

Lemma wrap_tree_parent (t : tree) :
  w <> x ->
  forall l, rw_tree x g t = Some l ->
  exists t', l = [t'] /\ is_el x t' = false /\ parent_in x t' = Some w.
Proof.
  intros Hw. induction t as [s0|i ks IH] using tree_ind2; intros l;
    cbn [rw_tree].
  - discriminate.
  - destruct (Nat.eqb_spec i x) as [->|Hne].
    + intros [= <-]. eexists; split; [reflexivity|]. simpl.
      rewrite Nat.eqb_refl. split; [now apply Nat.eqb_neq | reflexivity].
    + destruct (rw_list (rw_tree x g) ks) as [ks'|] eqn:E; [|discriminate].
      intros [= <-]. eexists; split; [reflexivity|].
      split; [simpl; now apply Nat.eqb_neq|]. simpl.
      clear Hne. revert ks' E.
      induction IH as [|k r Hk _ IHr]; intros ks' E; simpl in E; [discriminate|].
      destruct (rw_tree x g k) as [l1|] eqn:Ek.
      * injection E as <-. destruct (Hk _ eq_refl) as (t' & -> & H1 & H2).
        simpl. now rewrite H1, H2.
      * destruct (rw_list (rw_tree x g) r) as [r'|]; [|discriminate].
        injection E as <-. simpl.
        apply (rw_tree_None x g) in Ek.
        rewrite (is_el_absent _ _ Ek), (parent_in_absent _ _ Ek).
        now apply IHr.
Qed.

Lemma wrap_parent (f : list tree) :
  w <> x -> In x (forest_ids f) ->
  parent_of x (rewrite_first x g f) = Some w.
Proof.
  intros Hw Hx. unfold rewrite_first, parent_of.
  destruct (rw_list (rw_tree x g) f) as [f'|] eqn:E.
  - clear Hx. revert f' E.
    induction f as [|k r IHr]; intros f' E; simpl in E; [discriminate|].
    destruct (rw_tree x g k) as [l1|] eqn:Ek.
    + injection E as <-.
      destruct (wrap_tree_parent k Hw _ Ek) as (t' & -> & H1 & H2).
      simpl. now rewrite H2.
    + destruct (rw_list (rw_tree x g) r) as [r'|]; [|discriminate].
      injection E as <-. simpl.
      apply (rw_tree_None x g) in Ek.
      rewrite (parent_in_absent _ _ Ek). now apply IHr.
  - apply rw_forest_None in E. contradiction.
Qed.

Lemma wrap_tree_other (y : nat) (t : tree) :
  y <> x -> y <> w ->
  forall l, rw_tree x g t = Some l ->
  exists t', l = [t'] /\ is_el y t' = is_el y t /\ parent_in y t' = parent_in y t.
Proof.
  intros Hx Hw. induction t as [s0|i ks IH] using tree_ind2; intros l;
    cbn [rw_tree].
  - discriminate.
  - destruct (Nat.eqb_spec i x) as [->|Hne].
    + intros [= <-]. eexists; split; [reflexivity|]. simpl.
      assert ((x =? y) = false) as E1 by (apply Nat.eqb_neq; congruence).
      assert ((w =? y) = false) as E2 by (apply Nat.eqb_neq; congruence).
      rewrite E1, E2. split; [reflexivity|].
      now destruct (parent_kids x y (parent_in y) ks).
    + destruct (rw_list (rw_tree x g) ks) as [ks'|] eqn:E; [|discriminate].
      intros [= <-]. eexists; split; [reflexivity|].
      split; [reflexivity|]. simpl.
      clear Hne. revert ks' E.
      induction IH as [|k r Hk _ IHr]; intros ks' E; simpl in E; [discriminate|].
      destruct (rw_tree x g k) as [l1|] eqn:Ek.
      * injection E as <-. destruct (Hk _ eq_refl) as (t' & -> & H1 & H2).
        simpl. now rewrite H1, H2.
      * destruct (rw_list (rw_tree x g) r) as [r'|]; [|discriminate].
        injection E as <-. simpl. now rewrite (IHr _ eq_refl).
Qed.

Lemma wrap_parent_other (y : nat) (f : list tree) :
  y <> x -> y <> w ->
  parent_of y (rewrite_first x g f) = parent_of y f.
Proof.
  intros Hx Hw. unfold rewrite_first, parent_of.
  destruct (rw_list (rw_tree x g) f) as [f'|] eqn:E; [|reflexivity].
  revert f' E.
  induction f as [|k r IHr]; intros f' E; simpl in E; [discriminate|].
  destruct (rw_tree x g k) as [l1|] eqn:Ek.
  - injection E as <-.
    destruct (wrap_tree_other y k Hx Hw _ Ek) as (t' & -> & H1 & H2).
    simpl. now rewrite H2.
  - destruct (rw_list (rw_tree x g) r) as [r'|]; [|discriminate].
    injection E as <-. simpl. now rewrite (IHr _ eq_refl).
Qed.

Lemma wrap_tree_wrapper (t : tree) :
  ~ In w (ids t) -> is_el x t = false ->
  forall l, rw_tree x g t = Some l ->
  exists t', l = [t'] /\ is_el w t' = false /\ parent_in w t' = parent_in x t
             /\ is_Some (parent_in x t).
Proof.
  induction t as [s0|i ks IH] using tree_ind2; intros Hw Hx l; cbn [rw_tree].
  - discriminate.
  - simpl in Hx. rewrite Hx.
    destruct (rw_list (rw_tree x g) ks) as [ks'|] eqn:E; [|discriminate].
    intros [= <-]. eexists; split; [reflexivity|].
    assert (Hwi : (i =? w) = false).
    { apply Nat.eqb_neq. intros ->. apply Hw. now left. }
    split; [exact Hwi|]. simpl.
    assert (Hks : ~ In w (forest_ids ks)) by (intros H; apply Hw; now right).
    clear Hx Hw Hwi. revert ks' E Hks.
    induction IH as [|k r Hk _ IHr]; intros ks' E Hks; simpl in E; [discriminate|].
    rewrite forest_ids_cons, in_app_iff in Hks.
    destruct (rw_tree x g k) as [l1|] eqn:Ek.
    * injection E as <-. destruct (is_el x k) eqn:Exk.
      -- destruct k as [|j js]; [discriminate|]. simpl in Exk.
         cbn [rw_tree] in Ek. rewrite Exk in Ek. injection Ek as <-.
         simpl. rewrite Nat.eqb_refl, Exk. split; eauto.
      -- destruct (Hk ltac:(tauto) eq_refl _ eq_refl) as (t' & -> & H1 & H2 & [p H3]).
         simpl. rewrite H1, H2, Exk, H3. split; eauto.
    * destruct (rw_list (rw_tree x g) r) as [r'|] eqn:Er; [|discriminate].
      injection E as <-. simpl.
      apply (rw_tree_None x g) in Ek.
      rewrite (is_el_absent x _ Ek), (parent_in_absent x _ Ek).
      rewrite (is_el_absent w k), (parent_in_absent w k) by tauto.
      apply (IHr _ eq_refl). tauto.
Qed.

Lemma wrap_wrapper_parent (f : list tree) (p : nat) :
  ~ In w (forest_ids f) -> Forall (fun r => is_el x r = false) f ->
  parent_of x f = Some p ->
  parent_of w (rewrite_first x g f) = Some p.
Proof.
  intros Hw Hr Hp. unfold rewrite_first.
  destruct (rw_list (rw_tree x g) f) as [f'|] eqn:E.
  - unfold parent_of in *. revert f' E Hw Hp.
    induction Hr as [|k r Hk _ IHr]; intros f' E Hw Hp; simpl in E; [discriminate|].
    rewrite forest_ids_cons, in_app_iff in Hw.
    destruct (rw_tree x g k) as [l1|] eqn:Ek.
    + injection E as <-.
      destruct (wrap_tree_wrapper k ltac:(tauto) Hk _ Ek)
        as (t' & -> & H1 & H2 & [q H3]).
      simpl in *. rewrite H2. now rewrite H3 in *.
    + destruct (rw_list (rw_tree x g) r) as [r'|] eqn:Er; [|discriminate].
      injection E as <-. simpl in *.
      apply (rw_tree_None x g) in Ek.
      rewrite (parent_in_absent x _ Ek) in Hp.
      rewrite (parent_in_absent w k) by tauto.
      apply IHr; tauto.
  - apply rw_forest_None in E. apply parent_of_Some in Hp. tauto.
Qed.
End Wrap.

Lemma NoDup_flat_map_unique {A} (h : A -> list nat) (l : list A) (a b : A) (x : nat) :
  NoDup (List.flat_map h l) -> In a l -> In b l ->
  In x (h a) -> In x (h b) -> a = b.
Proof.
  induction l as [|c l IH]; simpl; [tauto|].
  intros H Ha Hb Hxa Hxb.
  apply NoDup_app in H as (H1 & H2 & H3).
  destruct Ha as [->|Ha], Hb as [->|Hb]; [reflexivity| | |].
  - exfalso. apply (H2 x); [now apply list_elem_of_In|].
    apply list_elem_of_In, in_flat_map. eauto.
  - exfalso. apply (H2 x); [now apply list_elem_of_In|].
    apply list_elem_of_In, in_flat_map. eauto.
  - apply IH; auto.
Qed.

Lemma NoDup_flat_map_each {A} (h : A -> list nat) (l : list A) (a : A) :
  NoDup (List.flat_map h l) -> In a l -> NoDup (h a).
Proof.
  induction l as [|c l IH]; simpl; [tauto|].
  intros H Ha. apply NoDup_app in H as (H1 & H2 & H3).
  destruct Ha as [->|Ha]; [exact H1|].
  apply IH; auto.
Qed.

(** In a forest without repeated identities, a node with a parent is not a
    root. *)
Lemma inner_not_root (x p : nat) (f : list tree) :
  NoDup (forest_ids f) -> parent_of x f = Some p ->
  Forall (fun r => is_el x r = false) f.
Proof.
  intros HN Hp. apply List.Forall_forall. intros r Hr.
  destruct (is_el x r) eqn:E; [exfalso|reflexivity].
  unfold parent_of in Hp.
  assert (exists r', In r' f /\ parent_in x r' = Some p) as (r' & Hr' & Hp').
  { clear HN Hr. induction f as [|k l IH]; simpl in Hp; [discriminate|].
    destruct (parent_in x k) eqn:Ek.
    - injection Hp as ->. exists k. split; [now left | exact Ek].
    - destruct (IH Hp) as (r' & ? & ?). exists r'. split; [now right | assumption]. }
  apply parent_in_Some in Hp' as [Hin _].
  assert (r = r').
  { apply (NoDup_flat_map_unique ids f r r' x HN Hr Hr').
    - now apply is_el_ids.
    - apply in_ids_cases. now right. }
  subst r'. pose proof (NoDup_flat_map_each ids f r HN Hr) as Hnd.
  destruct r as [|i ks]; [discriminate|]. simpl in E, Hin, Hnd.
  apply Nat.eqb_eq in E. subst i. apply NoDup_cons in Hnd as [Hnd _].
  apply Hnd. now apply list_elem_of_In.
Qed.

(** ** [hideAndRemove] *)

Lemma forEach_setAttribute (n v : string) (l : list nat) (st : state) :
  forEach (fun i => setAttribute i n v) l st
  = Ok tt (fold_left (fun s i => set_elem_attr i n v s) l st).
Proof.
  revert st. induction l as [|i r IH]; intros st; [reflexivity|].
  simpl. unfold bind, setAttribute, modify at 1. apply IH.
Qed.

Lemma timer_delay_10 : timer_delay 10 = 10.
Proof. reflexivity. Qed.

Lemma timer_delay_nan : timer_delay nan = 0.
Proof. reflexivity. Qed.

Lemma disable_all_frame (l : list nat) (st : state) :
  roots (disable_all l st) = roots st
  /\ next (disable_all l st) = next st
  /\ now (disable_all l st) = now st
  /\ timers (disable_all l st) = timers st
  /\ reloads (disable_all l st) = reloads st.
Proof.
  unfold disable_all. revert st. induction l as [|i r IH]; intros st; simpl.
  - repeat split.
  - destruct (IH (set_elem_attr i "disabled" "" st)) as (-> & -> & -> & -> & ->).
    repeat split.
Qed.

Lemma hideAndRemove_unfold (B : browser) (el p : nat) (st : state) :
  parentNode el st = Some p ->
  hideAndRemove B el st = Ok tt (hidden_state B el st).
Proof.
  intros Hp. unfold hideAndRemove, bind, gets.
  rewrite forEach_setAttribute. fold (disable_all (querySelectorAll el (SelTag "input") st) st).
  destruct (disable_all_frame (querySelectorAll el (SelTag "input") st) st)
    as (Hr & Hn & Hw & Ht & Hl).
  unfold createElement, setAttribute, modify at 1. cbn beta iota.
  unfold parentNode at 1. cbn [roots set_elem_attr with_elems].
  unfold parentNode in Hp. rewrite <- Hr in Hp. rewrite Hp.
  reflexivity.
Qed.

Lemma hideAndRemove_orphan (B : browser) (el : nat) (st : state) :
  parentNode el st = None -> is_ok (hideAndRemove B el st) = false.
Proof.
  intros Hp. unfold hideAndRemove, bind, gets.
  rewrite forEach_setAttribute.
  destruct (disable_all_frame (querySelectorAll el (SelTag "input") st) st)
    as (Hr & _).
  unfold createElement, setAttribute, modify at 1. cbn beta iota.
  unfold parentNode at 1. cbn [roots set_elem_attr with_elems].
  unfold parentNode in Hp. unfold disable_all in Hr. rewrite <- Hr in Hp.
  now rewrite Hp.
Qed.

Lemma disable_all_other (l : list nat) (st : state) (j : nat) (n : string) :
  n <> "disabled" ->
  getAttribute (disable_all l st) j n = getAttribute st j n.
Proof.
  intros Hn. unfold disable_all. revert st.
  induction l as [|i r IH]; intros st; simpl; [reflexivity|].
  rewrite IH. apply getAttribute_set_other. right. congruence.
Qed.

Lemma disable_all_dom (l : list nat) (st : state) (j : nat) :
  is_Some (elems (disable_all l st) !! j) <-> is_Some (elems st !! j).
Proof.
  unfold disable_all. revert st.
  induction l as [|i r IH]; intros st; simpl; [reflexivity|].
  rewrite IH. apply elems_set_elem_attr_dom.
Qed.

Lemma disable_all_tag (l : list nat) (st : state) (j : nat) :
  tag_of (disable_all l st) j = tag_of st j.
Proof.
  unfold disable_all. revert st.
  induction l as [|i r IH]; intros st; simpl; [reflexivity|].
  rewrite IH. apply tag_of_set_elem_attr.
Qed.

Lemma disable_all_keeps (l : list nat) (st : state) (j : nat) :
  getAttribute st j "disabled" = Some "" ->
  getAttribute (disable_all l st) j "disabled" = Some "".
Proof.
  unfold disable_all. revert st.
  induction l as [|i r IH]; intros st H; simpl; [exact H|].
  apply IH. destruct (decide (i = j)) as [->|Hij].
  - apply getAttribute_set_same. unfold getAttribute, attrs_of in H.
    destruct (elems st !! j); [eauto | discriminate].
  - rewrite getAttribute_set_other by tauto. exact H.
Qed.

Lemma disable_all_sets (l : list nat) (st : state) (i : nat) :
  In i l -> is_Some (elems st !! i) ->
  getAttribute (disable_all l st) i "disabled" = Some "".
Proof.
  unfold disable_all. revert st.
  induction l as [|k r IH]; intros st Hin Hs; simpl; [destruct Hin|].
  destruct (decide (k = i)) as [->|Hki].
  - apply (disable_all_keeps r). now apply getAttribute_set_same.
  - destruct Hin as [->|Hin]; [congruence|].
    apply IH; [exact Hin|]. now apply elems_set_elem_attr_dom.
Qed.

Lemma getAttribute_new_elem (st : state) (w j : nat) (e : elem) (n : string)
    (f : list tree) (nx nw : nat) (tm : list (nat * task)) (rl : nat) :
  j <> w ->
  getAttribute (State f (<[w := e]> (elems st)) nx nw tm rl) j n
  = getAttribute st j n.
Proof.
  intros H. unfold getAttribute, attrs_of. simpl.
  now rewrite lookup_insert_ne by congruence.
Qed.

Lemma getAttribute_with_roots (f : list tree) (st : state) (j : nat) (n : string) :
  getAttribute (with_roots f st) j n = getAttribute st j n.
Proof. reflexivity. Qed.

Lemma getAttribute_timers (st : state) (tm : list (nat * task)) (j : nat) (n : string) :
  getAttribute (State (roots st) (elems st) (next st) (now st) tm (reloads st)) j n
  = getAttribute st j n.
Proof. reflexivity. Qed.

Lemma hidden_state_frame (B : browser) (el : nat) (st : state) :
  roots (hidden_state B el st)
    = rewrite_first el (fun t => [El (next st) [t]]) (roots st)
  /\ next (hidden_state B el st) = S (next st)
  /\ now (hidden_state B el st) = now st
  /\ reloads (hidden_state B el st) = reloads st
  /\ exists s,
       timers (hidden_state B el st)
       = timers st ++ [(now st + 10,
                        RemoveFade (next st) (duration_ms B el "--fade-duration" s)
                                   (duration_ms B el "--slide-duration" s))].
Proof.
  destruct (disable_all_frame (querySelectorAll el (SelTag "input") st) st)
    as (Hr & Hn & Hw & Ht & Hl).
  unfold hidden_state. cbn [roots next now reloads timers elems set_elem_attr with_elems with_roots].
  rewrite Hr, Hn, Hw, Ht, Hl. repeat split.
  eexists. reflexivity.
Qed.


(** Attributes that [hideAndRemove] leaves alone. *)
Lemma hidden_state_other (B : browser) (el : nat) (st : state) (j : nat) (n : string) :
  j <> next st -> n <> "disabled" -> (j <> el \/ n <> "class") ->
  getAttribute (hidden_state B el st) j n = getAttribute st j n.
Proof.
  intros Hj Hn Hc.
  destruct (disable_all_frame (querySelectorAll el (SelTag "input") st) st)
    as (Hr & Hnx & Hw & Ht & Hl).
  unfold hidden_state. rewrite Hnx.
  rewrite getAttribute_timers.
  rewrite getAttribute_set_other by (left; congruence).
  rewrite getAttribute_set_other by (destruct Hc; [left | right]; congruence).
  rewrite getAttribute_with_roots.
  rewrite getAttribute_set_other by (left; congruence).
  rewrite getAttribute_new_elem by exact Hj.
  now apply disable_all_other.
Qed.

Lemma hidden_state_tag (B : browser) (el : nat) (st : state) (j : nat) :
  j <> next st -> tag_of (hidden_state B el st) j = tag_of st j.
Proof.
  intros Hj.
  destruct (disable_all_frame (querySelectorAll el (SelTag "input") st) st)
    as (Hr & Hnx & Hw & Ht & Hl).
  unfold hidden_state. rewrite Hnx.
  change (tag_of (State ?r ?E ?n ?w (?t ++ _) ?l) j) with (tag_of (State r E n w t l) j).
  unfold tag_of at 1. cbn [elems set_elem_attr with_elems with_roots].
  rewrite !lookup_alter. repeat case_decide; subst; try congruence;
    rewrite ?lookup_insert_ne by congruence.
  - fold (tag_of (disable_all (querySelectorAll j (SelTag "input") st) st) j).
    rewrite <- disable_all_tag with (l := querySelectorAll j (SelTag "input") st).
    unfold tag_of. now destruct (elems _ !! j).
  - fold (tag_of (disable_all (querySelectorAll el (SelTag "input") st) st) j).
    now rewrite disable_all_tag.
Qed.

Lemma hidden_state_dom (B : browser) (el : nat) (st : state) (j : nat) :
  is_Some (elems (hidden_state B el st) !! j)
  <-> is_Some (elems st !! j) \/ j = next st.
Proof.
  destruct (disable_all_frame (querySelectorAll el (SelTag "input") st) st)
    as (Hr & Hnx & Hw & Ht & Hl).
  unfold hidden_state. rewrite Hnx. cbn [elems].
  rewrite !elems_set_elem_attr_dom. cbn [elems with_roots].
  rewrite elems_set_elem_attr_dom. cbn [elems].
  destruct (decide (j = next st)) as [->|Hj].
  - rewrite lookup_insert_eq. split; eauto.
  - rewrite lookup_insert_ne by congruence. rewrite disable_all_dom. tauto.
Qed.

Lemma hidden_state_disabled (B : browser) (el : nat) (st : state) (i : nat) :
  In i (querySelectorAll el (SelTag "input") st) -> i <> next st ->
  getAttribute (hidden_state B el st) i "disabled" = Some "".
Proof.
  intros Hi Hw.
  assert (Hs : is_Some (elems st !! i)).
  { apply filter_In in Hi as [_ Hm]. unfold sel_matches in Hm.
    destruct (elems st !! i); [eauto | discriminate]. }
  destruct (disable_all_frame (querySelectorAll el (SelTag "input") st) st)
    as (Hr & Hnx & _).
  unfold hidden_state. rewrite Hnx.
  rewrite getAttribute_timers.
  rewrite getAttribute_set_other by (left; congruence).
  rewrite getAttribute_set_other by (right; discriminate).
  rewrite getAttribute_with_roots.
  rewrite getAttribute_set_other by (left; congruence).
  rewrite getAttribute_new_elem by exact Hw.
  now apply disable_all_sets.
Qed.

Lemma has_class_getAttribute (st : state) (i : nat) (c : string) :
  has_class st i c
  = match getAttribute st i "class" with
    | Some v => has_token c (class_tokens v)
    | None => false
    end.
Proof. reflexivity. Qed.

Lemma class_attr_getAttribute (st : state) (i : nat) :
  class_attr st i = default "" (getAttribute st i "class").
Proof. reflexivity. Qed.

Lemma tok_ok_remove_item : tok_ok "merge-remove-item".
Proof. split; [discriminate | reflexivity]. Qed.

Lemma hidden_state_class_item (B : browser) (el : nat) (st : state) :
  is_Some (elems st !! el) -> el <> next st ->
  getAttribute (hidden_state B el st) el "class"
  = Some (class_add "merge-remove-item" (class_attr st el)).
Proof.
  intros Hs Hw.
  destruct (disable_all_frame (querySelectorAll el (SelTag "input") st) st)
    as (Hr & Hnx & _).
  unfold hidden_state. rewrite Hnx.
  rewrite getAttribute_timers.
  rewrite getAttribute_set_other by (left; congruence).
  rewrite getAttribute_set_same.
  - f_equal. f_equal. rewrite class_attr_getAttribute, getAttribute_with_roots.
    rewrite getAttribute_set_other by (left; congruence).
    rewrite getAttribute_new_elem by exact Hw.
    rewrite disable_all_other by discriminate. reflexivity.
  - cbn [elems with_roots]. apply elems_set_elem_attr_dom. cbn [elems].
    rewrite lookup_insert_ne by congruence. now apply disable_all_dom.
Qed.

Lemma hidden_state_class_wrapper (B : browser) (el : nat) (st : state) :
  el <> next st ->
  getAttribute (hidden_state B el st) (next st) "class" = Some "merge-remove-wrapper".
Proof.
  intros Hw.
  destruct (disable_all_frame (querySelectorAll el (SelTag "input") st) st)
    as (Hr & Hnx & _).
  unfold hidden_state. rewrite Hnx.
  rewrite getAttribute_timers.
  rewrite getAttribute_set_other by (right; discriminate).
  rewrite getAttribute_set_other by (left; congruence).
  rewrite getAttribute_with_roots.
  apply getAttribute_set_same. cbn [elems]. rewrite lookup_insert_eq. eauto.
Qed.

Lemma hidden_state_has_class_item (B : browser) (el : nat) (st : state) :
  is_Some (elems st !! el) -> el <> next st ->
  has_class (hidden_state B el st) el "merge-remove-item" = true.
Proof.
  intros Hs Hw. rewrite has_class_getAttribute, hidden_state_class_item by assumption.
  apply has_token_add, tok_ok_remove_item.
Qed.


Lemma wf_store_lt (st : state) : wf st -> store_lt st.
Proof. intros (_ & _ & H). exact H. Qed.


Lemma getAttribute_in_store (st : state) (i : nat) (n v : string) :
  getAttribute st i n = Some v -> is_Some (elems st !! i).
Proof.
  unfold getAttribute, attrs_of. destruct (elems st !! i); [eauto | discriminate].
Qed.

Lemma sel_matches_in_store (st : state) (s : selector) (i : nat) :
  sel_matches st s i = true -> is_Some (elems st !! i).
Proof.
  unfold sel_matches. destruct (elems st !! i); [eauto | discriminate].
Qed.

Lemma hidden_state_store_lt (B : browser) (el : nat) (st : state) :
  store_lt st -> store_lt (hidden_state B el st).
Proof.
  intros H i Hi. apply hidden_state_dom in Hi.
  destruct (hidden_state_frame B el st) as (_ & -> & _).
  destruct Hi as [Hi| ->]; [apply H in Hi|]; lia.
Qed.

Lemma hidden_state_wrapper_attr (B : browser) (el : nat) (st : state) (n : string) :
  store_lt st -> n <> "class" -> n <> "style" ->
  getAttribute (hidden_state B el st) (next st) n = None.
Proof.
  intros Hlt H1 H2.
  assert (Hel : el <> next st \/ el = next st) by lia.
  destruct (disable_all_frame (querySelectorAll el (SelTag "input") st) st)
    as (Hr & Hnx & _).
  unfold hidden_state. rewrite Hnx.
  rewrite getAttribute_timers.
  rewrite getAttribute_set_other by (right; congruence).
  rewrite getAttribute_set_other by (right; congruence).
  rewrite getAttribute_with_roots.
  rewrite getAttribute_set_other by (right; congruence).
  unfold getAttribute, attrs_of. cbn [elems]. now rewrite lookup_insert_eq.
Qed.

(** [hideAndRemove] never touches a list-item key. *)
Lemma hidden_state_key (B : browser) (el : nat) (st : state) (j : nat) :
  store_lt st ->
  getAttribute (hidden_state B el st) j "data-merge-list-item"
  = getAttribute st j "data-merge-list-item".
Proof.
  intros Hlt. destruct (decide (j = next st)) as [->|Hj].
  - rewrite hidden_state_wrapper_attr by (auto; discriminate).
    unfold getAttribute, attrs_of.
    destruct (elems st !! next st) eqn:E; [|reflexivity].
    assert (next st < next st) by (apply Hlt; eauto). lia.
  - apply hidden_state_other; [exact Hj | discriminate | right; discriminate].
Qed.

Lemma find_by_key_ext (st st' : state) (x : nat) (l : list nat) :
  (forall j, getAttribute st' j "data-merge-list-item"
             = getAttribute st j "data-merge-list-item") ->
  find_by_key x l st' = find_by_key x l st.
Proof.
  intros H. unfold find_by_key. induction l as [|y r IH]; simpl; [reflexivity|].
  now rewrite IH, !H.
Qed.

Lemma hidden_state_parent (B : browser) (el : nat) (st : state) (z : nat) :
  store_lt st -> is_Some (elems st !! z) ->
  is_Some (parentNode el st) -> is_Some (parentNode z st) ->
  is_Some (parentNode z (hidden_state B el st)).
Proof.
  intros Hlt Hz [p Hp] Hpz. unfold parentNode in *.
  destruct (hidden_state_frame B el st) as (-> & _).
  assert (z <> next st) by (apply Hlt in Hz; lia).
  destruct (decide (z = el)) as [->|Hne].
  - rewrite wrap_parent; [eauto | congruence |].
    now apply parent_of_Some in Hp.
  - now rewrite wrap_parent_other by congruence.
Qed.







Lemma disable_all_not_in (l : list nat) (st : state) (j : nat) (n : string) :
  ~ In j l -> getAttribute (disable_all l st) j n = getAttribute st j n.
Proof.
  unfold disable_all. revert st.
  induction l as [|i r IH]; intros st H; simpl; [reflexivity|].
  rewrite IH by (intros H'; apply H; now right).
  apply getAttribute_set_other. left. intros ->. apply H. now left.
Qed.

Lemma hidden_state_not_input (B : browser) (el : nat) (st : state) (j : nat) :
  j <> next st -> ~ In j (querySelectorAll el (SelTag "input") st) ->
  getAttribute (hidden_state B el st) j "disabled" = getAttribute st j "disabled".
Proof.
  intros Hj Hn.
  destruct (disable_all_frame (querySelectorAll el (SelTag "input") st) st)
    as (Hr & Hnx & _).
  unfold hidden_state. rewrite Hnx.
  rewrite getAttribute_timers.
  rewrite getAttribute_set_other by (right; discriminate).
  rewrite getAttribute_set_other by (right; discriminate).
  rewrite getAttribute_with_roots.
  rewrite getAttribute_set_other by (right; discriminate).
  rewrite getAttribute_new_elem by exact Hj.
  now apply disable_all_not_in.
Qed.

(** No phase of the detach sequence touches a [disabled] attribute. *)
Lemma detach_phase_keeps_disabled (B : browser) (w : nat) (f s : float) (t : task)
    (s0 : state) (j : nat) :
  In t [RemoveFade w f s; RemoveSlide w s; RemoveDetach w] ->
  getAttribute (result_state (run_task B t s0)) j "disabled"
  = getAttribute s0 j "disabled".
Proof.
  intros [<-|[<-|[<-|[]]]]; cbn [run_task].
  - unfold classList_add, setTimeout, seq, bind, modify. cbn [result_state].
    rewrite getAttribute_timers. apply getAttribute_set_other. right. discriminate.
  - unfold classList_add, setTimeout, seq, bind, modify. cbn [result_state].
    rewrite getAttribute_timers. apply getAttribute_set_other. right. discriminate.
  - unfold remove_el, modify. cbn [result_state].
    destruct (parent_of w (roots s0)); [apply getAttribute_with_roots | reflexivity].
Qed.

(** C10, as the code has it. [hideAndRemove] sets [disabled] on every
    [input] element below the removed item before the item is wrapped and
    before any phase of the detach sequence: when it returns, all of them
    are disabled, the wrapper carries neither the fade nor the slide class
    and the first phase is a pending timer. Elements that are not [input]
    elements (a select, a textarea, a button) keep their [disabled]
    attribute as it was, and no callback of the detach sequence changes a
    [disabled] attribute, in whatever state it runs. Nothing is said of
    other code that runs while the item is in removal. *)
Theorem hideAndRemove_disables_inputs (B : browser) (el p : nat) (st : state) :
  wf st -> parentNode el st = Some p ->
  exists st',
    hideAndRemove B el st = Ok tt st'
    /\ (forall i, In i (querySelectorAll el (SelTag "input") st) ->
                  getAttribute st' i "disabled" = Some "")
    /\ (forall j, is_Some (elems st !! j) -> tag_of st j <> "input" ->
                  getAttribute st' j "disabled" = getAttribute st j "disabled")
    /\ (exists fade slide,
          timers st' = timers st ++ [(now st + 10, RemoveFade (next st) fade slide)])
    /\ has_class st' (next st) "merge-remove-wrapper--fade" = false
    /\ has_class st' (next st) "merge-remove-wrapper--slide" = false
    /\ (forall f s t s0 j,
          In t [RemoveFade (next st) f s; RemoveSlide (next st) s;
                RemoveDetach (next st)] ->
          getAttribute (result_state (run_task B t s0)) j "disabled"
          = getAttribute s0 j "disabled").
Proof.
  intros Hwf Hp. pose proof (wf_store_lt st Hwf) as Hlt.
  exists (hidden_state B el st). split; [now apply (hideAndRemove_unfold B el p)|].
  assert (Hel : el <> next st).
  { destruct Hwf as (_ & H & _). unfold parentNode in Hp.
    apply parent_of_Some in Hp as [Hp _]. apply H in Hp. lia. }
  split; [|split; [|split; [|split; [|split]]]].
  - intros i Hi. apply hidden_state_disabled; [exact Hi|].
    apply filter_In in Hi as [_ Hm]. apply sel_matches_in_store, Hlt in Hm. lia.
  - intros j Hj Ht. apply hidden_state_not_input.
    + apply Hlt in Hj. lia.
    + intros Hi. apply filter_In in Hi as [_ Hm]. unfold sel_matches in Hm.
      unfold tag_of in Ht. destruct (elems st !! j); [|discriminate].
      apply str_eqb_eq in Hm. contradiction.
  - destruct (hidden_state_frame B el st) as (_ & _ & _ & _ & s & ->). eauto.
  - rewrite has_class_getAttribute, hidden_state_class_wrapper by exact Hel.
    reflexivity.
  - rewrite has_class_getAttribute, hidden_state_class_wrapper by exact Hel.
    reflexivity.
  - intros f s t s0 j. apply detach_phase_keeps_disabled.
Qed.

Lemma hideAndRemove_disables_inputs_witness :
  exists st',
    hideAndRemove plain_browser 3 controls_page = Ok tt st'
    /\ (forall i, In i (querySelectorAll 3 (SelTag "input") controls_page) ->
                  getAttribute st' i "disabled" = Some "")
    /\ (forall j, is_Some (elems controls_page !! j) -> tag_of controls_page j <> "input" ->
                  getAttribute st' j "disabled" = getAttribute controls_page j "disabled")
    /\ (exists fade slide,
          timers st' = timers controls_page
                       ++ [(now controls_page + 10, RemoveFade (next controls_page) fade slide)])
    /\ has_class st' (next controls_page) "merge-remove-wrapper--fade" = false
    /\ has_class st' (next controls_page) "merge-remove-wrapper--slide" = false
    /\ (forall f s t s0 j,
          In t [RemoveFade (next controls_page) f s; RemoveSlide (next controls_page) s;
                RemoveDetach (next controls_page)] ->
          getAttribute (result_state (run_task plain_browser t s0)) j "disabled"
          = getAttribute s0 j "disabled").
Proof.
  apply (hideAndRemove_disables_inputs plain_browser 3 2 controls_page).
  - apply wfb_wf. vm_compute. reflexivity.
  - vm_compute. reflexivity.
Defined.

(** ** Moving a node *)

Lemma find_node_app_absent (y : nat) (l r : list tree) :
  ~ In y (forest_ids r) -> find_node y (l ++ r) = find_node y l.
Proof.
  intros H. unfold find_node. rewrite first_some_app.
  destruct (first_some (find_in y) l); [reflexivity|].
  now apply find_node_None.
Qed.

Lemma rw_list_find_absent (x y : nat) (g : tree -> list tree) (ks : list tree) :
  Forall (fun k => ~ In y (ids k) -> forall l, rw_tree x g k = Some l ->
            exists s, find_in x k = Some s /\ find_node y l = find_node y (g s)) ks ->
  ~ In y (forest_ids ks) ->
  forall ks', rw_list (rw_tree x g) ks = Some ks' ->
  exists s, first_some (find_in x) ks = Some s
            /\ find_node y ks' = find_node y (g s).
Proof.
  induction 1 as [|k r Hk _ IHr]; intros Hy ks' E; cbn [rw_list first_some] in *;
    [discriminate|].
  rewrite forest_ids_cons, in_app_iff in Hy.
  destruct (rw_tree x g k) as [l1|] eqn:Ek.
  - injection E as <-. destruct (Hk ltac:(tauto) _ eq_refl) as (s & H1 & H2).
    exists s. rewrite H1. split; [reflexivity|].
    rewrite find_node_app_absent by tauto. exact H2.
  - destruct (rw_list (rw_tree x g) r) as [r'|] eqn:Er; cbn in E; [|discriminate].
    injection E as <-.
    destruct (IHr ltac:(tauto) _ eq_refl) as (s & H1 & H2).
    exists s.
    assert (find_in x k = None) as ->.
    { apply find_in_None. now apply (rw_tree_None x g). }
    split; [exact H1|]. unfold find_node in *. cbn [first_some].
    assert (find_in y k = None) as -> by (apply find_in_None; tauto).
    exact H2.
Qed.

Lemma rw_tree_find_absent (x y : nat) (g : tree -> list tree) (t : tree) :
  ~ In y (ids t) -> forall l, rw_tree x g t = Some l ->
  exists s, find_in x t = Some s /\ find_node y l = find_node y (g s).
Proof.
  induction t as [s0|i ks IH] using tree_ind2; intros Hy l; cbn [rw_tree find_in].
  - discriminate.
  - destruct (Nat.eqb_spec i x) as [->|Hne].
    + intros [= <-]. eauto.
    + destruct (rw_list (rw_tree x g) ks) as [ks'|] eqn:E; cbn; [|discriminate].
      intros [= <-]. cbn [ids] in Hy. fold (forest_ids ks) in Hy.
      destruct (rw_list_find_absent x y g ks IH ltac:(intros ?; apply Hy; now right) _ E)
        as (s & H1 & H2).
      exists s. split; [exact H1|]. rewrite <- H2.
      unfold find_node. cbn [first_some find_in].
      destruct (Nat.eqb_spec i y) as [->|_]; [exfalso; apply Hy; now left|].
      now destruct (first_some (find_in y) ks').
Qed.

(** Looking up a node that the forest did not contain before a rewrite. *)
Lemma find_node_rewrite_absent (x y : nat) (g : tree -> list tree) (f : list tree) :
  ~ In y (forest_ids f) ->
  find_node y (rewrite_first x g f)
  = match find_node x f with
    | Some s => find_node y (g s)
    | None => None
    end.
Proof.
  intros Hy. unfold rewrite_first.
  destruct (rw_list (rw_tree x g) f) as [f'|] eqn:E.
  - destruct (rw_list_find_absent x y g f) with (ks' := f') as (s & H1 & H2); auto.
    { apply List.Forall_forall. intros k _. apply rw_tree_find_absent. }
    unfold find_node at 2. now rewrite H1.
  - apply rw_forest_None, find_node_None in E. rewrite E.
    now apply find_node_None.
Qed.

Lemma find_node_ids (x : nat) (f : list tree) (s : tree) :
  find_node x f = Some s -> incl (ids s) (forest_ids f).
Proof.
  intros H. destruct (rewrite_first_ids x (fun _ => []) f s H) as (A & C & -> & _).
  intros y Hy. apply in_app_iff. right. apply in_app_iff. now left.
Qed.

Lemma remove_node_ids (x : nat) (f : list tree) :
  match find_node x f with
  | Some s => exists A C, forest_ids f = A ++ ids s ++ C
                          /\ forest_ids (remove_node x f) = A ++ C
  | None => remove_node x f = f
  end.
Proof.
  destruct (find_node x f) as [s|] eqn:E.
  - destruct (rewrite_first_ids x (fun _ => []) f s E) as (A & C & H1 & H2).
    exists A, C. split; [exact H1 | exact H2].
  - unfold remove_node, rewrite_first.
    apply find_node_None in E.
    now rewrite (proj2 (rw_forest_None x (fun _ => []) f) E).
Qed.

Lemma remove_node_absent (x : nat) (f : list tree) :
  NoDup (forest_ids f) -> ~ In x (forest_ids (remove_node x f)).
Proof.
  intros HN. pose proof (remove_node_ids x f) as H.
  destruct (find_node x f) as [s|] eqn:E.
  - destruct H as (A & C & H1 & H2). rewrite H2. rewrite H1 in HN.
    destruct (find_node_label _ _ _ E) as [ks ->]. cbn [ids] in HN.
    apply NoDup_app in HN as (_ & HA & HN).
    apply NoDup_app in HN as (HN & HC & _).
    rewrite in_app_iff. intros [Hx|Hx].
    + apply (HA x); [now apply list_elem_of_In|].
      apply elem_of_app. left. apply list_elem_of_In. now left.
    + apply (HC x); [apply list_elem_of_In; now left | now apply list_elem_of_In].
  - rewrite H. now apply find_node_None.
Qed.

Lemma remove_node_incl (x : nat) (f : list tree) :
  incl (forest_ids (remove_node x f)) (forest_ids f).
Proof.
  pose proof (remove_node_ids x f) as H.
  destruct (find_node x f) as [s|].
  - destruct H as (A & C & -> & ->). intros y. rewrite !in_app_iff. tauto.
  - rewrite H. apply incl_refl.
Qed.

Lemma find_node_set_kids (x : nat) (h : list tree -> list tree) (f : list tree) :
  find_node x (set_kids x h f)
  = Some (El x (h (match find_node x f with Some s => tree_kids s | None => [] end))).
Proof.
  unfold set_kids. destruct (find_node x f) as [s|] eqn:E.
  - now apply find_node_modify_kids.
  - unfold find_node in *. rewrite first_some_app, E. cbn.
    now rewrite Nat.eqb_refl.
Qed.

Lemma find_moved (el p : nat) (h : list tree -> list tree) (f : list tree) (sub : tree) :
  ~ In el (forest_ids f) -> p <> el ->
  (forall ks, ~ In el (forest_ids ks) -> first_some (find_in el) (h ks) = Some sub) ->
  find_node el (set_kids p h f) = Some sub.
Proof.
  intros Hel Hp Hh. unfold set_kids.
  assert (Hp' : (p =? el) = false) by now apply Nat.eqb_neq.
  destruct (find_node p f) as [s|] eqn:E.
  - unfold modify_kids. rewrite find_node_rewrite_absent, E by exact Hel.
    unfold find_node. cbn [first_some find_in]. rewrite Hp'.
    rewrite Hh; [reflexivity|].
    intros H. apply Hel. apply (find_node_ids _ _ _ E).
    apply in_ids_cases. now right.
  - unfold find_node in *. rewrite first_some_app.
    apply find_node_None in Hel. unfold find_node in Hel. rewrite Hel.
    cbn [first_some find_in]. rewrite Hp'.
    rewrite Hh; [reflexivity | intros []].
Qed.

Lemma find_in_self (x : nat) (ks : list tree) : find_in x (El x ks) = Some (El x ks).
Proof. simpl. now rewrite Nat.eqb_refl. Qed.

Lemma first_some_find_absent (y : nat) (ks : list tree) :
  ~ In y (forest_ids ks) -> first_some (find_in y) ks = None.
Proof. intros H. now apply find_node_None. Qed.

Lemma find_in_insert_before (el t : nat) (eks ks : list tree) :
  ~ In el (forest_ids ks) ->
  first_some (find_in el) (insert_before_kid t (El el eks) ks) = Some (El el eks).
Proof.
  induction ks as [|k r IH]; intros H; cbn [insert_before_kid first_some].
  - now rewrite find_in_self.
  - rewrite forest_ids_cons, in_app_iff in H.
    destruct (is_el t k); cbn [first_some].
    + now rewrite find_in_self.
    + assert (find_in el k = None) as -> by (apply find_in_None; tauto).
      apply IH. tauto.
Qed.

Lemma subtree_label (x : nat) (st : state) : exists ks, subtree x st = El x ks.
Proof.
  unfold subtree. destruct (find_node x (roots st)) as [s|] eqn:E; [|eauto].
  now apply find_node_label in E.
Qed.

Lemma kids_of_subtree (x : nat) (st : state) :
  kids_of x st = tree_kids (subtree x st).
Proof. unfold kids_of, subtree. now destruct (find_node x (roots st)). Qed.

(** [insertAdjacentElement] moves the node with its subtree intact and
    touches nothing but the tree. *)
Lemma insertAdjacentElement_keeps_subtree (target : nat) (pos : where_) (el : nat)
    (st st' : state) :
  NoDup (forest_ids (roots st)) ->
  insertAdjacentElement target pos el st = Ok tt st' ->
  kids_of el st' = kids_of el st
  /\ elems st' = elems st /\ next st' = next st /\ now st' = now st
  /\ timers st' = timers st /\ reloads st' = reloads st.
Proof.
  intros HN. pose proof (remove_node_absent el _ HN) as Habs.
  destruct (subtree_label el st) as [eks Hsub].
  unfold insertAdjacentElement. rewrite Hsub.
  assert (Hk : kids_of el st = eks) by now rewrite kids_of_subtree, Hsub.
  destruct pos.
  - destruct (parent_of target (roots st)) as [p|] eqn:Ep.
    + destruct (contains el p (roots st)) eqn:Ec; [discriminate|].
      destruct (Nat.eqb el target); intros [= <-]; [repeat split|].
      split; [|repeat split].
      unfold kids_of. cbn [roots with_roots].
      rewrite (find_moved el p _ _ (El el eks)); auto.
      * unfold contains in Ec. apply orb_false_iff in Ec as [Ec _].
        apply Nat.eqb_neq in Ec. congruence.
      * intros ks. apply find_in_insert_before.
    + intros [= <-]. repeat split.
  - destruct (contains el target (roots st)) eqn:Ec; [discriminate|].
    intros [= <-]. split; [|repeat split].
    unfold kids_of. cbn [roots with_roots].
    rewrite (find_moved el target _ _ (El el eks)); auto.
    + unfold contains in Ec. apply orb_false_iff in Ec as [Ec _].
      apply Nat.eqb_neq in Ec. congruence.
    + intros ks _. cbn [first_some]. now rewrite find_in_self.
  - destruct (contains el target (roots st)) eqn:Ec; [discriminate|].
    intros [= <-]. split; [|repeat split].
    unfold kids_of. cbn [roots with_roots].
    rewrite (find_moved el target _ _ (El el eks)); auto.
    + unfold contains in Ec. apply orb_false_iff in Ec as [Ec _].
      apply Nat.eqb_neq in Ec. congruence.
    + intros ks Hks. rewrite first_some_app, first_some_find_absent by exact Hks.
      cbn [first_some]. now rewrite find_in_self.
Qed.

(** ** Sequencing *)

Lemma bind_gets {A C} (f : state -> A) (k : A -> M C) (st : state) :
  bind (gets f) k st = k (f st) st.
Proof. reflexivity. Qed.

Lemma bind_ok {A C} (m : M A) (k : A -> M C) (st st' : state) (a : A) :
  m st = Ok a st' -> bind m k st = k a st'.
Proof. intros H. unfold bind. now rewrite H. Qed.

Lemma bind_throw {A C} (m : M A) (k : A -> M C) (st st' : state) :
  m st = Throw st' -> bind m k st = Throw st'.
Proof. intros H. unfold bind. now rewrite H. Qed.

Lemma forEach_app {A} (f : A -> M unit) (l1 l2 : list A) (st : state) :
  forEach f (l1 ++ l2) st = bind (forEach f l1) (fun _ => forEach f l2) st.
Proof.
  revert st. induction l1 as [|a r IH]; intros st; [reflexivity|].
  cbn [app forEach]. unfold bind. destruct (f a st) as [[] s|s]; [|reflexivity].
  rewrite IH. reflexivity.
Qed.

(** An exception in one turn of a [forEach] ends the whole loop. *)
Lemma forEach_throw_at {A} (f : A -> M unit) (pre post : list A) (x : A)
    (st st1 st2 : state) :
  forEach f pre st = Ok tt st1 -> f x st1 = Throw st2 ->
  forEach f (pre ++ x :: post) st = Throw st2.
Proof.
  intros H1 H2. rewrite forEach_app, (bind_ok _ _ _ _ _ H1).
  cbn [forEach]. now apply bind_throw.
Qed.

Lemma list_loop_app (B : browser) (tl : nat) (l1 l2 : list nat) :
  forall i tr st,
    list_loop B tl (l1 ++ l2) i tr st
    = bind (list_loop B tl l1 i tr)
        (fun tr' => list_loop B tl l2 (i + length l1) tr') st.
Proof.
  induction l1 as [|a r IH]; intros i tr st.
  - cbn [app list_loop length]. rewrite Nat.add_0_r. reflexivity.
  - cbn [app list_loop length]. unfold bind.
    destruct (list_step B tl i a tr st) as [tr' s|s]; [|reflexivity].
    rewrite IH. unfold bind. now rewrite Nat.add_succ_r.
Qed.

(** ** [insertAndReveal] *)

Lemma firstElementChild_kids (x : nat) (st : state) :
  firstElementChild x st
  = first_some (fun k => match k with El i _ => Some i | Txt _ => None end)
      (kids_of x st).
Proof.
  unfold firstElementChild, first_element_child, kids_of.
  now destruct (find_node x (roots st)).
Qed.

Lemma firstElementChild_ext (x : nat) (st st' : state) :
  kids_of x st' = kids_of x st -> firstElementChild x st' = firstElementChild x st.
Proof. intros H. now rewrite !firstElementChild_kids, H. Qed.

(** Line 146 dereferences [el.firstElementChild]: an element without
    element children makes [insertAndReveal] throw, after the insertion and
    before any timer is set. *)
Lemma insertAndReveal_childless (B : browser) (el : nat) (target : option nat)
    (pos : where_) (d : float) (st : state) :
  NoDup (forest_ids (roots st)) -> firstElementChild el st = None ->
  exists st', insertAndReveal B el target pos d st = Throw st'
              /\ timers st' = timers st /\ reloads st' = reloads st.
Proof.
  intros HN Hc. unfold insertAndReveal, bind, classList_add, modify at 1.
  set (s1 := set_elem_attr el "class" _ st).
  destruct target as [t|]; [|exists s1; unfold throw; auto].
  destruct (insertAdjacentElement t pos el s1) as [[] s2|s2] eqn:E.
  - apply insertAdjacentElement_keeps_subtree in E as (Hk & _ & _ & _ & Ht & Hr);
      [|exact HN].
    unfold gets.
    rewrite (firstElementChild_ext el s1 s2 Hk).
    change (firstElementChild el s1) with (firstElementChild el st).
    rewrite Hc. exists s2. unfold throw. auto.
  - exists s2. split; [reflexivity|].
    pose proof (keeps_reloads_insertAdjacentElement t pos el s1) as Hr.
    rewrite E in Hr. simpl in Hr. split; [|exact Hr].
    unfold insertAdjacentElement in E.
    destruct pos; repeat (match type of E with
                          | context [match ?x with _ => _ end] => destruct x
                          end); try discriminate; now injection E as <-.
Qed.

Lemma list_step_childless (B : browser) (tl i x : nat) (tracked : list nat) (st : state) :
  find_by_key x tracked st = None ->
  NoDup (forest_ids (roots st)) -> firstElementChild x st = None ->
  exists st', list_step B tl i x tracked st = Throw st'
              /\ timers st' = timers st.
Proof.
  intros Hf HN Hc. unfold list_step. rewrite bind_gets, Hf.
  destruct (i =? 0); [|destruct (length tracked <=? i)].
  - destruct (insertAndReveal_childless B x (Some tl) AfterBegin 500 st HN Hc)
      as (s & E & Ht & _).
    exists s. split; [now apply bind_throw | exact Ht].
  - destruct (insertAndReveal_childless B x (Some tl) BeforeEnd 500 st HN Hc)
      as (s & E & Ht & _).
    exists s. split; [now apply bind_throw | exact Ht].
  - destruct (insertAndReveal_childless B x (tracked !! i) BeforeBegin 500 st HN Hc)
      as (s & E & Ht & _).
    exists s. split; [now apply bind_throw | exact Ht].
Qed.

(** C9. [insertAndReveal] reads the height of the first element child of
    the inserted element without a test. In a merge that reaches the
    insertion of a new list item [x] with no element children (the two
    marker passes and the lists before [newList] complete, the removal pass
    of [newList] completes, the loop handles the items before [x], and then
    [x] matches no tracked item) the dereference throws: the merge ends in
    the reload, once, and no reveal timer is set for [x]. *)
Theorem merge_inserting_childless_item_reloads (B : browser) (nc tc : nat)
    (st s1 s2 s3 s4 s5 : state) (Lpre Lpost : list nat) (newList targetList : nat)
    (pre post tracked : list nat) (x : nat) :
  forEach (merge_content B tc) (querySelectorAll nc (SelAttr "data-merge") st) st
    = Ok tt s1 ->
  forEach (merge_attributes B tc)
    (querySelectorAll nc (SelAttr "data-merge-attributes") s1) s1 = Ok tt s2 ->
  querySelectorAll nc (SelAttr "data-merge-list") s2 = Lpre ++ newList :: Lpost ->
  forEach (merge_list B tc) Lpre s2 = Ok tt s3 ->
  query_by_key B tc "data-merge-list"
    (js_to_string (getAttribute s3 newList "data-merge-list")) s3
    = Ok (Some targetList) s3 ->
  querySelectorAll newList (SelAttr "data-merge-list-item") s3 = pre ++ x :: post ->
  forEach (remove_step B (pre ++ x :: post))
    (querySelectorAll targetList (SelAttr "data-merge-list-item") s3) s3 = Ok tt s4 ->
  list_loop B targetList pre 0
    (querySelectorAll targetList
       (SelAttrNotClass "data-merge-list-item" "merge-remove-item") s4) s4
    = Ok tracked s5 ->
  find_by_key x tracked s5 = None ->
  firstElementChild x s5 = None ->
  NoDup (forest_ids (roots s5)) ->
  exists s', mergeNodes B nc tc st = reload s'
             /\ timers s' = timers s5
             /\ reloads (mergeNodes B nc tc st) = S (reloads st).
Proof.
  intros H1 H2 H3 H4 H5 H6 H7 H8 H9 H10 H11.
  destruct (list_step_childless B targetList (0 + length pre) x tracked s5 H9 H11 H10)
    as (s' & Es & Ht).
  assert (Ebody : merge_body B nc tc st = Throw s').
  { unfold merge_body. rewrite bind_gets, (bind_ok _ _ _ _ _ H1).
    rewrite bind_gets, (bind_ok _ _ _ _ _ H2). rewrite bind_gets, H3.
    apply (forEach_throw_at _ _ _ _ _ _ _ H4).
    unfold merge_list. rewrite bind_gets, (bind_ok _ _ _ _ _ H5).
    rewrite bind_gets, bind_gets, H6, (bind_ok _ _ _ _ _ H7), bind_gets.
    apply bind_throw. rewrite list_loop_app, (bind_ok _ _ _ _ _ H8).
    cbn [list_loop]. now apply bind_throw. }
  exists s'. unfold mergeNodes. rewrite Ebody. split; [reflexivity|].
  split; [exact Ht|].
  pose proof (keeps_reloads_merge_body B nc tc st) as Hr. rewrite Ebody in Hr.
  simpl in *. now rewrite Hr.
Qed.

(** ** The timer queue *)

Lemma fire_single (B : browser) (st : state) (due : nat) (t : task) :
  timers st = [(due, t)] ->
  fire B st = Some (t, result_state (run_task B t (at_due due [] st))).
Proof.
  intros H. unfold fire. rewrite H. cbn [earliest drop_timer fst].
  now rewrite Nat.eqb_refl.
Qed.

Lemma fire_empty (B : browser) (st : state) : timers st = [] -> fire B st = None.
Proof. intros H. unfold fire. now rewrite H. Qed.

Lemma run_RemoveFade (B : browser) (w : nat) (f s : float) (st : state) :
  run_task B (RemoveFade w f s) st
  = Ok tt (add_timer (RemoveSlide w s) f (add_class w "merge-remove-wrapper--fade" st)).
Proof. reflexivity. Qed.

Lemma run_RemoveSlide (B : browser) (w : nat) (s : float) (st : state) :
  run_task B (RemoveSlide w s) st
  = Ok tt (add_timer (RemoveDetach w) s (add_class w "merge-remove-wrapper--slide" st)).
Proof. reflexivity. Qed.

Lemma run_AddSlide (B : browser) (el : nat) (f s : float) (st : state) :
  run_task B (AddSlide el f s) st
  = Ok tt (add_timer (AddFade el f) s (add_class el "merge-add-wrapper--slide" st)).
Proof. reflexivity. Qed.

Lemma run_AddFade (B : browser) (el : nat) (f : float) (st : state) :
  run_task B (AddFade el f) st
  = Ok tt (add_timer (AddTidy el) f (add_class el "merge-add-wrapper--fade" st)).
Proof. reflexivity. Qed.


Lemma has_class_add_class_mono (i j : nat) (c d : string) (st : state) :
  tok_ok c -> has_class st j d = true -> has_class (add_class i c st) j d = true.
Proof.
  intros Hc H. unfold add_class. rewrite has_class_getAttribute in *.
  destruct (decide (i = j)) as [->|Hij].
  - destruct (getAttribute st j "class") as [v|] eqn:E; [|discriminate].
    rewrite getAttribute_set_same by (now apply getAttribute_in_store in E).
    rewrite class_attr_getAttribute, E. now apply has_token_add_other.
  - rewrite getAttribute_set_other by tauto. exact H.
Qed.

Lemma has_class_add_timer (t : task) (d : float) (st : state) (i : nat) (c : string) :
  has_class (add_timer t d st) i c = has_class st i c.
Proof. reflexivity. Qed.

Lemma has_class_at_due (due : nat) (r : list (nat * task)) (st : state) (i : nat) (c : string) :
  has_class (at_due due r st) i c = has_class st i c.
Proof. reflexivity. Qed.

Lemma nan_ms : (nan * 1000)%float = nan.
Proof. reflexivity. Qed.

Lemma duration_nan (B : browser) (el : nat) (p : string) (st : state) :
  parse_float B (computed_prop B st el p) = nan -> duration_ms B el p st = nan.
Proof. intros H. unfold duration_ms. now rewrite H. Qed.

Lemma wrap_NoDup (x w : nat) (f : list tree) :
  NoDup (forest_ids f) -> ~ In w (forest_ids f) ->
  NoDup (forest_ids (rewrite_first x (fun t => [El w [t]]) f)).
Proof.
  intros HN Hw. destruct (find_node x f) as [s|] eqn:E.
  - destruct (rewrite_first_ids x (fun t => [El w [t]]) f s E) as (A & C & H1 & H2).
    rewrite H2. unfold forest_ids at 1. cbn [List.flat_map ids].
    rewrite !app_nil_r. cbn [app]. rewrite <- Permutation_middle.
    apply NoDup_cons. rewrite <- H1. split; [|exact HN].
    intros H. apply Hw. now apply list_elem_of_In.
  - unfold rewrite_first. apply find_node_None in E.
    now rewrite (proj2 (rw_forest_None x (fun t => [El w [t]]) f) E).
Qed.

Lemma find_node_NoDup (x : nat) (f : list tree) (s : tree) :
  NoDup (forest_ids f) -> find_node x f = Some s -> NoDup (ids s).
Proof.
  intros HN E.
  destruct (rewrite_first_ids x (fun _ => []) f s E) as (A & C & H1 & _).
  rewrite H1 in HN. apply NoDup_app in HN as (_ & _ & HN).
  now apply NoDup_app in HN as (HN & _).
Qed.

(** After [w.remove()] the node has no parent. *)
Lemma remove_el_detached (w : nat) (st : state) :
  NoDup (forest_ids (roots st)) ->
  parentNode w (result_state (remove_el w st)) = None.
Proof.
  intros HN. unfold remove_el, modify, parentNode. cbn [result_state].
  destruct (parent_of w (roots st)) as [p|] eqn:Ep; [|exact Ep].
  cbn [roots with_roots]. unfold parent_of. rewrite first_some_app.
  destruct (first_some (parent_in w) (remove_node w (roots st))) as [q|] eqn:E1.
  - exfalso. apply (remove_node_absent w _ HN).
    now apply (parent_of_Some w q).
  - cbn [first_some]. unfold subtree.
    destruct (find_node w (roots st)) as [s|] eqn:Es.
    + destruct (find_node_label _ _ _ Es) as [ks ->].
      apply find_node_NoDup in Es; [|exact HN]. cbn [ids] in Es.
      apply NoDup_cons in Es as [Es _].
      rewrite parent_in_None; [reflexivity|]. cbn [tree_kids].
      intros H. apply Es. now apply list_elem_of_In.
    + reflexivity.
Qed.

Lemma tok_ok_consts :
  tok_ok "merge-remove-wrapper--fade" /\ tok_ok "merge-remove-wrapper--slide"
  /\ tok_ok "merge-add-wrapper" /\ tok_ok "merge-add-wrapper--slide"
  /\ tok_ok "merge-add-wrapper--fade".
Proof. repeat split; discriminate. Qed.

Lemma insertAdjacentElement_with_elems (t : nat) (pos : where_) (el : nat)
    (E : gmap nat elem) (st : state) :
  insertAdjacentElement t pos el (with_elems E st)
  = match insertAdjacentElement t pos el st with
    | Ok a s => Ok a (with_elems E s)
    | Throw s => Throw (with_elems E s)
    end.
Proof.
  unfold insertAdjacentElement.
  change (subtree el (with_elems E st)) with (subtree el st).
  change (roots (with_elems E st)) with (roots st).
  destruct pos; repeat (match goal with
                        | |- context [match ?x with _ => _ end] => destruct x
                        end); reflexivity.
Qed.

Lemma kids_of_with_elems (x : nat) (E : gmap nat elem) (st : state) :
  kids_of x (with_elems E st) = kids_of x st.
Proof. reflexivity. Qed.

Lemma tidy_removes_classes (B : browser) (el : nat) (st : state) (c : string) :
  is_Some (elems st !! el) ->
  In c ["merge-add-wrapper"; "merge-add-wrapper--slide"; "merge-add-wrapper--fade"] ->
  has_class (result_state (run_task B (AddTidy el) st)) el c = false.
Proof.
  intros Hs Hc. cbn [run_task]. unfold bind, style_set, classList_remove, modify.
  cbn [result_state]. set (s1 := set_elem_attr el "style" _ st).
  destruct (getAttribute s1 el "class") as [v|] eqn:E;
    [|now rewrite has_class_getAttribute, E].
  rewrite has_class_getAttribute.
  rewrite getAttribute_set_same by (now apply elems_set_elem_attr_dom).
  cbn [fold_left].
  destruct Hc as [<-|[<-|[<-|[]]]].
  - do 2 apply has_token_remove_other. apply has_token_remove.
  - apply has_token_remove_other. apply has_token_remove.
  - apply has_token_remove.
Qed.

Lemma tidy_frame (B : browser) (el : nat) (st : state) :
  let st' := result_state (run_task B (AddTidy el) st) in
  now st' = now st /\ timers st' = timers st /\ roots st' = roots st
  /\ reloads st' = reloads st.
Proof.
  cbn [run_task]. unfold bind, style_set, classList_remove, modify.
  cbn [result_state]. destruct (getAttribute _ el "class"); repeat split; reflexivity.
Qed.

(** ** Copying markup *)

Lemma erase_agree (E1 E2 : gmap nat elem) (t : tree) :
  (forall k, In k (ids t) -> E1 !! k = E2 !! k) -> erase E1 t = erase E2 t.
Proof.
  induction t as [s|i ks IH] using tree_ind2; intros H; cbn [erase]; [reflexivity|].
  rewrite (H i) by now left. f_equal.
  apply map_ext_in. intros c Hc. rewrite List.Forall_forall in IH.
  apply IH; [exact Hc|]. intros j Hj. apply H. right.
  apply in_forest_ids. eauto.
Qed.

Lemma erase_list_agree (E1 E2 : gmap nat elem) (ks : list tree) :
  (forall k, In k (forest_ids ks) -> E1 !! k = E2 !! k) ->
  map (erase E1) ks = map (erase E2) ks.
Proof.
  intros H. apply map_ext_in. intros t Ht. apply erase_agree.
  intros k Hk. apply H. apply in_forest_ids. eauto.
Qed.

Lemma build_list_spec (ms : list markup) :
  Forall (fun m => forall E n t' E' n',
            fresh_from E n -> build m (E, n) = (t', (E', n')) ->
            n <= n' /\ (forall k, k < n -> E' !! k = E !! k)
            /\ fresh_from E' n'
            /\ (forall k, In k (ids t') -> n <= k < n')
            /\ erase E' t' = m) ms ->
  forall E n ks' E' n',
    fresh_from E n -> map_acc build ms (E, n) = (ks', (E', n')) ->
    n <= n' /\ (forall k, k < n -> E' !! k = E !! k)
    /\ fresh_from E' n'
    /\ (forall k, In k (forest_ids ks') -> n <= k < n')
    /\ map (erase E') ks' = ms.
Proof.
  induction 1 as [|m r Hm _ IHr]; intros E n ks' E' n' Hf Hc; cbn [map_acc] in Hc.
  - injection Hc as <- <- <-. split; [lia|]. split; [auto|].
    split; [exact Hf|]. split; [intros k []|reflexivity].
  - destruct (build m (E, n)) as [t1 [E1 n1]] eqn:C1.
    destruct (map_acc build r (E1, n1)) as [r1 [E2 n2]] eqn:C2.
    injection Hc as <- <- <-.
    destruct (Hm _ _ _ _ _ Hf C1) as (L1 & A1 & F1 & I1 & R1).
    destruct (IHr _ _ _ _ _ F1 C2) as (L2 & A2 & F2 & I2 & R2).
    split; [lia|]. split; [|split; [exact F2|split]].
    + intros k Hk. rewrite A2 by lia. now apply A1.
    + intros k. rewrite forest_ids_cons, in_app_iff. intros [Hk|Hk].
      * apply I1 in Hk. lia.
      * apply I2 in Hk. lia.
    + cbn [map]. rewrite R2. f_equal. rewrite <- R1. apply erase_agree.
      intros k Hk. apply A2. apply I1 in Hk. lia.
Qed.

Lemma build_spec (m : markup) :
  forall E n t' E' n',
    fresh_from E n -> build m (E, n) = (t', (E', n')) ->
    n <= n' /\ (forall k, k < n -> E' !! k = E !! k)
    /\ fresh_from E' n'
    /\ (forall k, In k (ids t') -> n <= k < n')
    /\ erase E' t' = m.
Proof.
  induction m as [s|e ms IH] using markup_ind2; intros E n t' E' n' Hf Hc;
    cbn [build] in Hc.
  - injection Hc as <- <- <-. split; [lia|]. split; [auto|].
    split; [exact Hf|]. split; [intros k []|reflexivity].
  - set (E1 := match e with Some e => <[n := e]> E | None => E end) in *.
    destruct (map_acc build ms (E1, S n)) as [ks' [E2 n2]] eqn:C.
    injection Hc as <- <- <-.
    assert (F1 : fresh_from E1 (S n)).
    { intros k Hk. unfold E1. destruct e.
      - rewrite lookup_insert_ne by lia. apply Hf. lia.
      - apply Hf. lia. }
    assert (Hn : E1 !! n = e).
    { unfold E1. destruct e.
      - apply lookup_insert_eq.
      - apply Hf. lia. }
    destruct (build_list_spec ms IH _ _ _ _ _ F1 C) as (L & A & F & I & R).
    split; [lia|]. split; [|split; [exact F|split]].
    + intros k Hk. rewrite A by lia. unfold E1. destruct e; [|reflexivity].
      apply lookup_insert_ne. lia.
    + intros k [<-|Hk]; [lia|]. fold (forest_ids ks') in Hk. apply I in Hk. lia.
    + cbn [erase]. rewrite A by lia. now rewrite Hn, R.
Qed.

(** The nodes built for a list of markup: new elements only, and their
    markup is the markup they were built for. *)
Lemma build_kids_spec (E : gmap nat elem) (n : nat) (ms : list markup)
    (ks' : list tree) (E' : gmap nat elem) (n' : nat) :
  fresh_from E n -> map_acc build ms (E, n) = (ks', (E', n')) ->
  n <= n' /\ (forall k, k < n -> E' !! k = E !! k)
  /\ fresh_from E' n'
  /\ (forall k, In k (forest_ids ks') -> n <= k < n')
  /\ map (erase E') ks' = ms.
Proof.
  apply build_list_spec. apply List.Forall_forall. intros t _. apply build_spec.
Qed.

Lemma store_lt_fresh (st : state) : store_lt st -> fresh_from (elems st) (next st).
Proof.
  intros H k Hk. destruct (elems st !! k) eqn:E; [|reflexivity].
  assert (k < next st) by (apply H; eauto). lia.
Qed.

(** [target.innerHTML = src.innerHTML]: afterwards the children of [target]
    have the markup that the children of [src] are parsed back to; they are
    new nodes, and no existing element changes. *)
Lemma set_innerHTML_from_spec (B : browser) (target src : nat) (st : state) :
  store_lt st ->
  exists st',
    set_innerHTML_from B target src st = Ok tt st'
    /\ map (erase (elems st')) (kids_of target st') = reparsed B st target src
    /\ (forall j, j < next st -> elems st' !! j = elems st !! j)
    /\ (forall k, In k (forest_ids (kids_of target st')) -> next st <= k)
    /\ store_lt st' /\ next st <= next st'
    /\ timers st' = timers st /\ now st' = now st /\ reloads st' = reloads st.
Proof.
  intros Hlt. unfold set_innerHTML_from, modify.
  destruct (map_acc build (reparsed B st target src) (elems st, next st))
    as [copies [E n]] eqn:C.
  destruct (build_kids_spec _ _ _ _ _ _ (store_lt_fresh st Hlt) C)
    as (L & A & F & I & R).
  eexists. split; [reflexivity|].
  assert (Hk : kids_of target
                 (State (set_kids target (fun _ => copies) (roots st) ++ kids_of target st)
                        E n (now st) (timers st) (reloads st)) = copies).
  { unfold kids_of at 1. cbn [roots].
    now rewrite (find_node_app_l _ _ _ _ (find_node_set_kids target _ (roots st))). }
  rewrite Hk. cbn [elems next timers now reloads].
  split; [exact R|]. split; [exact A|]. split; [intros k Hk'; apply I in Hk'; lia|].
  split; [|auto].
  intros j [e Hj]. destruct (le_lt_dec n j) as [Hnj|Hnj]; [|exact Hnj].
  rewrite F in Hj by exact Hnj. discriminate.
Qed.

(** ** The content and attribute passes *)

Lemma querySelector_Some (root : nat) (s : selector) (st : state) (x : nat) :
  querySelector root s st = Some x ->
  In x (descendants root (roots st)) /\ sel_matches st s x = true.
Proof.
  unfold querySelector, querySelectorAll. intros H.
  apply filter_In. destruct (List.filter _ _) as [|y l]; [discriminate|].
  injection H as ->. now left.
Qed.

Lemma needs_replace_spec (a b : option string) :
  needs_replace a b = true <-> truthy a = false \/ truthy b = false \/ a <> b.
Proof.
  unfold needs_replace. destruct (truthy a); [|simpl; tauto].
  destruct (truthy b); [|simpl; tauto]. simpl.
  destruct (opt_str_eqb a b) eqn:E; simpl.
  - apply opt_str_eqb_eq in E. split; [discriminate|].
    intros [H|[H|H]]; [discriminate | discriminate | contradiction].
  - split; [|reflexivity]. intros _. right. right. intros H.
    apply opt_str_eqb_eq in H. congruence.
Qed.

Lemma getAttribute_agree (st st' : state) (j : nat) (n : string) :
  elems st' !! j = elems st !! j -> getAttribute st' j n = getAttribute st j n.
Proof. intros H. unfold getAttribute, attrs_of. now rewrite H. Qed.

(** What replacing the content of [target] by that of [src], then stamping
    [target] when [stamp] holds a value, does. *)
Lemma replace_and_stamp (B : browser) (target src : nat) (stamp : option string)
    (st : state) :
  store_lt st -> is_Some (elems st !! target) ->
  exists st',
    (set_innerHTML_from B target src ;;
     match stamp with
     | Some v => setAttribute target "data-merge-cache" v
     | None => ret tt
     end) st = Ok tt st'
    /\ map (erase (elems st')) (kids_of target st') = reparsed B st target src
    /\ getAttribute st' target "data-merge-cache"
       = match stamp with
         | Some v => Some v
         | None => getAttribute st target "data-merge-cache"
         end
    /\ (forall n, n <> "data-merge-cache" ->
                  getAttribute st' target n = getAttribute st target n)
    /\ (forall j n, j <> target -> j < next st ->
                    getAttribute st' j n = getAttribute st j n)
    /\ timers st' = timers st /\ reloads st' = reloads st.
Proof.
  intros Hlt Hs. pose proof (Hlt _ Hs) as Ht.
  destruct (set_innerHTML_from_spec B target src st Hlt)
    as (s1 & E1 & R & A & I & _ & _ & Htm & _ & Hrl).
  rewrite (bind_ok _ _ _ _ _ E1).
  destruct stamp as [v|].
  - eexists. split; [reflexivity|]. split; [|split; [|split; [|split]]].
    + change (kids_of target (set_elem_attr target "data-merge-cache" v s1))
        with (kids_of target s1).
      rewrite <- R. apply erase_list_agree. intros k Hk. apply I in Hk.
      cbn [elems set_elem_attr with_elems]. apply lookup_alter_ne. lia.
    + apply getAttribute_set_same. rewrite A by exact Ht. exact Hs.
    + intros n Hn. rewrite getAttribute_set_other by (right; congruence).
      apply getAttribute_agree, A, Ht.
    + intros j n Hj Hlt'. rewrite getAttribute_set_other by (left; congruence).
      apply getAttribute_agree, A, Hlt'.
    + split; [exact Htm | exact Hrl].
  - exists s1. split; [reflexivity|]. split; [exact R|].
    split; [apply getAttribute_agree, A, Ht|].
    split; [intros; apply getAttribute_agree, A, Ht|].
    split; [intros; now apply getAttribute_agree, A|].
    split; [exact Htm | exact Hrl].
Qed.

(** *** Looking up a live node by its key *)

Lemma query_by_key_plain (B : browser) (c : nat) (a key : string) (st : state) :
  css_plain key = true ->
  query_by_key B c a key st = Ok (querySelector c (SelAttrEq a key) st) st.
Proof. intros H. unfold query_by_key. now rewrite H. Qed.

(** The look-up changes nothing, whatever its outcome. *)
Lemma query_by_key_state (B : browser) (c : nat) (a key : string) (st : state) :
  result_state (query_by_key B c a key st) = st.
Proof.
  unfold query_by_key. destruct (css_plain key); [reflexivity|].
  destruct (spliced_query B st c a key); reflexivity.
Qed.

Lemma query_by_key_Ok (B : browser) (c : nat) (a key : string) (st s : state)
    (r : option nat) :
  query_by_key B c a key st = Ok r s -> s = st.
Proof. intros H. pose proof (query_by_key_state B c a key st) as E. now rewrite H in E. Qed.

Lemma query_by_key_Throw (B : browser) (c : nat) (a key : string) (st s : state) :
  query_by_key B c a key st = Throw s -> s = st.
Proof. intros H. pose proof (query_by_key_state B c a key st) as E. now rewrite H in E. Qed.

Lemma counterpart_found (B : browser) (tc : nat) (a : string) (st : state)
    (newEl targetEl : nat) :
  counterpart tc a st newEl = Some targetEl ->
  query_by_key B tc a (js_to_string (getAttribute st newEl a)) st
  = Ok (Some targetEl) st
  /\ In targetEl (descendants tc (roots st))
  /\ is_Some (elems st !! targetEl)
  /\ getAttribute st targetEl a = Some (js_to_string (getAttribute st newEl a)).
Proof.
  unfold counterpart. cbv zeta.
  destruct (css_plain (js_to_string (getAttribute st newEl a))) eqn:P; [|discriminate].
  intros Hq. split; [rewrite query_by_key_plain by exact P; now rewrite Hq|].
  apply querySelector_Some in Hq as [Hd Hm]. split; [exact Hd|].
  split; [now apply sel_matches_in_store in Hm|].
  unfold sel_matches in Hm. unfold getAttribute, attrs_of.
  destruct (elems st !! targetEl); [|discriminate]. now apply opt_str_eqb_eq in Hm.
Qed.

(** *** The passes inside the merge *)

Lemma mergeNodes_settle (B : browser) (nc tc : nat) (st : state) :
  mergeNodes B nc tc st = settle (merge_body B nc tc st).
Proof.
  unfold mergeNodes, settle. now destruct (merge_body B nc tc st) as [[] s|s].
Qed.

Lemma forEach_invariant {A} (P : state -> Prop) (f : A -> M unit) (l : list A) :
  (forall x st, P st -> P (result_state (f x st))) ->
  forall st, P st -> P (result_state (forEach f l st)).
Proof.
  intros Hf. induction l as [|a r IH]; intros st H; [exact H|].
  cbn [forEach]. unfold bind. specialize (Hf a st H).
  destruct (f a st) as [[] s|s]; [apply IH|]; exact Hf.
Qed.

(** A turn of a [forEach] that completes hands over to the turns after
    it. *)
Lemma forEach_step_then {A C} (f : A -> M unit) (k : M C) (pre post : list A) (x : A)
    (st s1 s2 : state) :
  forEach f pre st = Ok tt s1 -> f x s1 = Ok tt s2 ->
  (forEach f (pre ++ x :: post) ;; k) st = (forEach f post ;; k) s2.
Proof.
  intros H1 H2. unfold bind. rewrite forEach_app. unfold bind. rewrite H1.
  cbn [forEach]. unfold bind. now rewrite H2.
Qed.

Lemma forEach_step {A} (f : A -> M unit) (pre post : list A) (x : A)
    (st s1 s2 : state) :
  forEach f pre st = Ok tt s1 -> f x s1 = Ok tt s2 ->
  forEach f (pre ++ x :: post) st = forEach f post s2.
Proof.
  intros H1 H2. rewrite forEach_app. unfold bind. rewrite H1.
  cbn [forEach]. unfold bind. now rewrite H2.
Qed.

Lemma merge_body_contents (B : browser) (nc tc : nat) (st : state) :
  merge_body B nc tc st
  = rest_of_contents B nc tc (querySelectorAll nc (SelAttr "data-merge") st) st.
Proof. reflexivity. Qed.

Lemma merge_body_attributes (B : browser) (nc tc : nat) (st s1 : state) :
  forEach (merge_content B tc) (querySelectorAll nc (SelAttr "data-merge") st) st
    = Ok tt s1 ->
  merge_body B nc tc st
  = rest_of_attributes B nc tc
      (querySelectorAll nc (SelAttr "data-merge-attributes") s1) s1.
Proof.
  intros H. unfold merge_body. now rewrite bind_gets, (bind_ok _ _ _ _ _ H).
Qed.

Lemma merge_body_lists (B : browser) (nc tc : nat) (st s1 s2 : state) :
  forEach (merge_content B tc) (querySelectorAll nc (SelAttr "data-merge") st) st
    = Ok tt s1 ->
  forEach (merge_attributes B tc)
    (querySelectorAll nc (SelAttr "data-merge-attributes") s1) s1 = Ok tt s2 ->
  merge_body B nc tc st
  = forEach (merge_list B tc) (querySelectorAll nc (SelAttr "data-merge-list") s2) s2.
Proof.
  intros H1 H2. rewrite (merge_body_attributes B nc tc st s1 H1).
  unfold rest_of_attributes. now rewrite (bind_ok _ _ _ _ _ H2).
Qed.

Lemma store_lt_set_elem_attr (i : nat) (n v : string) (st : state) :
  store_lt st -> store_lt (set_elem_attr i n v st).
Proof. intros H j Hj. apply elems_set_elem_attr_dom in Hj. exact (H j Hj). Qed.

Lemma merge_content_store_lt (B : browser) (tc newEl : nat) (st : state) :
  store_lt st -> store_lt (result_state (merge_content B tc newEl st)).
Proof.
  intros H. unfold merge_content. rewrite bind_gets. unfold bind at 1.
  destruct (query_by_key B tc "data-merge" _ st) as [[t|] s|s] eqn:Q.
  - apply query_by_key_Ok in Q. subst s. rewrite !bind_gets.
    destruct (needs_replace _ _); [|exact H].
    destruct (set_innerHTML_from_spec B t newEl st H) as (s1 & E1 & _ & _ & _ & H1 & _).
    rewrite (bind_ok _ _ _ _ _ E1).
    destruct (truthy _ || truthy _); [|exact H1].
    now apply store_lt_set_elem_attr.
  - apply query_by_key_Ok in Q. now subst s.
  - apply query_by_key_Throw in Q. now subst s.
Qed.

(** C1, as the code has it. When the content pass of a merge reaches the
    content-marked node [newEl] (the nodes [pre] before it are merged, the
    nodes [post] are to follow; no element of the page has an identity that
    is still to be given out) and the key of [newEl], a plain key, selects
    the live node [targetEl]: the turn completes and the merge goes on with
    the nodes after [newEl]. The turn replaces the inner content of the
    live node exactly when either side has no cache token (no attribute, or
    an empty one: the code tests truthiness) or the two tokens differ; the
    new content is what the inner content of the new node is parsed back to
    inside the live node; the turn then stamps the new token if either side
    had one, and changes no other attribute of the live node. When both
    tokens exist and are equal the state is left as it is, whatever the
    contents of the two nodes. *)
Theorem merge_content_token_rule (B : browser) (nc tc newEl targetEl : nat)
    (pre post : list nat) (st s1 : state) :
  store_lt st ->
  querySelectorAll nc (SelAttr "data-merge") st = pre ++ newEl :: post ->
  forEach (merge_content B tc) pre st = Ok tt s1 ->
  counterpart tc "data-merge" s1 newEl = Some targetEl ->
  let newCache := getAttribute s1 newEl "data-merge-cache" in
  let targetCache := getAttribute s1 targetEl "data-merge-cache" in
  (needs_replace newCache targetCache = true
   <-> truthy newCache = false \/ truthy targetCache = false
       \/ newCache <> targetCache)
  /\ exists s2,
       merge_content B tc newEl s1 = Ok tt s2
       /\ mergeNodes B nc tc st = settle (rest_of_contents B nc tc post s2)
       /\ if needs_replace newCache targetCache then
            map (erase (elems s2)) (kids_of targetEl s2) = reparsed B s1 targetEl newEl
            /\ getAttribute s2 targetEl "data-merge-cache"
               = (if truthy newCache || truthy targetCache
                  then Some (js_to_string newCache) else targetCache)
            /\ (forall n, n <> "data-merge-cache" ->
                          getAttribute s2 targetEl n = getAttribute s1 targetEl n)
          else s2 = s1.
Proof.
  intros Hlt Hq Hpre Hc newCache targetCache. split; [apply needs_replace_spec|].
  assert (Hlt1 : store_lt s1).
  { pose proof (forEach_invariant store_lt (merge_content B tc) pre
                  (merge_content_store_lt B tc) st Hlt) as H.
    now rewrite Hpre in H. }
  destruct (counterpart_found B _ _ _ _ _ Hc) as (Hk & _ & Hm & _).
  assert (Hgo : forall s2, merge_content B tc newEl s1 = Ok tt s2 ->
                  mergeNodes B nc tc st = settle (rest_of_contents B nc tc post s2)).
  { intros s2 E. rewrite mergeNodes_settle, merge_body_contents, Hq.
    unfold rest_of_contents. now rewrite (forEach_step_then _ _ _ _ _ _ _ _ Hpre E). }
  assert (Hrun : merge_content B tc newEl s1
                 = if needs_replace newCache targetCache then
                     (set_innerHTML_from B targetEl newEl ;;
                      if truthy newCache || truthy targetCache
                      then setAttribute targetEl "data-merge-cache" (js_to_string newCache)
                      else ret tt) s1
                   else Ok tt s1).
  { unfold merge_content. rewrite bind_gets, (bind_ok _ _ _ _ _ Hk), !bind_gets.
    fold newCache targetCache. now destruct (needs_replace newCache targetCache). }
  destruct (needs_replace newCache targetCache).
  - destruct (replace_and_stamp B targetEl newEl
                (if truthy newCache || truthy targetCache
                 then Some (js_to_string newCache) else None) s1 Hlt1 Hm)
      as (s2 & E & R & C & O & _).
    assert (E' : merge_content B tc newEl s1 = Ok tt s2).
    { rewrite Hrun, <- E. now destruct (truthy newCache || truthy targetCache). }
    exists s2. split; [exact E'|]. split; [now apply Hgo|].
    split; [exact R|]. split; [|exact O].
    rewrite C. now destruct (truthy newCache || truthy targetCache).
  - exists s1. split; [exact Hrun|]. split; [now apply Hgo | reflexivity].
Qed.

Lemma sync_fold (target : nat) (vals : string -> string) (names : list string) :
  forall st,
    is_Some (elems st !! target) ->
    let st' := fold_left (fun s n => set_elem_attr target n (vals n) s) names st in
    (forall n, In n names -> getAttribute st' target n = Some (vals n))
    /\ (forall n, ~ In n names -> getAttribute st' target n = getAttribute st target n)
    /\ (forall j n, j <> target -> getAttribute st' j n = getAttribute st j n)
    /\ roots st' = roots st /\ timers st' = timers st /\ reloads st' = reloads st.
Proof.
  induction names as [|m r IH]; intros st Hs; cbn [fold_left].
  - split; [intros n []|]. repeat split.
  - destruct (IH (set_elem_attr target m (vals m) st)) as (H1 & H2 & H3 & H4 & H5 & H6).
    { now apply elems_set_elem_attr_dom. }
    split; [|split; [|split; [|repeat split]]].
    + intros n Hn. destruct (in_dec string_dec n r) as [Hr|Hr]; [now apply H1|].
      destruct Hn as [->|Hn]; [|contradiction].
      rewrite H2 by exact Hr. now apply getAttribute_set_same.
    + intros n Hn. rewrite H2 by (intros H; apply Hn; now right).
      apply getAttribute_set_other. right. intros ->. apply Hn. now left.
    + intros j n Hj. rewrite H3 by exact Hj.
      apply getAttribute_set_other. left. congruence.
    + now rewrite H4.
    + now rewrite H5.
    + now rewrite H6.
Qed.

Lemma setAttribute_of_markup_valid (B : browser) (i : nat) (n v : string) (st : state) :
  valid_name B n = true ->
  setAttribute_of_markup B i n v st = Ok tt (set_elem_attr i n v st).
Proof. intros H. unfold setAttribute_of_markup. now rewrite H. Qed.

Lemma attribute_loop_other (B : browser) (target newEl : nat) (st0 : state)
    (names : list string) :
  newEl <> target ->
  (forall n, In n names -> valid_name B n = true) ->
  forall s,
    (forall n, getAttribute s newEl n = getAttribute st0 newEl n) ->
    forEach (fun attributeName =>
        let* v := gets (fun st => getAttribute st newEl attributeName) in
        setAttribute_of_markup B target attributeName (default "null" v)) names s
    = Ok tt (fold_left (fun s n =>
               set_elem_attr target n (default "null" (getAttribute st0 newEl n)) s)
               names s).
Proof.
  intros Hne. induction names as [|m r IH]; intros Hv s Hs; [reflexivity|].
  cbn [forEach fold_left]. unfold bind at 1. rewrite bind_gets.
  rewrite setAttribute_of_markup_valid by (apply Hv; now left).
  rewrite Hs. apply IH; [intros n Hn; apply Hv; now right|].
  intros n. rewrite getAttribute_set_other by (left; congruence). apply Hs.
Qed.

Lemma attribute_loop_self (B : browser) (el : nat) (names : list string) (st : state) :
  (forall n, In n names -> valid_name B n = true) ->
  (forall n, In n names -> is_Some (getAttribute st el n)) ->
  forEach (fun attributeName =>
      let* v := gets (fun st => getAttribute st el attributeName) in
      setAttribute_of_markup B el attributeName (default "null" v)) names st
  = Ok tt st.
Proof.
  induction names as [|m r IH]; intros Hv H; [reflexivity|].
  cbn [forEach]. unfold bind at 1. rewrite bind_gets.
  destruct (H m (or_introl eq_refl)) as [v Hm]. rewrite Hm.
  change (default "null" (Some v)) with v.
  rewrite setAttribute_of_markup_valid by (apply Hv; now left).
  rewrite (set_elem_attr_id _ _ _ _ Hm). apply IH.
  - intros n Hn. apply Hv. now right.
  - intros n Hn. apply H. now right.
Qed.

(** C5, as the code has it. When the attribute pass of a merge reaches the
    attribute-marked node [newEl] (the content pass is done, the nodes [pre]
    before it are merged, the nodes [post] are to follow), the key of
    [newEl], a plain key, selects the live node [targetEl] and
    [setAttribute] accepts the attribute names of [newEl]: the turn
    completes and the merge goes on with the nodes after [newEl]. The turn
    sets on the live node every attribute of the new node to the new node's
    value, and every attribute of the live node that the new node does not
    have keeps its value: nothing is removed. Nothing else changes: not the
    tree, not another element. *)
Theorem merge_attributes_is_additive (B : browser) (nc tc newEl targetEl : nat)
    (pre post : list nat) (st s1 s2 : state) :
  forEach (merge_content B tc) (querySelectorAll nc (SelAttr "data-merge") st) st
    = Ok tt s1 ->
  querySelectorAll nc (SelAttr "data-merge-attributes") s1 = pre ++ newEl :: post ->
  forEach (merge_attributes B tc) pre s1 = Ok tt s2 ->
  counterpart tc "data-merge-attributes" s2 newEl = Some targetEl ->
  (forall n, In n (getAttributeNames s2 newEl) -> valid_name B n = true) ->
  exists s3,
    merge_attributes B tc newEl s2 = Ok tt s3
    /\ mergeNodes B nc tc st = settle (rest_of_attributes B nc tc post s3)
    /\ (forall n v, getAttribute s2 newEl n = Some v ->
                    getAttribute s3 targetEl n = Some v)
    /\ (forall n, getAttribute s2 newEl n = None ->
                  getAttribute s3 targetEl n = getAttribute s2 targetEl n)
    /\ (forall j n, j <> targetEl -> getAttribute s3 j n = getAttribute s2 j n)
    /\ roots s3 = roots s2.
Proof.
  intros Hc Hq Hpre Hk Hv.
  destruct (counterpart_found B _ _ _ _ _ Hk) as (Hkey & _ & Hm & _).
  assert (Hgo : forall s3, merge_attributes B tc newEl s2 = Ok tt s3 ->
                  mergeNodes B nc tc st = settle (rest_of_attributes B nc tc post s3)).
  { intros s3 E. rewrite mergeNodes_settle, (merge_body_attributes B nc tc st s1 Hc), Hq.
    unfold rest_of_attributes. now rewrite (forEach_step_then _ _ _ _ _ _ _ _ Hpre E). }
  assert (Hrun : merge_attributes B tc newEl s2
                 = forEach (fun attributeName =>
                     let* v := gets (fun st => getAttribute st newEl attributeName) in
                     setAttribute_of_markup B targetEl attributeName (default "null" v))
                     (getAttributeNames s2 newEl) s2).
  { unfold merge_attributes. now rewrite bind_gets, (bind_ok _ _ _ _ _ Hkey), bind_gets. }
  assert (Hnames : forall n, In n (getAttributeNames s2 newEl)
                             <-> is_Some (getAttribute s2 newEl n)).
  { intros n. apply get_attr_names. }
  destruct (decide (newEl = targetEl)) as [->|Hne].
  - assert (E : merge_attributes B tc targetEl s2 = Ok tt s2).
    { rewrite Hrun. apply attribute_loop_self; [exact Hv|].
      intros n Hn. now apply Hnames. }
    exists s2. split; [exact E|]. split; [now apply Hgo|]. repeat split; auto.
  - assert (E : merge_attributes B tc newEl s2
                = Ok tt (fold_left (fun s n =>
                           set_elem_attr targetEl n
                             (default "null" (getAttribute s2 newEl n)) s)
                           (getAttributeNames s2 newEl) s2)).
    { rewrite Hrun. now apply (attribute_loop_other B targetEl newEl s2 _ Hne Hv). }
    eexists. split; [exact E|]. split; [now apply Hgo|].
    destruct (sync_fold targetEl (fun n => default "null" (getAttribute s2 newEl n))
                (getAttributeNames s2 newEl) s2 Hm) as (H1 & H2 & H3 & H4 & _).
    split; [|split; [|split; [exact H3 | exact H4]]].
    + intros n v Hn. rewrite H1 by (apply Hnames; eauto). now rewrite Hn.
    + intros n Hn. apply H2. intros Hin. apply Hnames in Hin as [v Hn']. congruence.
Qed.

(** ** Unlinking a node, and the children of a parent *)

Lemma first_some_unique {C} (h : tree -> option C) (p : nat) (ks : list tree)
    (k : tree) (s : C) :
  (forall k', In k' ks -> is_Some (h k') -> k' = k) ->
  In k ks -> h k = Some s -> first_some h ks = Some s.
Proof.
  induction ks as [|k0 r IH]; intros Hu Hin Hk; [destruct Hin|].
  cbn [first_some]. destruct (h k0) as [s0|] eqn:E0.
  - assert (k0 = k) by (apply Hu; [now left | rewrite E0; eauto]).
    subst k0. congruence.
  - destruct Hin as [->|Hin]; [congruence|].
    apply IH; auto. intros k' Hk' Hs. apply Hu; [now right | exact Hs].
Qed.

Lemma find_in_Some_ids (x : nat) (t : tree) : is_Some (find_in x t) -> In x (ids t).
Proof.
  intros [s Hs]. destruct (in_dec Nat.eq_dec x (ids t)) as [H|H]; [exact H|].
  apply find_in_None in H. congruence.
Qed.

Lemma parent_in_child (y p : nat) (t : tree) :
  NoDup (ids t) -> parent_in y t = Some p ->
  exists s, find_in p t = Some s /\ existsb (is_el y) (tree_kids s) = true.
Proof.
  revert p. induction t as [s0|i ks IH] using tree_ind2; intros p HN Hp;
    cbn [parent_in] in Hp; [discriminate|].
  cbn [ids] in HN. fold (forest_ids ks) in HN. apply NoDup_cons in HN as [Hi HN].
  apply parent_kids_Some in Hp as [(-> & k & Hk & E)|(k & Hk & E)].
  - exists (El i ks). rewrite find_in_self. split; [reflexivity|].
    cbn [tree_kids]. apply existsb_exists. eauto.
  - rewrite List.Forall_forall in IH.
    destruct (IH k Hk p (NoDup_flat_map_each ids ks k HN Hk) E) as (s & Hs & Hc).
    exists s. split; [|exact Hc]. cbn [find_in].
    assert (Hpk : In p (ids k)) by now apply parent_in_Some in E.
    destruct (Nat.eqb_spec i p) as [->|_].
    + exfalso. apply Hi. apply list_elem_of_In, in_forest_ids. eauto.
    + apply (first_some_unique (find_in p) p ks k); auto.
      intros k' Hk' Hs'. apply find_in_Some_ids in Hs'.
      now apply (NoDup_flat_map_unique ids ks k' k p).
Qed.

(** In a forest without repeated identities the parent of [y] is found by
    its identity, and [y] is among its children. *)
Lemma parent_of_child (y p : nat) (f : list tree) :
  NoDup (forest_ids f) -> parent_of y f = Some p ->
  exists s, find_node p f = Some s /\ existsb (is_el y) (tree_kids s) = true.
Proof.
  intros HN Hp. unfold parent_of in Hp.
  assert (exists k, In k f /\ parent_in y k = Some p) as (k & Hk & E).
  { clear HN. induction f as [|k0 r IH]; cbn [first_some] in Hp; [discriminate|].
    destruct (parent_in y k0) eqn:E0.
    - injection Hp as ->. exists k0. split; [now left | exact E0].
    - destruct (IH Hp) as (k & ? & ?). exists k. split; [now right | assumption]. }
  destruct (parent_in_child y p k (NoDup_flat_map_each ids f k HN Hk) E) as (s & Hs & Hc).
  exists s. split; [|exact Hc].
  assert (Hpk : In p (ids k)) by now apply parent_in_Some in E.
  apply (first_some_unique (find_in p) p f k); auto.
  intros k' Hk' Hs'. apply find_in_Some_ids in Hs'.
  now apply (NoDup_flat_map_unique ids f k' k p).
Qed.

Section Unlink.
Variables x y : nat.
Abbreviation g := (fun _ : tree => @nil tree).



End Unlink.









(** ** Merging a fragment that is in sync *)

Lemma forEach_noop {A} (f : A -> M unit) (l : list A) (st : state) :
  (forall a, In a l -> f a st = Ok tt st) -> forEach f l st = Ok tt st.
Proof.
  induction l as [|a r IH]; intros H; [reflexivity|].
  cbn [forEach]. rewrite (bind_ok _ _ _ _ _ (H a (or_introl eq_refl))).
  apply IH. intros b Hb. apply H. now right.
Qed.

Lemma merge_content_noop (B : browser) (tc newEl : nat) (st : state) :
  content_in_sync tc st newEl = true -> merge_content B tc newEl st = Ok tt st.
Proof.
  unfold content_in_sync, merge_content. rewrite bind_gets.
  destruct (counterpart tc "data-merge" st newEl) as [t|] eqn:C; [|discriminate].
  destruct (counterpart_found B _ _ _ _ _ C) as (Hk & _).
  rewrite (bind_ok _ _ _ _ _ Hk), !bind_gets.
  intros H. apply negb_true_iff in H. now rewrite H.
Qed.

Lemma attribute_loop_same (B : browser) (target newEl : nat) (names : list string)
    (st : state) :
  (forall n, In n names ->
     valid_name B n = true
     /\ exists v, getAttribute st newEl n = Some v /\ getAttribute st target n = Some v) ->
  forEach (fun attributeName =>
      let* v := gets (fun st => getAttribute st newEl attributeName) in
      setAttribute_of_markup B target attributeName (default "null" v)) names st
  = Ok tt st.
Proof.
  induction names as [|m r IH]; intros H; [reflexivity|].
  cbn [forEach]. unfold bind at 1. rewrite bind_gets.
  destruct (H m (or_introl eq_refl)) as (Hm & v & Hv & Ht). rewrite Hv.
  change (default "null" (Some v)) with v.
  rewrite setAttribute_of_markup_valid by exact Hm.
  rewrite (set_elem_attr_id _ _ _ _ Ht). apply IH.
  intros n Hn. apply H. now right.
Qed.

Lemma merge_attributes_noop (B : browser) (tc newEl : nat) (st : state) :
  attributes_in_sync B tc st newEl = true -> merge_attributes B tc newEl st = Ok tt st.
Proof.
  unfold attributes_in_sync, merge_attributes. rewrite bind_gets.
  destruct (counterpart tc "data-merge-attributes" st newEl) as [t|] eqn:C;
    [|discriminate].
  destruct (counterpart_found B _ _ _ _ _ C) as (Hk & _).
  rewrite (bind_ok _ _ _ _ _ Hk), bind_gets.
  intros H. rewrite forallb_forall in H.
  apply (attribute_loop_same B t newEl). intros n Hn.
  specialize (H n Hn). apply andb_true_iff in H as [Hv H]. split; [exact Hv|].
  apply opt_str_eqb_eq in H.
  apply get_attr_names in Hn as [v Hn]. exists v.
  split; [exact Hn|]. rewrite H. exact Hn.
Qed.

Lemma list_loop_noop (B : browser) (tl : nat) (tracked : list nat) (st : state)
    (news : list nat) :
  (forall y, In y news ->
     match find_by_key y tracked st with
     | Some m => negb (needs_replace (getAttribute st y "data-merge-cache")
                                     (getAttribute st m "data-merge-cache"))
     | None => false
     end = true) ->
  forall i, list_loop B tl news i tracked st = Ok tracked st.
Proof.
  induction news as [|y r IH]; intros H i; [reflexivity|].
  cbn [list_loop]. specialize (H y (or_introl eq_refl)) as Hy.
  assert (E : list_step B tl i y tracked st = Ok tracked st).
  { unfold list_step. rewrite bind_gets.
    destruct (find_by_key y tracked st) as [m|]; [|discriminate].
    rewrite !bind_gets. apply negb_true_iff in Hy. now rewrite Hy. }
  rewrite (bind_ok _ _ _ _ _ E). apply IH. intros z Hz. apply H. now right.
Qed.

Lemma merge_list_noop (B : browser) (tc newList : nat) (st : state) :
  list_in_sync tc st newList = true -> merge_list B tc newList st = Ok tt st.
Proof.
  unfold list_in_sync, merge_list. rewrite bind_gets.
  destruct (counterpart tc "data-merge-list" st newList) as [tl|] eqn:C;
    [|discriminate].
  destruct (counterpart_found B _ _ _ _ _ C) as (Hk & _).
  rewrite (bind_ok _ _ _ _ _ Hk), !bind_gets.
  intros H. apply andb_true_iff in H as [H1 H2].
  rewrite forallb_forall in H1, H2.
  rewrite (bind_ok _ _ st st tt).
  - rewrite bind_gets.
    rewrite (bind_ok _ _ st st
               (querySelectorAll tl
                  (SelAttrNotClass "data-merge-list-item" "merge-remove-item") st));
      [reflexivity|].
    apply list_loop_noop. exact H2.
  - apply forEach_noop. intros x Hx. specialize (H1 x Hx).
    apply bool_decide_eq_true in H1 as [m Hm].
    unfold remove_step. now rewrite bind_gets, Hm.
Qed.

(** When the fragment is in sync with the live container the merge changes
    nothing: the state after the call is the state before it. *)
Lemma mergeNodes_in_sync (B : browser) (nc tc : nat) (st : state) :
  in_sync B nc tc st = true -> mergeNodes B nc tc st = st.
Proof.
  unfold in_sync. rewrite !andb_true_iff, !forallb_forall.
  intros [[H1 H2] H3]. unfold mergeNodes, merge_body.
  rewrite bind_gets, (bind_ok _ _ st st tt).
  - rewrite bind_gets, (bind_ok _ _ st st tt).
    + rewrite bind_gets. rewrite forEach_noop; [reflexivity|].
      intros a Ha. now apply merge_list_noop, H3.
    + apply forEach_noop. intros a Ha. now apply merge_attributes_noop, H2.
  - apply forEach_noop. intros a Ha. now apply merge_content_noop, H1.
Qed.

(** ** Merging an identical fragment *)

Lemma subtrees_El (s t : tree) : In s (subtrees t) -> exists i ks, s = El i ks.
Proof.
  induction t as [s0|i ks IH] using tree_ind2; cbn [subtrees]; [intros []|].
  intros [<-|H]; [eauto|]. apply in_flat_map in H as (k & Hk & Hs).
  rewrite List.Forall_forall in IH. eauto.
Qed.

Lemma ids_subtrees (t : tree) : ids t = map root_id (subtrees t).
Proof.
  induction t as [s0|i ks IH] using tree_ind2; cbn [ids subtrees map root_id];
    [reflexivity|].
  f_equal. induction IH as [|k r Hk _ IHr]; [reflexivity|].
  cbn [List.flat_map]. now rewrite map_app, Hk, IHr.
Qed.

Lemma forest_ids_subtrees (f : list tree) :
  forest_ids f = map root_id (List.flat_map subtrees f).
Proof.
  unfold forest_ids. induction f as [|k r IH]; [reflexivity|].
  cbn [List.flat_map]. now rewrite map_app, ids_subtrees, IH.
Qed.

Lemma erase_subtrees_list (E : gmap nat elem) (ks1 : list tree) :
  Forall (fun t1 => forall t2, erase E t1 = erase E t2 ->
            map (erase E) (subtrees t1) = map (erase E) (subtrees t2)) ks1 ->
  forall ks2, map (erase E) ks1 = map (erase E) ks2 ->
  map (erase E) (List.flat_map subtrees ks1) = map (erase E) (List.flat_map subtrees ks2).
Proof.
  induction 1 as [|k r Hk _ IHr]; intros [|k2 r2] H; cbn [map] in H;
    try discriminate; [reflexivity|].
  injection H as H1 H2. cbn [List.flat_map].
  now rewrite !map_app, (Hk _ H1), (IHr _ H2).
Qed.

Lemma erase_subtrees (E : gmap nat elem) (t1 : tree) :
  forall t2, erase E t1 = erase E t2 ->
  map (erase E) (subtrees t1) = map (erase E) (subtrees t2).
Proof.
  induction t1 as [s0|i ks IH] using tree_ind2; intros [s2|j ks2] H;
    cbn [erase] in H; try discriminate; [reflexivity|].
  injection H as H1 H2. cbn [subtrees map erase]. rewrite H1, H2. f_equal.
  now apply erase_subtrees_list.
Qed.

Lemma erase_forest_subtrees (E : gmap nat elem) (ks1 ks2 : list tree) :
  map (erase E) ks1 = map (erase E) ks2 ->
  map (erase E) (List.flat_map subtrees ks1) = map (erase E) (List.flat_map subtrees ks2).
Proof.
  apply erase_subtrees_list. apply List.Forall_forall. intros t _. apply erase_subtrees.
Qed.

Lemma map_partner {A C} (h : A -> C) (l1 l2 : list A) (a : A) :
  map h l1 = map h l2 -> In a l1 -> exists b, In b l2 /\ h a = h b.
Proof.
  intros H Ha. apply (in_map h) in Ha. rewrite H in Ha.
  apply in_map_iff in Ha as (b & Hb & Hin). eauto.
Qed.

Lemma find_in_subtree (s t : tree) :
  NoDup (ids t) -> In s (subtrees t) -> find_in (root_id s) t = Some s.
Proof.
  induction t as [s0|i ks IH] using tree_ind2; intros HN Hs; cbn [subtrees] in Hs;
    [destruct Hs|].
  destruct Hs as [<-|Hs]; [apply find_in_self|].
  cbn [ids] in HN. fold (forest_ids ks) in HN. apply NoDup_cons in HN as [Hi HN].
  apply in_flat_map in Hs as (k & Hk & Hs).
  rewrite List.Forall_forall in IH.
  pose proof (IH k Hk (NoDup_flat_map_each ids ks k HN Hk) Hs) as Hf.
  assert (Hin : In (root_id s) (ids k)) by (apply find_in_Some_ids; eauto).
  cbn [find_in]. destruct (Nat.eqb_spec i (root_id s)) as [->|_].
  - exfalso. apply Hi. apply list_elem_of_In, in_forest_ids. eauto.
  - apply (first_some_unique (find_in (root_id s)) (root_id s) ks k); auto.
    intros k' Hk' Hs'. apply find_in_Some_ids in Hs'.
    now apply (NoDup_flat_map_unique ids ks k' k (root_id s)).
Qed.

Lemma find_node_subtree (s : tree) (f : list tree) :
  NoDup (forest_ids f) -> In s (List.flat_map subtrees f) ->
  find_node (root_id s) f = Some s.
Proof.
  intros HN Hs. apply in_flat_map in Hs as (k & Hk & Hs).
  pose proof (find_in_subtree s k (NoDup_flat_map_each ids f k HN Hk) Hs) as Hf.
  assert (Hin : In (root_id s) (ids k)) by (apply find_in_Some_ids; eauto).
  apply (first_some_unique (find_in (root_id s)) (root_id s) f k); auto.
  intros k' Hk' Hs'. apply find_in_Some_ids in Hs'.
  now apply (NoDup_flat_map_unique ids f k' k (root_id s)).
Qed.

Lemma find_in_is_subtree (x : nat) (t s : tree) :
  find_in x t = Some s -> In s (subtrees t).
Proof.
  revert s. induction t as [s0|i ks IH] using tree_ind2; intros s; cbn [find_in subtrees].
  - discriminate.
  - destruct (Nat.eqb i x); [intros [= <-]; now left|].
    intros H. right. induction IH as [|k r Hk _ IHr]; cbn [first_some] in H;
      [discriminate|].
    cbn [List.flat_map]. apply in_app_iff. destruct (find_in x k) eqn:E.
    + injection H as <-. left. now apply Hk.
    + right. now apply IHr.
Qed.

Lemma subtrees_trans (s t : tree) :
  In s (subtrees t) -> incl (subtrees s) (subtrees t).
Proof.
  induction t as [s0|i ks IH] using tree_ind2; cbn [subtrees]; [intros []|].
  intros [<-|H]; [apply incl_refl|].
  apply in_flat_map in H as (k & Hk & Hs). rewrite List.Forall_forall in IH.
  intros u Hu. right. apply in_flat_map. exists k. split; [exact Hk|].
  now apply (IH k Hk Hs).
Qed.

Lemma kids_subtrees_in_forest (x : nat) (st : state) :
  incl (List.flat_map subtrees (kids_of x st)) (List.flat_map subtrees (roots st)).
Proof.
  unfold kids_of. destruct (find_node x (roots st)) as [s|] eqn:E; [|intros u []].
  unfold find_node in E.
  assert (exists r, In r (roots st) /\ In s (subtrees r)) as (r & Hr & Hs).
  { induction (roots st) as [|k l IH]; cbn [first_some] in E; [discriminate|].
    destruct (find_in x k) eqn:Ek.
    - injection E as ->. exists k. split; [now left | now apply (find_in_is_subtree x)].
    - destruct (IH E) as (r & ? & ?). exists r. split; [now right | assumption]. }
  intros u Hu. apply in_flat_map. exists r. split; [exact Hr|].
  apply (subtrees_trans s r Hs).
  destruct s as [|i ks]; [destruct Hu|]. right. exact Hu.
Qed.

Lemma descendants_subtrees (x : nat) (st : state) :
  descendants x (roots st) = map root_id (List.flat_map subtrees (kids_of x st)).
Proof.
  unfold descendants, kids_of. destruct (find_node x (roots st)); [|reflexivity].
  apply forest_ids_subtrees.
Qed.

(** Every node below [a] has a twin below [b]: same tag and attributes,
    same inner markup. *)
Lemma twin_below (a b n : nat) (st : state) :
  NoDup (forest_ids (roots st)) -> same_markup a b st ->
  In n (descendants a (roots st)) ->
  exists m, In m (descendants b (roots st))
            /\ elems st !! n = elems st !! m /\ same_markup n m st.
Proof.
  intros HN Hab Hn. rewrite descendants_subtrees in *.
  apply in_map_iff in Hn as (s1 & <- & Hs1).
  destruct (map_partner (erase (elems st)) _ _ s1
              (erase_forest_subtrees _ _ _ Hab) Hs1) as (s2 & Hs2 & He).
  exists (root_id s2). split; [now apply in_map|].
  apply kids_subtrees_in_forest in Hs1 as Hr1.
  apply kids_subtrees_in_forest in Hs2 as Hr2.
  apply in_flat_map in Hs1 as (k1 & _ & Hk1). apply subtrees_El in Hk1 as (i & c1 & ->).
  apply in_flat_map in Hs2 as (k2 & _ & Hk2). apply subtrees_El in Hk2 as (j & c2 & ->).
  cbn [erase] in He. injection He as He1 He2. cbn [root_id].
  split; [exact He1|]. unfold same_markup, kids_of.
  pose proof (find_node_subtree (El i c1) _ HN Hr1) as F1.
  pose proof (find_node_subtree (El j c2) _ HN Hr2) as F2.
  cbn [root_id] in F1, F2. rewrite F1, F2. exact He2.
Qed.

Lemma same_markup_sym (a b : nat) (st : state) :
  same_markup a b st -> same_markup b a st.
Proof. unfold same_markup. congruence. Qed.

Lemma sel_matches_twin (st : state) (s : selector) (i j : nat) :
  elems st !! i = elems st !! j -> sel_matches st s i = sel_matches st s j.
Proof. intros H. unfold sel_matches. now rewrite H. Qed.

Lemma twin_selected (a b n : nat) (s : selector) (st : state) :
  NoDup (forest_ids (roots st)) -> same_markup a b st ->
  In n (querySelectorAll a s st) ->
  exists m, In m (querySelectorAll b s st)
            /\ elems st !! n = elems st !! m /\ same_markup n m st.
Proof.
  intros HN Hab Hn. apply filter_In in Hn as [Hd Hm].
  destruct (twin_below a b n st HN Hab Hd) as (m & Hdm & He & Hs).
  exists m. split; [|split; assumption].
  apply filter_In. split; [exact Hdm|]. now rewrite <- (sel_matches_twin st s n m He).
Qed.

Lemma unique_keys_inj (a : string) (l : list nat) (st : state) (x y : nat) :
  unique_keys a l st = true -> In x l -> In y l ->
  getAttribute st x a = getAttribute st y a -> x = y.
Proof.
  unfold unique_keys. intros H. apply bool_decide_eq_true in H.
  induction l as [|z r IH]; [intros []|].
  cbn [map] in H. apply NoDup_cons in H as [Hz H].
  intros [->|Hx] [->|Hy] E; [reflexivity| | |now apply IH].
  - exfalso. apply Hz. rewrite E. apply list_elem_of_In.
    apply (in_map (fun i => getAttribute st i a)), Hy.
  - exfalso. apply Hz. rewrite <- E. apply list_elem_of_In.
    apply (in_map (fun i => getAttribute st i a)), Hx.
Qed.

Lemma querySelector_first (root : nat) (a v : string) (st : state) (m : nat) :
  In m (querySelectorAll root (SelAttr a) st) -> getAttribute st m a = Some v ->
  exists t, querySelector root (SelAttrEq a v) st = Some t
            /\ In t (querySelectorAll root (SelAttr a) st)
            /\ getAttribute st t a = Some v.
Proof.
  intros Hm Hv. apply filter_In in Hm as [Hd Hm].
  unfold querySelector.
  destruct (querySelectorAll root (SelAttrEq a v) st) as [|t r] eqn:E.
  - exfalso. assert (Hin : In m (querySelectorAll root (SelAttrEq a v) st)).
    { apply filter_In. split; [exact Hd|]. unfold sel_matches, getAttribute, attrs_of in *.
      destruct (elems st !! m); [|discriminate]. rewrite Hv. apply str_eqb_refl. }
    rewrite E in Hin. destruct Hin.
  - exists t. split; [reflexivity|].
    assert (Hin : In t (querySelectorAll root (SelAttrEq a v) st)) by (rewrite E; now left).
    apply filter_In in Hin as [Hdt Hmt].
    unfold sel_matches in Hmt. unfold getAttribute, attrs_of.
    destruct (elems st !! t) as [e|] eqn:Et; [|discriminate].
    apply opt_str_eqb_eq in Hmt. split; [|exact Hmt].
    apply filter_In. split; [exact Hdt|]. unfold sel_matches. rewrite Et, Hmt.
    apply bool_decide_eq_true. eauto.
Qed.

Lemma selected_has_attr (root : nat) (a : string) (st : state) (n : nat) :
  In n (querySelectorAll root (SelAttr a) st) -> is_Some (getAttribute st n a).
Proof.
  intros H. apply filter_In in H as [_ H]. unfold sel_matches, getAttribute, attrs_of in *.
  destruct (elems st !! n); [|discriminate]. now apply bool_decide_eq_true in H.
Qed.

(** The live counterpart of a marked node of an identical fragment is its
    twin. *)
Lemma counterpart_is_twin (nc tc n : nat) (a : string) (st : state) :
  NoDup (forest_ids (roots st)) -> same_markup nc tc st ->
  unique_keys a (querySelectorAll tc (SelAttr a) st) st = true ->
  plain_keys a (querySelectorAll tc (SelAttr a) st) st = true ->
  In n (querySelectorAll nc (SelAttr a) st) ->
  exists t, counterpart tc a st n = Some t
            /\ In t (querySelectorAll tc (SelAttr a) st)
            /\ elems st !! n = elems st !! t /\ same_markup n t st.
Proof.
  intros HN Hs Hu Hp Hn.
  destruct (twin_selected nc tc n (SelAttr a) st HN Hs Hn) as (m & Hm & He & Hsm).
  destruct (selected_has_attr _ _ _ _ Hn) as [v Hv].
  assert (Hmv : getAttribute st m a = Some v).
  { rewrite <- Hv. unfold getAttribute, attrs_of. now rewrite He. }
  assert (Hplain : css_plain v = true).
  { unfold plain_keys in Hp. rewrite forallb_forall in Hp. specialize (Hp m Hm).
    now rewrite Hmv in Hp. }
  unfold counterpart. cbv zeta. rewrite Hv. cbn [js_to_string]. rewrite Hplain.
  destruct (querySelector_first tc a v st m Hm Hmv) as (t & Hq & Ht & Htv).
  assert (t = m) as ->.
  { apply (unique_keys_inj a _ st t m Hu Ht Hm). congruence. }
  eauto.
Qed.

Lemma needs_replace_same (a : option string) :
  truthy a = true -> needs_replace a a = false.
Proof.
  intros H. unfold needs_replace. rewrite H.
  now rewrite (proj2 (opt_str_eqb_eq a a) eq_refl).
Qed.

Lemma find_by_key_present (x y : nat) (items : list nat) (st : state) :
  In y items -> elems st !! x = elems st !! y ->
  exists m, find_by_key x items st = Some m /\ In m items
            /\ getAttribute st m "data-merge-list-item"
               = getAttribute st x "data-merge-list-item".
Proof.
  intros Hy He. unfold find_by_key.
  destruct (List.find _ items) as [m|] eqn:F.
  - apply List.find_some in F as [Hm Hk]. apply opt_str_eqb_eq in Hk. eauto.
  - exfalso. apply (List.find_none _ _ F) in Hy.
    cbv beta in Hy. unfold getAttribute, attrs_of in Hy. rewrite He in Hy.
    now rewrite (proj2 (opt_str_eqb_eq _ _) eq_refl) in Hy.
Qed.

Lemma items_not_in_removal (tl : nat) (st : state) :
  forallb (fun x => negb (has_class st x "merge-remove-item"))
    (querySelectorAll tl (SelAttr "data-merge-list-item") st) = true ->
  querySelectorAll tl (SelAttrNotClass "data-merge-list-item" "merge-remove-item") st
  = querySelectorAll tl (SelAttr "data-merge-list-item") st.
Proof.
  intros H. rewrite forallb_forall in H. unfold querySelectorAll in *.
  apply filter_ext_in. intros d Hd.
  destruct (sel_matches st (SelAttr "data-merge-list-item") d) eqn:E.
  - assert (Hc : negb (has_class st d "merge-remove-item") = true).
    { apply H, filter_In. split; assumption. }
    unfold sel_matches, has_class, attrs_of in *.
    destruct (elems st !! d); [|discriminate]. now rewrite E, Hc.
  - unfold sel_matches in *. destruct (elems st !! d); [|reflexivity]. now rewrite E.
Qed.

Lemma forallb_and {A} (p q : A -> bool) (l : list A) :
  forallb (fun x => p x && q x) l = true ->
  forallb p l = true /\ forallb q l = true.
Proof.
  rewrite !forallb_forall. intros H.
  split; intros x Hx; apply H in Hx; apply andb_true_iff in Hx; tauto.
Qed.

(** A fragment whose markup is that of a well-keyed live container is in
    sync with it. *)
Lemma identical_in_sync (B : browser) (nc tc : nat) (st : state) :
  NoDup (forest_ids (roots st)) -> same_markup nc tc st ->
  well_keyed B tc st = true -> in_sync B nc tc st = true.
Proof.
  intros HN Hs Hw. unfold well_keyed in Hw. cbv zeta in Hw.
  apply andb_true_iff in Hw as [Hw Hl]. apply andb_true_iff in Hw as [Hc Ha].
  apply andb_true_iff in Hc as [Hc Htc]. apply andb_true_iff in Hc as [Huc Hpc].
  apply andb_true_iff in Ha as [Ha Hva]. apply andb_true_iff in Ha as [Hua Hpa].
  apply andb_true_iff in Hl as [Hl Hil]. apply andb_true_iff in Hl as [Hul Hpl].
  rename Hil into Hl.
  rewrite forallb_forall in Htc, Hl, Hva.
  unfold in_sync. rewrite !andb_true_iff, !forallb_forall.
  split; [split|].
  - intros n Hn.
    destruct (counterpart_is_twin nc tc n "data-merge" st HN Hs Huc Hpc Hn)
      as (t & Hq & Ht & He & _).
    unfold content_in_sync. rewrite Hq.
    assert (Hc : getAttribute st n "data-merge-cache"
                 = getAttribute st t "data-merge-cache").
    { unfold getAttribute, attrs_of. now rewrite He. }
    rewrite Hc, needs_replace_same; [reflexivity|]. apply (Htc t Ht).
  - intros n Hn.
    destruct (counterpart_is_twin nc tc n "data-merge-attributes" st HN Hs Hua Hpa Hn)
      as (t & Hq & Ht & He & _).
    unfold attributes_in_sync. rewrite Hq. apply forallb_forall. intros a Hin.
    apply andb_true_iff. split.
    + specialize (Hva t Ht). rewrite forallb_forall in Hva. apply Hva.
      unfold getAttributeNames, attrs_of in *. now rewrite <- He.
    + apply opt_str_eqb_eq. unfold getAttribute, attrs_of. now rewrite He.
  - intros L HL.
    destruct (counterpart_is_twin nc tc L "data-merge-list" st HN Hs Hul Hpl HL)
      as (tl & Hq & Htl & _ & Hsl).
    unfold list_in_sync. rewrite Hq. cbv zeta.
    specialize (Hl tl Htl). cbv zeta in Hl. apply andb_true_iff in Hl as [Hui Hi].
    apply forallb_and in Hi as [Hti Hri].
    rewrite (items_not_in_removal tl st Hri).
    rewrite forallb_forall in Hti.
    apply andb_true_iff. split; apply forallb_forall.
    + intros x Hx. apply bool_decide_eq_true.
      destruct (twin_selected tl L x _ st HN (same_markup_sym _ _ _ Hsl) Hx)
        as (y & Hy & He & _).
      destruct (find_by_key_present x y _ st Hy He) as (m & -> & _). eauto.
    + intros y Hy.
      destruct (twin_selected L tl y _ st HN Hsl Hy) as (x & Hx & He & _).
      destruct (find_by_key_present y x _ st Hx He) as (m & -> & Hm & Hk).
      assert (m = x) as ->.
      { apply (unique_keys_inj "data-merge-list-item" _ st m x Hui Hm Hx).
        rewrite Hk. unfold getAttribute, attrs_of. now rewrite He. }
      assert (Hc : getAttribute st y "data-merge-cache"
                   = getAttribute st x "data-merge-cache").
      { unfold getAttribute, attrs_of. now rewrite He. }
      rewrite Hc, needs_replace_same; [reflexivity|]. apply (Hti x Hx).
Qed.

(** C7, as the code has it. Merging a fragment whose markup is that of the
    live container changes nothing, provided the live container is well
    keyed: the marker keys of each kind are unique (list-item keys within
    their list) and plain, so that each look-up finds the twin of the new
    node; [setAttribute] accepts the attribute names of the attribute-marked
    nodes; every content-marked node and every list item carries a non-empty
    cache token; and no list item is in removal. The state after the call
    is then the state before it: no node is replaced, no attribute changes,
    no item is inserted or removed, no timer is set and the page is not
    reloaded; so merging the same fragment once more changes nothing
    either. *)
Theorem merge_identical_fragment_changes_nothing (B : browser) (nc tc : nat)
    (st : state) :
  NoDup (forest_ids (roots st)) -> same_markup nc tc st -> well_keyed B tc st = true ->
  mergeNodes B nc tc st = st
  /\ mergeNodes B nc tc (mergeNodes B nc tc st) = st.
Proof.
  intros HN Hs Hw.
  assert (H : mergeNodes B nc tc st = st)
    by (apply mergeNodes_in_sync; now apply identical_in_sync).
  split; [exact H | now rewrite !H].
Qed.

Lemma merge_identical_fragment_changes_nothing_witness :
  mergeNodes plain_browser 100 1 synced_page = synced_page
  /\ mergeNodes plain_browser 100 1 (mergeNodes plain_browser 100 1 synced_page)
     = synced_page.
Proof.
  apply (merge_identical_fragment_changes_nothing plain_browser 100 1 synced_page).
  - apply NoDup_check. vm_compute. reflexivity.
  - vm_compute. reflexivity.
  - vm_compute. reflexivity.
Defined.

(** ** Timers that fire among others *)

















(** ** The claims on concrete pages *)


Lemma merge_content_token_rule_witness :
  (needs_replace (Some "v2") (Some "v1") = true
   <-> truthy (Some "v2") = false \/ truthy (Some "v1") = false
       \/ Some "v2" <> Some "v1")
  /\ exists s2,
       merge_content plain_browser 1 102 totals_page = Ok tt s2
       /\ mergeNodes plain_browser 100 1 totals_page
          = settle (rest_of_contents plain_browser 100 1 [] s2)
       /\ if needs_replace (Some "v2") (Some "v1") then
            map (erase (elems s2)) (kids_of 2 s2)
            = reparsed plain_browser totals_page 2 102
            /\ getAttribute s2 2 "data-merge-cache"
               = (if truthy (Some "v2") || truthy (Some "v1")
                  then Some (js_to_string (Some "v2")) else Some "v1")
            /\ (forall n, n <> "data-merge-cache" ->
                          getAttribute s2 2 n = getAttribute totals_page 2 n)
          else s2 = totals_page.
Proof.
  apply (merge_content_token_rule plain_browser 100 1 102 2 [] [] totals_page
           totals_page).
  - apply wf_store_lt, wfb_wf. vm_compute. reflexivity.
  - vm_compute. reflexivity.
  - reflexivity.
  - vm_compute. reflexivity.
Defined.

Lemma merge_attributes_is_additive_witness :
  exists s3,
    merge_attributes plain_browser 1 104 totals_content_merged = Ok tt s3
    /\ mergeNodes plain_browser 100 1 totals_page
       = settle (rest_of_attributes plain_browser 100 1 [] s3)
    /\ (forall n v, getAttribute totals_content_merged 104 n = Some v ->
                    getAttribute s3 4 n = Some v)
    /\ (forall n, getAttribute totals_content_merged 104 n = None ->
                  getAttribute s3 4 n = getAttribute totals_content_merged 4 n)
    /\ (forall j n, j <> 4 ->
                    getAttribute s3 j n = getAttribute totals_content_merged j n)
    /\ roots s3 = roots totals_content_merged.
Proof.
  apply (merge_attributes_is_additive plain_browser 100 1 104 4 [] [] totals_page
           totals_content_merged totals_content_merged).
  - vm_compute. reflexivity.
  - vm_compute. reflexivity.
  - reflexivity.
  - vm_compute. reflexivity.
  - intros n Hn. vm_compute in Hn.
    destruct Hn as [<-|[<-|[<-|[]]]]; reflexivity.
Defined.

Lemma merge_inserting_childless_item_reloads_witness :
  exists s', mergeNodes plain_browser 100 1 childless_page = reload s'
             /\ timers s' = []
             /\ reloads (mergeNodes plain_browser 100 1 childless_page) = 1.
Proof.
  destruct (merge_inserting_childless_item_reloads plain_browser 100 1
              childless_page childless_page childless_page childless_page
              childless_page childless_page
              [] [] 102 2 [105] [] [5] 107)
    as (s' & E & T & R).
  - vm_compute. reflexivity.
  - vm_compute. reflexivity.
  - vm_compute. reflexivity.
  - vm_compute. reflexivity.
  - vm_compute. reflexivity.
  - vm_compute. reflexivity.
  - vm_compute. reflexivity.
  - vm_compute. reflexivity.
  - vm_compute. reflexivity.
  - vm_compute. reflexivity.
  - apply NoDup_check. vm_compute. reflexivity.
  - exists s'. split; [exact E|]. split; [exact T | exact R].
Defined.

(** C7, as stated, fails in three cases; in each the fragment is identical
    to the live container, marker for marker. On [tokenless_page] the merge
    replaces the child of the content-marked node, which carries no token,
    by a new node. On [quoted_synced_page] the key of the content marker
    holds a double quote, the look-up of line 171 raises an exception and
    the merge ends in the reload. On [odd_synced_page] the attribute-marked
    button carries an attribute whose name [setAttribute] refuses, and the
    merge ends in the reload. *)
Lemma merge_identical_fragment_can_change_page :
  (NoDup (forest_ids (roots tokenless_page))
   /\ same_markup 100 1 tokenless_page
   /\ kids_of 2 tokenless_page = [El 3 [Txt "10.00"]]
   /\ kids_of 2 (mergeNodes plain_browser 100 1 tokenless_page) = [El 200 [Txt "10.00"]]
   /\ parentNode 3 (mergeNodes plain_browser 100 1 tokenless_page) = None)
  /\ (NoDup (forest_ids (roots quoted_synced_page))
      /\ same_markup 100 1 quoted_synced_page
      /\ reloads quoted_synced_page = 0
      /\ reloads (mergeNodes plain_browser 100 1 quoted_synced_page) = 1)
  /\ (NoDup (forest_ids (roots odd_synced_page))
      /\ same_markup 100 1 odd_synced_page
      /\ reloads odd_synced_page = 0
      /\ reloads (mergeNodes plain_browser 100 1 odd_synced_page) = 1).
Proof.
  split; [|split].
  - split; [apply NoDup_check; vm_compute; reflexivity|].
    vm_compute. repeat split; reflexivity.
  - split; [apply NoDup_check; vm_compute; reflexivity|].
    vm_compute. repeat split; reflexivity.
  - split; [apply NoDup_check; vm_compute; reflexivity|].
    vm_compute. repeat split; reflexivity.
Qed.

(** C1, as stated, fails in two cases. On [quoted_key_page] the new node
    and the live node carry the same marker key and tokens that differ,
    but the key holds a double quote: the look-up of line 171 raises an
    exception, nothing is replaced and the merge ends in the reload. On
    [note_page] the content is replaced, by what the parser makes of the
    serialised content of the new node: the line break that begins the text
    of the [textarea] is lost, and the live node's content is not the new
    node's. *)
Lemma content_replacement_can_fail_or_differ :
  (querySelectorAll 100 (SelAttr "data-merge") quoted_key_page = [102]
   /\ In 2 (descendants 1 (roots quoted_key_page))
   /\ getAttribute quoted_key_page 2 "data-merge"
      = getAttribute quoted_key_page 102 "data-merge"
   /\ needs_replace (getAttribute quoted_key_page 102 "data-merge-cache")
                    (getAttribute quoted_key_page 2 "data-merge-cache") = true
   /\ kids_of 2 (mergeNodes plain_browser 100 1 quoted_key_page)
      = kids_of 2 quoted_key_page
   /\ reloads (mergeNodes plain_browser 100 1 quoted_key_page) = 1)
  /\ let st := mergeNodes reparsing_browser 100 1 note_page in
     counterpart 1 "data-merge" note_page 102 = Some 2
     /\ map (erase (elems note_page)) (kids_of 102 note_page)
        = [MElem (Some (Elem "textarea" [])) [MText (String "010" "Note")]]
     /\ map (erase (elems st)) (kids_of 2 st)
        = [MElem (Some (Elem "textarea" [])) [MText "Note"]]
     /\ reloads st = 0.
Proof.
  split.
  - split; [vm_compute; reflexivity|]. split; [vm_compute; tauto|].
    vm_compute. repeat split; reflexivity.
  - vm_compute. repeat split; reflexivity.
Qed.

(** C5, as stated, fails in two cases. On [odd_attribute_page] the new
    node carries an attribute named [=x]: [setAttribute] refuses the name,
    the attribute before it has been copied, the one after it never is, and
    the merge ends in the reload. On [quoted_attribute_page] the marker
    key holds a double quote: the look-up of line 183 raises an exception,
    no attribute is copied and the merge ends in the reload. *)
Lemma attribute_sync_can_fail :
  (let st := mergeNodes plain_browser 100 1 odd_attribute_page in
   counterpart 1 "data-merge-attributes" odd_attribute_page 102 = Some 2
   /\ getAttributeNames odd_attribute_page 102
      = ["data-merge-attributes"; "class"; "=x"; "aria-busy"]
   /\ getAttribute st 2 "class" = Some "btn btn--primary"
   /\ getAttribute st 2 "=x" = None
   /\ getAttribute st 2 "aria-busy" = None
   /\ reloads st = 1)
  /\ let st := mergeNodes plain_browser 100 1 quoted_attribute_page in
     In 2 (descendants 1 (roots quoted_attribute_page))
     /\ getAttribute quoted_attribute_page 2 "data-merge-attributes"
        = getAttribute quoted_attribute_page 102 "data-merge-attributes"
     /\ getAttribute quoted_attribute_page 102 "class" = Some "btn btn--primary"
     /\ getAttribute st 2 "class" = Some "btn"
     /\ reloads st = 1.
Proof.
  split.
  - vm_compute. repeat split; reflexivity.
  - split; [vm_compute; tauto|]. vm_compute. repeat split; reflexivity.
Qed.

(** C6: the code at the failing input. The live item carries the token
    [t1], the new item with the same key carries none: the differ replaces
    the content and leaves [t1] on the live item (line 218 tests the new
    token only), where the content pass, on the same data, overwrites the
    token (line 176 tests both). *)
Theorem list_update_keeps_stale_token :
  let st' := mergeNodes plain_browser 100 1 stale_token_page in
  map (erase (elems st')) (kids_of 3 st')
  = map (erase (elems stale_token_page)) (kids_of 103 stale_token_page)
  /\ getAttribute st' 3 "data-merge-cache" = Some "t1"
  /\ reloads st' = 0
  /\ getAttribute (mergeNodes plain_browser 100 1 stale_content_page) 2 "data-merge-cache"
     = Some "undefined".
Proof. vm_compute. repeat split; reflexivity. Qed.

(** * Further properties of the engine *)

(** ** Markers without live counterpart *)

(** A content-marked node of the fragment whose key selects no live node
    ends the merge: the nodes before it have been merged, nothing after it
    is, and the page is reloaded once (lines 171-175: [targetEl] is [null],
    and reading [targetEl.dataset] or assigning [targetEl.innerHTML]
    throws). *)
Theorem content_marker_without_counterpart_reloads (B : browser) (nc tc newEl : nat)
    (pre post : list nat) (st s1 : state) :
  querySelectorAll nc (SelAttr "data-merge") st = pre ++ newEl :: post ->
  forEach (merge_content B tc) pre st = Ok tt s1 ->
  query_by_key B tc "data-merge" (js_to_string (getAttribute s1 newEl "data-merge")) s1
    = Ok None s1 ->
  mergeNodes B nc tc st = reload s1.
Proof.
  intros Hq Hpre Hn. unfold mergeNodes, merge_body. rewrite bind_gets, Hq.
  assert (Ht : merge_content B tc newEl s1 = Throw s1).
  { unfold merge_content. now rewrite bind_gets, (bind_ok _ _ _ _ _ Hn). }
  now rewrite (bind_throw _ _ _ _ (forEach_throw_at _ pre post newEl st s1 s1 Hpre Ht)).
Qed.

Lemma content_marker_without_counterpart_reloads_witness :
  mergeNodes plain_browser 100 1 orphan_marker_page
  = reload (result_state (merge_content plain_browser 1 102 orphan_marker_page)).
Proof.
  apply (content_marker_without_counterpart_reloads plain_browser 100 1 104 [102] []).
  - vm_compute. reflexivity.
  - vm_compute. reflexivity.
  - vm_compute. reflexivity.
Defined.

(** An attribute-marked node of the fragment whose key selects no live
    node ends the merge in the same way (line 187: [targetEl.setAttribute]
    on [null], reached because the node has at least its marker attribute):
    the content pass and the attribute steps before it have run, and the
    page is reloaded once. *)
Theorem attribute_marker_without_counterpart_reloads (B : browser) (nc tc newEl : nat)
    (pre post : list nat) (st s1 s2 : state) :
  forEach (merge_content B tc) (querySelectorAll nc (SelAttr "data-merge") st) st
    = Ok tt s1 ->
  querySelectorAll nc (SelAttr "data-merge-attributes") s1 = pre ++ newEl :: post ->
  forEach (merge_attributes B tc) pre s1 = Ok tt s2 ->
  is_Some (getAttribute s2 newEl "data-merge-attributes") ->
  query_by_key B tc "data-merge-attributes"
    (js_to_string (getAttribute s2 newEl "data-merge-attributes")) s2 = Ok None s2 ->
  mergeNodes B nc tc st = reload s2.
Proof.
  intros H1 Hq Hpre [v Hv] Hn. unfold mergeNodes, merge_body.
  rewrite bind_gets, (bind_ok _ _ _ _ _ H1), bind_gets, Hq.
  assert (Ht : merge_attributes B tc newEl s2 = Throw s2).
  { unfold merge_attributes. rewrite bind_gets, (bind_ok _ _ _ _ _ Hn), bind_gets.
    unfold getAttributeNames. unfold getAttribute in Hv.
    destruct (attrs_of s2 newEl) as [|[k w] r]; [discriminate|]. reflexivity. }
  now rewrite (bind_throw _ _ _ _ (forEach_throw_at _ pre post newEl s1 s2 s2 Hpre Ht)).
Qed.

Lemma attribute_marker_without_counterpart_reloads_witness :
  mergeNodes plain_browser 100 1 orphan_attribute_page = reload orphan_attribute_page.
Proof.
  apply (attribute_marker_without_counterpart_reloads plain_browser 100 1 102 [] []
           orphan_attribute_page orphan_attribute_page orphan_attribute_page).
  - vm_compute. reflexivity.
  - vm_compute. reflexivity.
  - reflexivity.
  - vm_compute. eauto.
  - vm_compute. reflexivity.
Defined.

(** A list of the fragment whose key selects no live list ends the merge
    too (line 193: [targetList.querySelectorAll] on [null]): the two marker
    passes and the lists before it have been merged, and the page is
    reloaded once. *)
Theorem list_without_counterpart_reloads (B : browser) (nc tc newList : nat)
    (pre post : list nat) (st s1 s2 s3 : state) :
  forEach (merge_content B tc) (querySelectorAll nc (SelAttr "data-merge") st) st
    = Ok tt s1 ->
  forEach (merge_attributes B tc)
    (querySelectorAll nc (SelAttr "data-merge-attributes") s1) s1 = Ok tt s2 ->
  querySelectorAll nc (SelAttr "data-merge-list") s2 = pre ++ newList :: post ->
  forEach (merge_list B tc) pre s2 = Ok tt s3 ->
  query_by_key B tc "data-merge-list"
    (js_to_string (getAttribute s3 newList "data-merge-list")) s3 = Ok None s3 ->
  mergeNodes B nc tc st = reload s3.
Proof.
  intros H1 H2 Hq Hpre Hn. unfold mergeNodes, merge_body.
  rewrite bind_gets, (bind_ok _ _ _ _ _ H1), bind_gets, (bind_ok _ _ _ _ _ H2).
  rewrite bind_gets, Hq.
  assert (Ht : merge_list B tc newList s3 = Throw s3).
  { unfold merge_list. now rewrite bind_gets, (bind_ok _ _ _ _ _ Hn). }
  now rewrite (forEach_throw_at _ pre post newList s2 s3 s3 Hpre Ht).
Qed.

Lemma list_without_counterpart_reloads_witness :
  mergeNodes plain_browser 100 1 orphan_list_page = reload orphan_list_page.
Proof.
  apply (list_without_counterpart_reloads plain_browser 100 1 102 [] []
           orphan_list_page orphan_list_page orphan_list_page orphan_list_page).
  - vm_compute. reflexivity.
  - vm_compute. reflexivity.
  - vm_compute. reflexivity.
  - reflexivity.
  - vm_compute. reflexivity.
Defined.

(** ** Exceptions end in the reload *)

(** The attribute pass adds and overwrites attributes, and removes none. *)
Lemma merge_attributes_keeps_attributes (B : browser) (tc x : nat) (j : nat)
    (n : string) (st : state) :
  is_Some (getAttribute st j n) ->
  is_Some (getAttribute (result_state (merge_attributes B tc x st)) j n).
Proof.
  intros H. unfold merge_attributes. rewrite bind_gets. unfold bind at 1.
  destruct (query_by_key B tc "data-merge-attributes" _ st) as [t s|s] eqn:Q.
  - apply query_by_key_Ok in Q. subst s. rewrite bind_gets.
    apply (forEach_invariant (fun s => is_Some (getAttribute s j n))); [|exact H].
    intros m s Hs. destruct t as [t|]; [|exact Hs].
    rewrite bind_gets. unfold setAttribute_of_markup.
    destruct (valid_name B m); [|exact Hs].
    unfold setAttribute, modify. cbn [result_state].
    destruct (decide (t = j /\ m = n)) as [[-> ->]|Hne].
    + destruct Hs as [v Hv]. rewrite getAttribute_set_same; [eauto|].
      now apply getAttribute_in_store in Hv.
    + rewrite getAttribute_set_other; [exact Hs|].
      destruct (decide (t = j)) as [->|Ht]; [right; intros ->; tauto | now left].
  - apply query_by_key_Throw in Q. now subst s.
Qed.

(** What the look-up gives when it gives no element. *)
Lemma query_by_key_none (B : browser) (c : nat) (a key : string) (st : state) :
  (forall t, query_by_key B c a key st <> Ok (Some t) st) ->
  query_by_key B c a key st = Ok None st \/ query_by_key B c a key st = Throw st.
Proof.
  intros H. destruct (query_by_key B c a key st) as [[t|] s|s] eqn:Q.
  - apply query_by_key_Ok in Q as Hs. subst s. now destruct (H t).
  - apply query_by_key_Ok in Q as Hs. subst s. now left.
  - apply query_by_key_Throw in Q as Hs. subst s. now right.
Qed.

(** A marked node whose look-up gives no element makes its turn throw,
    before the turn has changed anything. *)
Lemma merge_marked_without_counterpart (B : browser) (tc : nat) (k : marker)
    (newEl : nat) (s : state) :
  is_Some (getAttribute s newEl (marker_attr k)) ->
  (forall t,
     query_by_key B tc (marker_attr k)
       (js_to_string (getAttribute s newEl (marker_attr k))) s <> Ok (Some t) s) ->
  merge_marked B tc k newEl s = Throw s.
Proof.
  intros [v Hv] Hq. apply query_by_key_none in Hq.
  destruct k; cbn [merge_marked marker_attr] in *.
  - unfold merge_content. rewrite bind_gets.
    destruct Hq as [Hq|Hq]; [now rewrite (bind_ok _ _ _ _ _ Hq) | now apply bind_throw].
  - unfold merge_attributes. rewrite bind_gets.
    destruct Hq as [Hq|Hq]; [|now apply bind_throw].
    rewrite (bind_ok _ _ _ _ _ Hq), bind_gets.
    unfold getAttributeNames. unfold getAttribute in Hv.
    destruct (attrs_of s newEl) as [|[a w] r]; [discriminate|]. reflexivity.
  - unfold merge_list. rewrite bind_gets.
    destruct Hq as [Hq|Hq]; [now rewrite (bind_ok _ _ _ _ _ Hq) | now apply bind_throw].
Qed.

(** No turn of a pass takes a marker attribute off a node of the
    fragment that the pass has still to reach. *)
Lemma marker_still_there (B : browser) (nc tc : nat) (k : marker) (pre post : list nat)
    (newEl : nat) (s0 s : state) :
  querySelectorAll nc (SelAttr (marker_attr k)) s0 = pre ++ newEl :: post ->
  forEach (merge_marked B tc k) pre s0 = Ok tt s ->
  k = AttributeMarker ->
  is_Some (getAttribute s newEl (marker_attr k)).
Proof.
  intros Hq Hpre ->. cbn [merge_marked marker_attr] in *.
  assert (H0 : is_Some (getAttribute s0 newEl "data-merge-attributes")).
  { apply (selected_has_attr nc). rewrite Hq. apply in_app_iff. right. now left. }
  pose proof (forEach_invariant
                (fun s => is_Some (getAttribute s newEl "data-merge-attributes"))
                (merge_attributes B tc) pre
                (fun x st => merge_attributes_keeps_attributes B tc x newEl _ st)
                s0 H0) as H.
  now rewrite Hpre in H.
Qed.

(** C4. Whatever the inputs, [mergeNodes] returns a state: no exception
    leaves it. Either the [try] block completes, and the result is the
    state it reached, with no reload; or it throws, anywhere, and the result
    is the state reached at the exception after one reload: the reload is
    the one trace of the failure, and there is exactly one. A marker of the
    fragment without live counterpart is such an exception, for each of the
    three kinds of marker: when the merge reaches the marked node and the
    look-up by its key gives no element ([null], or a selector text that is
    no selector), the [try] block throws there, in the state reached so
    far (the nodes before it are merged, nothing after it is), and the
    call returns that state, reloaded once. *)
Theorem mergeNodes_catches_and_reloads_once (B : browser) (nc tc : nat) (st : state) :
  ((exists s, merge_body B nc tc st = Ok tt s
              /\ mergeNodes B nc tc st = s /\ reloads s = reloads st)
   \/ (exists s, merge_body B nc tc st = Throw s
                 /\ mergeNodes B nc tc st = reload s
                 /\ reloads (mergeNodes B nc tc st) = S (reloads st)))
  /\ (forall k newEl s,
        lacks_counterpart B nc tc st k newEl s ->
        merge_body B nc tc st = Throw s
        /\ mergeNodes B nc tc st = reload s
        /\ reloads (mergeNodes B nc tc st) = S (reloads st)).
Proof.
  pose proof (keeps_reloads_merge_body B nc tc st) as Hr.
  assert (Hthrow : forall s, merge_body B nc tc st = Throw s ->
                     mergeNodes B nc tc st = reload s
                     /\ reloads (mergeNodes B nc tc st) = S (reloads st)).
  { intros s E. unfold mergeNodes. rewrite E in *. cbn in *. split; [reflexivity|].
    now rewrite Hr. }
  split.
  - destruct (merge_body B nc tc st) as [[] s|s] eqn:E.
    + left. exists s. split; [reflexivity|]. unfold mergeNodes. rewrite E. now split.
    + right. exists s. split; [reflexivity|]. now apply Hthrow.
  - intros k newEl s (s0 & pre & post & H0 & Hq & Hpre & Hn).
    assert (Ht : merge_marked B tc k newEl s = Throw s).
    { destruct k.
      - apply query_by_key_none in Hn. cbn [merge_marked marker_attr] in *.
        unfold merge_content. rewrite bind_gets.
        destruct Hn as [Hn|Hn];
          [now rewrite (bind_ok _ _ _ _ _ Hn) | now apply bind_throw].
      - apply merge_marked_without_counterpart; [|exact Hn].
        now apply (marker_still_there B nc tc AttributeMarker pre post newEl s0).
      - apply query_by_key_none in Hn. cbn [merge_marked marker_attr] in *.
        unfold merge_list. rewrite bind_gets.
        destruct Hn as [Hn|Hn];
          [now rewrite (bind_ok _ _ _ _ _ Hn) | now apply bind_throw]. }
    pose proof (forEach_throw_at _ pre post newEl s0 s s Hpre Ht) as Hf.
    assert (E : merge_body B nc tc st = Throw s).
    { destruct k; cbn [pass_starts merge_marked marker_attr] in *.
      + subst s0. rewrite merge_body_contents, Hq. unfold rest_of_contents.
        now apply bind_throw.
      + rewrite (merge_body_attributes B nc tc st s0 H0), Hq.
        unfold rest_of_attributes. now apply bind_throw.
      + destruct H0 as (s1 & H1 & H2).
        now rewrite (merge_body_lists B nc tc st s1 s0 H1 H2), Hq. }
    split; [exact E | now apply Hthrow].
Qed.

Lemma mergeNodes_catches_and_reloads_once_witness :
  merge_body plain_browser 100 1 orphan_list_page = Throw orphan_list_page
  /\ mergeNodes plain_browser 100 1 orphan_list_page = reload orphan_list_page
  /\ reloads (mergeNodes plain_browser 100 1 orphan_list_page) = 1.
Proof.
  apply (proj2 (mergeNodes_catches_and_reloads_once plain_browser 100 1 orphan_list_page)
           ListMarker 102).
  exists orphan_list_page, [], []. split; [|split; [|split]].
  - exists orphan_list_page. split; vm_compute; reflexivity.
  - vm_compute. reflexivity.
  - reflexivity.
  - intros t. vm_compute. discriminate.
Defined.

(** ** The update rule of the keyed list differ *)

(** A new item whose key matches the tracked item [m] (lines 212-221): the
    tracked sequence is unchanged and no timer is set. The content of [m] is
    replaced exactly when the token test asks for it, by what the content of
    the new item is parsed back to inside [m]; the token of [m] becomes the
    new token only when the new item has one, and stays what it was
    otherwise, even though the content was replaced. *)
Theorem list_step_update_rule (B : browser) (tl i y m : nat) (tracked : list nat)
    (st : state) :
  store_lt st -> is_Some (elems st !! m) ->
  find_by_key y tracked st = Some m ->
  let newCache := getAttribute st y "data-merge-cache" in
  let oldCache := getAttribute st m "data-merge-cache" in
  exists st',
    list_step B tl i y tracked st = Ok tracked st'
    /\ timers st' = timers st /\ reloads st' = reloads st
    /\ if needs_replace newCache oldCache then
         map (erase (elems st')) (kids_of m st') = reparsed B st m y
         /\ getAttribute st' m "data-merge-cache"
            = (if truthy newCache then newCache else oldCache)
         /\ (forall n, n <> "data-merge-cache" ->
                       getAttribute st' m n = getAttribute st m n)
       else st' = st.
Proof.
  intros Hlt Hm Hf newCache oldCache. unfold list_step. rewrite bind_gets, Hf.
  rewrite !bind_gets. fold newCache oldCache.
  destruct (needs_replace newCache oldCache) eqn:Hr.
  - destruct (replace_and_stamp B m y
                (if truthy newCache then Some (js_to_string newCache) else None)
                st Hlt Hm) as (st' & E & H1 & H2 & H3 & _ & H5 & H6).
    exists st'. split.
    { unfold bind at 1.
      replace ((set_innerHTML_from B m y;;
                (if truthy newCache
                 then setAttribute m "data-merge-cache" (js_to_string newCache)
                 else ret tt)) st) with (@Ok unit tt st'); [reflexivity|].
      rewrite <- E. destruct (truthy newCache); reflexivity. }
    split; [exact H5|]. split; [exact H6|]. split; [exact H1|]. split; [|exact H3].
    rewrite H2. destruct newCache as [v|]; [|reflexivity].
    destruct (truthy (Some v)); reflexivity.
  - exists st. repeat split.
Qed.

Lemma list_step_update_rule_witness :
  exists st',
    list_step plain_browser 2 0 103 [3] stale_token_page = Ok [3] st'
    /\ timers st' = timers stale_token_page /\ reloads st' = reloads stale_token_page
    /\ if needs_replace (getAttribute stale_token_page 103 "data-merge-cache")
                        (getAttribute stale_token_page 3 "data-merge-cache") then
         map (erase (elems st')) (kids_of 3 st')
         = reparsed plain_browser stale_token_page 3 103
         /\ getAttribute st' 3 "data-merge-cache"
            = (if truthy (getAttribute stale_token_page 103 "data-merge-cache")
               then getAttribute stale_token_page 103 "data-merge-cache"
               else getAttribute stale_token_page 3 "data-merge-cache")
         /\ (forall n, n <> "data-merge-cache" ->
                       getAttribute st' 3 n = getAttribute stale_token_page 3 n)
       else st' = stale_token_page.
Proof.
  apply (list_step_update_rule plain_browser 2 0 103 3 [3] stale_token_page).
  - apply wf_store_lt, wfb_wf. vm_compute. reflexivity.
  - vm_compute. eauto.
  - vm_compute. reflexivity.
Defined.

(** ** The phases of the two animations *)

Lemma parent_outside_child (w p : nat) (f : list tree) (sw : tree) :
  NoDup (forest_ids f) -> parent_of w f = Some p -> find_node w f = Some sw ->
  ~ In p (ids sw).
Proof.
  intros HN Hp Hw Hin.
  destruct (parent_of_child w p f HN Hp) as (sp & Hsp & Hk).
  destruct (find_node_label _ _ _ Hsp) as [ks ->]. cbn [tree_kids] in Hk.
  apply existsb_exists in Hk as (k & Hk & Hel).
  destruct k as [|i kk]; [discriminate|]. cbn [is_el] in Hel.
  apply Nat.eqb_eq in Hel as ->.
  assert (Hsub : In (El w kk) (List.flat_map subtrees f)).
  { apply (kids_subtrees_in_forest p (State f ∅ 0 0 [] 0)).
    unfold kids_of. cbn [roots]. rewrite Hsp. cbn [tree_kids].
    apply in_flat_map. exists (El w kk). split; [exact Hk | now left]. }
  pose proof (find_node_subtree (El w kk) f HN Hsub) as Hf. cbn [root_id] in Hf.
  rewrite Hw in Hf. injection Hf as ->.
  pose proof (find_node_NoDup p f _ HN Hsp) as HNp. cbn [ids] in HNp.
  apply NoDup_cons in HNp as [Hnp _]. apply Hnp, list_elem_of_In.
  apply in_flat_map. exists (El w kk). split; assumption.
Qed.

(** After [w.remove()] nothing of the subtree of [w] is left below its
    former parent. *)
Lemma remove_el_leaves_parent (w p x : nat) (st : state) (sw : tree) :
  NoDup (forest_ids (roots st)) -> parentNode w st = Some p ->
  find_node w (roots st) = Some sw -> In x (ids sw) ->
  ~ In x (descendants p (roots (result_state (remove_el w st)))).
Proof.
  intros HN Hp Hw Hx. unfold remove_el, modify. cbn [result_state].
  unfold parentNode in Hp. rewrite Hp. cbn [roots with_roots].
  unfold subtree. rewrite Hw.
  pose proof (remove_node_ids w (roots st)) as Hr. rewrite Hw in Hr.
  destruct Hr as (A & C & HA & HC).
  assert (Hout : forall y, In y (ids sw) -> ~ In y (forest_ids (remove_node w (roots st)))).
  { intros y Hy. rewrite HC. rewrite HA in HN.
    apply NoDup_app in HN as (_ & H1 & H2). apply NoDup_app in H2 as (_ & H3 & _).
    intros Hin. apply in_app_iff in Hin as [Hin|Hin].
    - apply (H1 y); [now apply list_elem_of_In|].
      apply list_elem_of_In, in_app_iff. left. exact Hy.
    - apply (H3 y); now apply list_elem_of_In. }
  unfold descendants, find_node. rewrite first_some_app.
  fold (find_node p (remove_node w (roots st))).
  destruct (find_node p (remove_node w (roots st))) as [sp|] eqn:Esp.
  - intros Hin. apply (Hout x Hx).
    apply (find_node_ids p _ sp Esp). destruct sp as [|i ks]; [destruct Hin|].
    cbn [ids tree_kids] in *. now right.
  - cbn [first_some].
    destruct (find_in p sw) as [sp|] eqn:Ep; [|intros []].
    exfalso. apply (parent_outside_child w p (roots st) sw HN Hp Hw).
    apply find_in_Some_ids. rewrite Ep. eauto.
Qed.

(** The detach sequence for any durations. With no other timer pending,
    [hideAndRemove] on an element with a parent is followed by three timer
    callbacks: fade 10 ms after the call, slide one fade duration later,
    detach one slide duration after that. When the last one has run the
    wrapper has no parent, the element is no longer below its former parent
    and no timer is left. Durations are the parsed custom properties times
    1000, converted as [setTimeout] converts a delay. *)
Theorem detach_sequence_timing (B : browser) (el p : nat) (f sl : float) (st : state) :
  wf st -> timers st = [] ->
  (forall s, parse_float B (computed_prop B s el "--fade-duration") = f) ->
  (forall s, parse_float B (computed_prop B s el "--slide-duration") = sl) ->
  parentNode el st = Some p ->
  let w := next st in
  let fade := (f * 1000)%float in
  let slide := (sl * 1000)%float in
  exists s1 s2 s3 s4,
    hideAndRemove B el st = Ok tt s1
    /\ fire B s1 = Some (RemoveFade w fade slide, s2)
    /\ now s2 = now st + 10
    /\ fire B s2 = Some (RemoveSlide w slide, s3)
    /\ now s3 = now st + 10 + timer_delay fade
    /\ fire B s3 = Some (RemoveDetach w, s4)
    /\ now s4 = now st + 10 + timer_delay fade + timer_delay slide
    /\ parentNode w s4 = None
    /\ ~ In el (descendants p (roots s4))
    /\ fire B s4 = None.
Proof.
  intros Hwf Ht Hf Hsl Hp w fade slide.
  pose proof (wf_store_lt st Hwf) as Hlt.
  destruct Hwf as (HN & Hfresh & _).
  assert (Hwf' : ~ In w (forest_ids (roots st))).
  { intros H. apply Hfresh in H. unfold w in H. lia. }
  assert (Hel : el <> w).
  { unfold parentNode in Hp. apply parent_of_Some in Hp as [Hp _]. congruence. }
  destruct (hidden_state_frame B el st) as (Hr1 & Hn1 & Hw1 & Hl1 & s & Ht1).
  unfold duration_ms in Ht1. rewrite Ht, Hf, Hsl in Ht1. cbn [app] in Ht1.
  fold w fade slide in Ht1, Hr1.
  set (s1 := hidden_state B el st) in *.
  set (s2 := add_timer (RemoveSlide w slide) fade
               (add_class w "merge-remove-wrapper--fade" (at_due (now st + 10) [] s1))).
  set (s3 := add_timer (RemoveDetach w) slide
               (add_class w "merge-remove-wrapper--slide"
                  (at_due (now s2 + timer_delay fade) [] s2))).
  set (s4 := result_state (remove_el w (at_due (now s3 + timer_delay slide) [] s3))).
  assert (N2 : now s2 = now st + 10).
  { unfold s2. cbn [now add_timer add_class set_elem_attr with_elems at_due].
    rewrite Hw1. lia. }
  assert (N3 : now s3 = now st + 10 + timer_delay fade).
  { unfold s3. cbn [now add_timer add_class set_elem_attr with_elems at_due]. lia. }
  assert (HN1 : NoDup (forest_ids (roots s1))).
  { rewrite Hr1. now apply wrap_NoDup. }
  assert (Hpw : parentNode w s1 = Some p).
  { unfold parentNode in *. rewrite Hr1. apply wrap_wrapper_parent; auto.
    now apply (inner_not_root el p). }
  assert (Hpe : parentNode el s1 = Some w).
  { unfold parentNode in *. rewrite Hr1. apply wrap_parent; [congruence|].
    now apply parent_of_Some in Hp. }
  exists s1, s2, s3, s4.
  split; [now apply (hideAndRemove_unfold B el p)|].
  split; [now rewrite (fire_single B s1 _ _ Ht1), run_RemoveFade|].
  split; [exact N2|].
  split.
  { rewrite (fire_single B s2 (now s2 + timer_delay fade) (RemoveSlide w slide));
      [|reflexivity].
    now rewrite run_RemoveSlide. }
  split; [exact N3|].
  split.
  { rewrite (fire_single B s3 (now s3 + timer_delay slide) (RemoveDetach w)); reflexivity. }
  split.
  { unfold s4, remove_el, modify. cbn [result_state].
    destruct (parent_of w _); cbn [now with_roots at_due]; lia. }
  split.
  { unfold s4. apply remove_el_detached. exact HN1. }
  split.
  { unfold s4.
    destruct (find_node w (roots s1)) as [sw|] eqn:Ew.
    - apply (remove_el_leaves_parent w p el _ sw); [exact HN1 | exact Hpw | exact Ew |].
      destruct (parent_of_child el w (roots s1) HN1 Hpe) as (sw' & Ew' & Hk).
      rewrite Ew in Ew'. injection Ew' as <-.
      apply existsb_exists in Hk as (k & Hk & Hke).
      apply in_ids_cases. right. apply in_forest_ids. exists k.
      split; [exact Hk | now apply is_el_ids].
    - exfalso. unfold parentNode in Hpw. apply parent_of_Some in Hpw as [Hin _].
      apply find_node_Some in Hin. rewrite Ew in Hin. now destruct Hin. }
  apply fire_empty. unfold s4, remove_el, modify. cbn [result_state].
  destruct (parent_of w _); reflexivity.
Qed.

Lemma detach_sequence_timing_witness :
  exists s1 s2 s3 s4,
    hideAndRemove timed_browser 3 controls_page = Ok tt s1
    /\ fire timed_browser s1 = Some (RemoveFade 6 250 500, s2)
    /\ now s2 = 10
    /\ fire timed_browser s2 = Some (RemoveSlide 6 500, s3)
    /\ now s3 = 260
    /\ fire timed_browser s3 = Some (RemoveDetach 6, s4)
    /\ now s4 = 760
    /\ parentNode 6 s4 = None
    /\ ~ In 3 (descendants 2 (roots s4))
    /\ fire timed_browser s4 = None.
Proof.
  apply (detach_sequence_timing timed_browser 3 2 0.25 0.5 controls_page).
  - apply wfb_wf. vm_compute. reflexivity.
  - reflexivity.
  - intros s. reflexivity.
  - intros s. reflexivity.
  - vm_compute. reflexivity.
Defined.

(** The reveal sequence for any delay and durations. With no other timer
    pending, an [insertAndReveal] that the DOM accepts, of an element with
    an element child, is followed by three timer callbacks: slide after the
    initial delay, fade one slide duration later, clean-up one fade duration
    after that; the clean-up leaves none of the three animation classes and
    no timer. The initial delay is [delay || 10] (line 143): a delay of 0 or
    NaN, or a missing argument, counts as 10 ms. *)
Theorem reveal_sequence_timing (B : browser) (el target child : nat) (pos : where_)
    (d f sl : float) (st : state) :
  wf st -> timers st = [] ->
  (forall s, parse_float B (computed_prop B s el "--fade-duration") = f) ->
  (forall s, parse_float B (computed_prop B s el "--slide-duration") = sl) ->
  is_Some (elems st !! el) ->
  firstElementChild el st = Some child ->
  is_ok (insertAdjacentElement target pos el st) = true ->
  let start := timer_delay (js_or d 10) in
  let fade := (f * 1000)%float in
  let slide := (sl * 1000)%float in
  (PrimFloat.is_nan d || PrimFloat.is_zero d = true -> start = 10)
  /\ exists s1 s2 s3 s4,
       insertAndReveal B el (Some target) pos d st = Ok tt s1
       /\ has_class s1 el "merge-add-wrapper" = true
       /\ fire B s1 = Some (AddSlide el fade slide, s2)
       /\ now s2 = now st + start
       /\ fire B s2 = Some (AddFade el fade, s3)
       /\ now s3 = now st + start + timer_delay slide
       /\ fire B s3 = Some (AddTidy el, s4)
       /\ now s4 = now st + start + timer_delay slide + timer_delay fade
       /\ has_class s4 el "merge-add-wrapper" = false
       /\ has_class s4 el "merge-add-wrapper--slide" = false
       /\ has_class s4 el "merge-add-wrapper--fade" = false
       /\ fire B s4 = None.
Proof.
  intros Hwf Ht Hf Hsl Hs Hc Hok start fade slide.
  split.
  { intros Hd. unfold start, js_or. now rewrite Hd. }
  destruct Hwf as (HN & _ & _).
  destruct (insertAdjacentElement target pos el st) as [[] si|si] eqn:Ei;
    [|discriminate].
  destruct (insertAdjacentElement_keeps_subtree _ _ _ _ _ HN Ei)
    as (Hk & HE & Hnx & Hnw & Htm & Hrl).
  set (E1 := alter (fun e => Elem (tag e)
               (set_attr "class" (class_add "merge-add-wrapper" (class_attr st el)) (attrs e)))
               el (elems st)).
  set (sa := with_elems E1 si).
  set (sb := set_elem_attr el "style"
               (style_with B (default "" (getAttribute sa el "style")) "height"
                  (px (client_height B sa child))) sa).
  set (s1 := add_timer (AddSlide el fade slide) (js_or d 10) sb).
  assert (Hrun : insertAndReveal B el (Some target) pos d st = Ok tt s1).
  { unfold insertAndReveal, bind, classList_add, modify at 1.
    change (set_elem_attr el "class" (class_add "merge-add-wrapper" (class_attr st el)) st)
      with (with_elems E1 st).
    rewrite insertAdjacentElement_with_elems, Ei. fold sa.
    unfold gets at 1.
    rewrite (firstElementChild_ext el st sa) by exact Hk. rewrite Hc.
    unfold gets, style_set, modify, setTimeout, duration_ms. fold sb.
    rewrite Hf, Hsl. reflexivity. }
  assert (Hsa : is_Some (elems sa !! el)).
  { unfold sa, E1. cbn [elems with_elems]. rewrite lookup_alter_eq.
    destruct Hs as [e ->]. simpl. eauto. }
  assert (Hsb : is_Some (elems sb !! el)) by now apply elems_set_elem_attr_dom.
  assert (Hc1 : has_class s1 el "merge-add-wrapper" = true).
  { unfold s1. rewrite has_class_add_timer. unfold sb.
    rewrite has_class_getAttribute, getAttribute_set_other by (right; discriminate).
    unfold sa, getAttribute, attrs_of, E1. cbn [elems with_elems].
    rewrite lookup_alter_eq. destruct Hs as [e He]. rewrite He. cbn.
    rewrite get_set_same. apply has_token_add, tok_ok_consts. }
  assert (T1 : timers s1 = [(now st + start, AddSlide el fade slide)]).
  { unfold s1, add_timer. cbn [timers]. fold start.
    unfold sb, sa. cbn [timers now set_elem_attr with_elems]. now rewrite Htm, Ht, Hnw. }
  assert (N1 : now s1 = now st).
  { unfold s1, sb, sa. cbn [now add_timer set_elem_attr with_elems]. exact Hnw. }
  set (s2 := add_timer (AddFade el fade) slide
               (add_class el "merge-add-wrapper--slide" (at_due (now st + start) [] s1))).
  set (s3 := add_timer (AddTidy el) fade
               (add_class el "merge-add-wrapper--fade"
                  (at_due (now s2 + timer_delay slide) [] s2))).
  set (s4 := result_state
               (run_task B (AddTidy el) (at_due (now s3 + timer_delay fade) [] s3))).
  assert (N2 : now s2 = now st + start).
  { unfold s2. cbn [now add_timer add_class set_elem_attr with_elems at_due].
    rewrite N1. lia. }
  assert (N3 : now s3 = now st + start + timer_delay slide).
  { unfold s3. cbn [now add_timer add_class set_elem_attr with_elems at_due]. lia. }
  assert (Hs2 : is_Some (elems (at_due (now s2 + timer_delay slide) [] s2) !! el)).
  { unfold s2, add_class. cbn [at_due add_timer elems].
    now apply elems_set_elem_attr_dom. }
  assert (Hs3 : is_Some (elems (at_due (now s3 + timer_delay fade) [] s3) !! el)).
  { unfold s3, add_class. cbn [at_due add_timer elems].
    now apply elems_set_elem_attr_dom. }
  exists s1, s2, s3, s4.
  split; [exact Hrun|]. split; [exact Hc1|].
  split; [now rewrite (fire_single B s1 _ _ T1), run_AddSlide|].
  split; [exact N2|].
  split.
  { rewrite (fire_single B s2 (now s2 + timer_delay slide) (AddFade el fade));
      [|reflexivity].
    now rewrite run_AddFade. }
  split; [exact N3|].
  split.
  { rewrite (fire_single B s3 (now s3 + timer_delay fade) (AddTidy el)); reflexivity. }
  split.
  { unfold s4. rewrite (proj1 (tidy_frame B el _)). cbn. lia. }
  split; [apply tidy_removes_classes; [exact Hs3 | now left]|].
  split; [apply tidy_removes_classes; [exact Hs3 | right; now left]|].
  split; [apply tidy_removes_classes; [exact Hs3 | right; right; now left]|].
  apply fire_empty. unfold s4.
  now rewrite (proj1 (proj2 (tidy_frame B el _))).
Qed.

Lemma reveal_sequence_timing_witness :
  (PrimFloat.is_nan 0 || PrimFloat.is_zero 0 = true -> timer_delay (js_or 0 10) = 10)
  /\ exists s1 s2 s3 s4,
       insertAndReveal timed_browser 107 (Some 5) BeforeBegin 0 insert_page = Ok tt s1
       /\ has_class s1 107 "merge-add-wrapper" = true
       /\ fire timed_browser s1 = Some (AddSlide 107 250 500, s2)
       /\ now s2 = 10
       /\ fire timed_browser s2 = Some (AddFade 107 250, s3)
       /\ now s3 = 510
       /\ fire timed_browser s3 = Some (AddTidy 107, s4)
       /\ now s4 = 760
       /\ has_class s4 107 "merge-add-wrapper" = false
       /\ has_class s4 107 "merge-add-wrapper--slide" = false
       /\ has_class s4 107 "merge-add-wrapper--fade" = false
       /\ fire timed_browser s4 = None.
Proof.
  apply (reveal_sequence_timing timed_browser 107 5 108 BeforeBegin 0 0.25 0.5 insert_page).
  - apply wfb_wf. vm_compute. reflexivity.
  - reflexivity.
  - intros s. reflexivity.
  - intros s. reflexivity.
  - vm_compute. eauto.
  - vm_compute. reflexivity.
  - vm_compute. reflexivity.
Defined.

(** ** [hideAndRemove] on an element without parent *)

(** [el.parentNode] is [null] and the call throws at line 122; by then the
    inputs below [el] have been disabled and the wrapper has been created:
    the inputs stay disabled, the wrapper is in no tree, the tree is as it
    was and no timer has been set. *)
Theorem hideAndRemove_without_parent (B : browser) (el : nat) (st : state) :
  store_lt st -> parentNode el st = None ->
  exists st',
    hideAndRemove B el st = Throw st'
    /\ roots st' = roots st /\ timers st' = timers st /\ reloads st' = reloads st
    /\ (forall i, In i (querySelectorAll el (SelTag "input") st) ->
                  getAttribute st' i "disabled" = Some "")
    /\ tag_of st' (next st) = "div"
    /\ getAttribute st' (next st) "class" = Some "merge-remove-wrapper".
Proof.
  intros Hlt Hp.
  set (l := querySelectorAll el (SelTag "input") st).
  destruct (disable_all_frame l st) as (Hr & Hn & Hw & Ht & Hl).
  set (s1 := disable_all l st) in *.
  set (s2 := State (roots s1) (<[next s1 := Elem "div" []]> (elems s1)) (S (next s1))
                   (now s1) (timers s1) (reloads s1)).
  exists (set_elem_attr (next s1) "class" "merge-remove-wrapper" s2).
  split.
  { unfold hideAndRemove. rewrite bind_gets. fold l.
    unfold bind at 1. rewrite forEach_setAttribute. fold (disable_all l st). fold s1.
    unfold bind at 1, createElement. fold s2.
    unfold bind at 1, setAttribute, modify at 1. rewrite bind_gets.
    unfold parentNode in *. cbn [roots set_elem_attr with_elems s2].
    rewrite Hr, Hp. reflexivity. }
  cbn [roots timers reloads set_elem_attr with_elems s2].
  split; [exact Hr|]. split; [exact Ht|]. split; [exact Hl|].
  assert (Hs2 : is_Some (elems s2 !! next s1)).
  { unfold s2. cbn [elems]. rewrite lookup_insert_eq. eauto. }
  split; [|split].
  - intros i Hi.
    assert (His : is_Some (elems st !! i)).
    { apply filter_In in Hi as [_ Hm]. now apply sel_matches_in_store in Hm. }
    rewrite getAttribute_set_other by (right; discriminate).
    unfold s2. rewrite getAttribute_new_elem.
    + now apply disable_all_sets.
    + rewrite Hn. apply Hlt in His. lia.
  - rewrite <- Hn. rewrite tag_of_set_elem_attr. unfold tag_of, s2. cbn [elems].
    now rewrite lookup_insert_eq.
  - rewrite <- Hn. rewrite getAttribute_set_same by exact Hs2. reflexivity.
Qed.

Lemma hideAndRemove_without_parent_witness :
  exists st',
    hideAndRemove plain_browser 1 controls_page = Throw st'
    /\ roots st' = roots controls_page /\ timers st' = timers controls_page
    /\ reloads st' = reloads controls_page
    /\ (forall i, In i (querySelectorAll 1 (SelTag "input") controls_page) ->
                  getAttribute st' i "disabled" = Some "")
    /\ tag_of st' (next controls_page) = "div"
    /\ getAttribute st' (next controls_page) "class" = Some "merge-remove-wrapper".
Proof.
  apply (hideAndRemove_without_parent plain_browser 1 controls_page).
  - apply wf_store_lt, wfb_wf. vm_compute. reflexivity.
  - vm_compute. reflexivity.
Defined.

(** ** The sequence against which new items are matched *)

Lemma rw_list_split (rec : tree -> option (list tree)) (ks ks' : list tree) :
  rw_list rec ks = Some ks' ->
  exists pre k post l,
    ks = pre ++ k :: post /\ Forall (fun t => rec t = None) pre
    /\ rec k = Some l /\ ks' = pre ++ l ++ post.
Proof.
  revert ks'. induction ks as [|k r IH]; intros ks' H; cbn [rw_list] in H;
    [discriminate|].
  destruct (rec k) as [l|] eqn:Ek.
  - injection H as <-. exists [], k, r, l. repeat split; auto.
  - destruct (rw_list rec r) as [r'|] eqn:Er; [|discriminate]. injection H as <-.
    destruct (IH r' eq_refl) as (pre & k0 & post & l & -> & Hpre & Hk & ->).
    exists (k :: pre), k0, post, l. repeat split; auto.
Qed.

Lemma grown_refl (w : nat) (l : list nat) : grown w l l.
Proof. exists l, []. rewrite app_nil_r. auto. Qed.

Lemma wrap_find_in (x y w : nat) (t : tree) :
  x <> w -> forall l, rw_tree y (fun u => [El w [u]]) t = Some l ->
  exists t', l = [t']
    /\ match find_in x t with
       | Some s => exists s', find_in x t' = Some s'
                     /\ grown w (forest_ids (tree_kids s)) (forest_ids (tree_kids s'))
       | None => find_in x t' = None
       end.
Proof.
  intros Hxw. induction t as [s0|i ks IH] using tree_ind2; intros l H;
    cbn [rw_tree] in H; [discriminate|].
  destruct (Nat.eqb_spec i y) as [->|Hiy].
  - injection H as <-. exists (El w [El y ks]). split; [reflexivity|].
    assert (Hf : find_in x (El w [El y ks]) = find_in x (El y ks)).
    { cbn [find_in first_some]. destruct (Nat.eqb_spec w x) as [->|_]; [congruence|].
      destruct (if y =? x then _ else _); reflexivity. }
    rewrite Hf. destruct (find_in x (El y ks)) as [s|]; [|reflexivity].
    exists s. split; [reflexivity | apply grown_refl].
  - destruct (rw_list _ ks) as [ks'|] eqn:Er; [|discriminate]. injection H as <-.
    exists (El i ks'). split; [reflexivity|].
    cbn [find_in]. destruct (Nat.eqb_spec i x) as [->|Hix].
    + exists (El x ks'). split; [reflexivity|]. cbn [tree_kids].
      destruct (rw_list_ids y (fun u => [El w [u]]) ks) with (ks' := ks')
        as (A & C & s & _ & HA & HC).
      * apply List.Forall_forall. intros k _ l' Hl'. now apply rw_tree_ids.
      * exact Er.
      * exists A, (ids s ++ C). split; [exact HA|]. left. rewrite HC.
        unfold forest_ids. cbn [List.flat_map ids app]. now rewrite !app_nil_r.
    + destruct (rw_list_split _ _ _ Er) as (pre & k & post & lk & -> & Hpre & Hk & ->).
      apply Forall_app in IH as [_ IH]. apply Forall_cons in IH as [IHk _].
      destruct (IHk lk Hk) as (k' & -> & Hrel).
      rewrite !first_some_app. destruct (first_some (find_in x) pre) as [s|].
      * exists s. split; [reflexivity | apply grown_refl].
      * cbn [first_some app]. destruct (find_in x k) as [s|].
        -- destruct Hrel as (s' & -> & Hg). eauto.
        -- rewrite Hrel. destruct (first_some (find_in x) post) as [s|]; [|reflexivity].
           exists s. split; [reflexivity | apply grown_refl].
Qed.

Lemma wrap_descendants (x y w : nat) (f : list tree) :
  x <> w ->
  grown w (descendants x f) (descendants x (rewrite_first y (fun u => [El w [u]]) f)).
Proof.
  intros Hxw. unfold rewrite_first.
  destruct (rw_list _ f) as [f'|] eqn:Er; [|apply grown_refl].
  destruct (rw_list_split _ _ _ Er) as (pre & k & post & lk & -> & Hpre & Hk & ->).
  destruct (wrap_find_in x y w k Hxw lk Hk) as (k' & -> & Hrel).
  unfold descendants, find_node. rewrite !first_some_app.
  destruct (first_some (find_in x) pre) as [s|]; [apply grown_refl|].
  cbn [first_some app]. destruct (find_in x k) as [s|].
  - destruct Hrel as (s' & -> & Hg). exact Hg.
  - rewrite Hrel. apply grown_refl.
Qed.

Lemma filter_filter_and {A} (p q : A -> bool) (l : list A) :
  List.filter q (List.filter p l) = List.filter (fun a => p a && q a) l.
Proof.
  induction l as [|a r IH]; [reflexivity|]. cbn [List.filter].
  destruct (p a); cbn [andb List.filter]; [|exact IH].
  destruct (q a); now rewrite IH.
Qed.

Lemma existsb_pointwise {A} (p q : A -> bool) (l : list A) :
  (forall a, p a = q a) -> existsb p l = existsb q l.
Proof. intros H. induction l as [|a r IH]; [reflexivity|]. cbn. now rewrite H, IH. Qed.

Lemma sel_not_class_attrs (st : state) (a c : string) (j : nat) :
  sel_matches st (SelAttrNotClass a c) j
  = bool_decide (is_Some (getAttribute st j a)) && negb (has_class st j c).
Proof.
  unfold sel_matches, getAttribute, has_class, attrs_of.
  destruct (elems st !! j); reflexivity.
Qed.

(** Putting [y] in removal takes [y], and nothing else, out of the
    sequence of current items of any list. *)
Lemma hidden_state_current_items (B : browser) (tl y : nat) (st : state) :
  store_lt st -> tl <> next st ->
  querySelectorAll tl (SelAttrNotClass "data-merge-list-item" "merge-remove-item")
    (hidden_state B y st)
  = List.filter (fun j => negb (Nat.eqb j y))
      (querySelectorAll tl
         (SelAttrNotClass "data-merge-list-item" "merge-remove-item") st).
Proof.
  intros Hlt Htl. unfold querySelectorAll.
  destruct (hidden_state_frame B y st) as (Hr & _). rewrite Hr.
  destruct (wrap_descendants tl y (next st) (roots st) Htl) as (A & C & -> & Hd).
  assert (Hw : sel_matches (hidden_state B y st)
                 (SelAttrNotClass "data-merge-list-item" "merge-remove-item") (next st)
               = false).
  { rewrite sel_not_class_attrs.
    rewrite hidden_state_wrapper_attr by (auto; discriminate). reflexivity. }
  assert (Hj : forall j,
             sel_matches (hidden_state B y st)
               (SelAttrNotClass "data-merge-list-item" "merge-remove-item") j
             = sel_matches st
                 (SelAttrNotClass "data-merge-list-item" "merge-remove-item") j
               && negb (Nat.eqb j y)).
  { intros j. destruct (Nat.eq_dec j (next st)) as [->|Hjw].
    - rewrite Hw. symmetry. apply andb_false_iff. left.
      destruct (sel_matches st _ (next st)) eqn:E; [|reflexivity].
      apply sel_matches_in_store, Hlt in E. lia.
    - rewrite !sel_not_class_attrs, hidden_state_key by exact Hlt.
      destruct (Nat.eqb_spec j y) as [->|Hjy].
      + cbn [negb]. rewrite andb_false_r.
        destruct (getAttribute st y "data-merge-list-item") as [v|] eqn:E;
          [|reflexivity].
        rewrite hidden_state_has_class_item; [reflexivity | | exact Hjw].
        now apply getAttribute_in_store in E.
      + cbn [negb]. rewrite andb_true_r. f_equal. f_equal.
        rewrite !has_class_getAttribute.
        rewrite hidden_state_other; [reflexivity | exact Hjw | discriminate | now left]. }
  assert (Hf : forall l,
             List.filter (sel_matches (hidden_state B y st)
                            (SelAttrNotClass "data-merge-list-item" "merge-remove-item")) l
             = List.filter (fun j => negb (Nat.eqb j y))
                 (List.filter (sel_matches st
                            (SelAttrNotClass "data-merge-list-item" "merge-remove-item")) l)).
  { induction l as [|j r IH]; [reflexivity|]. cbn [List.filter]. rewrite Hj.
    destruct (sel_matches st _ j); cbn [andb List.filter].
    - destruct (negb (j =? y)); now rewrite IH.
    - exact IH. }
  destruct Hd as [-> | ->]; [|apply Hf].
  rewrite <- Hf, !List.filter_app. cbn [List.filter]. now rewrite Hw.
Qed.

Lemma removal_pass_current_items (B : browser) (tl : nat) (news : list nat)
    (l : list nat) :
  forall st,
    store_lt st -> tl < next st ->
    (forall x, In x l -> is_Some (elems st !! x) /\ is_Some (parentNode x st)) ->
    exists st',
      forEach (remove_step B news) l st = Ok tt st'
      /\ querySelectorAll tl
           (SelAttrNotClass "data-merge-list-item" "merge-remove-item") st'
         = List.filter
             (fun j => negb (existsb (fun x => Nat.eqb j x
                                        && negb (bool_decide
                                                   (is_Some (find_by_key x news st)))) l))
             (querySelectorAll tl
                (SelAttrNotClass "data-merge-list-item" "merge-remove-item") st).
Proof.
  induction l as [|y r IH]; intros st Hlt Htl Hl.
  - exists st. split; [reflexivity|]. cbn [existsb negb].
    induction (querySelectorAll tl _ st) as [|j q IHq]; [reflexivity|].
    cbn [List.filter]. now rewrite <- IHq.
  - destruct (Hl y (or_introl eq_refl)) as [Hys [p Hyp]].
    cbn [forEach]. unfold bind at 1, remove_step at 1, bind at 1, gets at 1.
    destruct (find_by_key y news st) as [m|] eqn:Ey.
    + cbn [ret]. destruct (IH st Hlt Htl) as (st' & E & H1).
      { intros x Hx. apply Hl. now right. }
      exists st'. split; [exact E|]. rewrite H1. apply filter_ext. intros j.
      cbn [existsb]. rewrite Ey.
      replace (bool_decide (is_Some (Some m))) with true
        by (symmetry; apply bool_decide_eq_true; eauto).
      cbn [negb]. now rewrite andb_false_r.
    + rewrite (hideAndRemove_unfold B y p st Hyp).
      destruct (hidden_state_frame B y st) as (_ & Hnx & _).
      destruct (IH (hidden_state B y st)) as (st' & E & H1).
      { now apply hidden_state_store_lt. }
      { rewrite Hnx. lia. }
      { intros x Hx. destruct (Hl x (or_intror Hx)) as [Hxs Hxp]. split.
        - apply hidden_state_dom. now left.
        - apply hidden_state_parent; eauto. }
      exists st'. split; [exact E|]. rewrite H1.
      rewrite hidden_state_current_items by (auto; lia).
      assert (Hk : forall x, find_by_key x news (hidden_state B y st)
                             = find_by_key x news st).
      { intros x. apply find_by_key_ext. intros i. now apply hidden_state_key. }
      rewrite filter_filter_and. apply filter_ext. intros j.
      cbn [existsb]. rewrite Ey.
      replace (bool_decide (is_Some (@None nat))) with false
        by (symmetry; apply bool_decide_eq_false; now intros [? ?]).
      cbn [negb]. rewrite andb_true_r, negb_orb. f_equal. f_equal.
      apply existsb_pointwise. intros x. now rewrite Hk.
Qed.

(** After the removal pass (lines 196-206) the recomputed sequence of
    current old items is the sequence of the old items that were not already
    in removal and whose key is the key of some new item, in document order:
    the pass always completes, takes the unmatched items out and neither
    loses nor reorders a matched one. *)
Theorem removal_pass_keeps_matched_items (B : browser) (targetList : nat)
    (newListItems : list nat) (st : state) :
  wf st -> is_Some (elems st !! targetList) ->
  exists st',
    forEach (remove_step B newListItems)
      (querySelectorAll targetList (SelAttr "data-merge-list-item") st) st
    = Ok tt st'
    /\ querySelectorAll targetList
         (SelAttrNotClass "data-merge-list-item" "merge-remove-item") st'
       = List.filter (fun j => bool_decide (is_Some (find_by_key j newListItems st)))
           (querySelectorAll targetList
              (SelAttrNotClass "data-merge-list-item" "merge-remove-item") st).
Proof.
  intros Hwf Htl. pose proof (wf_store_lt st Hwf) as Hlt.
  destruct (removal_pass_current_items B targetList newListItems
              (querySelectorAll targetList (SelAttr "data-merge-list-item") st) st Hlt)
    as (st' & E & H).
  { now apply Hlt. }
  { intros x Hx. apply filter_In in Hx as [Hd Hm]. split.
    - now apply sel_matches_in_store in Hm.
    - now apply (descendant_has_parent x targetList). }
  exists st'. split; [exact E|]. rewrite H. apply filter_ext_in. intros j Hj.
  assert (Hin : In j (querySelectorAll targetList (SelAttr "data-merge-list-item") st)).
  { apply filter_In in Hj as [Hd Hm]. apply filter_In. split; [exact Hd|].
    unfold sel_matches in *. destruct (elems st !! j); [|discriminate].
    now apply andb_true_iff in Hm as [Hm _]. }
  destruct (bool_decide (is_Some (find_by_key j newListItems st))) eqn:Ej.
  - apply negb_true_iff. apply not_true_is_false. intros Hex.
    apply existsb_exists in Hex as (x & _ & Hx). apply andb_true_iff in Hx as [H1 H2].
    apply Nat.eqb_eq in H1 as <-. now rewrite Ej in H2.
  - apply negb_false_iff. apply existsb_exists. exists j. split; [exact Hin|].
    now rewrite Nat.eqb_refl, Ej.
Qed.

Lemma removal_pass_keeps_matched_items_witness :
  exists st',
    forEach (remove_step plain_browser [103; 105])
      (querySelectorAll 2 (SelAttr "data-merge-list-item") remove_page) remove_page
    = Ok tt st'
    /\ querySelectorAll 2
         (SelAttrNotClass "data-merge-list-item" "merge-remove-item") st'
       = List.filter
           (fun j => bool_decide (is_Some (find_by_key j [103; 105] remove_page)))
           (querySelectorAll 2
              (SelAttrNotClass "data-merge-list-item" "merge-remove-item") remove_page).
Proof.
  apply (removal_pass_keeps_matched_items plain_browser 2 [103; 105] remove_page).
  - apply wfb_wf. vm_compute. reflexivity.
  - vm_compute. eauto.
Defined.

Lemma descendants_NoDup (x : nat) (f : list tree) :
  NoDup (forest_ids f) -> NoDup (descendants x f).
Proof.
  intros HN. unfold descendants. destruct (find_node x f) as [s|] eqn:E; [|constructor].
  pose proof (find_node_NoDup x f s HN E) as Hs.
  destruct s as [|i ks]; [constructor|]. cbn [ids tree_kids] in *.
  now apply NoDup_cons in Hs as [_ Hs].
Qed.

Lemma NoDup_filter_list {A} (p : A -> bool) (l : list A) :
  NoDup l -> NoDup (List.filter p l).
Proof.
  induction 1 as [|a r Ha _ IH]; [constructor|]. cbn [List.filter].
  destruct (p a); [|exact IH]. constructor; [|exact IH].
  intros H. apply Ha. apply list_elem_of_In in H. apply filter_In in H as [H _].
  now apply list_elem_of_In.
Qed.

Lemma sel_attr_getAttribute (st : state) (a : string) (j : nat) :
  sel_matches st (SelAttr a) j = bool_decide (is_Some (getAttribute st j a)).
Proof.
  unfold sel_matches, getAttribute, attrs_of. destruct (elems st !! j); reflexivity.
Qed.

(** ** Items in removal and the current sequence *)








(** ** An item in removal and its form controls *)

(** C10, as stated, fails in two ways. After [hideAndRemove] the select of
    the removed item is still an enabled form control. And the inputs of
    an item in removal need not stay disabled: on [second_merge_page] a
    first merge puts the item B in removal and disables its input; a
    second merge, before any phase of the detach sequence has run, finds
    the content-marked node inside B and replaces its content by that of
    the new node, so that B, still in removal, holds an enabled input. *)
Lemma removed_item_can_hold_enabled_controls :
  (enabled_controls 3 (result_state (hideAndRemove plain_browser 3 controls_page)) = [5]
   /\ tag_of controls_page 5 = "select")
  /\ let s1 := mergeNodes plain_browser 100 1 second_merge_page in
     let s2 := mergeNodes plain_browser 110 1 s1 in
     querySelectorAll 3 (SelTag "input") second_merge_page = [5]
     /\ has_class s1 3 "merge-remove-item" = true
     /\ getAttribute s1 5 "disabled" = Some ""
     /\ enabled_controls 3 s1 = []
     /\ has_class s2 3 "merge-remove-item" = true
     /\ timers s2 = [(10, RemoveFade 200 nan nan)]
     /\ contains 1 3 (roots s2) = true
     /\ enabled_controls 3 s2 = [201]
     /\ tag_of s2 201 = "input"
     /\ reloads s2 = 0.
Proof. vm_compute. repeat split; reflexivity. Qed.

(** ** The insertion turn within the merge *)



(** For the old list [A, C] and the new list [A, B, C] the merge leaves the
    children of the list in the order A, B, C, with B's reveal pending. *)
Lemma merge_inserts_in_the_middle :
  let st' := mergeNodes plain_browser 100 1 insert_page in
  map (fun t => match t with El i _ => getAttribute st' i "data-merge-list-item"
                           | Txt _ => None end) (kids_of 2 st')
  = [Some "A"; Some "B"; Some "C"]
  /\ timers st' = [(500, AddSlide 107 nan nan)] /\ reloads st' = 0.
Proof. vm_compute. repeat split; reflexivity. Qed.


(** * The helpers around the engine *)

(** ** [suffixIds] *)

Lemma suffix_loop (a prefix : string) (l : list nat) :
  forall st,
    NoDup l ->
    exists st',
      forEach (fun el =>
          let* v := gets (fun st => getAttribute st el a) in
          setAttribute el a (default "null" v +:+ prefix)) l st = Ok tt st'
      /\ roots st' = roots st /\ timers st' = timers st /\ reloads st' = reloads st
      /\ (forall j, is_Some (elems st' !! j) <-> is_Some (elems st !! j))
      /\ (forall j b, b <> a \/ ~ In j l -> getAttribute st' j b = getAttribute st j b)
      /\ (forall j, In j l -> is_Some (elems st !! j) ->
            getAttribute st' j a
            = Some (default "null" (getAttribute st j a) +:+ prefix)).
Proof.
  induction l as [|i r IH]; intros st HN.
  - exists st. split; [reflexivity|]. repeat split; auto; try tauto. intros j [].
  - apply NoDup_cons in HN as [Hi HN]. cbn [forEach].
    unfold bind at 1. rewrite bind_gets. unfold setAttribute at 1, modify at 1.
    set (s1 := set_elem_attr i a (default "null" (getAttribute st i a) +:+ prefix) st).
    destruct (IH s1 HN) as (st' & E & Hr & Ht & Hl & Hd & Ho & Hs).
    exists st'. split; [exact E|]. split; [exact Hr|]. split; [exact Ht|].
    split; [exact Hl|]. split; [|split].
    + intros j. rewrite Hd. unfold s1. apply elems_set_elem_attr_dom.
    + intros j b Hjb. rewrite Ho.
      * unfold s1. apply getAttribute_set_other.
        destruct Hjb as [Hb|Hj]; [right; congruence | left; intros ->; apply Hj; now left].
      * destruct Hjb as [Hb|Hj]; [now left | right; intros H; apply Hj; now right].
    + intros j [->|Hj] Hjs.
      * rewrite Ho by (right; intros H; apply Hi; now apply list_elem_of_In).
        unfold s1. now apply getAttribute_set_same.
      * rewrite Hs; [|exact Hj | unfold s1; now apply elems_set_elem_attr_dom].
        f_equal. f_equal. f_equal. unfold s1. apply getAttribute_set_other.
        left. intros ->. apply Hi. now apply list_elem_of_In.
Qed.

(** One turn of the loop of [suffixIds]: the attribute [a] of every
    descendant that has it gets the suffix; nothing else changes. *)
Lemma suffix_attribute_spec (container : nat) (prefix a : string) (st : state) :
  NoDup (forest_ids (roots st)) ->
  exists st',
    suffix_attribute container prefix a st = Ok tt st'
    /\ roots st' = roots st /\ timers st' = timers st /\ reloads st' = reloads st
    /\ (forall j b, b <> a -> getAttribute st' j b = getAttribute st j b)
    /\ (forall j, getAttribute st' j a
                  = if existsb (Nat.eqb j) (descendants container (roots st))
                    then option_map (fun v => v +:+ prefix) (getAttribute st j a)
                    else getAttribute st j a).
Proof.
  intros HN. unfold suffix_attribute. rewrite bind_gets.
  destruct (suffix_loop a prefix (querySelectorAll container (SelAttr a) st) st)
    as (st' & E & Hr & Ht & Hl & Hd & Ho & Hs).
  { apply NoDup_filter_list, descendants_NoDup, HN. }
  exists st'. split; [exact E|]. split; [exact Hr|]. split; [exact Ht|].
  split; [exact Hl|]. split.
  - intros j b Hb. apply Ho. now left.
  - intros j.
    destruct (existsb (Nat.eqb j) (descendants container (roots st))) eqn:Ein.
    + apply existsb_exists in Ein as (j' & Hj' & Hjj). apply Nat.eqb_eq in Hjj as <-.
      destruct (getAttribute st j a) as [v|] eqn:Ev.
      * assert (Hin : In j (querySelectorAll container (SelAttr a) st)).
        { apply filter_In. split; [exact Hj'|]. rewrite sel_attr_getAttribute, Ev.
          apply bool_decide_eq_true. eauto. }
        rewrite (Hs j Hin), Ev; [reflexivity|]. now apply getAttribute_in_store in Ev.
      * cbn [option_map]. rewrite Ho, Ev; [reflexivity|]. right. intros Hin.
        apply filter_In in Hin as [_ Hm]. rewrite sel_attr_getAttribute, Ev in Hm.
        apply bool_decide_eq_true in Hm. now destruct Hm.
    + apply Ho. right. intros Hin. apply filter_In in Hin as [Hdj _].
      assert (existsb (Nat.eqb j) (descendants container (roots st)) = true).
      { apply existsb_exists. exists j. split; [exact Hdj | apply Nat.eqb_refl]. }
      congruence.
Qed.

Lemma suffix_attributes_spec (container : nat) (prefix : string) (names : list string) :
  NoDup names ->
  forall st,
    NoDup (forest_ids (roots st)) ->
    exists st',
      forEach (suffix_attribute container prefix) names st = Ok tt st'
      /\ roots st' = roots st /\ timers st' = timers st /\ reloads st' = reloads st
      /\ (forall j b, getAttribute st' j b
                      = if existsb (str_eqb b) names
                           && existsb (Nat.eqb j) (descendants container (roots st))
                        then option_map (fun v => v +:+ prefix) (getAttribute st j b)
                        else getAttribute st j b).
Proof.
  induction 1 as [|a r Ha _ IH]; intros st HN.
  - exists st. split; [reflexivity|]. repeat split.
  - cbn [forEach].
    destruct (suffix_attribute_spec container prefix a st HN)
      as (s1 & E1 & Hr1 & Ht1 & Hl1 & Ho1 & Hs1).
    rewrite (bind_ok _ _ _ _ _ E1).
    destruct (IH s1) as (st' & E & Hr & Ht & Hl & Hg).
    { now rewrite Hr1. }
    exists st'. split; [exact E|]. split; [congruence|]. split; [congruence|].
    split; [congruence|].
    intros j b. rewrite Hg, Hr1. cbn [existsb].
    destruct (String.eqb_spec b a) as [->|Hba].
    + rewrite (str_eqb_refl a). cbn [orb].
      assert (Hnr : existsb (str_eqb a) r = false).
      { apply not_true_is_false. intros H. apply existsb_exists in H as (x & Hx & Hxa).
        apply str_eqb_eq in Hxa as <-. apply Ha. now apply list_elem_of_In. }
      rewrite Hnr. cbn [andb]. apply Hs1.
    + rewrite (proj2 (str_eqb_neq b a) Hba). cbn [orb].
      now rewrite (Ho1 j b Hba).
Qed.

Lemma app_str_length (a b : string) :
  String.length (a +:+ b) = String.length a + String.length b.
Proof.
  induction a as [|c a IH]; [now rewrite app_str_nil_l|].
  rewrite app_str_cons. cbn [String.length]. now rewrite IH.
Qed.

Lemma app_str_inj_r (a b p : string) : a +:+ p = b +:+ p -> a = b.
Proof.
  revert b. induction a as [|c a IH]; intros [|d b] H.
  - reflexivity.
  - apply (f_equal String.length) in H. rewrite !app_str_length in H.
    cbn [String.length] in H. lia.
  - apply (f_equal String.length) in H. rewrite !app_str_length in H.
    cbn [String.length] in H. lia.
  - rewrite !app_str_cons in H. injection H as -> H. f_equal. now apply IH.
Qed.

Lemma app_str_fixed (a p : string) : a +:+ p = a -> p = "".
Proof.
  intros H. apply (f_equal String.length) in H. rewrite app_str_length in H.
  destruct p; [reflexivity|]. cbn [String.length] in H. lia.
Qed.

(** [suffixIds] (lines 91-96) never throws and leaves the tree as it is. On
    every descendant of the container, each of the attributes [id], [for],
    [aria-describedby] and [aria-controls] that is present gets the suffix
    appended; every other attribute, every other element and the container
    itself are left untouched. *)
Theorem suffixIds_appends_to_descendants (container : nat) (prefix : string)
    (st : state) :
  NoDup (forest_ids (roots st)) ->
  exists st',
    suffixIds container prefix st = Ok tt st'
    /\ roots st' = roots st
    /\ (forall j a v,
          In j (descendants container (roots st)) -> In a suffixCandidates ->
          getAttribute st j a = Some v ->
          getAttribute st' j a = Some (v +:+ prefix))
    /\ (forall j a,
          ~ In j (descendants container (roots st)) \/ ~ In a suffixCandidates ->
          getAttribute st' j a = getAttribute st j a)
    /\ (forall a, getAttribute st' container a = getAttribute st container a).
Proof.
  intros HN.
  destruct (suffix_attributes_spec container prefix suffixCandidates) with (st := st)
    as (st' & E & Hr & _ & _ & Hg).
  { apply NoDup_ListNoDup. repeat constructor; cbn; intuition discriminate. }
  { exact HN. }
  assert (Hout : forall j a,
             ~ In j (descendants container (roots st)) \/ ~ In a suffixCandidates ->
             getAttribute st' j a = getAttribute st j a).
  { intros j a Hja. rewrite Hg.
    destruct (existsb (str_eqb a) suffixCandidates) eqn:Ea; [|reflexivity].
    destruct (existsb (Nat.eqb j) _) eqn:Ej; [|reflexivity]. exfalso.
    apply existsb_exists in Ea as (a' & Ha' & Haa). apply str_eqb_eq in Haa as ->.
    apply existsb_exists in Ej as (j' & Hj' & Hjj). apply Nat.eqb_eq in Hjj as <-.
    tauto. }
  exists st'. split; [exact E|]. split; [exact Hr|]. split; [|split; [exact Hout|]].
  - intros j a v Hj Ha Hv. rewrite Hg, Hv.
    replace (existsb (str_eqb a) suffixCandidates) with true.
    + replace (existsb (Nat.eqb j) (descendants container (roots st))) with true;
        [reflexivity|].
      symmetry. apply existsb_exists. exists j. split; [exact Hj | apply Nat.eqb_refl].
    + symmetry. apply existsb_exists. exists a. split; [exact Ha | apply str_eqb_refl].
  - intros a. apply Hout. left. unfold descendants.
    destruct (find_node container (roots st)) as [s|] eqn:Es; [|intros []].
    pose proof (find_node_NoDup _ _ _ HN Es) as Hs.
    destruct (find_node_label _ _ _ Es) as [ks ->]. cbn [ids tree_kids] in *.
    apply NoDup_cons in Hs as [Hs _]. intros H. apply Hs. now apply list_elem_of_In.
Qed.

Lemma suffixIds_appends_to_descendants_witness :
  exists st',
    suffixIds 1 "dupe" utility_bar_page = Ok tt st'
    /\ roots st' = roots utility_bar_page
    /\ (forall j a v,
          In j (descendants 1 (roots utility_bar_page)) -> In a suffixCandidates ->
          getAttribute utility_bar_page j a = Some v ->
          getAttribute st' j a = Some (v +:+ "dupe"))
    /\ (forall j a,
          ~ In j (descendants 1 (roots utility_bar_page)) \/ ~ In a suffixCandidates ->
          getAttribute st' j a = getAttribute utility_bar_page j a)
    /\ (forall a, getAttribute st' 1 a = getAttribute utility_bar_page 1 a).
Proof.
  apply (suffixIds_appends_to_descendants 1 "dupe" utility_bar_page).
  apply NoDup_check. vm_compute. reflexivity.
Defined.

(** References between suffixed elements survive [suffixIds]: two of the
    four attributes, on two descendants of the container, are equal after
    the call exactly when they were equal before. A reference from a
    descendant to an [id] the call does not touch (an element outside the
    container, or the container itself) is broken by any non-empty
    suffix. *)
Theorem suffixIds_references (container : nat) (prefix : string) (st st' : state)
    (j k : nat) (a b v : string) :
  NoDup (forest_ids (roots st)) ->
  suffixIds container prefix st = Ok tt st' ->
  In j (descendants container (roots st)) ->
  In a suffixCandidates -> In b suffixCandidates ->
  getAttribute st j a = Some v ->
  (In k (descendants container (roots st)) ->
   forall w, getAttribute st k b = Some w ->
   (getAttribute st' j a = getAttribute st' k b <-> v = w))
  /\ (~ In k (descendants container (roots st)) ->
      getAttribute st k b = Some v ->
      (getAttribute st' j a = getAttribute st' k b <-> prefix = "")).
Proof.
  intros HN E Hj Ha Hb Hv.
  destruct (suffixIds_appends_to_descendants container prefix st HN)
    as (s & E' & _ & Hin & Hout & _).
  rewrite E in E'. injection E' as <-.
  rewrite (Hin j a v Hj Ha Hv). split.
  - intros Hk w Hw. rewrite (Hin k b w Hk Hb Hw). split.
    + intros [= H]. now apply app_str_inj_r in H.
    + now intros ->.
  - intros Hk Hw. rewrite (Hout k b (or_introl Hk)), Hw. split.
    + intros [= H]. now apply app_str_fixed in H.
    + intros ->. now rewrite app_str_nil_r.
Qed.

Lemma suffixIds_references_witness :
  (In 3 (descendants 1 (roots utility_bar_page)) ->
   forall w, getAttribute utility_bar_page 3 "id" = Some w ->
   (getAttribute (result_state (suffixIds 1 "dupe" utility_bar_page)) 2 "for"
    = getAttribute (result_state (suffixIds 1 "dupe" utility_bar_page)) 3 "id"
    <-> "sort" = w))
  /\ (~ In 3 (descendants 1 (roots utility_bar_page)) ->
      getAttribute utility_bar_page 3 "id" = Some "sort" ->
      (getAttribute (result_state (suffixIds 1 "dupe" utility_bar_page)) 2 "for"
       = getAttribute (result_state (suffixIds 1 "dupe" utility_bar_page)) 3 "id"
       <-> "dupe" = "")).
Proof.
  apply (suffixIds_references 1 "dupe" utility_bar_page
           (result_state (suffixIds 1 "dupe" utility_bar_page)) 2 3 "for" "id" "sort").
  - apply NoDup_check. vm_compute. reflexivity.
  - vm_compute. reflexivity.
  - vm_compute. tauto.
  - cbn. tauto.
  - cbn. tauto.
  - vm_compute. reflexivity.
Defined.

(** Suffixing twice is suffixing once with the two suffixes joined: after
    [suffixIds c p] and [suffixIds c q] every attribute of every element is
    what [suffixIds c (p ++ q)] alone makes it. *)
Theorem suffixIds_twice (container : nat) (p q : string) (st : state) :
  NoDup (forest_ids (roots st)) ->
  exists s1 s2 s12,
    suffixIds container p st = Ok tt s1
    /\ suffixIds container q s1 = Ok tt s2
    /\ suffixIds container (p +:+ q) st = Ok tt s12
    /\ roots s2 = roots s12
    /\ forall j a, getAttribute s2 j a = getAttribute s12 j a.
Proof.
  intros HN.
  assert (Hc : NoDup suffixCandidates).
  { apply NoDup_ListNoDup. repeat constructor; cbn; intuition discriminate. }
  destruct (suffix_attributes_spec container p suffixCandidates Hc st HN)
    as (s1 & E1 & Hr1 & _ & _ & Hg1).
  destruct (suffix_attributes_spec container q suffixCandidates Hc s1)
    as (s2 & E2 & Hr2 & _ & _ & Hg2).
  { now rewrite Hr1. }
  destruct (suffix_attributes_spec container (p +:+ q) suffixCandidates Hc st HN)
    as (s12 & E12 & Hr12 & _ & _ & Hg12).
  exists s1, s2, s12. split; [exact E1|]. split; [exact E2|]. split; [exact E12|].
  split; [congruence|].
  intros j a. rewrite Hg2, Hg12, Hr1, Hg1.
  destruct (existsb (str_eqb a) suffixCandidates
            && existsb (Nat.eqb j) (descendants container (roots st))); [|reflexivity].
  destruct (getAttribute st j a) as [v|]; [|reflexivity].
  cbn [option_map]. now rewrite app_str_assoc.
Qed.

Lemma suffixIds_twice_witness :
  exists s1 s2 s12,
    suffixIds 1 "du" utility_bar_page = Ok tt s1
    /\ suffixIds 1 "pe" s1 = Ok tt s2
    /\ suffixIds 1 ("du" +:+ "pe") utility_bar_page = Ok tt s12
    /\ roots s2 = roots s12
    /\ forall j a, getAttribute s2 j a = getAttribute s12 j a.
Proof.
  apply (suffixIds_twice 1 "du" "pe" utility_bar_page).
  apply NoDup_check. vm_compute. reflexivity.
Defined.

(** ** [manuallyLoadImages] *)

Lemma get_remove_same (n : string) (l : attr_list) : get_attr n (remove_attr n l) = None.
Proof.
  induction l as [|[k v] r IH]; [reflexivity|]. cbn [remove_attr List.filter fst].
  destruct (str_eqb k n) eqn:E; cbn [negb]; [exact IH|].
  cbn [get_attr]. rewrite E. exact IH.
Qed.

Lemma get_remove_other (n m : string) (l : attr_list) :
  n <> m -> get_attr m (remove_attr n l) = get_attr m l.
Proof.
  intros H. induction l as [|[k v] r IH]; [reflexivity|].
  cbn [remove_attr List.filter fst get_attr].
  destruct (str_eqb k n) eqn:E; cbn [negb].
  - apply str_eqb_eq in E as ->. rewrite (proj2 (str_eqb_neq n m) H). exact IH.
  - cbn [get_attr]. destruct (str_eqb k m); [reflexivity | exact IH].
Qed.

Lemma getAttribute_remove_same (i : nat) (n : string) (st : state) :
  getAttribute (remove_elem_attr i n st) i n = None.
Proof.
  unfold getAttribute, attrs_of, remove_elem_attr. cbn [elems with_elems].
  rewrite lookup_alter_eq. destruct (elems st !! i); [|reflexivity].
  cbn. apply get_remove_same.
Qed.

Lemma getAttribute_remove_other (i j : nat) (n m : string) (st : state) :
  i <> j \/ n <> m ->
  getAttribute (remove_elem_attr i n st) j m = getAttribute st j m.
Proof.
  intros H. unfold getAttribute, attrs_of, remove_elem_attr. cbn [elems with_elems].
  destruct (decide (i = j)) as [->|Hij].
  - destruct H as [H|H]; [congruence|]. rewrite lookup_alter_eq.
    destruct (elems st !! j); [|reflexivity]. cbn. now apply get_remove_other.
  - now rewrite lookup_alter_ne.
Qed.

Lemma elems_remove_elem_attr_dom (i j : nat) (n : string) (st : state) :
  is_Some (elems (remove_elem_attr i n st) !! j) <-> is_Some (elems st !! j).
Proof.
  unfold remove_elem_attr. cbn [elems with_elems].
  destruct (decide (i = j)) as [->|Hij].
  - rewrite lookup_alter_eq. destruct (elems st !! j); cbn; split; intros [? ?];
      eauto; discriminate.
  - now rewrite lookup_alter_ne.
Qed.

Lemma tag_of_remove_elem_attr (i j : nat) (n : string) (st : state) :
  tag_of (remove_elem_attr i n st) j = tag_of st j.
Proof.
  unfold tag_of, remove_elem_attr. cbn [elems with_elems].
  destruct (decide (i = j)) as [->|Hij].
  - rewrite lookup_alter_eq. destruct (elems st !! j); reflexivity.
  - now rewrite lookup_alter_ne.
Qed.

Lemma load_image_step (el : nat) (st : state) :
  (let* src := gets (fun st => getAttribute st el "data-manual-src") in
   setAttribute el "src" (js_to_string src) ;;
   removeAttribute el "data-manual-src" ;;
   let* srcset := gets (fun st => getAttribute st el "data-manual-srcset") in
   if truthy srcset then
     setAttribute el "srcset" (js_to_string srcset) ;;
     removeAttribute el "data-manual-srcset"
   else ret tt) st
  = Ok tt (load_image el st).
Proof.
  rewrite bind_gets. unfold bind at 1, setAttribute at 1, modify at 1.
  unfold bind at 1, removeAttribute at 1, modify at 1. rewrite bind_gets.
  unfold load_image. cbv zeta.
  destruct (truthy _); reflexivity.
Qed.

Lemma load_image_frame (el : nat) (st : state) :
  roots (load_image el st) = roots st /\ timers (load_image el st) = timers st
  /\ reloads (load_image el st) = reloads st
  /\ (forall j, is_Some (elems (load_image el st) !! j) <-> is_Some (elems st !! j))
  /\ (forall j, tag_of (load_image el st) j = tag_of st j)
  /\ (forall j a, j <> el -> getAttribute (load_image el st) j a = getAttribute st j a).
Proof.
  unfold load_image. cbv zeta. destruct (truthy _).
  - split; [reflexivity|]. split; [reflexivity|]. split; [reflexivity|].
    split; [|split].
    + intros j. now rewrite elems_remove_elem_attr_dom, elems_set_elem_attr_dom,
        elems_remove_elem_attr_dom, elems_set_elem_attr_dom.
    + intros j. now rewrite tag_of_remove_elem_attr, tag_of_set_elem_attr,
        tag_of_remove_elem_attr, tag_of_set_elem_attr.
    + intros j a Hj.
      rewrite getAttribute_remove_other, getAttribute_set_other,
        getAttribute_remove_other, getAttribute_set_other; auto.
  - split; [reflexivity|]. split; [reflexivity|]. split; [reflexivity|].
    split; [|split].
    + intros j. now rewrite elems_remove_elem_attr_dom, elems_set_elem_attr_dom.
    + intros j. now rewrite tag_of_remove_elem_attr, tag_of_set_elem_attr.
    + intros j a Hj. rewrite getAttribute_remove_other, getAttribute_set_other; auto.
Qed.

(** What one turn does to the image it handles. *)
Lemma load_image_self (el : nat) (v : string) (st : state) :
  getAttribute st el "data-manual-src" = Some v ->
  image_loaded st (load_image el st) el v.
Proof.
  intros Hv. unfold image_loaded. cbv zeta.
  set (srcset := getAttribute st el "data-manual-srcset").
  set (st' := load_image el st).
  assert (Hs : is_Some (elems st !! el)) by now apply getAttribute_in_store in Hv.
  set (s1 := set_elem_attr el "src" v st).
  set (s2 := remove_elem_attr el "data-manual-src" s1).
  assert (Hs2 : is_Some (elems s2 !! el)).
  { unfold s2, s1. now apply elems_remove_elem_attr_dom, elems_set_elem_attr_dom. }
  assert (Hsrcset : getAttribute s2 el "data-manual-srcset" = srcset).
  { unfold s2, s1. rewrite getAttribute_remove_other, getAttribute_set_other;
      try (right; discriminate). reflexivity. }
  assert (Hsrc2 : getAttribute s2 el "src" = Some v).
  { unfold s2, s1. rewrite getAttribute_remove_other by (right; discriminate).
    now apply getAttribute_set_same. }
  assert (Ho2 : forall a, a <> "src" -> a <> "data-manual-src" ->
                          getAttribute s2 el a = getAttribute st el a).
  { intros a H1 H2. unfold s2, s1.
    rewrite getAttribute_remove_other, getAttribute_set_other; auto. }
  assert (Est : st' = if truthy srcset
                      then remove_elem_attr el "data-manual-srcset"
                             (set_elem_attr el "srcset" (js_to_string srcset) s2)
                      else s2).
  { unfold st', load_image. cbv zeta. rewrite Hv. cbn [js_to_string].
    fold s1. fold s2. now rewrite Hsrcset. }
  rewrite Est. destruct (truthy srcset) eqn:Et.
  - destruct srcset as [w|] eqn:Ew; [|discriminate]. cbn [js_to_string].
    split; [|split; [|split; [|split]]].
    + now rewrite getAttribute_remove_other, getAttribute_set_other
        by (right; discriminate).
    + rewrite getAttribute_remove_other, getAttribute_set_other
        by (right; discriminate).
      apply getAttribute_remove_same.
    + rewrite getAttribute_remove_other by (right; discriminate).
      now apply getAttribute_set_same.
    + apply getAttribute_remove_same.
    + intros a Ha. cbn [In] in Ha.
      rewrite getAttribute_remove_other, getAttribute_set_other by (right; intuition).
      apply Ho2; intuition.
  - split; [exact Hsrc2|]. split; [apply getAttribute_remove_same|].
    split; [apply Ho2; discriminate|]. split; [exact Hsrcset|].
    intros a Ha. cbn [In] in Ha. apply Ho2; intuition.
Qed.

Lemma image_loaded_agree (st0 st st1 st' : state) (el : nat) (v : string) :
  (forall a, getAttribute st0 el a = getAttribute st el a) ->
  (forall a, getAttribute st1 el a = getAttribute st' el a) ->
  image_loaded st0 st1 el v -> image_loaded st st' el v.
Proof.
  intros H0 H1 (A1 & A2 & A3 & A4 & A5). unfold image_loaded. cbv zeta.
  rewrite <- !H0, <- !H1. split; [exact A1|]. split; [exact A2|].
  split; [exact A3|]. split; [exact A4|]. intros a Ha. rewrite <- H0, <- H1. now apply A5.
Qed.

Lemma load_images_loop (l : list nat) :
  NoDup l ->
  forall st,
    let st' := fold_left (fun s el => load_image el s) l st in
    roots st' = roots st /\ timers st' = timers st /\ reloads st' = reloads st
    /\ (forall j, tag_of st' j = tag_of st j)
    /\ (forall j a, ~ In j l -> getAttribute st' j a = getAttribute st j a)
    /\ (forall el v, In el l -> getAttribute st el "data-manual-src" = Some v ->
          image_loaded st st' el v).
Proof.
  induction 1 as [|i r Hi _ IH]; intros st; cbn [fold_left].
  - cbv zeta. split; [|split; [|split; [|split; [|split]]]]; try reflexivity.
    intros el v [].
  - destruct (IH (load_image i st)) as (Hr & Ht & Hl & Hg & Ho & Hs).
    destruct (load_image_frame i st) as (Fr & Ft & Fl & _ & Fg & Fo).
    cbv zeta. split; [congruence|]. split; [congruence|]. split; [congruence|].
    split; [|split].
    + intros j. now rewrite Hg, Fg.
    + intros j a Hj. rewrite Ho by (intros H; apply Hj; now right).
      apply Fo. intros ->. apply Hj. now left.
    + intros el v [<-|Hel] Hv.
      * apply (image_loaded_agree st st (load_image i st)); [reflexivity| |].
        -- intros a. symmetry. apply Ho. intros H. apply Hi. now apply list_elem_of_In.
        -- now apply load_image_self.
      * assert (Hne : el <> i) by (intros ->; apply Hi; now apply list_elem_of_In).
        apply (image_loaded_agree (load_image i st) st
                 (fold_left (fun s el => load_image el s) r (load_image i st)));
          [intros a; now apply Fo | reflexivity |].
        apply Hs; [exact Hel|]. now rewrite Fo.
Qed.

Lemma forEach_load_images (l : list nat) (st : state) :
  forEach (fun el =>
      let* src := gets (fun st => getAttribute st el "data-manual-src") in
      setAttribute el "src" (js_to_string src) ;;
      removeAttribute el "data-manual-src" ;;
      let* srcset := gets (fun st => getAttribute st el "data-manual-srcset") in
      if truthy srcset then
        setAttribute el "srcset" (js_to_string srcset) ;;
        removeAttribute el "data-manual-srcset"
      else ret tt) l st
  = Ok tt (fold_left (fun s el => load_image el s) l st).
Proof.
  revert st. induction l as [|i r IH]; intros st; [reflexivity|].
  cbn [forEach fold_left]. rewrite (bind_ok _ _ _ _ _ (load_image_step i st)). apply IH.
Qed.

Lemma matches_img_marker (st : state) (j : nat) :
  matches st [ByTag "img"; WithAttr "data-manual-src"] j
  = str_eqb (tag_of st j) "img"
    && bool_decide (is_Some (getAttribute st j "data-manual-src")).
Proof.
  unfold matches, tag_of, getAttribute, attrs_of.
  destruct (elems st !! j); [|reflexivity]. cbn [forallb simple_matches].
  now rewrite andb_true_r.
Qed.

(** [manuallyLoadImages] (lines 280-289) never throws and leaves the tree
    as it is. Every [img] below the container that carries
    [data-manual-src] ends loaded; every other element, and every [img]
    without the marker, keeps all its attributes, whatever else it
    carries. *)
Theorem manuallyLoadImages_loads_marked_images (container : nat) (st : state) :
  NoDup (forest_ids (roots st)) ->
  exists st',
    manuallyLoadImages container st = Ok tt st'
    /\ roots st' = roots st
    /\ (forall el v,
          In el (descendants container (roots st)) -> tag_of st el = "img" ->
          getAttribute st el "data-manual-src" = Some v ->
          image_loaded st st' el v)
    /\ (forall j a,
          ~ In j (descendants container (roots st)) \/ tag_of st j <> "img"
          \/ getAttribute st j "data-manual-src" = None ->
          getAttribute st' j a = getAttribute st j a).
Proof.
  intros HN. unfold manuallyLoadImages. rewrite bind_gets, forEach_load_images.
  set (l := query_all container [ByTag "img"; WithAttr "data-manual-src"] st).
  destruct (load_images_loop l) with (st := st) as (Hr & _ & _ & Hg & Ho & Hs).
  { apply NoDup_filter_list, descendants_NoDup, HN. }
  eexists. split; [reflexivity|]. split; [exact Hr|]. split.
  - intros el v Hd Ht Hv. apply Hs; [|exact Hv].
    apply filter_In. split; [exact Hd|]. rewrite matches_img_marker, Ht, Hv.
    apply andb_true_iff. split; [reflexivity|]. apply bool_decide_eq_true. eauto.
  - intros j a Hj. apply Ho. intros Hin. apply filter_In in Hin as [Hd Hm].
    rewrite matches_img_marker in Hm. apply andb_true_iff in Hm as [Ht Ha].
    apply str_eqb_eq in Ht. apply bool_decide_eq_true in Ha as [v Hv].
    destruct Hj as [Hj|[Hj|Hj]]; [tauto | tauto | congruence].
Qed.

Lemma manuallyLoadImages_loads_marked_images_witness :
  exists st',
    manuallyLoadImages 1 gallery_page = Ok tt st'
    /\ roots st' = roots gallery_page
    /\ (forall el v,
          In el (descendants 1 (roots gallery_page)) -> tag_of gallery_page el = "img" ->
          getAttribute gallery_page el "data-manual-src" = Some v ->
          image_loaded gallery_page st' el v)
    /\ (forall j a,
          ~ In j (descendants 1 (roots gallery_page)) \/ tag_of gallery_page j <> "img"
          \/ getAttribute gallery_page j "data-manual-src" = None ->
          getAttribute st' j a = getAttribute gallery_page j a).
Proof.
  apply (manuallyLoadImages_loads_marked_images 1 gallery_page).
  apply NoDup_check. vm_compute. reflexivity.
Defined.

(** A second call of [manuallyLoadImages] finds no image to load: it
    returns the state it was given. *)
Theorem manuallyLoadImages_twice (container : nat) (st : state) :
  NoDup (forest_ids (roots st)) ->
  exists st',
    manuallyLoadImages container st = Ok tt st'
    /\ query_all container [ByTag "img"; WithAttr "data-manual-src"] st' = []
    /\ manuallyLoadImages container st' = Ok tt st'.
Proof.
  intros HN. unfold manuallyLoadImages at 1. rewrite bind_gets, forEach_load_images.
  set (l := query_all container [ByTag "img"; WithAttr "data-manual-src"] st).
  destruct (load_images_loop l) with (st := st) as (Hr & _ & _ & Hg & Ho & Hs).
  { apply NoDup_filter_list, descendants_NoDup, HN. }
  set (st' := fold_left (fun s el => load_image el s) l st) in *.
  exists st'. split; [reflexivity|].
  assert (He : query_all container [ByTag "img"; WithAttr "data-manual-src"] st' = []).
  { unfold query_all. rewrite Hr.
    assert (Hall : forall j, In j (descendants container (roots st)) ->
                     matches st' [ByTag "img"; WithAttr "data-manual-src"] j = false).
    { intros j Hd. rewrite matches_img_marker, Hg.
      destruct (str_eqb (tag_of st j) "img") eqn:Et; [|reflexivity]. cbn [andb].
      apply bool_decide_eq_false. intros [v Hv].
      destruct (getAttribute st j "data-manual-src") as [w|] eqn:Ew.
      - assert (Hin : In j l).
        { apply filter_In. split; [exact Hd|]. rewrite matches_img_marker, Et, Ew.
          apply bool_decide_eq_true. eauto. }
        destruct (Hs j w Hin Ew) as (_ & H2 & _). congruence.
      - rewrite Ho in Hv; [congruence|]. intros Hin. apply filter_In in Hin as [_ Hm].
        rewrite matches_img_marker, Ew in Hm. apply andb_true_iff in Hm as [_ Hm].
        apply bool_decide_eq_true in Hm. now destruct Hm. }
    induction (descendants container (roots st)) as [|j r IH]; [reflexivity|].
    cbn [List.filter]. rewrite Hall by now left. apply IH. intros k Hk. apply Hall.
    now right. }
  split; [exact He|]. unfold manuallyLoadImages. now rewrite bind_gets, He.
Qed.

Lemma manuallyLoadImages_twice_witness :
  exists st',
    manuallyLoadImages 1 gallery_page = Ok tt st'
    /\ query_all 1 [ByTag "img"; WithAttr "data-manual-src"] st' = []
    /\ manuallyLoadImages 1 st' = Ok tt st'.
Proof.
  apply (manuallyLoadImages_twice 1 gallery_page).
  apply NoDup_check. vm_compute. reflexivity.
Defined.

(** ** The delegated listener *)

Lemma exists_last_or_nil {A} (l : list A) : l = [] \/ exists l' b, l = l' ++ [b].
Proof.
  destruct l as [|a r]; [now left|]. right.
  destruct (@exists_last A (a :: r)) as (l' & b & H); [discriminate|]. eauto.
Qed.

Lemma first_some_In {A C} (h : A -> option C) (l : list A) (c : C) :
  first_some h l = Some c -> exists a, In a l /\ h a = Some c.
Proof.
  induction l as [|a r IH]; cbn [first_some]; [discriminate|].
  destruct (h a) as [c'|] eqn:E.
  - intros [= <-]. exists a. split; [now left | exact E].
  - intros H. destruct (IH H) as (b & Hb & Hhb). exists b. split; [now right | exact Hhb].
Qed.

Lemma path_in_ids (x : nat) (t : tree) (p : list nat) :
  path_in x t = Some p -> incl p (ids t) /\ In x p.
Proof.
  revert p. induction t as [s0|i ks IH] using tree_ind2; intros p H;
    cbn [path_in] in H; [discriminate|].
  destruct (Nat.eqb_spec i x) as [->|Hix].
  - injection H as <-. split; [|now left]. intros a [<-|[]]. now left.
  - destruct (first_some (path_in x) ks) as [p'|] eqn:E; [|discriminate].
    injection H as <-. apply first_some_In in E as (k & Hk & Hp).
    rewrite List.Forall_forall in IH. destruct (IH k Hk p' Hp) as [Hin Hx].
    split; [|apply in_app_iff; now left].
    intros a Ha. apply in_app_iff in Ha as [Ha|[<-|[]]]; [|now left].
    right. apply in_flat_map. exists k. split; [exact Hk | now apply Hin].
Qed.

Lemma list_eq_snoc_cases {A} (l1 : list A) (a : A) (l2 p : list A) (i : A) :
  l1 ++ a :: l2 = p ++ [i] ->
  (l2 = [] /\ a = i /\ l1 = p) \/ (exists l2', l2 = l2' ++ [i] /\ p = l1 ++ a :: l2').
Proof.
  intros H. destruct (exists_last_or_nil l2) as [->|(l2' & b & ->)].
  - left. change (l1 ++ [a] = p ++ [i]) in H. apply app_inj_tail in H as [-> ->]. auto.
  - right. exists l2'.
    change (l1 ++ a :: l2' ++ [b] = p ++ [i]) in H.
    replace (l1 ++ a :: l2' ++ [b]) with ((l1 ++ a :: l2') ++ [b]) in H
      by now rewrite <- app_assoc.
    apply app_inj_tail in H as [<- ->]. auto.
Qed.

(** On the path of [x], what comes before [a] lies below [a]. *)
Lemma path_in_below (x : nat) (t : tree) :
  NoDup (ids t) ->
  forall l1 a l2, path_in x t = Some (l1 ++ a :: l2) ->
  exists s, find_in a t = Some s
            /\ forall m, In m l1 -> In m (forest_ids (tree_kids s)).
Proof.
  induction t as [s0|i ks IH] using tree_ind2; intros HN l1 a l2 H;
    cbn [path_in] in H; [discriminate|].
  cbn [ids] in HN. fold (forest_ids ks) in HN. apply NoDup_cons in HN as [Hi HN].
  destruct (Nat.eqb_spec i x) as [->|Hix].
  - injection H as H. destruct l1 as [|b l1]; cbn [app] in H.
    + injection H as <- _. exists (El x ks). split; [apply find_in_self | intros m []].
    + injection H as _ H. now destruct l1.
  - destruct (first_some (path_in x) ks) as [p'|] eqn:E; [|discriminate].
    injection H as H. apply first_some_In in E as (k & Hk & Hp).
    destruct (path_in_ids x k p' Hp) as [Hin _].
    destruct (list_eq_snoc_cases l1 a l2 p' i (eq_sym H)) as [(-> & -> & ->)|(l2' & -> & ->)].
    + exists (El i ks). split; [apply find_in_self|]. cbn [tree_kids].
      intros m Hm. apply in_forest_ids. exists k. split; [exact Hk | now apply Hin].
    + rewrite List.Forall_forall in IH.
      destruct (IH k Hk (NoDup_flat_map_each ids ks k HN Hk) l1 a l2' Hp)
        as (s & Hs & Hb).
      exists s. split; [|exact Hb].
      assert (Ha : In a (ids k)) by (apply find_in_Some_ids; rewrite Hs; eauto).
      cbn [find_in]. destruct (Nat.eqb_spec i a) as [->|_].
      * exfalso. apply Hi, list_elem_of_In, in_forest_ids. eauto.
      * apply (first_some_unique (find_in a) a ks k); auto.
        intros k' Hk' Hs'. apply find_in_Some_ids in Hs'.
        now apply (NoDup_flat_map_unique ids ks k' k a).
Qed.

Lemma path_in_head (x : nat) (t : tree) (p : list nat) :
  path_in x t = Some p -> exists q, p = x :: q.
Proof.
  revert p. induction t as [s0|i ks IH] using tree_ind2; intros p H;
    cbn [path_in] in H; [discriminate|].
  destruct (Nat.eqb_spec i x) as [->|Hix].
  - injection H as <-. eauto.
  - destruct (first_some (path_in x) ks) as [p'|] eqn:E; [|discriminate].
    injection H as <-. apply first_some_In in E as (k & Hk & Hp).
    rewrite List.Forall_forall in IH. destruct (IH k Hk p' Hp) as [q ->].
    exists (q ++ [i]). reflexivity.
Qed.

Lemma inclusive_ancestors_head (x : nat) (f : list tree) :
  exists q, inclusive_ancestors x f = x :: q.
Proof.
  unfold inclusive_ancestors. destruct (first_some (path_in x) f) as [p|] eqn:E; [|eauto].
  apply first_some_In in E as (r & _ & Hp). now apply (path_in_head x r).
Qed.

Lemma inclusive_ancestors_below (x : nat) (f : list tree) (l1 l2 : list nat) (a : nat) :
  NoDup (forest_ids f) -> inclusive_ancestors x f = l1 ++ a :: l2 ->
  forall m, In m l1 -> In m (descendants a f).
Proof.
  intros HN H m Hm. unfold inclusive_ancestors in H.
  destruct (first_some (path_in x) f) as [p|] eqn:E.
  - subst p. apply first_some_In in E as (r & Hr & Hp).
    destruct (path_in_below x r (NoDup_flat_map_each ids f r HN Hr) l1 a l2 Hp)
      as (s & Hs & Hb).
    assert (Hf : find_node a f = Some s).
    { apply (first_some_unique (find_in a) a f r); auto.
      intros r' Hr' Hs'. apply find_in_Some_ids in Hs'.
      apply (NoDup_flat_map_unique ids f r' r a); auto.
      apply find_in_Some_ids. rewrite Hs. eauto. }
    unfold descendants. rewrite Hf. now apply Hb.
  - destruct l1 as [|b l1]; [destruct Hm|]. injection H as _ H. now destruct l1.
Qed.

Lemma contains_spec (a b : nat) (f : list tree) :
  contains a b f = true <-> a = b \/ In b (descendants a f).
Proof.
  unfold contains. rewrite orb_true_iff, Nat.eqb_eq, existsb_exists. split.
  - intros [H|(x & Hx & Hbx)]; [now left|]. apply Nat.eqb_eq in Hbx as ->. now right.
  - intros [H|H]; [now left|]. right. exists b. split; [exact H | apply Nat.eqb_refl].
Qed.

(** Containment is transitive. *)
Lemma descendants_trans (e a m : nat) (f : list tree) :
  NoDup (forest_ids f) ->
  In a (descendants e f) -> In m (descendants a f) -> In m (descendants e f).
Proof.
  intros HN Ha Hm. unfold descendants in *.
  destruct (find_node e f) as [se|] eqn:Ee; [|destruct Ha].
  destruct (find_node a f) as [sa|] eqn:Ea; [|destruct Hm].
  fold (forest_ids (tree_kids se)) in *. fold (forest_ids (tree_kids sa)) in Hm.
  rewrite forest_ids_subtrees in Ha. apply in_map_iff in Ha as (s' & Hroot & Hs').
  assert (Hforest : In s' (List.flat_map subtrees f)).
  { apply (kids_subtrees_in_forest e (State f ∅ 0 0 [] 0)).
    unfold kids_of. cbn [roots]. now rewrite Ee. }
  pose proof (find_node_subtree s' f HN Hforest) as Hf. rewrite Hroot, Ea in Hf.
  injection Hf as ->.
  apply in_flat_map in Hs' as (k & Hk & Hsk).
  apply in_forest_ids. exists k. split; [exact Hk|].
  rewrite ids_subtrees. apply in_map_iff.
  assert (Hms : In m (ids s')).
  { apply in_ids_cases. now right. }
  rewrite ids_subtrees in Hms. apply in_map_iff in Hms as (u & Hu & Hus).
  exists u. split; [exact Hu|]. now apply (subtrees_trans s' k Hsk).
Qed.

Lemma contains_trans (e a m : nat) (f : list tree) :
  NoDup (forest_ids f) ->
  contains e a f = true -> In m (descendants a f) -> contains e m f = true.
Proof.
  intros HN Ha Hm. apply contains_spec. apply contains_spec in Ha as [->|Ha].
  - now right.
  - right. now apply (descendants_trans e a m).
Qed.

Lemma find_first_split {A} (p : A -> bool) (l : list A) (a : A) :
  List.find p l = Some a ->
  p a = true /\ exists l1 l2, l = l1 ++ a :: l2 /\ forall b, In b l1 -> p b = false.
Proof.
  induction l as [|c r IH]; cbn [List.find]; [discriminate|].
  destruct (p c) eqn:E.
  - intros [= <-]. split; [exact E|]. exists [], r. split; [reflexivity | intros b []].
  - intros H. destruct (IH H) as (Ha & l1 & l2 & -> & Hl1). split; [exact Ha|].
    exists (c :: l1), l2. split; [reflexivity|]. intros b [<-|Hb]; auto.
Qed.

(** The delegated listener (lines 105-110). When the callback is called,
    it is called with the nearest inclusive ancestor of the event target
    that matches the selector; that element lies inside the element the
    listener is on, and so does the target. The callback is called exactly
    when some inclusive ancestor of the target both matches the selector
    and lies inside that element: a match above it is never reported. *)
Theorem delegate_listener_reports_nearest_match_inside (element : nat)
    (sel : nat -> bool) (target : nat) (st : state) :
  NoDup (forest_ids (roots st)) ->
  (forall el, delegate_listener element sel target st = Some el ->
     sel el = true
     /\ contains element el (roots st) = true
     /\ contains el target (roots st) = true
     /\ contains element target (roots st) = true
     /\ exists nearer above,
          inclusive_ancestors target (roots st) = nearer ++ el :: above
          /\ forall b, In b nearer -> sel b = false)
  /\ (is_Some (delegate_listener element sel target st)
      <-> exists a, In a (inclusive_ancestors target (roots st))
                    /\ sel a = true /\ contains element a (roots st) = true).
Proof.
  intros HN.
  assert (Hin : forall l1 m l2,
             inclusive_ancestors target (roots st) = l1 ++ m :: l2 ->
             contains m target (roots st) = true).
  { intros l1 m l2 H. apply contains_spec.
    destruct (inclusive_ancestors_head target (roots st)) as [q Hq].
    rewrite Hq in H. destruct l1 as [|b l1]; cbn [app] in H.
    - injection H as -> _. now left.
    - injection H as <- H. right.
      apply (inclusive_ancestors_below target (roots st) (target :: l1) l2 m HN);
        [|now left].
      rewrite Hq. cbn [app]. now rewrite H. }
  split.
  - intros el H. unfold delegate_listener, closest in H.
    destruct (List.find sel _) as [m|] eqn:Ef; [|discriminate].
    destruct (contains element m (roots st)) eqn:Ec; [|discriminate].
    injection H as <-.
    destruct (find_first_split _ _ _ Ef) as (Hs & l1 & l2 & Hl & Hl1).
    split; [exact Hs|]. split; [exact Ec|].
    pose proof (Hin l1 m l2 Hl) as Hmt.
    split; [exact Hmt|]. split; [|eauto].
    apply contains_spec in Hmt as [<-|Hmt]; [exact Ec|].
    now apply (contains_trans element m target).
  - split.
    + intros [el H]. unfold delegate_listener, closest in H.
      destruct (List.find sel _) as [m|] eqn:Ef; [|discriminate].
      destruct (contains element m (roots st)) eqn:Ec; [|discriminate].
      exists m. destruct (List.find_some _ _ Ef) as [Hm Hs]. auto.
    + intros (a & Ha & Hs & Hc). unfold delegate_listener, closest.
      destruct (List.find sel _) as [m|] eqn:Ef.
      * destruct (find_first_split _ _ _ Ef) as (Hsm & l1 & l2 & Hl & Hl1).
        assert (Hcm : contains element m (roots st) = true).
        { rewrite Hl in Ha. apply in_app_iff in Ha as [Ha|[<-|Ha]].
          - rewrite (Hl1 a Ha) in Hs. discriminate.
          - exact Hc.
          - apply in_split in Ha as (l3 & l4 & ->).
            apply (contains_trans element a m); [exact HN | exact Hc|].
            apply (inclusive_ancestors_below target (roots st)
                     (l1 ++ m :: l3) l4 a HN).
            + rewrite Hl, <- app_assoc. reflexivity.
            + apply in_app_iff. right. now left. }
        rewrite Hcm. eauto.
      * exfalso. pose proof (List.find_none _ _ Ef a Ha) as Hn. congruence.
Qed.

Lemma delegate_listener_reports_nearest_match_inside_witness :
  (forall el,
     delegate_listener 1 (fun i => has_class cart_page i "cart-item__remove") 5 cart_page
     = Some el ->
     has_class cart_page el "cart-item__remove" = true
     /\ contains 1 el (roots cart_page) = true
     /\ contains el 5 (roots cart_page) = true
     /\ contains 1 5 (roots cart_page) = true
     /\ exists nearer above,
          inclusive_ancestors 5 (roots cart_page) = nearer ++ el :: above
          /\ forall b, In b nearer -> has_class cart_page b "cart-item__remove" = false)
  /\ (is_Some (delegate_listener 1
                 (fun i => has_class cart_page i "cart-item__remove") 5 cart_page)
      <-> exists a, In a (inclusive_ancestors 5 (roots cart_page))
                    /\ has_class cart_page a "cart-item__remove" = true
                    /\ contains 1 a (roots cart_page) = true).
Proof.
  apply (delegate_listener_reports_nearest_match_inside 1
           (fun i => has_class cart_page i "cart-item__remove") 5 cart_page).
  apply NoDup_check. vm_compute. reflexivity.
Defined.

(** ** The caller of the engine: [refreshFromHtml] *)

Lemma has_class_remove_class_false (c d : string) (i j : nat) (st : state) :
  has_class st j d = false -> has_class (remove_class c i st) j d = false.
Proof.
  intros H. unfold remove_class.
  destruct (getAttribute st i "class") as [v|] eqn:Ev; [|exact H].
  rewrite has_class_getAttribute in *.
  destruct (decide (i = j)) as [->|Hij].
  - rewrite getAttribute_set_same by (now apply getAttribute_in_store in Ev).
    apply has_token_remove_other. now rewrite Ev in H.
  - now rewrite getAttribute_set_other by (left; exact Hij).
Qed.

Lemma has_class_remove_class_self (c : string) (i : nat) (st : state) :
  has_class (remove_class c i st) i c = false.
Proof.
  unfold remove_class.
  destruct (getAttribute st i "class") as [v|] eqn:Ev.
  - rewrite has_class_getAttribute.
    rewrite getAttribute_set_same by (now apply getAttribute_in_store in Ev).
    apply has_token_remove.
  - now rewrite has_class_getAttribute, Ev.
Qed.

Lemma classList_remove_one (c : string) (i : nat) (st : state) :
  classList_remove i [c] st = Ok tt (remove_class c i st).
Proof.
  unfold classList_remove, modify, remove_class.
  now destruct (getAttribute st i "class").
Qed.

Lemma remove_class_frame (c : string) (i : nat) (st : state) :
  roots (remove_class c i st) = roots st
  /\ reloads (remove_class c i st) = reloads st.
Proof.
  unfold remove_class. now destruct (getAttribute st i "class").
Qed.

Lemma remove_class_loop (c : string) (l : list nat) :
  forall st,
    exists st',
      forEach (fun el => classList_remove el [c]) l st = Ok tt st'
      /\ roots st' = roots st /\ reloads st' = reloads st
      /\ (forall j d, has_class st j d = false -> has_class st' j d = false)
      /\ (forall j, In j l -> has_class st' j c = false).
Proof.
  induction l as [|i r IH]; intros st.
  - exists st. split; [reflexivity|]. split; [reflexivity|]. split; [reflexivity|].
    split; [auto | intros j []].
  - cbn [forEach]. rewrite (bind_ok _ _ _ _ _ (classList_remove_one c i st)).
    destruct (IH (remove_class c i st)) as (st' & E & Hr & Hl & Hk & Hs).
    destruct (remove_class_frame c i st) as [Fr Fl].
    exists st'. split; [exact E|]. split; [congruence|]. split; [congruence|]. split.
    + intros j d H. now apply Hk, has_class_remove_class_false.
    + intros j [<-|Hj]; [|now apply Hs].
      apply Hk, has_class_remove_class_self.
Qed.

Lemma remove_attribute_loop (n : string) (l : list nat) :
  forall st,
    exists st',
      forEach (fun el => removeAttribute el n) l st = Ok tt st'
      /\ reloads st' = reloads st.
Proof.
  induction l as [|i r IH]; intros st.
  - exists st. split; reflexivity.
  - cbn [forEach]. unfold bind at 1, removeAttribute at 1, modify at 1.
    destruct (IH (remove_elem_attr i n st)) as (st' & E & Hl). exists st'.
    split; [exact E | exact Hl].
Qed.

Lemma matches_class (st : state) (c : string) (j : nat) :
  matches st [ByClass c] j = has_class st j c.
Proof.
  unfold matches, has_class, attrs_of. destruct (elems st !! j); [|reflexivity].
  cbn [forallb simple_matches]. apply andb_true_r.
Qed.

(** Whatever the response and the state of the page, and whether the merge
    succeeded or ended in a reload, [refreshFromHtml] completes; afterwards
    the form does not carry [cart-form--refreshing], no element below it
    carries [merge-item-refreshing], and the page has been reloaded at most
    once. *)
Theorem refreshFromHtml_clears_refreshing_marks (B : browser) (this newContent : nat)
    (st : state) :
  exists st',
    refreshFromHtml B this newContent st = Ok tt st'
    /\ has_class st' this "cart-form--refreshing" = false
    /\ (forall j, In j (descendants this (roots st')) ->
                  has_class st' j "merge-item-refreshing" = false)
    /\ (reloads st' = reloads st \/ reloads st' = S (reloads st)).
Proof.
  unfold refreshFromHtml. rewrite bind_gets.
  destruct (remove_attribute_loop "data-cc-animate"
              (querySelectorAll newContent (SelAttr "data-cc-animate") st) st)
    as (s1 & E1 & L1).
  rewrite (bind_ok _ _ _ _ _ E1).
  unfold bind at 1, modify at 1.
  set (s2 := mergeNodes B newContent this s1).
  rewrite (bind_ok _ _ _ _ _ (classList_remove_one "cart-form--refreshing" this s2)).
  set (s3 := remove_class "cart-form--refreshing" this s2).
  rewrite bind_gets.
  destruct (remove_class_loop "merge-item-refreshing"
              (query_all this [ByClass "merge-item-refreshing"] s3) s3)
    as (s4 & E4 & R4 & L4 & K4 & S4).
  exists s4. split; [exact E4|]. split; [|split].
  - apply K4, has_class_remove_class_self.
  - intros j Hj. rewrite R4 in Hj.
    destruct (has_class s3 j "merge-item-refreshing") eqn:Ec.
    + apply S4. apply filter_In. split; [exact Hj|]. now rewrite matches_class.
    + now apply K4.
  - rewrite L4. unfold s3. rewrite (proj2 (remove_class_frame _ _ _)).
    unfold s2, mergeNodes. pose proof (keeps_reloads_merge_body B newContent this s1) as Hk.
    destruct (merge_body B newContent this s1) as [[] s|s]; cbn [result_state] in Hk.
    + left. congruence.
    + right. cbn [reload reloads]. congruence.
Qed.

(** ** The gift card recipient form *)

Lemma set_disabled_loop (l : list nat) :
  forall st,
    let st' := fold_left (fun s i => set_elem_attr i "disabled" "" s) l st in
    roots st' = roots st
    /\ (forall j, is_Some (elems st' !! j) <-> is_Some (elems st !! j))
    /\ (forall j a, a <> "disabled" \/ ~ In j l ->
                    getAttribute st' j a = getAttribute st j a)
    /\ (forall j, In j l -> is_Some (elems st !! j) ->
                  getAttribute st' j "disabled" = Some "").
Proof.
  intros st. fold (disable_all l st).
  destruct (disable_all_frame l st) as (Hr & _). cbv zeta.
  split; [exact Hr|]. split; [apply disable_all_dom|]. split.
  - intros j a [Ha|Hj]; [now apply disable_all_other | now apply disable_all_not_in].
  - intros j Hj Hs. now apply disable_all_sets.
Qed.

Lemma enable_loop (l : list nat) :
  forall st,
    let st' := fold_left (fun s i => remove_elem_attr i "disabled" s) l st in
    roots st' = roots st
    /\ (forall j, is_Some (elems st' !! j) <-> is_Some (elems st !! j))
    /\ (forall j a, a <> "disabled" \/ ~ In j l ->
                    getAttribute st' j a = getAttribute st j a)
    /\ (forall j, In j l -> getAttribute st' j "disabled" = None).
Proof.
  induction l as [|i r IH]; intros st; cbn [fold_left]; cbv zeta.
  - split; [reflexivity|]. split; [reflexivity|]. split; [reflexivity | intros j []].
  - destruct (IH (remove_elem_attr i "disabled" st)) as (Hr & Hd & Ho & Hs).
    split; [exact Hr|]. split; [|split].
    + intros j. rewrite Hd. apply elems_remove_elem_attr_dom.
    + intros j a Hja. rewrite Ho.
      * apply getAttribute_remove_other.
        destruct Hja as [Ha|Hj]; [right; congruence | left; intros ->; apply Hj; now left].
      * destruct Hja as [Ha|Hj]; [now left | right; intros H; apply Hj; now right].
    + intros j [<-|Hj]; [|now apply Hs].
      destruct (in_dec Nat.eq_dec i r) as [Hin|Hin]; [now apply Hs|].
      rewrite Ho by now right. apply getAttribute_remove_same.
Qed.

(** [synchronizeProperties] (lines 621-641) on a form that has its four
    fields: it completes; afterwards every field, the optional offset field
    included, is disabled exactly when the checkbox is unchecked, and the
    email field is required exactly when it is checked, whatever the
    attributes were before. Nothing else changes: not the tree, not another
    attribute, not another element. *)
Theorem synchronizeProperties_follows_checkbox (r : recipient) (email name message
    sendOn : nat) (st : state) :
  recipientEmail r = Some email -> recipientName r = Some name ->
  recipientMessage r = Some message -> recipientSendOn r = Some sendOn ->
  (forall i, In i (recipient_fields r) -> is_Some (elems st !! i)) ->
  exists st',
    synchronizeProperties r st = Ok tt st'
    /\ roots st' = roots st
    /\ (forall i, In i (recipient_fields r) ->
          is_Some (getAttribute st' i "disabled")
          <-> recipientCheckbox_checked r = false)
    /\ (is_Some (getAttribute st' email "required")
        <-> recipientCheckbox_checked r = true)
    /\ (forall j a,
          ~ In j (recipient_fields r) \/ (a <> "disabled" /\ a <> "required")
          \/ (a = "required" /\ j <> email) ->
          getAttribute st' j a = getAttribute st j a).
Proof.
  intros He Hn Hm Hs Hstore. unfold synchronizeProperties. rewrite He, Hn, Hm, Hs.
  set (fs := recipient_fields r) in *.
  assert (Hfs : fs = email :: name :: message :: sendOn
                     :: match recipientOffsetProperty r with Some o => [o] | None => [] end).
  { unfold fs, recipient_fields. rewrite He, Hn, Hm, Hs.
    destruct (recipientOffsetProperty r); reflexivity. }
  assert (Hemail : In email fs) by (rewrite Hfs; now left).
  destruct (recipientCheckbox_checked r) eqn:Ec.
  - set (s0 := set_elem_attr email "required" "" st).
    destruct (enable_loop fs s0) as (Hr & Hd & Ho & Hz).
    exists (fold_left (fun s i => remove_elem_attr i "disabled" s) fs s0).
    split.
    { rewrite Hfs. cbn [on_field]. unfold bind, setAttribute, removeAttribute, modify.
      fold s0. destruct (recipientOffsetProperty r); reflexivity. }
    split; [exact Hr|]. split; [|split].
    + intros i Hi. rewrite (Hz i Hi). split; [now intros [? ?] | discriminate].
    + rewrite Ho by (left; discriminate). unfold s0.
      rewrite getAttribute_set_same by (now apply Hstore). split; eauto.
    + intros j a Hja. destruct (string_dec a "disabled") as [->|Had].
      * rewrite Ho by (right; destruct Hja as [H|[[H _]|[H _]]]; [exact H | congruence | discriminate]).
        unfold s0. apply getAttribute_set_other. right. discriminate.
      * rewrite Ho by now left. unfold s0. apply getAttribute_set_other.
        destruct Hja as [H|[[_ H]|[_ H]]]; [|right; congruence | left; congruence].
        destruct (string_dec a "required") as [->|Har]; [|right; congruence].
        left. intros <-. contradiction.
  - set (s0 := remove_elem_attr email "required" st).
    destruct (set_disabled_loop fs s0) as (Hr & Hd & Ho & Hz).
    exists (fold_left (fun s i => set_elem_attr i "disabled" "" s) fs s0).
    split.
    { rewrite Hfs. cbn [on_field]. unfold bind, setAttribute, removeAttribute, modify.
      fold s0. destruct (recipientOffsetProperty r); reflexivity. }
    split; [exact Hr|]. split; [|split].
    + intros i Hi. rewrite (Hz i Hi).
      * split; eauto.
      * unfold s0. apply elems_remove_elem_attr_dom. now apply Hstore.
    + rewrite Ho by (left; discriminate). unfold s0. rewrite getAttribute_remove_same.
      split; [now intros [? ?] | discriminate].
    + intros j a Hja. destruct (string_dec a "disabled") as [->|Had].
      * rewrite Ho by (right; destruct Hja as [H|[[H _]|[H _]]]; [exact H | congruence | discriminate]).
        unfold s0. apply getAttribute_remove_other. right. discriminate.
      * rewrite Ho by now left. unfold s0. apply getAttribute_remove_other.
        destruct Hja as [H|[[_ H]|[_ H]]]; [|right; congruence | left; congruence].
        destruct (string_dec a "required") as [->|Har]; [|right; congruence].
        left. intros <-. contradiction.
Qed.

Lemma synchronizeProperties_follows_checkbox_witness :
  let r := Recipient (Some 3) (Some 4) (Some 5) (Some 6) None true in
  exists st',
    synchronizeProperties r gift_card_page = Ok tt st'
    /\ roots st' = roots gift_card_page
    /\ (forall i, In i (recipient_fields r) ->
          is_Some (getAttribute st' i "disabled")
          <-> recipientCheckbox_checked r = false)
    /\ (is_Some (getAttribute st' 3 "required")
        <-> recipientCheckbox_checked r = true)
    /\ (forall j a,
          ~ In j (recipient_fields r) \/ (a <> "disabled" /\ a <> "required")
          \/ (a = "required" /\ j <> 3) ->
          getAttribute st' j a = getAttribute gift_card_page j a).
Proof.
  apply (synchronizeProperties_follows_checkbox
           (Recipient (Some 3) (Some 4) (Some 5) (Some 6) None true) 3 4 5 6
           gift_card_page); try reflexivity.
  intros i Hi. cbn in Hi. vm_compute.
  destruct Hi as [<-|[<-|[<-|[<-|[]]]]]; eauto.
Defined.

(** * Rate limiters *)

Section DebounceProofs.

Context {A : Type}.

Lemma advance_idle_queue (until : nat) (m : @Timing.machine A) :
  Timing.queue m = [] ->
  Timing.advance until m
  = Timing.Machine (Nat.max (Timing.clock m) until) [] (Timing.nextId m)
      (Timing.calls m) (Timing.timerId m) (Timing.tick m).
Proof.
  intros H. unfold Timing.advance. rewrite H. cbn [length Timing.fire_all].
  now rewrite H.
Qed.

(** One pending run of [fn]: it stays pending until its due time, and runs
    at that time. *)
Lemma advance_one_pending (until id due : nat) (a : A) (m : @Timing.machine A) :
  Timing.queue m = [(id, (due, Timing.RunFn a))] -> Timing.clock m <= due ->
  Timing.advance until m
  = if due <=? until
    then Timing.Machine (Nat.max due until) [] (Timing.nextId m)
           (Timing.calls m ++ [(due, a)]) (Timing.timerId m) (Timing.tick m)
    else Timing.Machine (Nat.max (Timing.clock m) until) [(id, (due, Timing.RunFn a))]
           (Timing.nextId m) (Timing.calls m) (Timing.timerId m) (Timing.tick m).
Proof.
  intros H Hc. unfold Timing.advance. rewrite H.
  cbn [length Timing.fire_all]. unfold Timing.fire_next. rewrite H.
  cbn [Timing.earliest_due fst snd].
  destruct (due <=? until) eqn:E.
  - cbn [List.filter fst]. rewrite Nat.eqb_refl. cbn [negb Timing.run_job].
    cbn [Timing.clock Timing.queue Timing.nextId Timing.calls Timing.timerId Timing.tick].
    now rewrite (Nat.max_r _ _ Hc).
  - now rewrite H.
Qed.

Lemma debounce_replaces_pending (wait id due : nat) (a b : A) (m : @Timing.machine A) :
  Timing.queue m = [(id, (due, Timing.RunFn b))] -> Timing.timerId m = Some id ->
  Timing.debounce wait a m
  = Timing.Machine (Timing.clock m)
      [(Timing.nextId m, (Timing.clock m + wait, Timing.RunFn a))]
      (S (Timing.nextId m)) (Timing.calls m) (Some (Timing.nextId m)) (Timing.tick m).
Proof.
  intros Hq Ht. unfold Timing.debounce, Timing.clearTimeout, Timing.setTimeout.
  rewrite Ht, Hq. cbn [List.filter fst]. rewrite Nat.eqb_refl. reflexivity.
Qed.

Lemma debounce_on_empty_queue (wait : nat) (a : A) (m : @Timing.machine A) :
  Timing.queue m = [] ->
  Timing.debounce wait a m
  = Timing.Machine (Timing.clock m)
      [(Timing.nextId m, (Timing.clock m + wait, Timing.RunFn a))]
      (S (Timing.nextId m)) (Timing.calls m) (Some (Timing.nextId m)) (Timing.tick m).
Proof.
  intros Hq. unfold Timing.debounce, Timing.clearTimeout, Timing.setTimeout.
  destruct (Timing.timerId m); cbn; rewrite Hq; reflexivity.
Qed.

Lemma armed_next_call (wait t t' : nat) (a a' : A) (L : list (nat * A)) (m : @Timing.machine A) :
  Timing.armed wait t a L m -> t <= t' -> t' <> t + wait ->
  Timing.armed wait t' a' (L ++ if t + wait <? t' then [(t + wait, a)] else [])
    (Timing.debounce wait a' (Timing.advance t' m)).
Proof.
  intros (Hc & HL & id & Hq & Ht) Hle Hne.
  rewrite (advance_one_pending t' id (t + wait) a m Hq) by lia.
  destruct (Nat.leb_spec (t + wait) t') as [Hd|Hd].
  - rewrite debounce_on_empty_queue by reflexivity.
    cbn [Timing.clock Timing.queue Timing.nextId Timing.calls Timing.timerId Timing.tick].
    replace (t + wait <? t') with true by (symmetry; apply Nat.ltb_lt; lia).
    unfold Timing.armed.
    cbn [Timing.clock Timing.queue Timing.nextId Timing.calls Timing.timerId Timing.tick].
    rewrite HL. replace (Nat.max (t + wait) t') with t' by lia. eauto.
  - rewrite (debounce_replaces_pending wait id (t + wait) a' a) by reflexivity || exact Ht.
    cbn [Timing.clock Timing.queue Timing.nextId Timing.calls Timing.timerId Timing.tick].
    replace (t + wait <? t') with false by (symmetry; apply Nat.ltb_ge; lia).
    unfold Timing.armed.
    cbn [Timing.clock Timing.queue Timing.nextId Timing.calls Timing.timerId Timing.tick].
    rewrite HL, app_nil_r, Hc. replace (Nat.max t t') with t' by lia. eauto.
Qed.

Lemma debounce_calls_armed (wait : nat) (rest : list (nat * A)) :
  forall t a L (m : @Timing.machine A),
    Timing.armed wait t a L m -> Timing.spaced wait t rest ->
    forall T, Timing.last_time t rest + wait <= T ->
    let m' := Timing.advance T (Timing.debounce_calls wait rest m) in
    Timing.calls m' = L ++ Timing.debounce_runs wait t a rest
    /\ Timing.queue m' = [].
Proof.
  induction rest as [|[t' a'] r IH]; intros t a L m Hm Hs T HT.
  - cbn [Timing.debounce_calls fold_left Timing.debounce_runs]. cbv zeta.
    destruct Hm as (Hc & HL & id & Hq & Ht). cbn [Timing.last_time] in HT.
    rewrite (advance_one_pending T id (t + wait) a m Hq) by lia.
    replace (t + wait <=? T) with true by (symmetry; apply Nat.leb_le; lia).
    cbn [Timing.calls Timing.queue]. now rewrite HL.
  - cbn [Timing.spaced] in Hs. destruct Hs as (Hle & Hne & Hs).
    cbn [Timing.last_time] in HT.
    unfold Timing.debounce_calls. cbn [fold_left fst snd].
    fold (Timing.debounce_calls wait r
            (Timing.debounce wait a' (Timing.advance t' m))).
    pose proof (armed_next_call wait t t' a a' L m Hm Hle Hne) as Hm'.
    destruct (IH t' a' _ _ Hm' Hs T HT) as [H1 H2]. cbv zeta.
    split; [|exact H2]. rewrite H1. cbn [Timing.debounce_runs]. now rewrite app_assoc.
Qed.

End DebounceProofs.

(** [debounce] (lines 318-324). For calls of the debounced function at
    non-decreasing times, on a machine on which nothing was pending, [fn]
    runs once for each call that is not followed by another call within
    [wait] ms: [wait] after that call, with the arguments of that call. A
    call followed by another one within [wait] never reaches [fn]. When all
    is done no timer is left. *)
Theorem debounce_runs_after_quiet_calls {A : Type} (wait t : nat) (a : A)
    (rest : list (nat * A)) (T : nat) :
  Timing.spaced wait t rest ->
  Timing.last_time t rest + wait <= T ->
  let m := Timing.advance T (Timing.debounce_calls wait ((t, a) :: rest) Timing.idle) in
  Timing.calls m = Timing.debounce_runs wait t a rest
  /\ Timing.queue m = [].
Proof.
  intros Hs HT.
  assert (Hm : Timing.armed wait t a [] (Timing.debounce wait a (Timing.advance t Timing.idle))).
  { rewrite advance_idle_queue by reflexivity.
    rewrite debounce_on_empty_queue by reflexivity.
    unfold Timing.armed. cbn. replace (Nat.max 0 t) with t by lia. eauto. }
  exact (debounce_calls_armed wait rest t a [] _ Hm Hs T HT).
Qed.

Lemma debounce_runs_after_quiet_calls_witness :
  let m := Timing.advance 2500
             (Timing.debounce_calls 700
                [(0, "a"); (100, "b"); (650, "c"); (1400, "d")] Timing.idle) in
  Timing.calls m = Timing.debounce_runs 700 0 "a" [(100, "b"); (650, "c"); (1400, "d")]
  /\ Timing.queue m = [].
Proof.
  apply (debounce_runs_after_quiet_calls 700 0 "a" [(100, "b"); (650, "c"); (1400, "d")]
           2500).
  - cbn. lia.
  - cbn. lia.
Defined.

(** A burst of calls, each less than [wait] ms after the one before it,
    runs [fn] once: [wait] ms after the last call, with the arguments of
    the last call. *)
Theorem debounce_burst_runs_once {A : Type} (wait t : nat) (a : A)
    (rest : list (nat * A)) (T : nat) :
  Timing.burst wait t rest ->
  Timing.last_time t rest + wait <= T ->
  Timing.calls (Timing.advance T
                  (Timing.debounce_calls wait ((t, a) :: rest) Timing.idle))
  = [(Timing.last_time t rest + wait, Timing.last_args a rest)].
Proof.
  intros Hb HT.
  assert (Hs : Timing.spaced wait t rest /\
               Timing.debounce_runs wait t a rest
               = [(Timing.last_time t rest + wait, Timing.last_args a rest)]).
  { clear HT. revert t a Hb. induction rest as [|[t' a'] r IH]; intros t a Hb.
    - split; [exact I | reflexivity].
    - destruct Hb as (H1 & H2 & H3). destruct (IH t' a' H3) as [IH1 IH2].
      split.
      + cbn [Timing.spaced]. split; [exact H1|]. split; [lia | exact IH1].
      + cbn [Timing.debounce_runs Timing.last_time Timing.last_args].
        replace (t + wait <? t') with false by (symmetry; apply Nat.ltb_ge; lia).
        exact IH2. }
  destruct Hs as [Hs Hr].
  destruct (debounce_runs_after_quiet_calls wait t a rest T Hs HT) as [H _].
  now rewrite H.
Qed.

Lemma debounce_burst_runs_once_witness :
  Timing.calls (Timing.advance 1500
                  (Timing.debounce_calls 700 [(0, "a"); (100, "b"); (650, "c")]
                     Timing.idle))
  = [(Timing.last_time 0 [(100, "b"); (650, "c")] + 700,
      Timing.last_args "a" [(100, "b"); (650, "c")])].
Proof.
  apply (debounce_burst_runs_once 700 0 "a" [(100, "b"); (650, "c")] 1500).
  - cbn. lia.
  - cbn. lia.
Defined.

Section ThrottleProofs.

Context {A : Type}.

Lemma earliest_due_In (q : list (nat * (nat * @Timing.job A))) (e : nat * (nat * @Timing.job A)) :
  Timing.earliest_due q = Some e -> In e q.
Proof.
  revert e. induction q as [|c r IH]; intros e H; cbn [Timing.earliest_due] in H;
    [discriminate|].
  destruct (Timing.earliest_due r) as [e'|].
  - destruct (fst (snd e') <? fst (snd c)); injection H as <-; [right; now apply IH | now left].
  - injection H as <-. now left.
Qed.

(** While no timer is due, time passes and nothing else happens. *)
Lemma advance_none_due (until : nat) (m : @Timing.machine A) :
  (forall e, In e (Timing.queue m) -> until < fst (snd e)) ->
  Timing.advance until m
  = Timing.Machine (Nat.max (Timing.clock m) until) (Timing.queue m) (Timing.nextId m)
      (Timing.calls m) (Timing.timerId m) (Timing.tick m).
Proof.
  intros H. unfold Timing.advance.
  assert (Hf : Timing.fire_all (length (Timing.queue m)) until m = m).
  { destruct (length (Timing.queue m)); [reflexivity|]. cbn [Timing.fire_all].
    unfold Timing.fire_next.
    destruct (Timing.earliest_due (Timing.queue m)) as [[id [due j]]|] eqn:E;
      [|reflexivity].
    apply earliest_due_In, H in E. cbn [fst snd] in E.
    replace (due <=? until) with false by (symmetry; apply Nat.leb_gt; lia).
    reflexivity. }
  now rewrite Hf.
Qed.

(** Two pending timers, both due: they run in the order of their due
    times, the older first among equals. *)
Lemma advance_two_due (until i1 d1 i2 d2 : nat) (j1 j2 : @Timing.job A)
    (m : @Timing.machine A) :
  Timing.queue m = [(i1, (d1, j1)); (i2, (d2, j2))] ->
  i1 <> i2 -> d1 <= d2 -> d2 <= until ->
  let m1 := Timing.run_job j1
              (Timing.Machine (Nat.max (Timing.clock m) d1) [(i2, (d2, j2))]
                 (Timing.nextId m) (Timing.calls m) (Timing.timerId m) (Timing.tick m)) in
  let m2 := Timing.run_job j2
              (Timing.Machine (Nat.max (Timing.clock m1) d2) [] (Timing.nextId m1)
                 (Timing.calls m1) (Timing.timerId m1) (Timing.tick m1)) in
  Timing.advance until m
  = Timing.Machine (Nat.max (Timing.clock m2) until) [] (Timing.nextId m2)
      (Timing.calls m2) (Timing.timerId m2) (Timing.tick m2).
Proof.
  intros Hq Hi Hd Hu. cbv zeta. unfold Timing.advance. rewrite Hq. cbn [length].
  match goal with
  | |- context [Timing.fire_all 2 until m] =>
      assert (Hf : Timing.fire_all 2 until m
                   = Timing.run_job j2
                       (Timing.Machine
                          (Nat.max (Timing.clock
                             (Timing.run_job j1
                                (Timing.Machine (Nat.max (Timing.clock m) d1)
                                   [(i2, (d2, j2))] (Timing.nextId m) (Timing.calls m)
                                   (Timing.timerId m) (Timing.tick m)))) d2)
                          []
                          (Timing.nextId (Timing.run_job j1
                                (Timing.Machine (Nat.max (Timing.clock m) d1)
                                   [(i2, (d2, j2))] (Timing.nextId m) (Timing.calls m)
                                   (Timing.timerId m) (Timing.tick m))))
                          (Timing.calls (Timing.run_job j1
                                (Timing.Machine (Nat.max (Timing.clock m) d1)
                                   [(i2, (d2, j2))] (Timing.nextId m) (Timing.calls m)
                                   (Timing.timerId m) (Timing.tick m))))
                          (Timing.timerId (Timing.run_job j1
                                (Timing.Machine (Nat.max (Timing.clock m) d1)
                                   [(i2, (d2, j2))] (Timing.nextId m) (Timing.calls m)
                                   (Timing.timerId m) (Timing.tick m))))
                          (Timing.tick (Timing.run_job j1
                                (Timing.Machine (Nat.max (Timing.clock m) d1)
                                   [(i2, (d2, j2))] (Timing.nextId m) (Timing.calls m)
                                   (Timing.timerId m) (Timing.tick m))))))
  end.
  { cbn [Timing.fire_all]. unfold Timing.fire_next at 1. rewrite Hq.
    cbn [Timing.earliest_due fst snd].
    replace (d2 <? d1) with false by (symmetry; apply Nat.ltb_ge; lia).
    replace (d1 <=? until) with true by (symmetry; apply Nat.leb_le; lia).
    cbn [List.filter fst]. rewrite Nat.eqb_refl.
    replace (i2 =? i1) with false by (symmetry; apply Nat.eqb_neq; congruence).
    cbn [negb].
    destruct j1; cbn [Timing.run_job]; unfold Timing.fire_next;
      cbn [Timing.queue Timing.earliest_due fst snd Timing.clock Timing.nextId
           Timing.calls Timing.timerId Timing.tick];
      replace (d2 <=? until) with true by (symmetry; apply Nat.leb_le; lia);
      cbn [List.filter fst]; rewrite Nat.eqb_refl; cbn [negb]; reflexivity. }
  rewrite Hf. destruct j1, j2; reflexivity.
Qed.

End ThrottleProofs.

Lemma throttling_next_call (wait t1 t t' : nat) (m : @Timing.machine unit) :
  Timing.throttling wait t1 t m -> t <= t' -> t' < t1 + wait ->
  Timing.throttling wait t1 t' (Timing.throttle wait (Timing.advance t' m)).
Proof.
  intros (Hc & HL & Hk & H1 & H2 & id & u & Ht & Hne & Hid & Hu & Hq) Hle Hlt.
  assert (Hadv : Timing.advance t' m
                 = Timing.Machine t' (Timing.queue m) (Timing.nextId m)
                     (Timing.calls m) (Timing.timerId m) (Timing.tick m)).
  { rewrite advance_none_due.
    - rewrite Hc. now replace (Nat.max t t') with t' by lia.
    - intros e He. destruct Hq as [[-> Hq]|Hq]; rewrite Hq in He;
        destruct He as [<-|[<-|[]]]; cbn [fst snd]; lia. }
  rewrite Hadv. unfold Timing.throttle.
  cbn [Timing.timerId Timing.clock Timing.queue Timing.nextId Timing.calls Timing.tick
       Timing.clearTimeout Timing.setTimeout]. rewrite Ht.
  assert (Hf : List.filter (fun e : nat * (nat * @Timing.job unit) => negb (fst e =? id))
                 (Timing.queue m) = [(u, (t1 + wait, Timing.Untick))]).
  { destruct Hq as [[_ Hq]|Hq]; rewrite Hq; cbn [List.filter fst];
      rewrite Nat.eqb_refl;
      replace (u =? id) with false by (symmetry; apply Nat.eqb_neq; congruence);
      reflexivity. }
  cbn [Timing.clearTimeout Timing.queue Timing.clock Timing.nextId Timing.calls
       Timing.timerId Timing.tick]. rewrite Hf, Hk.
  cbn [Timing.tick app]. unfold Timing.throttling.
  cbn [Timing.timerId Timing.clock Timing.queue Timing.nextId Timing.calls Timing.tick].
  split; [reflexivity|]. split; [exact HL|]. split; [reflexivity|].
  split; [lia|]. split; [lia|].
  exists (Timing.nextId m), u. split; [reflexivity|]. split; [lia|]. split; [lia|].
  split; [lia|]. now right.
Qed.

Lemma throttle_calls_throttling (wait t1 : nat) (rest : list nat) :
  forall t (m : @Timing.machine unit),
    Timing.throttling wait t1 t m -> Timing.within wait t1 t rest ->
    Timing.throttling wait t1 (Timing.last_of t rest) (Timing.throttle_calls wait rest m).
Proof.
  induction rest as [|t' r IH]; intros t m Hm Hw; [exact Hm|].
  destruct Hw as (H1 & H2 & H3). cbn [Timing.last_of].
  unfold Timing.throttle_calls. cbn [fold_left].
  apply (IH t'); [|exact H3]. now apply (throttling_next_call wait t1 t).
Qed.

(** [throttle] (lines 1113-1129). A call of the throttled function on an
    idle machine runs [fn] at once; further calls less than [wait] ms after
    it do not. [wait] ms after the last call [fn] runs a second time: one
    call alone runs [fn] twice, at the call and [wait] ms later. After that
    [tick] is false again and no timer is left. *)
Theorem throttle_runs_at_both_ends (wait t1 : nat) (rest : list nat) (T : nat) :
  Timing.within wait t1 t1 rest ->
  Timing.last_of t1 rest + wait <= T ->
  let m := Timing.advance T (Timing.throttle_calls wait (t1 :: rest) Timing.idle) in
  Timing.calls m = [(t1, tt); (Timing.last_of t1 rest + wait, tt)]
  /\ Timing.tick m = false /\ Timing.queue m = [].
Proof.
  intros Hw HT.
  assert (H1 : Timing.throttling wait t1 t1
                 (Timing.throttle wait (Timing.advance t1 Timing.idle))).
  { rewrite advance_none_due by (intros e []).
    unfold Timing.throttle, Timing.throttling. cbn.
    replace (Nat.max 0 t1) with t1 by lia. rewrite Nat.eqb_refl. cbn.
    split; [reflexivity|]. split; [reflexivity|]. split; [reflexivity|].
    split; [lia|]. split; [lia|].
    exists 1, 2. split; [reflexivity|]. split; [lia|]. split; [lia|]. split; [lia|].
    left. split; reflexivity. }
  pose proof (throttle_calls_throttling wait t1 rest t1 _ H1 Hw) as H.
  unfold Timing.throttle_calls in *. cbn [fold_left].
  set (m := fold_left _ rest _) in *. set (t := Timing.last_of t1 rest) in *.
  destruct H as (Hc & HL & Hk & Hle & Hlt & id & u & Ht & Hne & Hid & Hu & Hq).
  cbv zeta. destruct Hq as [[Heq Hq]|Hq].
  - rewrite (advance_two_due T id (t + wait) u (t1 + wait) _ _ m Hq) by lia.
    cbn [Timing.run_job Timing.clock Timing.queue Timing.nextId Timing.calls
         Timing.timerId Timing.tick].
    rewrite HL, Hc. replace (Nat.max t (t + wait)) with (t + wait) by lia.
    rewrite Heq. repeat split.
  - rewrite (advance_two_due T u (t1 + wait) id (t + wait) _ _ m Hq) by lia.
    cbn [Timing.run_job Timing.clock Timing.queue Timing.nextId Timing.calls
         Timing.timerId Timing.tick].
    rewrite HL, Hc.
    replace (Nat.max (Nat.max t (t1 + wait)) (t + wait)) with (t + wait) by lia.
    repeat split.
Qed.

Lemma throttle_runs_at_both_ends_witness :
  let m := Timing.advance 1000 (Timing.throttle_calls 200 [0; 50; 120] Timing.idle) in
  Timing.calls m = [(0, tt); (Timing.last_of 0 [50; 120] + 200, tt)]
  /\ Timing.tick m = false /\ Timing.queue m = [].
Proof.
  apply (throttle_runs_at_both_ends 200 0 [50; 120] 1000).
  - cbn. lia.
  - cbn. lia.
Defined.

(** * The order of the merged list *)

Lemma insertAdjacentElement_store (target : nat) (pos : where_) (el : nat)
    (st si : state) :
  insertAdjacentElement target pos el st = Ok tt si ->
  elems si = elems st /\ next si = next st.
Proof.
  unfold insertAdjacentElement. intros H.
  destruct pos;
    repeat match type of H with
           | match ?x with _ => _ end = _ => destruct x
           | (if ?x then _ else _) = _ => destruct x
           end; try discriminate; injection H as <-; split; reflexivity.
Qed.

Lemma insertAndReveal_keeps_keys (B : browser) (el : nat) (target : option nat)
    (pos : where_) (d : float) (st st' : state) :
  store_lt st -> insertAndReveal B el target pos d st = Ok tt st' ->
  store_lt st'
  /\ forall j, is_Some (elems st !! j) ->
       is_Some (elems st' !! j) /\ item_key st' j = item_key st j.
Proof.
  intros Hlt H. unfold insertAndReveal in H.
  unfold bind at 1, classList_add at 1, modify at 1 in H.
  destruct target as [t|]; [|discriminate].
  unfold bind at 1 in H.
  destruct (insertAdjacentElement t pos el _) as [[] si|si] eqn:Ei; [|discriminate].
  apply insertAdjacentElement_store in Ei as [HE Hn].
  rewrite bind_gets in H. destruct (firstElementChild el si) as [c|]; [|discriminate].
  rewrite bind_gets in H. unfold bind at 1, style_set at 1, modify at 1 in H.
  rewrite !bind_gets in H. unfold setTimeout, modify in H. injection H as <-.
  set (s0 := set_elem_attr el "class" (class_add "merge-add-wrapper" (class_attr st el)) st)
    in *.
  set (v := style_with B _ _ _) in *.
  assert (Hel : elems (set_elem_attr el "style" v si)
                = elems (set_elem_attr el "style" v s0)).
  { unfold set_elem_attr. cbn [elems with_elems]. now rewrite HE. }
  split.
  - intros j Hj. cbn [elems next] in *.
    change (is_Some (elems (set_elem_attr el "style" v si) !! j)) in Hj.
    rewrite Hel in Hj. rewrite Hn. unfold s0. cbn [next set_elem_attr with_elems].
    apply Hlt. now apply elems_set_elem_attr_dom, elems_set_elem_attr_dom in Hj.
  - intros j Hj.
    change (is_Some (elems (set_elem_attr el "style" v si) !! j)
            /\ get_attr "data-merge-list-item"
                 (match elems (set_elem_attr el "style" v si) !! j with
                  | Some e => attrs e
                  | None => []
                  end)
               = item_key st j).
    rewrite Hel. split.
    + now apply elems_set_elem_attr_dom, elems_set_elem_attr_dom.
    + change (getAttribute (set_elem_attr el "style" v s0) j "data-merge-list-item"
              = getAttribute st j "data-merge-list-item").
      rewrite getAttribute_set_other by (right; discriminate).
      unfold s0. now rewrite getAttribute_set_other by (right; discriminate).
Qed.

(** A turn of the list loop that completes keeps every element there is,
    and its key. *)
Lemma list_step_keeps_keys (B : browser) (tl i y : nat) (tr tr' : list nat)
    (st st' : state) :
  store_lt st -> (forall x, In x tr -> is_Some (elems st !! x)) ->
  list_step B tl i y tr st = Ok tr' st' ->
  store_lt st'
  /\ forall j, is_Some (elems st !! j) ->
       is_Some (elems st' !! j) /\ item_key st' j = item_key st j.
Proof.
  intros Hlt Htr H. unfold list_step in H. rewrite bind_gets in H.
  destruct (find_by_key y tr st) as [m|] eqn:Ef.
  - assert (Hm : is_Some (elems st !! m)).
    { apply Htr. unfold find_by_key in Ef. now apply List.find_some in Ef as [Ef _]. }
    rewrite !bind_gets in H.
    destruct (needs_replace _ _).
    + destruct (set_innerHTML_from_spec B m y st Hlt)
        as (s1 & E1 & _ & Hsame & _ & Hlt1 & Hnx & _).
      unfold bind at 1 in H. unfold bind at 1 in H. rewrite E1 in H.
      assert (Hj1 : forall j, is_Some (elems st !! j) ->
                 is_Some (elems s1 !! j) /\ item_key s1 j = item_key st j).
      { intros j Hj. pose proof (Hlt j Hj) as Hjn.
        unfold item_key, getAttribute, attrs_of. rewrite (Hsame j Hjn). auto. }
      destruct (truthy _).
      * cbn in H. injection H as <- <-. split.
        -- intros j Hj. apply elems_set_elem_attr_dom in Hj. now apply Hlt1.
        -- intros j Hj. destruct (Hj1 j Hj) as [H1 H2]. split.
           ++ now apply elems_set_elem_attr_dom.
           ++ unfold item_key in *. rewrite getAttribute_set_other by (right; discriminate).
              exact H2.
      * cbn in H. injection H as <- <-. split; [exact Hlt1 | exact Hj1].
    + cbn in H. injection H as <- <-. split; [exact Hlt | auto].
  - unfold bind at 1 in H.
    destruct (i =? 0).
    + destruct (insertAndReveal B y (Some tl) AfterBegin 500 st) as [[] s1|s1] eqn:E1;
        [|discriminate].
      cbn in H. injection H as <- <-. exact (insertAndReveal_keeps_keys B y _ _ _ st s1 Hlt E1).
    + destruct (length tr <=? i).
      * destruct (insertAndReveal B y (Some tl) BeforeEnd 500 st) as [[] s1|s1] eqn:E1;
          [|discriminate].
        cbn in H. injection H as <- <-. exact (insertAndReveal_keeps_keys B y _ _ _ st s1 Hlt E1).
      * destruct (insertAndReveal B y (tr !! i) BeforeBegin 500 st) as [[] s1|s1] eqn:E1;
          [|discriminate].
        cbn in H. injection H as <- <-. exact (insertAndReveal_keeps_keys B y _ _ _ st s1 Hlt E1).
Qed.

Lemma find_by_key_present_at (st : state) (y : nat) (tr : list nat)
    (D R : list (option string)) :
  map (item_key st) tr = D ++ item_key st y :: R -> ~ In (item_key st y) D ->
  exists m, find_by_key y tr st = Some m.
Proof.
  intros H HD. unfold find_by_key.
  destruct (List.find _ tr) as [m|] eqn:E; [eauto|]. exfalso.
  assert (Hin : In (item_key st y) (map (item_key st) tr)).
  { rewrite H. apply in_app_iff. right. now left. }
  apply in_map_iff in Hin as (x & Hx & Hxin).
  pose proof (List.find_none _ _ E x Hxin) as Hn. cbv beta in Hn.
  unfold item_key in Hx. rewrite Hx in Hn.
  now rewrite (proj2 (opt_str_eqb_eq _ _) eq_refl) in Hn.
Qed.

Lemma find_by_key_absent (st : state) (y : nat) (tr : list nat) :
  ~ In (item_key st y) (map (item_key st) tr) -> find_by_key y tr st = None.
Proof.
  intros H. unfold find_by_key.
  destruct (List.find _ tr) as [m|] eqn:E; [|reflexivity]. exfalso.
  apply List.find_some in E as [Hm Hk]. apply opt_str_eqb_eq in Hk.
  apply H. apply in_map_iff. exists m. split; [exact Hk | exact Hm].
Qed.

Lemma list_step_result (B : browser) (tl i y : nat) (tr tr' : list nat)
    (st st' : state) :
  list_step B tl i y tr st = Ok tr' st' ->
  tr' = match find_by_key y tr st with
        | Some _ => tr
        | None => take i tr ++ y :: drop i tr
        end.
Proof.
  unfold list_step. rewrite bind_gets. destruct (find_by_key y tr st) as [m|].
  - rewrite !bind_gets. unfold bind at 1.
    match goal with
    | |- match ?m with _ => _ end = _ -> _ => destruct m as [[] s|s]
    end; [|discriminate].
    cbn. now intros [= <- _].
  - unfold bind at 1.
    match goal with
    | |- match ?m with _ => _ end = _ -> _ => destruct m as [[] s|s]
    end; [|discriminate].
    cbn. now intros [= <- _].
Qed.

Lemma map_take_drop {X Y} (h : X -> Y) (i : nat) (l : list X) (D R : list Y) :
  map h l = D ++ R -> length D = i ->
  map h (take i l) = D /\ map h (drop i l) = R.
Proof.
  revert i l. induction D as [|d D IH]; intros i l H Hi; cbn [length] in Hi; subst i.
  - now rewrite take_0, drop_0.
  - destruct l as [|x l]; [discriminate|]. cbn [map app] in H. injection H as <- H.
    destruct (IH (length D) l H eq_refl) as [H1 H2]. cbn [take drop map]. now rewrite H1.
Qed.

Lemma keys_in_sound (K l : list (option string)) (k : option string) :
  In k (keys_in K l) -> existsb (opt_str_eqb k) K = true.
Proof. intros H. now apply filter_In in H as [_ H]. Qed.

Lemma list_loop_keys (B : browser) (tl : nat) (K0 : list (option string))
    (news : list nat) :
  forall D tr st i tr' st',
    store_lt st ->
    (forall x, In x (tr ++ news) -> is_Some (elems st !! x)) ->
    map (item_key st) tr = D ++ keys_in K0 (map (item_key st) news) ->
    NoDup (D ++ map (item_key st) news) -> length D = i ->
    list_loop B tl news i tr st = Ok tr' st' ->
    map (item_key st') tr' = D ++ map (item_key st) news.
Proof.
  induction news as [|y rest IH]; intros D tr st i tr' st' Hlt Hs HK HN Hi H.
  - cbn in H. injection H as <- <-. cbn [map keys_in List.filter] in *. exact HK.
  - cbn [list_loop] in H. unfold bind at 1 in H.
    destruct (list_step B tl i y tr st) as [tr1 s1|s1] eqn:E1; [|discriminate].
    destruct (list_step_keeps_keys B tl i y tr tr1 st s1 Hlt) as [Hlt1 Hk1]; [|exact E1|].
    { intros x Hx. apply Hs, in_app_iff. now left. }
    pose proof (list_step_result B tl i y tr tr1 st s1 E1) as Htr1.
    set (ky := item_key st y) in *. cbn [map] in HN, HK. fold ky in HN, HK.
    assert (HnD : ~ In ky D).
    { apply NoDup_app in HN as (_ & HN & _). intros Hin.
      apply (HN ky); [now apply list_elem_of_In | apply list_elem_of_In; now left]. }
    assert (Hrest : forall x, In x rest -> item_key s1 x = item_key st x)
      by (intros x Hx; apply Hk1, Hs, in_app_iff; right; now right).
    assert (Hmrest : map (item_key s1) rest = map (item_key st) rest)
      by (apply map_ext_in; exact Hrest).
    assert (Hgoal : map (item_key s1) tr1
                    = (D ++ [ky]) ++ keys_in K0 (map (item_key s1) rest)
                    -> map (item_key st') tr' = D ++ ky :: map (item_key st) rest).
    { intros HK1. rewrite Hmrest in HK1.
      assert (Hs1 : forall x, In x (tr1 ++ rest) -> is_Some (elems s1 !! x)).
      { intros x Hx. apply in_app_iff in Hx as [Hx|Hx].
        - apply Hk1. rewrite Htr1 in Hx. destruct (find_by_key y tr st).
          + apply Hs, in_app_iff. now left.
          + apply in_app_iff in Hx as [Hx|[<-|Hx]].
            * apply Hs, in_app_iff. left. apply list_elem_of_In.
              apply (subseteq_take i tr). now apply list_elem_of_In.
            * apply Hs, in_app_iff. right. now left.
            * apply Hs, in_app_iff. left. apply list_elem_of_In.
              apply (subseteq_drop i tr). now apply list_elem_of_In.
        - apply Hk1, Hs, in_app_iff. right. now right. }
      rewrite <- Hmrest in HK1.
      rewrite (IH (D ++ [ky]) tr1 s1 (S i) tr' st' Hlt1 Hs1 HK1).
      + rewrite Hmrest, <- app_assoc. reflexivity.
      + rewrite Hmrest, <- app_assoc. exact HN.
      + rewrite length_app. cbn. lia.
      + exact H. }
    apply Hgoal. rewrite Hmrest.
    assert (Htr : map (item_key s1) tr = map (item_key st) tr).
    { apply map_ext_in. intros x Hx. apply Hk1, Hs, in_app_iff. now left. }
    unfold keys_in in HK. cbn [List.filter] in HK. fold (keys_in K0 (map (item_key st) rest)) in HK.
    destruct (existsb (opt_str_eqb ky) K0) eqn:EK.
    + destruct (find_by_key_present_at st y tr D _ HK HnD) as [m Hm].
      rewrite Hm in Htr1. subst tr1. rewrite Htr, HK, <- app_assoc. reflexivity.
    + rewrite (find_by_key_absent st y tr) in Htr1.
      * subst tr1. destruct (map_take_drop (item_key st) i tr D _ HK Hi) as [H1 H2].
        rewrite map_app. cbn [map].
        assert (Hy : item_key s1 y = ky) by (apply Hk1, Hs, in_app_iff; right; now left).
        rewrite Hy.
        assert (Ht1 : map (item_key s1) (take i tr) = map (item_key st) (take i tr)).
        { apply map_ext_in. intros x Hx. apply Hk1, Hs, in_app_iff. left.
          apply list_elem_of_In. apply (subseteq_take i tr). now apply list_elem_of_In. }
        assert (Ht2 : map (item_key s1) (drop i tr) = map (item_key st) (drop i tr)).
        { apply map_ext_in. intros x Hx. apply Hk1, Hs, in_app_iff. left.
          apply list_elem_of_In. apply (subseteq_drop i tr). now apply list_elem_of_In. }
        rewrite Ht1, Ht2, H1, H2, <- app_assoc. reflexivity.
      * rewrite HK. intros Hin. apply in_app_iff in Hin as [Hin|Hin]; [contradiction|].
        apply keys_in_sound in Hin. fold ky in Hin. rewrite EK in Hin. discriminate.
Qed.

(** The loop of the list differ (lines 208-237) lines the tracked sequence
    up with the new items. When the new keys are distinct and the current
    old items are, in their order, what the new items with an old key are
    (the removal pass has taken the others out, and the differ never moves
    a matched item), a loop that completes ends with a tracked sequence
    that has, position by position, the keys of the new items. *)
Theorem list_loop_lines_up_with_new_items (B : browser) (tl : nat)
    (news tracked tracked' : list nat) (st st' : state) :
  store_lt st ->
  (forall x, In x (tracked ++ news) -> is_Some (elems st !! x)) ->
  NoDup (map (item_key st) news) ->
  map (item_key st) tracked
  = keys_in (map (item_key st) tracked) (map (item_key st) news) ->
  list_loop B tl news 0 tracked st = Ok tracked' st' ->
  map (item_key st') tracked' = map (item_key st) news.
Proof.
  intros Hlt Hs HN HK H.
  exact (list_loop_keys B tl _ news [] tracked st 0 tracked' st' Hlt Hs HK HN eq_refl H).
Qed.

Lemma list_loop_lines_up_with_new_items_witness :
  map (item_key (result_state (list_loop plain_browser 2 [103; 107; 105] 0 [3; 5]
                                 insert_page))) [3; 107; 5]
  = map (item_key insert_page) [103; 107; 105].
Proof.
  apply (list_loop_lines_up_with_new_items plain_browser 2 [103; 107; 105] [3; 5]
           [3; 107; 5] insert_page).
  - apply wf_store_lt, wfb_wf. vm_compute. reflexivity.
  - intros x Hx. cbn in Hx. vm_compute.
    destruct Hx as [<-|[<-|[<-|[<-|[<-|[]]]]]]; eauto.
  - apply (bool_decide_eq_true_1 (NoDup (map (item_key insert_page) [103; 107; 105]))).
    vm_compute. reflexivity.
  - vm_compute. reflexivity.
  - vm_compute. reflexivity.
Defined.

(** * The URLs of the filter form *)

Lemma fold_params (vals : list (string * string)) (url : string) :
  fold_left (fun newUrl value => newUrl +:+ "&" +:+ fst value +:+ "=" +:+ snd value)
    vals url
  = url +:+ more_params vals.
Proof.
  revert url. induction vals as [|p r IH]; intros url; cbn [fold_left more_params fold_right].
  - now rewrite app_str_nil_r.
  - rewrite IH. fold (more_params r). now rewrite !app_str_assoc.
Qed.

Lemma replace_first_amp_skip (a b : string) :
  no_char "&" a = true -> replace_first_amp (a +:+ b) = a +:+ replace_first_amp b.
Proof.
  induction a as [|c a IH]; [reflexivity|]. cbn [no_char]. intros H.
  apply andb_true_iff in H as [Hc Ha]. rewrite !app_str_cons. cbn [replace_first_amp].
  apply negb_true_iff in Hc. rewrite Hc. now rewrite IH.
Qed.

Lemma has_question_app (a b : string) :
  has_question (a +:+ b) = has_question a || has_question b.
Proof.
  induction a as [|c a IH]; [reflexivity|]. rewrite app_str_cons. cbn [has_question].
  now rewrite IH, orb_assoc.
Qed.

Lemma has_question_no_char (a : string) : has_question a = negb (no_char "?" a).
Proof.
  induction a as [|c a IH]; [reflexivity|]. cbn [has_question no_char]. rewrite IH.
  destruct (Ascii.eqb c "?"); reflexivity.
Qed.

(** [ajaxLoadForm] (lines 1286-1304), for a path without ampersand: the
    URL is the path followed by the query string of the active inputs, in
    document order, each as [name=encoded value]; inputs without value and
    unchecked checkboxes and radio buttons do not appear, and with no
    active input the URL is the path alone. *)
Theorem ajaxLoadForm_builds_query_string (enc : string -> string) (pathname : string)
    (inputs : list form_input) :
  no_char "&" pathname = true ->
  ajaxLoadForm enc pathname inputs
  = pathname +:+ query_string (queryVals enc inputs).
Proof.
  intros H. unfold ajaxLoadForm. rewrite fold_params.
  rewrite replace_first_amp_skip by exact H.
  destruct (queryVals enc inputs) as [|p r]; reflexivity.
Qed.

(** With an ampersand in the path, [ajaxLoadForm] puts the question mark in
    the place of that ampersand: the path is cut there, and every parameter
    is attached with [&]. *)
Theorem ajaxLoadForm_ampersand_in_path (enc : string -> string) (pre post : string)
    (inputs : list form_input) :
  no_char "&" pre = true ->
  ajaxLoadForm enc (pre +:+ "&" +:+ post) inputs
  = pre +:+ "?" +:+ post +:+ more_params (queryVals enc inputs).
Proof.
  intros H. unfold ajaxLoadForm. rewrite fold_params, !app_str_assoc.
  rewrite replace_first_amp_skip by exact H. reflexivity.
Qed.

Lemma has_question_lead (s : string) : has_question ("?" +:+ s) = true.
Proof. reflexivity. Qed.

Lemma more_params_app (a b : list (string * string)) :
  more_params (a ++ b) = more_params a +:+ more_params b.
Proof.
  induction a as [|p a IH]; [reflexivity|]. cbn [app more_params fold_right].
  fold (more_params (a ++ b)). fold (more_params a). now rewrite IH, !app_str_assoc.
Qed.

(** The URL that is fetched after [ajaxLoadForm] (lines 1324-1328), for a
    path without ampersand and question mark and a section id: the section
    id is one more parameter of the query string, attached with [?] when no
    input is active and with [&] otherwise. Without section id the URL is
    fetched as it is. *)
Theorem fetchUrl_adds_section_parameter (enc : string -> string) (pathname id : string)
    (inputs : list form_input) :
  no_char "&" pathname = true -> no_char "?" pathname = true -> id <> "" ->
  fetchUrl (Some id) (ajaxLoadForm enc pathname inputs)
  = pathname +:+ query_string (queryVals enc inputs ++ [("section_id", id)])
  /\ fetchUrl None (ajaxLoadForm enc pathname inputs)
     = ajaxLoadForm enc pathname inputs.
Proof.
  intros Ha Hq Hid. split; [|reflexivity].
  rewrite (ajaxLoadForm_builds_query_string enc pathname inputs Ha).
  unfold fetchUrl. cbn [truthy js_to_string].
  rewrite (proj2 (str_eqb_neq id "") Hid). cbn [negb].
  rewrite has_question_app, has_question_no_char, Hq. cbn [negb orb].
  rewrite app_str_assoc. f_equal.
  destruct (queryVals enc inputs) as [|p r].
  - cbn [query_string app more_params fold_right has_question].
    now rewrite !app_str_nil_r.
  - cbn [query_string app]. rewrite has_question_lead, more_params_app.
    cbn [more_params fold_right fst snd]. now rewrite !app_str_assoc, !app_str_nil_r.
Qed.

Lemma ajaxLoadForm_builds_query_string_witness :
  ajaxLoadForm id "/collections/all"
    [FormInput "checkbox" true "filter.v.availability" "1";
     FormInput "checkbox" false "filter.p.vendor" "acme";
     FormInput "text" false "filter.v.price.gte" "";
     FormInput "select-one" false "sort_by" "price-ascending"]
  = "/collections/all"
    +:+ query_string
          (queryVals id
             [FormInput "checkbox" true "filter.v.availability" "1";
              FormInput "checkbox" false "filter.p.vendor" "acme";
              FormInput "text" false "filter.v.price.gte" "";
              FormInput "select-one" false "sort_by" "price-ascending"]).
Proof.
  apply (ajaxLoadForm_builds_query_string id "/collections/all"). reflexivity.
Defined.

Lemma ajaxLoadForm_ampersand_in_path_witness :
  ajaxLoadForm id ("/collections/this" +:+ "&" +:+ "that")
    [FormInput "checkbox" true "filter.v.availability" "1"]
  = "/collections/this" +:+ "?" +:+ "that"
    +:+ more_params (queryVals id [FormInput "checkbox" true "filter.v.availability" "1"]).
Proof.
  apply (ajaxLoadForm_ampersand_in_path id "/collections/this" "that"). reflexivity.
Defined.

Lemma fetchUrl_adds_section_parameter_witness :
  fetchUrl (Some "template--1__main")
    (ajaxLoadForm id "/collections/all"
       [FormInput "checkbox" true "filter.v.availability" "1"])
  = "/collections/all"
    +:+ query_string
          (queryVals id [FormInput "checkbox" true "filter.v.availability" "1"]
           ++ [("section_id", "template--1__main")])
  /\ fetchUrl None
       (ajaxLoadForm id "/collections/all"
          [FormInput "checkbox" true "filter.v.availability" "1"])
     = ajaxLoadForm id "/collections/all"
         [FormInput "checkbox" true "filter.v.availability" "1"].
Proof.
  apply (fetchUrl_adds_section_parameter id "/collections/all" "template--1__main").
  - reflexivity.
  - reflexivity.
  - discriminate.
Defined.

(** * An item that is in removal already *)

(** The removal pass selects the old items by [data-merge-list-item] alone
    (line 193) and does not look at [merge-remove-item]: an item that is in
    removal already, and has no match among the new items, goes through
    [hideAndRemove] again. It gets a second wrapper, inside the first one,
    and a second detach sequence is started while the first is still
    pending. *)
Theorem remove_step_wraps_item_in_removal_again (B : browser) (news : list nat)
    (x : nat) (st : state) :
  wf st -> detaching st x -> find_by_key x news st = None ->
  exists st' w,
    remove_step B news x st = Ok tt st'
    /\ parentNode x st = Some w
    /\ parentNode x st' = Some (next st)
    /\ parentNode (next st) st' = Some w
    /\ has_class st' (next st) "merge-remove-wrapper" = true
    /\ (forall t, In t (timers st) -> In t (timers st'))
    /\ exists fade slide, In (now st + 10, RemoveFade (next st) fade slide) (timers st').
Proof.
  intros Hwf (Hc & w & Hp & _) Hf.
  pose proof (wf_store_lt st Hwf) as Hlt.
  destruct Hwf as (HN & Hfresh & _).
  assert (Hwf' : ~ In (next st) (forest_ids (roots st))).
  { intros H. apply Hfresh in H. lia. }
  assert (Hel : x <> next st).
  { unfold parentNode in Hp. apply parent_of_Some in Hp as [Hp _]. congruence. }
  destruct (hidden_state_frame B x st) as (Hr1 & _ & _ & _ & s & Ht1).
  exists (hidden_state B x st), w.
  split.
  { unfold remove_step. rewrite bind_gets, Hf. now apply (hideAndRemove_unfold B x w). }
  split; [exact Hp|]. split; [|split; [|split; [|split]]].
  - unfold parentNode in *. rewrite Hr1. apply wrap_parent; [congruence|].
    now apply parent_of_Some in Hp.
  - unfold parentNode in *. rewrite Hr1. apply wrap_wrapper_parent; auto.
    now apply (inner_not_root x w).
  - rewrite has_class_getAttribute, hidden_state_class_wrapper by exact Hel. reflexivity.
  - intros t Ht. rewrite Ht1. apply in_app_iff. now left.
  - eexists _, _. rewrite Ht1. apply in_app_iff. right. now left.
Qed.

Lemma remove_step_wraps_item_in_removal_again_witness :
  exists st' w,
    remove_step plain_browser [103] 3 removing_page = Ok tt st'
    /\ parentNode 3 removing_page = Some w
    /\ parentNode 3 st' = Some (next removing_page)
    /\ parentNode (next removing_page) st' = Some w
    /\ has_class st' (next removing_page) "merge-remove-wrapper" = true
    /\ (forall t, In t (timers removing_page) -> In t (timers st'))
    /\ exists fade slide,
         In (now removing_page + 10, RemoveFade (next removing_page) fade slide)
            (timers st').
Proof.
  apply (remove_step_wraps_item_in_removal_again plain_browser [103] 3 removing_page).
  - apply wfb_wf. vm_compute. reflexivity.
  - split; [vm_compute; reflexivity|]. exists 9.
    split; [vm_compute; reflexivity|]. split; [vm_compute; reflexivity|].
    exists 50, nan, nan. now left.
  - vm_compute. reflexivity.
Defined.
